(** * Snapshot state synchronizer (eth/protocols/snap/sync.go)

    A shallow embedding of the coordination core of the snap syncer: the
    peer registry, the task chunker and progress store, the request
    assigners, the revert protocol, the delivery callbacks and the response
    integrators, followed by the properties of the specification that are
    checked against them.

    Conventions of the embedding.
    - A [common.Hash] is the big integer it denotes, a [Z] in [0, 2^256).
    - Go pointers ([*accountTask], [*storageTask], [*healTask] and the five
      request structs) are addresses into an explicit memory ([Heap]); two
      pointers are equal when the addresses are.
    - Go maps are [gmap]s and [gset]s.  The order in which [range] visits a
      map is not specified by Go, so every loop over a map takes the visiting
      order as an argument.
    - A Go panic (index out of range, nil dereference, an explicit [panic])
      is the [Panic] outcome of [result].
    - Logging, metrics and the progress report are left out. *)

From Stdlib Require Import ZArith Lia Bool Ascii String.
From stdpp Require Import gmap strings list fin_maps.

Open Scope Z_scope.

(** ** Outcomes *)

(** [Ok]: the call returns.  [Panic]: the goroutine panics.  [Spin]: a
    retry loop never gets a usable value from the random source it draws
    from (only the request id allocation loops can do that). *)
Inductive result (A : Type) : Type :=
  | Ok (a : A)
  | Panic (why : string)
  | Spin.
Arguments Ok {A} a.
Arguments Panic {A} why.
Arguments Spin {A}.

Definition rbind {A B : Type} (m : result A) (k : A → result B) : result B :=
  match m with
  | Ok a => k a
  | Panic w => Panic w
  | Spin => Spin
  end.

Notation "'let*' x ':=' m 'in' k" := (rbind m (fun x => k))
  (at level 10, x pattern, m at level 100, k at level 200).

(** Dereferencing: a pointer that is not allocated is Go's nil. *)
Definition deref {A : Type} (h : gmap positive A) (p : positive) : result A :=
  match h !! p with
  | Some a => Ok a
  | None => Panic "nil pointer dereference"
  end.

(** Indexing a slice: out of range panics. *)
Definition index {A : Type} (l : list A) (i : nat) : result A :=
  match l !! i with
  | Some a => Ok a
  | None => Panic "index out of range"
  end.

Definition is_Ok {A : Type} (r : result A) : Prop := ∃ a, r = Ok a.

(** ** Hashes and the key space *)

Abbreviation Hash := Z (only parsing).
Abbreviation bytes := (list Byte.byte) (only parsing).
Abbreviation ptr := positive (only parsing).

(** hashSpace is the total size of the 256 bit hash space for accounts. *)
Definition hashSpace : Z := 2 ^ 256.

(** The hash 0xffff...ffff. *)
Definition maxHash : Hash := hashSpace - 1.

Definition validHash (h : Hash) : Prop := 0 ≤ h < hashSpace.

(** Modelled from the spec: [common.BigToHash] (package common is not part
    of the sources at hand).  The spec's data model makes a hash "a 256-bit
    opaque value; also interpretable as a big integer for keyspace
    arithmetic", so turning a big integer back into a hash keeps its low
    256 bits. *)
Definition BigToHash (b : Z) : Hash := b mod hashSpace.

(** emptyRoot is the known root hash of an empty trie. *)
Definition emptyRoot : Hash :=
  0x56e81f171bcc55a6ff8345e692c0f86e5b48e01b996cadc001622fb5e363b421.

(** emptyCode is the known hash of the empty EVM bytecode,
    [crypto.Keccak256Hash(nil)]. *)
Definition emptyCode : Hash :=
  0xc5d2460186f7233c927e7db2dcc703c0e500b653ca82273b7bfad8045d85a470.

(** ** Constants *)

Definition maxRequestSize : Z := 512 * 1024.
Definition maxStorageSetRequestCount : Z := maxRequestSize / 1024.
Definition maxCodeRequestCount : Z := maxRequestSize / (24 * 1024) * 4.
Definition maxTrieRequestCount : Z := 512.
Definition accountConcurrency : Z := 16.
Definition storageConcurrency : Z := 16.

(** ** Entity model *)

(** [state.Account]. *)
Record Account : Type := mkAccount {
  Nonce : Z;
  Balance : Z;
  Root : Hash;
  CodeHash : Hash
}.

(** A [light.NodeSet] and the node database of a reconstructed trie: trie
    nodes keyed by their hash. *)
Abbreviation NodeSet := (gmap Hash bytes) (only parsing).

(** A reconstructed [trie.Trie].  The syncer only ever calls [Prove] on it:
    given a key, the nodes on the path to it, or an error. *)
Definition Trie : Type := Hash → option (list (Hash * bytes)).

(** [trie.SyncPath]. *)
Definition SyncPath : Type := list bytes.

(** A [time.Timer] created by [time.AfterFunc]. *)
Inductive Timer : Type := TimerArmed | TimerFired | TimerStopped.

(** [Timer.Stop]: true if the call stops the timer, false if the timer has
    already expired or been stopped. *)
Definition timerStop (t : Timer) : bool * Timer :=
  match t with
  | TimerArmed => (true, TimerStopped)
  | TimerFired => (false, TimerFired)
  | TimerStopped => (false, TimerStopped)
  end.

(** accountRequest tracks a pending account range request.  The [stale]
    channel is the flag [areq_stale]: true once closed.  The [cancel]
    channel is the one of the sync cycle; whether it is closed is an
    argument of the functions that select on it. *)
Record accountRequest : Type := mkAccountRequest {
  areq_peer : string;
  areq_id : Z;
  areq_timeout : Timer;
  areq_stale : bool;
  areq_origin : Hash;
  areq_limit : Hash;
  areq_task : ptr
}.

(** accountResponse is an already Merkle-verified remote response to an
    account range request. *)
Record accountResponse : Type := mkAccountResponse {
  ares_task : ptr;
  ares_hashes : list Hash;
  ares_accounts : list Account;
  ares_nodes : NodeSet;
  ares_trie : Trie;
  ares_bounds : gset Hash;
  ares_overflow : NodeSet;
  ares_cont : bool
}.

Record bytecodeRequest : Type := mkBytecodeRequest {
  breq_peer : string;
  breq_id : Z;
  breq_timeout : Timer;
  breq_stale : bool;
  breq_hashes : list Hash;
  breq_task : ptr
}.

(** bytecodeResponse: [None] in [bres_codes] is a nil (missing) code. *)
Record bytecodeResponse : Type := mkBytecodeResponse {
  bres_task : ptr;
  bres_hashes : list Hash;
  bres_codes : list (option bytes)
}.

Record storageRequest : Type := mkStorageRequest {
  sreq_peer : string;
  sreq_id : Z;
  sreq_timeout : Timer;
  sreq_stale : bool;
  sreq_accounts : list Hash;
  sreq_roots : list Hash;
  sreq_origin : Hash;
  sreq_limit : Hash;
  sreq_mainTask : ptr;
  sreq_subTask : option ptr
}.

Record storageResponse : Type := mkStorageResponse {
  sres_mainTask : ptr;
  sres_subTask : option ptr;
  sres_accounts : list Hash;
  sres_roots : list Hash;
  sres_hashes : list (list Hash);
  sres_slots : list (list bytes);
  sres_nodes : list NodeSet;
  sres_tries : list Trie;
  sres_bounds : gset Hash;
  sres_overflow : NodeSet;
  sres_cont : bool
}.

Record trienodeHealRequest : Type := mkTrienodeHealRequest {
  treq_peer : string;
  treq_id : Z;
  treq_timeout : Timer;
  treq_stale : bool;
  treq_hashes : list Hash;
  treq_paths : list SyncPath;
  treq_task : ptr
}.

Record trienodeHealResponse : Type := mkTrienodeHealResponse {
  tres_task : ptr;
  tres_hashes : list Hash;
  tres_paths : list SyncPath;
  tres_nodes : list (option bytes)
}.

Record bytecodeHealRequest : Type := mkBytecodeHealRequest {
  hreq_peer : string;
  hreq_id : Z;
  hreq_timeout : Timer;
  hreq_stale : bool;
  hreq_hashes : list Hash;
  hreq_task : ptr
}.

Record bytecodeHealResponse : Type := mkBytecodeHealResponse {
  hres_task : ptr;
  hres_hashes : list Hash;
  hres_codes : list (option bytes)
}.

(** accountTask represents the sync task for a chunk of the account
    snapshot.  [Next], [Last] and [SubTasks] are the serialized fields. *)
Record accountTask : Type := mkAccountTask {
  Next : Hash;
  Last : Hash;
  SubTasks : gmap Hash (list ptr);
  req : option ptr;
  res : option accountResponse;
  pend : Z;
  needCode : list bool;
  needState : list bool;
  needHeal : list bool;
  codeTasks : gset Hash;
  stateTasks : gmap Hash Hash;
  done : bool
}.

(** storageTask represents the sync task for a chunk of the storage
    snapshot. *)
Record storageTask : Type := mkStorageTask {
  st_Next : Hash;
  st_Last : Hash;
  st_root : Hash;
  st_req : option ptr;
  st_done : bool
}.

(** healTask represents the sync task for healing the snap-synced chunk
    boundaries.  The scheduler ([trie.Sync]) is an external collaborator;
    its state has the abstract type [Sched]. *)
Record healTask (Sched : Type) : Type := mkHealTask {
  scheduler : Sched;
  trieTasks : gmap Hash SyncPath;
  heal_codeTasks : gset Hash
}.
Arguments mkHealTask {Sched} _ _ _.
Arguments scheduler {Sched} _.
Arguments trieTasks {Sched} _.
Arguments heal_codeTasks {Sched} _.

(** Field updates of a task. *)
Definition set_Next (v : Hash) (t : accountTask) : accountTask :=
  mkAccountTask v (Last t) (SubTasks t) (req t) (res t) (pend t) (needCode t)
    (needState t) (needHeal t) (codeTasks t) (stateTasks t) (done t).
Definition set_SubTasks (v : gmap Hash (list ptr)) (t : accountTask) : accountTask :=
  mkAccountTask (Next t) (Last t) v (req t) (res t) (pend t) (needCode t)
    (needState t) (needHeal t) (codeTasks t) (stateTasks t) (done t).
Definition set_req (v : option ptr) (t : accountTask) : accountTask :=
  mkAccountTask (Next t) (Last t) (SubTasks t) v (res t) (pend t) (needCode t)
    (needState t) (needHeal t) (codeTasks t) (stateTasks t) (done t).
Definition set_res (v : option accountResponse) (t : accountTask) : accountTask :=
  mkAccountTask (Next t) (Last t) (SubTasks t) (req t) v (pend t) (needCode t)
    (needState t) (needHeal t) (codeTasks t) (stateTasks t) (done t).
Definition set_pend (v : Z) (t : accountTask) : accountTask :=
  mkAccountTask (Next t) (Last t) (SubTasks t) (req t) (res t) v (needCode t)
    (needState t) (needHeal t) (codeTasks t) (stateTasks t) (done t).
Definition set_needCode (v : list bool) (t : accountTask) : accountTask :=
  mkAccountTask (Next t) (Last t) (SubTasks t) (req t) (res t) (pend t) v
    (needState t) (needHeal t) (codeTasks t) (stateTasks t) (done t).
Definition set_needState (v : list bool) (t : accountTask) : accountTask :=
  mkAccountTask (Next t) (Last t) (SubTasks t) (req t) (res t) (pend t) (needCode t)
    v (needHeal t) (codeTasks t) (stateTasks t) (done t).
Definition set_needHeal (v : list bool) (t : accountTask) : accountTask :=
  mkAccountTask (Next t) (Last t) (SubTasks t) (req t) (res t) (pend t) (needCode t)
    (needState t) v (codeTasks t) (stateTasks t) (done t).
Definition set_codeTasks (v : gset Hash) (t : accountTask) : accountTask :=
  mkAccountTask (Next t) (Last t) (SubTasks t) (req t) (res t) (pend t) (needCode t)
    (needState t) (needHeal t) v (stateTasks t) (done t).
Definition set_stateTasks (v : gmap Hash Hash) (t : accountTask) : accountTask :=
  mkAccountTask (Next t) (Last t) (SubTasks t) (req t) (res t) (pend t) (needCode t)
    (needState t) (needHeal t) (codeTasks t) v (done t).
Definition set_done (v : bool) (t : accountTask) : accountTask :=
  mkAccountTask (Next t) (Last t) (SubTasks t) (req t) (res t) (pend t) (needCode t)
    (needState t) (needHeal t) (codeTasks t) (stateTasks t) v.

Definition set_st_Next (v : Hash) (t : storageTask) : storageTask :=
  mkStorageTask v (st_Last t) (st_root t) (st_req t) (st_done t).
Definition set_st_root (v : Hash) (t : storageTask) : storageTask :=
  mkStorageTask (st_Next t) (st_Last t) v (st_req t) (st_done t).
Definition set_st_req (v : option ptr) (t : storageTask) : storageTask :=
  mkStorageTask (st_Next t) (st_Last t) (st_root t) v (st_done t).
Definition set_st_done (v : bool) (t : storageTask) : storageTask :=
  mkStorageTask (st_Next t) (st_Last t) (st_root t) (st_req t) v.

(** ** The database

    Modelled from the spec: the key schema of package rawdb (not part of
    the sources at hand).  "One key stores the serialized SyncProgress.
    Per-account and per-storage-slot snapshot records are written through
    the collaborator's well-known key prefixes.  Interior trie nodes are
    keyed by their own 32-byte hash."  Contract codes live under a prefix
    of their own as well ([rawdb.WriteCode], [rawdb.ReadCodeWithPrefix]). *)
Inductive dbkey : Type :=
  | TrieNodeKey (h : Hash)
  | CodeKey (h : Hash)
  | AccountSnapshotKey (h : Hash)
  | StorageSnapshotKey (account h : Hash).

#[global] Instance dbkey_eq_dec : EqDecision dbkey.
Proof. solve_decision. Defined.

#[global] Instance dbkey_countable : Countable dbkey.
Proof.
  refine (inj_countable'
    (λ k, match k with
          | TrieNodeKey h => inl (inl h)
          | CodeKey h => inl (inr h)
          | AccountSnapshotKey h => inr (inl h)
          | StorageSnapshotKey a h => inr (inr (a, h))
          end)
    (λ x, match x with
          | inl (inl h) => TrieNodeKey h
          | inl (inr h) => CodeKey h
          | inr (inl h) => AccountSnapshotKey h
          | inr (inr (a, h)) => StorageSnapshotKey a h
          end) _).
  by intros [].
Defined.

(** A JSON document, the wire form of the persisted progress record. *)
#[local] Unset Elimination Schemes.
Inductive json : Type :=
  | JNull
  | JNum (n : Z)
  | JStr (s : string)
  | JArr (l : list json)
  | JObj (fields : list (string * json)).
#[local] Set Elimination Schemes.

(** The key-value store: the records under the prefixed keys, and the blob
    under the snapshot sync status key, kept as the JSON document it
    spells. *)
Record DB : Type := mkDB {
  store : gmap dbkey bytes;
  syncStatus : option json
}.

(** An [ethdb.Batch]: the puts queued so far, oldest first. *)
Definition Batch : Type := list (dbkey * bytes).

Definition batchPut (k : dbkey) (v : bytes) (b : Batch) : Batch := b ++ [(k, v)].

(** [batch.Write]: flush the queued puts into the store. *)
Definition batchWrite (b : Batch) (d : DB) : DB :=
  mkDB (foldl (λ m kv, <[kv.1 := kv.2]> m) (store d) b) (syncStatus d).

(** ** The syncer *)

(** The cumulative counters (the status report fields). *)
Record Counters : Type := mkCounters {
  accountSynced : Z;
  accountBytes : Z;
  bytecodeSynced : Z;
  bytecodeBytes : Z;
  storageSynced : Z;
  storageBytes : Z;
  trienodeHealSynced : Z;
  trienodeHealBytes : Z;
  trienodeHealDups : Z;
  trienodeHealNops : Z;
  bytecodeHealSynced : Z;
  bytecodeHealBytes : Z;
  bytecodeHealDups : Z;
  bytecodeHealNops : Z
}.

(** The peer table, the stateless markers and the five idle sets. *)
Record Registry : Type := mkRegistry {
  peers : gset string;
  statelessPeers : gset string;
  accountIdlers : gset string;
  bytecodeIdlers : gset string;
  storageIdlers : gset string;
  trienodeHealIdlers : gset string;
  bytecodeHealIdlers : gset string
}.

(** The five live request tables, request id to request. *)
Record ReqTables : Type := mkReqTables {
  accountReqs : gmap Z ptr;
  bytecodeReqs : gmap Z ptr;
  storageReqs : gmap Z ptr;
  trienodeHealReqs : gmap Z ptr;
  bytecodeHealReqs : gmap Z ptr
}.

(** The memory the pointers of the syncer point into. *)
Record Heap (Sched : Type) : Type := mkHeap {
  accountTasks : gmap ptr accountTask;
  storageTasks : gmap ptr storageTask;
  healTasks : gmap ptr (healTask Sched);
  accountRequests : gmap ptr accountRequest;
  bytecodeRequests : gmap ptr bytecodeRequest;
  storageRequests : gmap ptr storageRequest;
  trienodeHealRequests : gmap ptr trienodeHealRequest;
  bytecodeHealRequests : gmap ptr bytecodeHealRequest
}.
Arguments mkHeap {Sched} _ _ _ _ _ _ _ _.
Arguments accountTasks {Sched} _.
Arguments storageTasks {Sched} _.
Arguments healTasks {Sched} _.
Arguments accountRequests {Sched} _.
Arguments bytecodeRequests {Sched} _.
Arguments storageRequests {Sched} _.
Arguments trienodeHealRequests {Sched} _.
Arguments bytecodeHealRequests {Sched} _.

(** Syncer.  [update] is the notification channel (capacity one): true
    when a notification is waiting in it. *)
Record Syncer (Sched : Type) : Type := mkSyncer {
  db : DB;
  root : Hash;
  tasks : list ptr;
  snapped : bool;
  healer : option ptr;
  update : bool;
  registry : Registry;
  requests : ReqTables;
  counters : Counters;
  heap : Heap Sched
}.
Arguments mkSyncer {Sched} _ _ _ _ _ _ _ _ _ _.
Arguments db {Sched} _.
Arguments root {Sched} _.
Arguments tasks {Sched} _.
Arguments snapped {Sched} _.
Arguments healer {Sched} _.
Arguments update {Sched} _.
Arguments registry {Sched} _.
Arguments requests {Sched} _.
Arguments counters {Sched} _.
Arguments heap {Sched} _.

(** Field updates of the syncer and of its parts. *)
Definition set_statelessPeers (v : gset string) (r : Registry) : Registry :=
  mkRegistry (peers r) v (accountIdlers r) (bytecodeIdlers r) (storageIdlers r)
    (trienodeHealIdlers r) (bytecodeHealIdlers r).
Definition set_accountIdlers (v : gset string) (r : Registry) : Registry :=
  mkRegistry (peers r) (statelessPeers r) v (bytecodeIdlers r) (storageIdlers r)
    (trienodeHealIdlers r) (bytecodeHealIdlers r).
Definition set_bytecodeIdlers (v : gset string) (r : Registry) : Registry :=
  mkRegistry (peers r) (statelessPeers r) (accountIdlers r) v (storageIdlers r)
    (trienodeHealIdlers r) (bytecodeHealIdlers r).
Definition set_storageIdlers (v : gset string) (r : Registry) : Registry :=
  mkRegistry (peers r) (statelessPeers r) (accountIdlers r) (bytecodeIdlers r) v
    (trienodeHealIdlers r) (bytecodeHealIdlers r).
Definition set_trienodeHealIdlers (v : gset string) (r : Registry) : Registry :=
  mkRegistry (peers r) (statelessPeers r) (accountIdlers r) (bytecodeIdlers r)
    (storageIdlers r) v (bytecodeHealIdlers r).
Definition set_bytecodeHealIdlers (v : gset string) (r : Registry) : Registry :=
  mkRegistry (peers r) (statelessPeers r) (accountIdlers r) (bytecodeIdlers r)
    (storageIdlers r) (trienodeHealIdlers r) v.

Definition set_accountReqs (v : gmap Z ptr) (r : ReqTables) : ReqTables :=
  mkReqTables v (bytecodeReqs r) (storageReqs r) (trienodeHealReqs r) (bytecodeHealReqs r).
Definition set_bytecodeReqs (v : gmap Z ptr) (r : ReqTables) : ReqTables :=
  mkReqTables (accountReqs r) v (storageReqs r) (trienodeHealReqs r) (bytecodeHealReqs r).
Definition set_storageReqs (v : gmap Z ptr) (r : ReqTables) : ReqTables :=
  mkReqTables (accountReqs r) (bytecodeReqs r) v (trienodeHealReqs r) (bytecodeHealReqs r).
Definition set_trienodeHealReqs (v : gmap Z ptr) (r : ReqTables) : ReqTables :=
  mkReqTables (accountReqs r) (bytecodeReqs r) (storageReqs r) v (bytecodeHealReqs r).
Definition set_bytecodeHealReqs (v : gmap Z ptr) (r : ReqTables) : ReqTables :=
  mkReqTables (accountReqs r) (bytecodeReqs r) (storageReqs r) (trienodeHealReqs r) v.

Section Updates.
Context {Sched : Type}.

Definition set_accountTasks (v : gmap ptr accountTask) (h : Heap Sched) : Heap Sched :=
  mkHeap v (storageTasks h) (healTasks h) (accountRequests h) (bytecodeRequests h)
    (storageRequests h) (trienodeHealRequests h) (bytecodeHealRequests h).
Definition set_storageTasks (v : gmap ptr storageTask) (h : Heap Sched) : Heap Sched :=
  mkHeap (accountTasks h) v (healTasks h) (accountRequests h) (bytecodeRequests h)
    (storageRequests h) (trienodeHealRequests h) (bytecodeHealRequests h).
Definition set_healTasks (v : gmap ptr (healTask Sched)) (h : Heap Sched) : Heap Sched :=
  mkHeap (accountTasks h) (storageTasks h) v (accountRequests h) (bytecodeRequests h)
    (storageRequests h) (trienodeHealRequests h) (bytecodeHealRequests h).
Definition set_accountRequests (v : gmap ptr accountRequest) (h : Heap Sched) : Heap Sched :=
  mkHeap (accountTasks h) (storageTasks h) (healTasks h) v (bytecodeRequests h)
    (storageRequests h) (trienodeHealRequests h) (bytecodeHealRequests h).
Definition set_bytecodeRequests (v : gmap ptr bytecodeRequest) (h : Heap Sched) : Heap Sched :=
  mkHeap (accountTasks h) (storageTasks h) (healTasks h) (accountRequests h) v
    (storageRequests h) (trienodeHealRequests h) (bytecodeHealRequests h).
Definition set_storageRequests (v : gmap ptr storageRequest) (h : Heap Sched) : Heap Sched :=
  mkHeap (accountTasks h) (storageTasks h) (healTasks h) (accountRequests h)
    (bytecodeRequests h) v (trienodeHealRequests h) (bytecodeHealRequests h).
Definition set_trienodeHealRequests (v : gmap ptr trienodeHealRequest) (h : Heap Sched)
    : Heap Sched :=
  mkHeap (accountTasks h) (storageTasks h) (healTasks h) (accountRequests h)
    (bytecodeRequests h) (storageRequests h) v (bytecodeHealRequests h).
Definition set_bytecodeHealRequests (v : gmap ptr bytecodeHealRequest) (h : Heap Sched)
    : Heap Sched :=
  mkHeap (accountTasks h) (storageTasks h) (healTasks h) (accountRequests h)
    (bytecodeRequests h) (storageRequests h) (trienodeHealRequests h) v.

Definition set_db (v : DB) (s : Syncer Sched) : Syncer Sched :=
  mkSyncer v (root s) (tasks s) (snapped s) (healer s) (update s) (registry s)
    (requests s) (counters s) (heap s).
Definition set_root (v : Hash) (s : Syncer Sched) : Syncer Sched :=
  mkSyncer (db s) v (tasks s) (snapped s) (healer s) (update s) (registry s)
    (requests s) (counters s) (heap s).
Definition set_tasks (v : list ptr) (s : Syncer Sched) : Syncer Sched :=
  mkSyncer (db s) (root s) v (snapped s) (healer s) (update s) (registry s)
    (requests s) (counters s) (heap s).
Definition set_snapped (v : bool) (s : Syncer Sched) : Syncer Sched :=
  mkSyncer (db s) (root s) (tasks s) v (healer s) (update s) (registry s)
    (requests s) (counters s) (heap s).
Definition set_healer (v : option ptr) (s : Syncer Sched) : Syncer Sched :=
  mkSyncer (db s) (root s) (tasks s) (snapped s) v (update s) (registry s)
    (requests s) (counters s) (heap s).
Definition set_update (v : bool) (s : Syncer Sched) : Syncer Sched :=
  mkSyncer (db s) (root s) (tasks s) (snapped s) (healer s) v (registry s)
    (requests s) (counters s) (heap s).
Definition set_registry (v : Registry) (s : Syncer Sched) : Syncer Sched :=
  mkSyncer (db s) (root s) (tasks s) (snapped s) (healer s) (update s) v
    (requests s) (counters s) (heap s).
Definition set_requests (v : ReqTables) (s : Syncer Sched) : Syncer Sched :=
  mkSyncer (db s) (root s) (tasks s) (snapped s) (healer s) (update s) (registry s)
    v (counters s) (heap s).
Definition set_counters (v : Counters) (s : Syncer Sched) : Syncer Sched :=
  mkSyncer (db s) (root s) (tasks s) (snapped s) (healer s) (update s) (registry s)
    (requests s) v (heap s).
Definition set_heap (v : Heap Sched) (s : Syncer Sched) : Syncer Sched :=
  mkSyncer (db s) (root s) (tasks s) (snapped s) (healer s) (update s) (registry s)
    (requests s) (counters s) v.

(** Allocation of a new object: an address not in use. *)
Definition alloc {A : Type} (v : A) (h : gmap ptr A) : ptr * gmap ptr A :=
  let p := fresh (dom h) in (p, <[p := v]> h).

(** Writing through a pointer to a task. *)
Definition storeTask (p : ptr) (t : accountTask) (s : Syncer Sched) : Syncer Sched :=
  set_heap (set_accountTasks (<[p := t]> (accountTasks (heap s))) (heap s)) s.
Definition storeSubTask (p : ptr) (t : storageTask) (s : Syncer Sched) : Syncer Sched :=
  set_heap (set_storageTasks (<[p := t]> (storageTasks (heap s))) (heap s)) s.
Definition loadTask (p : ptr) (s : Syncer Sched) : result accountTask :=
  deref (accountTasks (heap s)) p.
Definition loadSubTask (p : ptr) (s : Syncer Sched) : result storageTask :=
  deref (storageTasks (heap s)) p.
End Updates.

(** ** Text form of hashes

    Modelled from the spec: the text marshalling of [common.Hash] (package
    common is not part of the sources at hand).  The persisted progress is
    a "JSON-equivalent tagged record"; a hash is written as "0x" followed by
    its 64 hexadecimal digits and read back from the same form. *)
Definition hexDigit (d : Z) : ascii :=
  ascii_of_nat (Z.to_nat (if d <? 10 then 48 + d else 87 + d)).

Definition hexValue (c : ascii) : option Z :=
  let n := Z.of_nat (nat_of_ascii c) in
  if (48 <=? n) && (n <=? 57) then Some (n - 48)
  else if (97 <=? n) && (n <=? 102) then Some (n - 87)
  else if (65 <=? n) && (n <=? 70) then Some (n - 55)
  else None.

(** The [n] low hexadecimal digits of [z], most significant first. *)
Fixpoint hexEncode (n : nat) (z : Z) : list ascii :=
  match n with
  | O => []
  | S n' => hexEncode n' (z / 16) ++ [hexDigit (z mod 16)]
  end.

Fixpoint hexDecode (acc : Z) (l : list ascii) : option Z :=
  match l with
  | [] => Some acc
  | c :: l' =>
      match hexValue c with
      | Some d => hexDecode (acc * 16 + d) l'
      | None => None
      end
  end.

Definition hashText (h : Hash) : string :=
  String "0" (String "x" (string_of_list_ascii (hexEncode 64 h))).

Definition parseHash (s : string) : option Hash :=
  match s with
  | String "0" (String "x" digits) =>
      let l := list_ascii_of_string digits in
      if (length l =? 64)%nat then hexDecode 0 l else None
  | _ => None
  end.

(** ** The progress record and its JSON form *)

(** syncProgress is a database entry to allow suspending and resuming a
    snapshot state sync. *)
Record syncProgress : Type := mkSyncProgress {
  Tasks : list ptr;
  AccountSynced : Z;
  AccountBytes : Z;
  BytecodeSynced : Z;
  BytecodeBytes : Z;
  StorageSynced : Z;
  StorageBytes : Z;
  TrienodeHealSynced : Z;
  TrienodeHealBytes : Z;
  TrienodeHealDups : Z;
  TrienodeHealNops : Z;
  BytecodeHealSynced : Z;
  BytecodeHealBytes : Z;
  BytecodeHealDups : Z;
  BytecodeHealNops : Z
}.

(** [json.Marshal] writes the exported fields of a struct under their
    names, a pointer as what it points to (nil as null), a slice as an
    array and a map as an object keyed by the text form of its keys. *)
Definition marshalStorageTask (t : storageTask) : json :=
  JObj [("Next"%string, JStr (hashText (st_Next t)));
        ("Last"%string, JStr (hashText (st_Last t)))].

Definition marshalPointer {A : Type} (f : A → json) (h : gmap ptr A) (p : ptr) : json :=
  match h !! p with
  | Some a => f a
  | None => JNull
  end.

Definition marshalSubTasks (sts : gmap ptr storageTask) (m : gmap Hash (list ptr)) : json :=
  JObj (map (λ kv : Hash * list ptr,
               (hashText kv.1, JArr (map (marshalPointer marshalStorageTask sts) kv.2)))
            (map_to_list m)).

Definition marshalAccountTask (sts : gmap ptr storageTask) (t : accountTask) : json :=
  JObj [("Next"%string, JStr (hashText (Next t)));
        ("Last"%string, JStr (hashText (Last t)));
        ("SubTasks"%string, marshalSubTasks sts (SubTasks t))].

Definition marshalProgress {Sched : Type} (h : Heap Sched) (p : syncProgress) : json :=
  JObj [("Tasks"%string,
           JArr (map (marshalPointer (marshalAccountTask (storageTasks h)) (accountTasks h))
                     (Tasks p)));
        ("AccountSynced"%string, JNum (AccountSynced p));
        ("AccountBytes"%string, JNum (AccountBytes p));
        ("BytecodeSynced"%string, JNum (BytecodeSynced p));
        ("BytecodeBytes"%string, JNum (BytecodeBytes p));
        ("StorageSynced"%string, JNum (StorageSynced p));
        ("StorageBytes"%string, JNum (StorageBytes p));
        ("TrienodeHealSynced"%string, JNum (TrienodeHealSynced p));
        ("TrienodeHealBytes"%string, JNum (TrienodeHealBytes p));
        ("TrienodeHealDups"%string, JNum (TrienodeHealDups p));
        ("TrienodeHealNops"%string, JNum (TrienodeHealNops p));
        ("BytecodeHealSynced"%string, JNum (BytecodeHealSynced p));
        ("BytecodeHealBytes"%string, JNum (BytecodeHealBytes p));
        ("BytecodeHealDups"%string, JNum (BytecodeHealDups p));
        ("BytecodeHealNops"%string, JNum (BytecodeHealNops p))].

(** [json.Unmarshal], for the shapes the progress record has.  A field
    that is absent keeps its zero value; a value of the wrong shape is a
    decoding error ([None]). *)
Fixpoint jfield (name : string) (fields : list (string * json)) : option json :=
  match fields with
  | [] => None
  | (k, v) :: rest => if String.eqb k name then Some v else jfield name rest
  end.

Definition decodeField {A : Type} (dec : json → option A) (zero : A)
    (name : string) (fields : list (string * json)) : option A :=
  match jfield name fields with
  | Some v => dec v
  | None => Some zero
  end.

Definition decodeHash (j : json) : option Hash :=
  match j with
  | JStr s => parseHash s
  | _ => None
  end.

Definition decodeUint64 (j : json) : option Z :=
  match j with
  | JNum n => if (0 <=? n) && (n <? 2 ^ 64) then Some n else None
  | JNull => Some 0
  | _ => None
  end.

(** A [common.StorageSize] is a float64; the byte counters only ever hold
    sums of lengths, kept here as the integers they are. *)
Definition decodeStorageSize (j : json) : option Z :=
  match j with
  | JNum n => Some n
  | JNull => Some 0
  | _ => None
  end.

Definition decodeStorageTask (j : json) : option storageTask :=
  match j with
  | JObj fields =>
      match decodeField decodeHash 0 "Next" fields, decodeField decodeHash 0 "Last" fields with
      | Some n, Some l => Some (mkStorageTask n l 0 None false)
      | _, _ => None
      end
  | _ => None
  end.

(** Decoding an array of pointers allocates every element. *)
Fixpoint decodePointers {A : Type} (dec : json → option A) (l : list json) (h : gmap ptr A)
    : option (list ptr * gmap ptr A) :=
  match l with
  | [] => Some ([], h)
  | j :: rest =>
      match dec j with
      | Some a =>
          let '(p, h1) := alloc a h in
          match decodePointers dec rest h1 with
          | Some (ps, h2) => Some (p :: ps, h2)
          | None => None
          end
      | None => None
      end
  end.

Fixpoint decodeSubTaskFields (fields : list (string * json)) (sts : gmap ptr storageTask)
    : option (gmap Hash (list ptr) * gmap ptr storageTask) :=
  match fields with
  | [] => Some (∅, sts)
  | (k, v) :: rest =>
      match parseHash k, v with
      | Some account, JArr l =>
          match decodePointers decodeStorageTask l sts with
          | Some (ps, sts1) =>
              match decodeSubTaskFields rest sts1 with
              | Some (m, sts2) => Some (<[account := ps]> m, sts2)
              | None => None
              end
          | None => None
          end
      | Some account, JNull =>
          match decodeSubTaskFields rest sts with
          | Some (m, sts2) => Some (<[account := []]> m, sts2)
          | None => None
          end
      | _, _ => None
      end
  end.

Definition decodeSubTasks (j : json) (sts : gmap ptr storageTask)
    : option (gmap Hash (list ptr) * gmap ptr storageTask) :=
  match j with
  | JObj fields => decodeSubTaskFields fields sts
  | JNull => Some (∅, sts)
  | _ => None
  end.

Definition decodeAccountTask (j : json) (sts : gmap ptr storageTask)
    : option (accountTask * gmap ptr storageTask) :=
  match j with
  | JObj fields =>
      match decodeField decodeHash 0 "Next" fields, decodeField decodeHash 0 "Last" fields with
      | Some n, Some l =>
          match
            match jfield "SubTasks" fields with
            | Some v => decodeSubTasks v sts
            | None => Some (∅, sts)
            end
          with
          | Some (m, sts1) =>
              Some (mkAccountTask n l m None None 0 [] [] [] ∅ ∅ false, sts1)
          | None => None
          end
      | _, _ => None
      end
  | _ => None
  end.

Fixpoint decodeAccountTasks (l : list json) (ats : gmap ptr accountTask)
    (sts : gmap ptr storageTask)
    : option (list ptr * gmap ptr accountTask * gmap ptr storageTask) :=
  match l with
  | [] => Some ([], ats, sts)
  | j :: rest =>
      match decodeAccountTask j sts with
      | Some (t, sts1) =>
          let '(p, ats1) := alloc t ats in
          match decodeAccountTasks rest ats1 sts1 with
          | Some (ps, ats2, sts2) => Some (p :: ps, ats2, sts2)
          | None => None
          end
      | None => None
      end
  end.

Definition unmarshalProgress {Sched : Type} (j : json) (h : Heap Sched)
    : option (syncProgress * Heap Sched) :=
  match j with
  | JObj fields =>
      match
        match jfield "Tasks" fields with
        | Some (JArr l) => decodeAccountTasks l (accountTasks h) (storageTasks h)
        | Some JNull | None => Some ([], accountTasks h, storageTasks h)
        | Some _ => None
        end
      with
      | Some (ts, ats, sts) =>
          let u := decodeField decodeUint64 0 in
          let f := decodeField decodeStorageSize 0 in
          match u "AccountSynced" fields, f "AccountBytes" fields,
                u "BytecodeSynced" fields, f "BytecodeBytes" fields,
                u "StorageSynced" fields, f "StorageBytes" fields,
                u "TrienodeHealSynced" fields, f "TrienodeHealBytes" fields,
                u "TrienodeHealDups" fields, u "TrienodeHealNops" fields,
                u "BytecodeHealSynced" fields, f "BytecodeHealBytes" fields,
                u "BytecodeHealDups" fields, u "BytecodeHealNops" fields
          with
          | Some c1, Some c2, Some c3, Some c4, Some c5, Some c6, Some c7,
            Some c8, Some c9, Some c10, Some c11, Some c12, Some c13, Some c14 =>
              Some (mkSyncProgress ts c1 c2 c3 c4 c5 c6 c7 c8 c9 c10 c11 c12 c13 c14,
                    set_storageTasks sts (set_accountTasks ats h))
          | _, _, _, _, _, _, _, _, _, _, _, _, _, _ => None
          end
      | None => None
      end
  | _ => None
  end.

(** [rawdb.ReadSnapshotSyncStatus] and [rawdb.WriteSnapshotSyncStatus]. *)
Definition ReadSnapshotSyncStatus (d : DB) : option json := syncStatus d.
Definition WriteSnapshotSyncStatus (d : DB) (status : json) : DB :=
  mkDB (store d) (Some status).

(** ** Splitting the key space

    The chunking loop, as both [loadSyncStatus] (with [accountConcurrency])
    and [processStorageResponse] (with [storageConcurrency]) spell it out:
<<
    step := 2^256 / concurrency - 1
    for i := 0; i < concurrency; i++ {
        last := BigToHash(next + step)
        if i == concurrency-1 { last = 0xff..ff }
        ... append {Next: next, Last: last} ...
        next = BigToHash(last + 1)
    }
>> *)
Definition chunkStep (concurrency : Z) : Z := hashSpace / concurrency - 1.

Fixpoint chunkLoop (concurrency step : Z) (n : nat) (i : Z) (next : Hash)
    : list (Hash * Hash) :=
  match n with
  | O => []
  | S n' =>
      let last := BigToHash (next + step) in
      let last := if i =? concurrency - 1 then maxHash else last in
      (next, last) :: chunkLoop concurrency step n' (i + 1) (BigToHash (last + 1))
  end.

Definition chunks (concurrency : Z) : list (Hash * Hash) :=
  chunkLoop concurrency (chunkStep concurrency) (Z.to_nat concurrency) 0 0.

(** Allocation of a run of new objects, in order. *)
Fixpoint allocAll {A : Type} (vs : list A) (h : gmap ptr A) : list ptr * gmap ptr A :=
  match vs with
  | [] => ([], h)
  | v :: rest =>
      let '(p, h1) := alloc v h in
      let '(ps, h2) := allocAll rest h1 in
      (p :: ps, h2)
  end.

(** What is posted on the feeds and channels of the syncer. *)
Inductive message : Type :=
  | PeerJoin (id : string)
  | PeerDrop (id : string)
  | AccountReqFail (r : ptr)
  | BytecodeReqFail (r : ptr)
  | StorageReqFail (r : ptr)
  | TrienodeHealReqFail (r : ptr)
  | BytecodeHealReqFail (r : ptr)
  | AccountResp (r : accountResponse)
  | BytecodeResp (r : bytecodeResponse)
  | StorageResp (r : storageResponse)
  | TrienodeHealResp (r : trienodeHealResponse)
  | BytecodeHealResp (r : bytecodeHealResponse).

(** A Go [error]: [None] is nil. *)
Definition error : Type := option string.

(** The errors of [trie.Sync.Process] the heal response processors tell
    apart. *)
Inductive processError : Type :=
  | ErrAlreadyProcessed
  | ErrNotRequested
  | ErrInvalid.

Section Core.
Context {Sched : Type}.

(** The external collaborators. *)
(** [state.NewStateSync]: a scheduler seeded with the target root. *)
Variable NewStateSync : Hash → DB → Sched.
(** [trie.Sync.Pending] and [trie.Sync.Missing] (which takes what it
    returns out of the scheduler's queue). *)
Variable Pending : Sched → Z.
Variable Missing : Sched → Z → list Hash * list SyncPath * list Hash * Sched.
(** The order in which a [range] statement visits the keys of a map.  Go
    leaves it unspecified: nothing below depends on what these are. *)
Variable rangePeers : gset string → list string.
Variable rangeKeys : gset Z → list Z.
(** [trie.VerifyRangeProof root firstKey lastKey keys values proof]: an
    error, or the node database, the trie, the keys the proof touched
    (nil without a proof) and the continuation flag. *)
Variable VerifyRangeProof :
  Hash → option Hash → option Hash → list Hash → list bytes → option (list bytes) →
  option (NodeSet * Trie * option (gset Hash) * bool).
(** Keccak256, RLP decoding of an account, and the slim account encoding. *)
Variable keccak256 : bytes → Hash.
Variable decodeAccount : bytes → option Account.
Variable SlimAccountRLP : Z → Z → Hash → Hash → bytes.

Abbreviation Syncer := (Syncer Sched).

(** NewSyncer creates a new snapshot syncer to download the Ethereum state
    over the snap protocol. *)
Definition NewSyncer (d : DB) : Syncer :=
  mkSyncer d 0 [] false None false
    (mkRegistry ∅ ∅ ∅ ∅ ∅ ∅ ∅)
    (mkReqTables ∅ ∅ ∅ ∅ ∅)
    (mkCounters 0 0 0 0 0 0 0 0 0 0 0 0 0 0)
    (mkHeap ∅ ∅ ∅ ∅ ∅ ∅ ∅ ∅).

(** *** Peer registry *)

(** Register injects a new data source into the syncer's peerset. *)
Definition Register (id : string) (s : Syncer) : Syncer * error * list message :=
  let r := registry s in
  if bool_decide (id ∈ peers r) then (s, Some "already registered"%string, [])
  else
    (set_registry
       (mkRegistry ({[id]} ∪ peers r) (statelessPeers r)
          ({[id]} ∪ accountIdlers r) ({[id]} ∪ bytecodeIdlers r)
          ({[id]} ∪ storageIdlers r) ({[id]} ∪ trienodeHealIdlers r)
          ({[id]} ∪ bytecodeHealIdlers r)) s,
     None, [PeerJoin id]).

(** Unregister removes a data source from the syncer's peerset. *)
Definition Unregister (id : string) (s : Syncer) : Syncer * error * list message :=
  let r := registry s in
  if negb (bool_decide (id ∈ peers r)) then (s, Some "not registered"%string, [])
  else
    (set_registry
       (mkRegistry (peers r ∖ {[id]}) (statelessPeers r ∖ {[id]})
          (accountIdlers r ∖ {[id]}) (bytecodeIdlers r ∖ {[id]})
          (storageIdlers r ∖ {[id]}) (trienodeHealIdlers r ∖ {[id]})
          (bytecodeHealIdlers r ∖ {[id]})) s,
     None, [PeerDrop id]).

(** *** Progress store *)

Definition restoreCounters (p : syncProgress) (c : Counters) : Counters :=
  mkCounters (AccountSynced p) (AccountBytes p) (BytecodeSynced p) (BytecodeBytes p)
    (StorageSynced p) (StorageBytes p) (TrienodeHealSynced p) (TrienodeHealBytes p)
    (trienodeHealDups c) (trienodeHealNops c)
    (BytecodeHealSynced p) (BytecodeHealBytes p)
    (bytecodeHealDups c) (bytecodeHealNops c).

Definition resetCounters (c : Counters) : Counters :=
  mkCounters 0 0 0 0 0 0 0 0 (trienodeHealDups c) (trienodeHealNops c)
    0 0 (bytecodeHealDups c) (bytecodeHealNops c).

Definition freshTask (nl : Hash * Hash) : accountTask :=
  mkAccountTask nl.1 nl.2 ∅ None None 0 [] [] [] ∅ ∅ false.

(** The second half of loadSyncStatus: start a fresh sync by chunking up
    the account range. *)
Definition freshSyncStatus (s : Syncer) : Syncer :=
  let s := set_counters (resetCounters (counters s)) (set_tasks [] s) in
  let '(ps, ats) := allocAll (map freshTask (chunks accountConcurrency))
                      (accountTasks (heap s)) in
  set_tasks (tasks s ++ ps) (set_heap (set_accountTasks ats (heap s)) s).

(** loadSyncStatus retrieves a previously aborted sync status from the
    database, or generates a fresh one if none is available. *)
Definition loadSyncStatus (s : Syncer) : Syncer :=
  match ReadSnapshotSyncStatus (db s) with
  | Some status =>
      match unmarshalProgress status (heap s) with
      | None => freshSyncStatus s
      | Some (progress, h) =>
          set_counters (restoreCounters progress (counters s))
            (set_snapped (bool_decide (length (Tasks progress) = 0%nat))
               (set_tasks (Tasks progress) (set_heap h s)))
      end
  | None => freshSyncStatus s
  end.

(** saveSyncStatus marshals the remaining sync tasks into leveldb. *)
Definition saveSyncStatus (s : Syncer) : Syncer :=
  let c := counters s in
  let progress :=
    mkSyncProgress (tasks s)
      (accountSynced c) (accountBytes c) (bytecodeSynced c) (bytecodeBytes c)
      (storageSynced c) (storageBytes c) (trienodeHealSynced c) (trienodeHealBytes c)
      0 0 (bytecodeHealSynced c) (bytecodeHealBytes c) 0 0 in
  set_db (WriteSnapshotSyncStatus (db s) (marshalProgress (heap s) progress)) s.

(** The prologue of Sync: move the trie root, make a new heal task and
    revert the stateless markers, then retrieve the previous status. *)
Definition beginSync (newRoot : Hash) (s : Syncer) : Syncer :=
  let s := set_root newRoot s in
  let '(hp, hts) := alloc (mkHealTask (NewStateSync newRoot (db s)) ∅ ∅)
                      (healTasks (heap s)) in
  let s := set_healer (Some hp) (set_heap (set_healTasks hts (heap s)) s) in
  let s := set_registry (set_statelessPeers ∅ (registry s)) s in
  loadSyncStatus s.

(** *** Task cleanup *)

Fixpoint dropDone (ats : gmap ptr accountTask) (l : list ptr) : result (list ptr) :=
  match l with
  | [] => Ok []
  | p :: rest =>
      let* t := deref ats p in
      let* rest' := dropDone ats rest in
      Ok (if done t then rest' else p :: rest')
  end.

(** cleanAccountTasks removes account range retrieval tasks that have
    already been completed. *)
Definition cleanAccountTasks (s : Syncer) : result Syncer :=
  let* l := dropDone (accountTasks (heap s)) (tasks s) in
  let s := set_tasks l s in
  Ok (if bool_decide (length (tasks s) = 0%nat) then set_snapped true s else s).

(** *** Account responses *)

(** [NodeSet.Put]: a key already present keeps its value. *)
Definition putNode (set : NodeSet) (kv : Hash * bytes) : NodeSet :=
  match set !! kv.1 with
  | Some _ => set
  | None => <[kv.1 := kv.2]> set
  end.

(** [trie.Prove(key, 0, set)], an error being a panic at every call
    site. *)
Definition prove (t : Trie) (key : Hash) (set : NodeSet) : result NodeSet :=
  match t key with
  | Some nodes => Ok (foldl putNode set nodes)
  | None => Panic "account range was already proven, what happened"
  end.

Fixpoint proveAll (t : Trie) (keys : list Hash) (set : NodeSet) : result NodeSet :=
  match keys with
  | [] => Ok set
  | k :: rest => let* set1 := prove t k set in proveAll t rest set1
  end.

Definition set_ares_cont (v : bool) (r : accountResponse) : accountResponse :=
  mkAccountResponse (ares_task r) (ares_hashes r) (ares_accounts r) (ares_nodes r)
    (ares_trie r) (ares_bounds r) (ares_overflow r) v.

(** The first loop of processAccountResponse: ensure that the response
    doesn't overflow into the subsequent task.  [i] is the index of the
    head of [pending] in [ares_hashes r]. *)
Fixpoint trimOverflow (last : Hash) (i : nat) (pending : list Hash) (r : accountResponse)
    : result accountResponse :=
  match pending with
  | [] => Ok r
  | hash :: rest =>
      if hash =? last then trimOverflow last (S i) rest (set_ares_cont false r)
      else if hash >? last then
        let* overflow := proveAll (ares_trie r) (drop i (ares_hashes r)) (ares_overflow r) in
        if (i <=? length (ares_accounts r))%nat then
          Ok (mkAccountResponse (ares_task r) (take i (ares_hashes r))
                (take i (ares_accounts r)) (ares_nodes r) (ares_trie r) (ares_bounds r)
                overflow false)
        else Panic "slice bounds out of range"
      else trimOverflow last (S i) rest r
  end.

(** [subtask.root = account.Root] for every subtask of a resumed large
    contract. *)
Fixpoint updateRoots (newRoot : Hash) (subtasks : list ptr) (sts : gmap ptr storageTask)
    : result (gmap ptr storageTask) :=
  match subtasks with
  | [] => Ok sts
  | p :: rest =>
      let* st := deref sts p in
      updateRoots newRoot rest (<[p := set_st_root newRoot st]> sts)
  end.

(** The second loop of processAccountResponse, one account at index [i]:
    assemble which accounts need further sub-filling. *)
Definition fillAccount (d : DB) (hashes : list Hash) (i : nat) (account : Account)
    (st : accountTask * gmap ptr storageTask * gset Hash)
    : result (accountTask * gmap ptr storageTask * gset Hash) :=
  let '(t, sts, resumed) := st in
  let t :=
    if negb (CodeHash account =? emptyCode) then
      match store d !! CodeKey (CodeHash account) with
      | None =>
          set_pend (pend t + 1)
            (set_needCode (<[i := true]> (needCode t))
               (set_codeTasks ({[CodeHash account]} ∪ codeTasks t) t))
      | Some _ => t
      end
    else t in
  if negb (Root account =? emptyRoot) then
    match store d !! TrieNodeKey (Root account) with
    | None =>
        let* h := index hashes i in
        let* (t, sts, resumed) :=
          match SubTasks t !! h with
          | Some subtasks =>
              let* sts1 := updateRoots (Root account) subtasks sts in
              Ok (set_needHeal (<[i := true]> (needHeal t)) t, sts1, {[h]} ∪ resumed)
          | None =>
              Ok (set_stateTasks (<[h := Root account]> (stateTasks t)) t, sts, resumed)
          end in
        Ok (set_pend (pend t + 1) (set_needState (<[i := true]> (needState t)) t),
            sts, resumed)
    | Some _ => Ok (t, sts, resumed)
    end
  else Ok (t, sts, resumed).

Fixpoint fillAccounts (d : DB) (hashes : list Hash) (i : nat) (accounts : list Account)
    (st : accountTask * gmap ptr storageTask * gset Hash)
    : result (accountTask * gmap ptr storageTask * gset Hash) :=
  match accounts with
  | [] => Ok st
  | account :: rest =>
      let* st1 := fillAccount d hashes i account st in
      fillAccounts d hashes (S i) rest st1
  end.

(** *** Task forwarding *)

(** [for j := i; j < len(res.accounts); j++ { Prove(res.hashes[j]) }],
    with [m] turns left to go. *)
Fixpoint proveRange (r : accountResponse) (j : nat) (m : nat) (set : NodeSet)
    : result NodeSet :=
  match m with
  | O => Ok set
  | S m' =>
      let* h := index (ares_hashes r) j in
      let* set1 := prove (ares_trie r) h set in
      proveRange r (S j) m' set1
  end.

(** The first loop of forwardAccountTask: gather all the incomplete trie
    nodes.  [i] runs over the indices of [ares_accounts r], [n] of them
    being left. *)
Fixpoint gatherIncompletes (t : accountTask) (r : accountResponse) (i : nat) (n : nat)
    (incompletes : NodeSet) : result NodeSet :=
  match n with
  | O => Ok incompletes
  | S n' =>
      let* c := index (needCode t) i in
      let* interrupted := (if c then Ok true else index (needState t) i) in
      if interrupted then
        (* the filling was interrupted, mark everything after as incomplete *)
        proveRange r i n incompletes
      else
        let* heal := index (needHeal t) i in
        let* incompletes1 :=
          (if heal then
             let* h := index (ares_hashes r) i in prove (ares_trie r) h incompletes
           else Ok incompletes) in
        gatherIncompletes t r (S i) n' incompletes1
  end.

(** The second loop: persist every finalized trie node that's not on the
    boundary.  The accumulator is the batch, and the counts of nodes
    written and skipped and of bytes. *)
Definition persistNode (r : accountResponse) (incompletes : NodeSet)
    (acc : Batch * Z * Z * Z) (kv : Hash * bytes) : Batch * Z * Z * Z :=
  let '(batch, nodes, skipped, size) := acc in
  if bool_decide (kv.1 ∈ ares_bounds r) then (batch, nodes, skipped + 1, size)
  else if bool_decide (is_Some (ares_overflow r !! kv.1)) then
    (batch, nodes, skipped + 1, size)
  else if bool_decide (is_Some (incompletes !! kv.1)) then
    (batch, nodes, skipped + 1, size)
  else
    (batchPut (TrieNodeKey kv.1) kv.2 batch, nodes + 1, skipped,
     size + (32 + Z.of_nat (length kv.2))).

(** The third loop: persist the received account segments. *)
Fixpoint persistSnapshots (r : accountResponse) (i : nat) (hashes : list Hash)
    (acc : Batch * Z) : result (Batch * Z) :=
  match hashes with
  | [] => Ok acc
  | hash :: rest =>
      let* a := index (ares_accounts r) i in
      let blob := SlimAccountRLP (Nonce a) (Balance a) (Root a) (CodeHash a) in
      persistSnapshots r (S i) rest
        (batchPut (AccountSnapshotKey hash) blob acc.1,
         acc.2 + (1 + 32 + Z.of_nat (length blob)))
  end.

(** The last loop: push the chunk marker forward to the first account
    still missing data.  The flag tells whether the loop ran to its end
    (false: it returned from forwardAccountTask). *)
Fixpoint pushMarker (t : accountTask) (i : nat) (hashes : list Hash)
    : result (accountTask * bool) :=
  match hashes with
  | [] => Ok (t, true)
  | hash :: rest =>
      let* c := index (needCode t) i in
      let* missing := (if c then Ok true else index (needState t) i) in
      if missing then Ok (t, false)
      else pushMarker (set_Next (BigToHash (hash + 1)) t) (S i) rest
  end.

Definition addAccountStats (size : Z) (n : Z) (c : Counters) : Counters :=
  mkCounters (accountSynced c + n) (accountBytes c + size) (bytecodeSynced c)
    (bytecodeBytes c) (storageSynced c) (storageBytes c) (trienodeHealSynced c)
    (trienodeHealBytes c) (trienodeHealDups c) (trienodeHealNops c)
    (bytecodeHealSynced c) (bytecodeHealBytes c) (bytecodeHealDups c)
    (bytecodeHealNops c).

(** The batch forwardAccountTask writes for a task holding response [r]. *)
Definition forwardBatch (t : accountTask) (r : accountResponse) : result (Batch * Z) :=
  let* incompletes := gatherIncompletes t r 0 (length (ares_accounts r)) ∅ in
  let '(batch, _, _, size) :=
    foldl (persistNode r incompletes) ([], 0, 0, 0) (map_to_list (ares_nodes r)) in
  persistSnapshots r 0 (ares_hashes r) (batch, size).

(** forwardAccountTask takes a filled account task and persists anything
    available into the database, after which it forwards the next account
    marker so that the task's next chunk may be filled. *)
Definition forwardAccountTask (task : ptr) (s : Syncer) : result Syncer :=
  let* t := loadTask task s in
  match res t with
  | None => Ok s
  | Some r =>
      let t := set_res None t in
      let* (batch, size) := forwardBatch t r in
      let s := set_db (batchWrite batch (db s)) s in
      let s := set_counters
                 (addAccountStats size (Z.of_nat (length (ares_accounts r))) (counters s)) s in
      let* (t, finished) := pushMarker t 0 (ares_hashes r) in
      let t := if finished then set_done (negb (ares_cont r)) t else t in
      Ok (storeTask task t s)
  end.

(** processAccountResponse integrates an already validated account range
    response into the account tasks. *)
Definition processAccountResponse (r : accountResponse) (s : Syncer) : result Syncer :=
  let task := ares_task r in
  let* t := loadTask task s in
  let t := set_req None t in
  let* r := trimOverflow (Last t) 0 (ares_hashes r) r in
  let n := length (ares_accounts r) in
  let t := set_res (Some r) t in
  let t := set_needCode (replicate n false) t in
  let t := set_needState (replicate n false) t in
  let t := set_needHeal (replicate n false) t in
  let t := set_codeTasks ∅ t in
  let t := set_stateTasks ∅ t in
  let t := set_pend 0 t in
  let* (t, sts, resumed) :=
    fillAccounts (db s) (ares_hashes r) 0 (ares_accounts r)
      (t, storageTasks (heap s), ∅) in
  let t := set_SubTasks (filter (λ kv, kv.1 ∈ resumed) (SubTasks t)) t in
  let s := storeTask task t (set_heap (set_storageTasks sts (heap s)) s) in
  if pend t =? 0 then forwardAccountTask task s else Ok s.

(** *** Revert protocol *)

(** [close(ch)]: closing a closed channel panics. *)
Definition closeChan (closed : bool) : result bool :=
  if closed then Panic "close of closed channel" else Ok true.

(** The select of the five scheduleRevert functions and of the delivery
    callbacks:
<<
    select {
    case ch <- m:       // Sync event loop notified
    case <-req.cancel:  // Sync cycle got cancelled
    case <-req.stale:   // Request already reverted
    }
>>
    With both channels open the send is the only case that can proceed.
    With one of them closed the runtime may still pick the send when the
    loop is receiving: [send] is that pick. *)
Definition selectSend (cancelled stale send : bool) (m : message) : list message :=
  if (cancelled || stale) && negb send then [] else [m].

(** scheduleRevertAccountRequest asks the event loop to clean up an account
    range request. *)
Definition scheduleRevertAccountRequest (cancelled send : bool) (req : ptr) (s : Syncer)
    : result (list message) :=
  let* r := deref (accountRequests (heap s)) req in
  Ok (selectSend cancelled (areq_stale r) send (AccountReqFail req)).

Definition scheduleRevertBytecodeRequest (cancelled send : bool) (req : ptr) (s : Syncer)
    : result (list message) :=
  let* r := deref (bytecodeRequests (heap s)) req in
  Ok (selectSend cancelled (breq_stale r) send (BytecodeReqFail req)).

Definition scheduleRevertStorageRequest (cancelled send : bool) (req : ptr) (s : Syncer)
    : result (list message) :=
  let* r := deref (storageRequests (heap s)) req in
  Ok (selectSend cancelled (sreq_stale r) send (StorageReqFail req)).

Definition scheduleRevertTrienodeHealRequest (cancelled send : bool) (req : ptr) (s : Syncer)
    : result (list message) :=
  let* r := deref (trienodeHealRequests (heap s)) req in
  Ok (selectSend cancelled (treq_stale r) send (TrienodeHealReqFail req)).

Definition scheduleRevertBytecodeHealRequest (cancelled send : bool) (req : ptr) (s : Syncer)
    : result (list message) :=
  let* r := deref (bytecodeHealRequests (heap s)) req in
  Ok (selectSend cancelled (hreq_stale r) send (BytecodeHealReqFail req)).

(** revertAccountRequest cleans up an account range request and returns all
    failed retrieval tasks to the scheduler for reassignment. *)
Definition revertAccountRequest (request : ptr) (s : Syncer) : result Syncer :=
  let* r := deref (accountRequests (heap s)) request in
  if areq_stale r then Ok s
  else
    let* stale := closeChan (areq_stale r) in
    let s := set_requests (set_accountReqs (delete (areq_id r) (accountReqs (requests s)))
                             (requests s)) s in
    let r := mkAccountRequest (areq_peer r) (areq_id r) (timerStop (areq_timeout r)).2 stale
               (areq_origin r) (areq_limit r) (areq_task r) in
    let s := set_heap (set_accountRequests (<[request := r]> (accountRequests (heap s))) (heap s)) s in
    let* t := loadTask (areq_task r) s in
    if bool_decide (req t = Some request) then Ok (storeTask (areq_task r) (set_req None t) s)
    else Ok s.

(** revertBytecodeRequest cleans up a bytecode request and returns all
    failed retrieval tasks to the scheduler for reassignment. *)
Definition revertBytecodeRequest (req : ptr) (s : Syncer) : result Syncer :=
  let* r := deref (bytecodeRequests (heap s)) req in
  if breq_stale r then Ok s
  else
    let* stale := closeChan (breq_stale r) in
    let s := set_requests (set_bytecodeReqs (delete (breq_id r) (bytecodeReqs (requests s)))
                             (requests s)) s in
    let r := mkBytecodeRequest (breq_peer r) (breq_id r) (timerStop (breq_timeout r)).2 stale
               (breq_hashes r) (breq_task r) in
    let s := set_heap (set_bytecodeRequests (<[req := r]> (bytecodeRequests (heap s)))
                         (heap s)) s in
    match breq_hashes r with
    | [] => Ok s
    | _ :: _ =>
        let* t := loadTask (breq_task r) s in
        Ok (storeTask (breq_task r)
              (set_codeTasks (foldl (λ m hash, {[hash]} ∪ m) (codeTasks t) (breq_hashes r)) t) s)
    end.

(** [req.mainTask.stateTasks[account] = req.roots[i]] for every requested
    account. *)
Fixpoint reinsertStateTasks (accounts : list Hash) (roots : list Hash) (i : nat)
    (m : gmap Hash Hash) : result (gmap Hash Hash) :=
  match accounts with
  | [] => Ok m
  | account :: rest =>
      let* r := index roots i in
      reinsertStateTasks rest roots (S i) (<[account := r]> m)
  end.

(** revertStorageRequest cleans up a storage range request and returns all
    failed retrieval tasks to the scheduler for reassignment. *)
Definition revertStorageRequest (req : ptr) (s : Syncer) : result Syncer :=
  let* r := deref (storageRequests (heap s)) req in
  if sreq_stale r then Ok s
  else
    let* stale := closeChan (sreq_stale r) in
    let s := set_requests (set_storageReqs (delete (sreq_id r) (storageReqs (requests s)))
                             (requests s)) s in
    let r := mkStorageRequest (sreq_peer r) (sreq_id r) (timerStop (sreq_timeout r)).2 stale
               (sreq_accounts r) (sreq_roots r) (sreq_origin r) (sreq_limit r)
               (sreq_mainTask r) (sreq_subTask r) in
    let s := set_heap (set_storageRequests (<[req := r]> (storageRequests (heap s)))
                         (heap s)) s in
    match sreq_subTask r with
    | Some sub =>
        let* st := loadSubTask sub s in
        Ok (storeSubTask sub (set_st_req None st) s)
    | None =>
        match sreq_accounts r with
        | [] => Ok s
        | _ :: _ =>
            let* t := loadTask (sreq_mainTask r) s in
            let* m := reinsertStateTasks (sreq_accounts r) (sreq_roots r) 0 (stateTasks t) in
            Ok (storeTask (sreq_mainTask r) (set_stateTasks m t) s)
        end
    end.

(** [req.task.trieTasks[hash] = req.paths[i]] for every requested node. *)
Fixpoint reinsertTrieTasks (hashes : list Hash) (paths : list SyncPath) (i : nat)
    (m : gmap Hash SyncPath) : result (gmap Hash SyncPath) :=
  match hashes with
  | [] => Ok m
  | hash :: rest =>
      let* path := index paths i in
      reinsertTrieTasks rest paths (S i) (<[hash := path]> m)
  end.

(** revertTrienodeHealRequest cleans up a trienode heal request and returns
    all failed retrieval tasks to the scheduler for reassignment. *)
Definition revertTrienodeHealRequest (req : ptr) (s : Syncer) : result Syncer :=
  let* r := deref (trienodeHealRequests (heap s)) req in
  if treq_stale r then Ok s
  else
    let* stale := closeChan (treq_stale r) in
    let s := set_requests
               (set_trienodeHealReqs (delete (treq_id r) (trienodeHealReqs (requests s)))
                  (requests s)) s in
    let r := mkTrienodeHealRequest (treq_peer r) (treq_id r) (timerStop (treq_timeout r)).2
               stale (treq_hashes r) (treq_paths r) (treq_task r) in
    let s := set_heap (set_trienodeHealRequests (<[req := r]> (trienodeHealRequests (heap s)))
                         (heap s)) s in
    match treq_hashes r with
    | [] => Ok s
    | _ :: _ =>
        let* ht := deref (healTasks (heap s)) (treq_task r) in
        let* m := reinsertTrieTasks (treq_hashes r) (treq_paths r) 0 (trieTasks ht) in
        Ok (set_heap
              (set_healTasks
                 (<[treq_task r := mkHealTask (scheduler ht) m (heal_codeTasks ht)]>
                    (healTasks (heap s))) (heap s)) s)
    end.

(** revertBytecodeHealRequest cleans up a bytecode heal request and returns
    all failed retrieval tasks to the scheduler for reassignment. *)
Definition revertBytecodeHealRequest (req : ptr) (s : Syncer) : result Syncer :=
  let* r := deref (bytecodeHealRequests (heap s)) req in
  if hreq_stale r then Ok s
  else
    let* stale := closeChan (hreq_stale r) in
    let s := set_requests
               (set_bytecodeHealReqs (delete (hreq_id r) (bytecodeHealReqs (requests s)))
                  (requests s)) s in
    let r := mkBytecodeHealRequest (hreq_peer r) (hreq_id r) (timerStop (hreq_timeout r)).2
               stale (hreq_hashes r) (hreq_task r) in
    let s := set_heap (set_bytecodeHealRequests (<[req := r]> (bytecodeHealRequests (heap s)))
                         (heap s)) s in
    match hreq_hashes r with
    | [] => Ok s
    | _ :: _ =>
        let* ht := deref (healTasks (heap s)) (hreq_task r) in
        Ok (set_heap
              (set_healTasks
                 (<[hreq_task r :=
                      mkHealTask (scheduler ht) (trieTasks ht)
                        (foldl (λ m hash, {[hash]} ∪ m) (heal_codeTasks ht) (hreq_hashes r))]>
                    (healTasks (heap s))) (heap s)) s)
    end.

(** The requests of a table that are assigned to [peer], in visiting
    order. *)
Definition requestsOf {R : Type} (peerOf : R → string) (objs : gmap ptr R)
    (table : gmap Z ptr) (peer : string) : result (list ptr) :=
  foldr (λ id acc,
           let* rest := acc in
           match table !! id with
           | Some p =>
               let* r := deref objs p in
               Ok (if bool_decide (peerOf r = peer) then p :: rest else rest)
           | None => Ok rest
           end)
        (Ok []) (rangeKeys (dom table)).

Fixpoint revertAll (revert : ptr → Syncer → result Syncer) (reqs : list ptr) (s : Syncer)
    : result Syncer :=
  match reqs with
  | [] => Ok s
  | r :: rest => let* s1 := revert r s in revertAll revert rest s1
  end.

(** revertRequests locates all the currently pending requests from a
    particular peer and reverts them, rescheduling for others to fulfill. *)
Definition revertRequests (peer : string) (s : Syncer) : result Syncer :=
  let h := heap s in
  let rq := requests s in
  let* accountReqs := requestsOf areq_peer (accountRequests h) (accountReqs rq) peer in
  let* bytecodeReqs := requestsOf breq_peer (bytecodeRequests h) (bytecodeReqs rq) peer in
  let* storageReqs := requestsOf sreq_peer (storageRequests h) (storageReqs rq) peer in
  let* trienodeHealReqs :=
    requestsOf treq_peer (trienodeHealRequests h) (trienodeHealReqs rq) peer in
  let* bytecodeHealReqs :=
    requestsOf hreq_peer (bytecodeHealRequests h) (bytecodeHealReqs rq) peer in
  let* s := revertAll revertAccountRequest accountReqs s in
  let* s := revertAll revertBytecodeRequest bytecodeReqs s in
  let* s := revertAll revertStorageRequest storageReqs s in
  let* s := revertAll revertTrienodeHealRequest trienodeHealReqs s in
  revertAll revertBytecodeHealRequest bytecodeHealReqs s.

(** *** Storage responses *)

Definition set_sres (subTask : option ptr) (hashes : list (list Hash))
    (slots : list (list bytes)) (overflow : NodeSet) (cont : bool) (r : storageResponse)
    : storageResponse :=
  mkStorageResponse (sres_mainTask r) subTask (sres_accounts r) (sres_roots r) hashes slots
    (sres_nodes r) (sres_tries r) (sres_bounds r) overflow cont.

Definition set_sres_cont (v : bool) (r : storageResponse) : storageResponse :=
  set_sres (sres_subTask r) (sres_hashes r) (sres_slots r) (sres_overflow r) v r.

Definition set_sres_subTask (v : option ptr) (r : storageResponse) : storageResponse :=
  set_sres v (sres_hashes r) (sres_slots r) (sres_overflow r) (sres_cont r) r.

(** The overflow loop of processStorageResponse over the slot hashes of
    account [i]: ensure the response doesn't overflow into the subsequent
    subtask.  [k] is the index of the head of [pending] in the slot hashes
    of account [i]. *)
Fixpoint trimSlots (last : Hash) (i k : nat) (pending : list Hash) (r : storageResponse)
    : result storageResponse :=
  match pending with
  | [] => Ok r
  | hash :: rest =>
      if hash =? last then trimSlots last i (S k) rest (set_sres_cont false r)
      else if hash >? last then
        let* hs := index (sres_hashes r) i in
        let* overflow :=
          match drop k hs with
          | [] => Ok (sres_overflow r)
          | keys => let* tr := index (sres_tries r) i in proveAll tr keys (sres_overflow r)
          end in
        let* sl := index (sres_slots r) i in
        if (k <=? length sl)%nat then
          Ok (set_sres (sres_subTask r) (<[i := take k hs]> (sres_hashes r))
                (<[i := take k sl]> (sres_slots r)) overflow false r)
        else Panic "slice bounds out of range"
      else trimSlots last i (S k) rest r
  end.

Definition newSubTask (accountRoot : Hash) (nl : Hash * Hash) : storageTask :=
  mkStorageTask nl.1 nl.2 accountRoot None false.

(** The body of the inner loop of processStorageResponse for an index [j]
    of the main task's response whose hash is [account], the [i]-th account
    of the storage response. *)
Definition integrateStorage (i j : nat) (account : Hash) (st : Syncer * storageResponse)
    : result (Syncer * storageResponse) :=
  let '(s, r) := st in
  let main := sres_mainTask r in
  let lastIndex := Z.of_nat (length (sres_hashes r)) - 1 in
  let* t := loadTask main s in
  let* mres := (match res t with
                | Some mres => Ok mres
                | None => Panic "nil pointer dereference"
                end) in
  let* acc := index (ares_accounts mres) j in
  (* complete: mark as not needed any more *)
  let* t :=
    (match sres_subTask r with
     | None =>
         let* need := index (needState t) j in
         if need && ((Z.of_nat i <? lastIndex) || negb (sres_cont r)) then
           Ok (set_pend (pend t - 1) (set_needState (<[j := false]> (needState t)) t))
         else Ok t
     | Some _ => Ok t
     end) in
  (* chunked: mark it as needing healing *)
  let* t :=
    (match sres_subTask r with
     | None =>
         let* heal := index (needHeal t) j in
         if negb heal && (Z.of_nat i =? lastIndex) && sres_cont r then
           Ok (set_needHeal (<[j := true]> (needHeal t)) t)
         else Ok t
     | Some _ => Ok t
     end) in
  let s := storeTask main t s in
  (* chunked: switch to large contract handling mode *)
  let* (s, r) :=
    (match sres_subTask r with
     | None =>
         if (Z.of_nat i =? lastIndex) && sres_cont r then
           match SubTasks t !! account with
           | Some _ => Ok (s, r)
           | None =>
               let '(ps, sts) :=
                 allocAll (map (newSubTask (Root acc)) (chunks storageConcurrency))
                   (storageTasks (heap s)) in
               let s := set_heap (set_storageTasks sts (heap s)) s in
               let s := storeTask main (set_SubTasks (<[account := ps]> (SubTasks t)) t) s in
               let* first := index ps 0 in
               Ok (s, set_sres_subTask (Some first) r)
           end
         else Ok (s, r)
     | Some _ => Ok (s, r)
     end) in
  (* large contract delivery mode: forward the subtask *)
  match sres_subTask r with
  | None => Ok (s, r)
  | Some sub =>
      let* st := loadSubTask sub s in
      let* hs := index (sres_hashes r) i in
      let* r := trimSlots (st_Last st) i 0 hs r in
      if sres_cont r then
        let* hs := index (sres_hashes r) i in
        let* h := (match last hs with
                   | Some h => Ok h
                   | None => Panic "index out of range"
                   end) in
        Ok (storeSubTask sub (set_st_Next (BigToHash (h + 1)) st) s, r)
      else Ok (storeSubTask sub (set_st_done true st) s, r)
  end.

(** The inner loop: [for j, hash := range res.mainTask.res.hashes]. *)
Fixpoint integrateMatches (i : nat) (account : Hash) (j : nat) (mainHashes : list Hash)
    (st : Syncer * storageResponse) : result (Syncer * storageResponse) :=
  match mainHashes with
  | [] => Ok st
  | hash :: rest =>
      if negb (account =? hash) then integrateMatches i account (S j) rest st
      else
        let* st1 := integrateStorage i j account st in
        integrateMatches i account (S j) rest st1
  end.

(** Pushing the reconstructed trie nodes of account [i] to the batch. *)
Definition persistStorageNode (lastWithSubTask : bool) (r : storageResponse)
    (acc : Batch * Z * Z * Z) (kv : Hash * bytes) : Batch * Z * Z * Z :=
  let '(batch, nodes, skipped, size) := acc in
  if lastWithSubTask && bool_decide (kv.1 ∈ sres_bounds r) then
    (batch, nodes, skipped + 1, size)
  else if lastWithSubTask && bool_decide (is_Some (sres_overflow r !! kv.1)) then
    (batch, nodes, skipped + 1, size)
  else
    (batchPut (TrieNodeKey kv.1) kv.2 batch, nodes + 1, skipped,
     size + (32 + Z.of_nat (length kv.2))).

(** Persisting the received storage segments of one account. *)
Fixpoint persistSlots (account : Hash) (slots : list bytes) (j : nat) (hashes : list Hash)
    (acc : Batch * Z) : result (Batch * Z) :=
  match hashes with
  | [] => Ok acc
  | hash :: rest =>
      let* slot := index slots j in
      persistSlots account slots (S j) rest
        (batchPut (StorageSnapshotKey account hash) slot acc.1,
         acc.2 + (1 + 2 * 32 + Z.of_nat (length slot)))
  end.

(** The outer loop of processStorageResponse.  The accumulator holds the
    syncer, the response, the batch and the counts of slots, nodes, skipped
    nodes and bytes. *)
Fixpoint integrateAccounts (i : nat) (accounts : list Hash)
    (st : Syncer * storageResponse * (Batch * Z * Z * Z * Z))
    : result (Syncer * storageResponse * (Batch * Z * Z * Z * Z)) :=
  match accounts with
  | [] => Ok st
  | account :: rest =>
      let '(s, r, (batch, slots, nodes, skipped, size)) := st in
      if (length (sres_hashes r) <=? i)%nat then
        (* the account was not delivered, reschedule it *)
        let* t := loadTask (sres_mainTask r) s in
        let* rt := index (sres_roots r) i in
        integrateAccounts (S i) rest
          (storeTask (sres_mainTask r)
             (set_stateTasks (<[account := rt]> (stateTasks t)) t) s,
           r, (batch, slots, nodes, skipped, size))
      else
        let* t := loadTask (sres_mainTask r) s in
        let* mres := (match res t with
                      | Some mres => Ok mres
                      | None => Panic "nil pointer dereference"
                      end) in
        let* (s, r) := integrateMatches i account 0 (ares_hashes mres) (s, r) in
        let* hs := index (sres_hashes r) i in
        let slots := slots + Z.of_nat (length hs) in
        let* nodeDb := index (sres_nodes r) i in
        let lastWithSubTask :=
          (Z.of_nat i =? Z.of_nat (length (sres_hashes r)) - 1)
          && bool_decide (is_Some (sres_subTask r)) in
        let '(batch, nodes, skipped, size) :=
          foldl (persistStorageNode lastWithSubTask r) (batch, nodes, skipped, size)
            (map_to_list nodeDb) in
        let* (batch, size) :=
          (match hs with
           | [] => Ok (batch, size)
           | _ :: _ =>
               let* sl := index (sres_slots r) i in
               persistSlots account sl 0 hs (batch, size)
           end) in
        integrateAccounts (S i) rest (s, r, (batch, slots, nodes, skipped, size))
  end.

Definition addStorageStats (slots size : Z) (c : Counters) : Counters :=
  mkCounters (accountSynced c) (accountBytes c) (bytecodeSynced c) (bytecodeBytes c)
    (storageSynced c + slots) (storageBytes c + size) (trienodeHealSynced c)
    (trienodeHealBytes c) (trienodeHealDups c) (trienodeHealNops c)
    (bytecodeHealSynced c) (bytecodeHealBytes c) (bytecodeHealDups c)
    (bytecodeHealNops c).

(** processStorageResponse integrates an already validated storage response
    into the account tasks. *)
Definition processStorageResponse (r : storageResponse) (s : Syncer) : result Syncer :=
  (* switch the subtask from pending to idle *)
  let* s :=
    (match sres_subTask r with
     | Some sub => let* st := loadSubTask sub s in Ok (storeSubTask sub (set_st_req None st) s)
     | None => Ok s
     end) in
  let* (s, r, (batch, slots, _, _, size)) :=
    integrateAccounts 0 (sres_accounts r) (s, r, ([], 0, 0, 0, 0)) in
  let s := set_db (batchWrite batch (db s)) s in
  let s := set_counters (addStorageStats slots size (counters s)) s in
  let* t := loadTask (sres_mainTask r) s in
  if pend t =? 0 then forwardAccountTask (sres_mainTask r) s else Ok s.

(** *** Delivery callbacks

    Each callback takes the two facts about the world it cannot see in the
    syncer: whether the cancel channel of the cycle is closed, and the
    runtime's pick in its final select (see [selectSend]).  It returns the
    syncer, the error it returns to the transport, and what it posted. *)

Definition stopAccountTimer (req : ptr) (s : Syncer) : result (bool * accountRequest * Syncer) :=
  let* r := deref (accountRequests (heap s)) req in
  let '(stopped, timer) := timerStop (areq_timeout r) in
  let r := mkAccountRequest (areq_peer r) (areq_id r) timer (areq_stale r) (areq_origin r)
             (areq_limit r) (areq_task r) in
  Ok (stopped, r,
      set_heap (set_accountRequests (<[req := r]> (accountRequests (heap s))) (heap s)) s).

Definition stopBytecodeTimer (req : ptr) (s : Syncer)
    : result (bool * bytecodeRequest * Syncer) :=
  let* r := deref (bytecodeRequests (heap s)) req in
  let '(stopped, timer) := timerStop (breq_timeout r) in
  let r := mkBytecodeRequest (breq_peer r) (breq_id r) timer (breq_stale r) (breq_hashes r)
             (breq_task r) in
  Ok (stopped, r,
      set_heap (set_bytecodeRequests (<[req := r]> (bytecodeRequests (heap s))) (heap s)) s).

Definition stopStorageTimer (req : ptr) (s : Syncer) : result (bool * storageRequest * Syncer) :=
  let* r := deref (storageRequests (heap s)) req in
  let '(stopped, timer) := timerStop (sreq_timeout r) in
  let r := mkStorageRequest (sreq_peer r) (sreq_id r) timer (sreq_stale r) (sreq_accounts r)
             (sreq_roots r) (sreq_origin r) (sreq_limit r) (sreq_mainTask r) (sreq_subTask r) in
  Ok (stopped, r,
      set_heap (set_storageRequests (<[req := r]> (storageRequests (heap s))) (heap s)) s).

Definition stopTrienodeHealTimer (req : ptr) (s : Syncer)
    : result (bool * trienodeHealRequest * Syncer) :=
  let* r := deref (trienodeHealRequests (heap s)) req in
  let '(stopped, timer) := timerStop (treq_timeout r) in
  let r := mkTrienodeHealRequest (treq_peer r) (treq_id r) timer (treq_stale r) (treq_hashes r)
             (treq_paths r) (treq_task r) in
  Ok (stopped, r,
      set_heap (set_trienodeHealRequests (<[req := r]> (trienodeHealRequests (heap s)))
                  (heap s)) s).

Definition stopBytecodeHealTimer (req : ptr) (s : Syncer)
    : result (bool * bytecodeHealRequest * Syncer) :=
  let* r := deref (bytecodeHealRequests (heap s)) req in
  let '(stopped, timer) := timerStop (hreq_timeout r) in
  let r := mkBytecodeHealRequest (hreq_peer r) (hreq_id r) timer (hreq_stale r) (hreq_hashes r)
             (hreq_task r) in
  Ok (stopped, r,
      set_heap (set_bytecodeHealRequests (<[req := r]> (bytecodeHealRequests (heap s)))
                  (heap s)) s).

Definition markStateless (peer : string) (s : Syncer) : Syncer :=
  set_registry (set_statelessPeers ({[peer]} ∪ statelessPeers (registry s)) (registry s)) s.

Fixpoint decodeAccounts (blobs : list bytes) : result (list Account) :=
  match blobs with
  | [] => Ok []
  | blob :: rest =>
      match decodeAccount blob with
      | Some a => let* accs := decodeAccounts rest in Ok (a :: accs)
      | None => Panic "we created these blobs, we must be able to decode them"
      end
  end.

(** OnAccounts is a callback method to invoke when a range of accounts are
    received from a remote peer. *)
Definition OnAccounts (cancelled send : bool) (peer : string) (id : Z) (hashes : list Hash)
    (accounts : list bytes) (proof : list bytes) (s : Syncer)
    : result (Syncer * error * list message) :=
  let s :=
    if bool_decide (peer ∈ peers (registry s)) then
      set_registry (set_accountIdlers ({[peer]} ∪ accountIdlers (registry s)) (registry s)) s
    else s in
  let s := set_update true s in
  match accountReqs (requests s) !! id with
  | None => Ok (s, None, [])
  | Some req =>
      let s := set_requests (set_accountReqs (delete id (accountReqs (requests s)))
                               (requests s)) s in
      let* (stopped, r, s) := stopAccountTimer req s in
      if negb stopped then Ok (s, None, [])
      else if bool_decide (length hashes = 0%nat) && bool_decide (length accounts = 0%nat)
              && bool_decide (length proof = 0%nat) then
        let s := markStateless peer s in
        let* posted := scheduleRevertAccountRequest cancelled send req s in
        Ok (s, None, posted)
      else
        match VerifyRangeProof (root s) (Some (areq_origin r)) (last hashes) hashes accounts
                (Some proof) with
        | None =>
            let* posted := scheduleRevertAccountRequest cancelled send req s in
            Ok (s, Some "account range failed proof"%string, posted)
        | Some (nodes, tr, notary, cont) =>
            let* bounds := (match notary with
                            | Some accessed => Ok accessed
                            | None => Panic "nil pointer dereference"
                            end) in
            let* accs := decodeAccounts accounts in
            let response :=
              mkAccountResponse (areq_task r) hashes accs nodes tr bounds ∅ cont in
            Ok (s, None, selectSend cancelled (areq_stale r) send (AccountResp response))
        end
  end.

(** Cross reference the requested hashes with the delivered blobs to find
    gaps that the serving node is missing:
<<
    for j < len(req.hashes) && !bytes.Equal(hash, req.hashes[j][:]) { j++ }
>> *)
Fixpoint skipTo (hash : Hash) (pending : list Hash) (j : nat) : nat :=
  match pending with
  | [] => j
  | h :: rest => if h =? hash then j else skipTo hash rest (S j)
  end.

(** [None]: ran out of hashes, or got unrequested data. *)
Fixpoint alignBlobs (hashes : list Hash) (j : nat) (blobs : list bytes)
    (out : list (option bytes)) : option (list (option bytes)) :=
  match blobs with
  | [] => Some out
  | blob :: rest =>
      let j := skipTo (keccak256 blob) (drop j hashes) j in
      if (j <? length hashes)%nat then alignBlobs hashes (S j) rest (<[j := Some blob]> out)
      else None
  end.

(** onByteCodes is a callback method to invoke when a batch of contract
    bytes codes are received from a remote peer in the syncing phase. *)
Definition onByteCodes (cancelled send : bool) (peer : string) (id : Z)
    (bytecodes : list bytes) (s : Syncer) : result (Syncer * error * list message) :=
  let s :=
    if bool_decide (peer ∈ peers (registry s)) then
      set_registry (set_bytecodeIdlers ({[peer]} ∪ bytecodeIdlers (registry s)) (registry s)) s
    else s in
  let s := set_update true s in
  match bytecodeReqs (requests s) !! id with
  | None => Ok (s, None, [])
  | Some req =>
      let s := set_requests (set_bytecodeReqs (delete id (bytecodeReqs (requests s)))
                               (requests s)) s in
      let* (stopped, r, s) := stopBytecodeTimer req s in
      if negb stopped then Ok (s, None, [])
      else if bool_decide (length bytecodes = 0%nat) then
        let s := markStateless peer s in
        let* posted := scheduleRevertBytecodeRequest cancelled send req s in
        Ok (s, None, posted)
      else
        match alignBlobs (breq_hashes r) 0 bytecodes
                (replicate (length (breq_hashes r)) None) with
        | None =>
            let* posted := scheduleRevertBytecodeRequest cancelled send req s in
            Ok (s, Some "unexpected bytecode"%string, posted)
        | Some codes =>
            let response := mkBytecodeResponse (breq_task r) (breq_hashes r) codes in
            Ok (s, None, selectSend cancelled (breq_stale r) send (BytecodeResp response))
        end
  end.

(** The verification loop of OnStorage: reconstruct the partial tries from
    the response and verify them.  [None]: a proof failed. *)
Fixpoint verifyStorage (r : storageRequest) (count : nat) (proof : list bytes) (i : nat)
    (hashes : list (list Hash)) (slots : list (list bytes))
    (acc : list NodeSet * list Trie * option (gset Hash) * bool)
    : result (option (list NodeSet * list Trie * option (gset Hash) * bool)) :=
  match hashes with
  | [] => Ok (Some acc)
  | keys :: rest =>
      let '(dbs, tries, notary, cont) := acc in
      let nodes := if (i =? count - 1)%nat then proof else [] in
      let* rt := index (sreq_roots r) i in
      let* sl := index slots i in
      match nodes with
      | [] =>
          match VerifyRangeProof rt None None keys sl None with
          | None => Ok None
          | Some (d, tr, _, _) =>
              verifyStorage r count proof (S i) rest slots
                (dbs ++ [d], tries ++ [tr], notary, cont)
          end
      | _ :: _ =>
          match VerifyRangeProof rt (Some (sreq_origin r)) (last keys) keys sl (Some nodes) with
          | None => Ok None
          | Some (d, tr, notary1, cont1) =>
              verifyStorage r count proof (S i) rest slots
                (dbs ++ [d], tries ++ [tr], notary1, cont1)
          end
      end
  end.

(** OnStorage is a callback method to invoke when ranges of storage slots
    are received from a remote peer. *)
Definition OnStorage (cancelled send : bool) (peer : string) (id : Z)
    (hashes : list (list Hash)) (slots : list (list bytes)) (proof : list bytes)
    (s : Syncer) : result (Syncer * error * list message) :=
  let s :=
    if bool_decide (peer ∈ peers (registry s)) then
      set_registry (set_storageIdlers ({[peer]} ∪ storageIdlers (registry s)) (registry s)) s
    else s in
  let s := set_update true s in
  match storageReqs (requests s) !! id with
  | None => Ok (s, None, [])
  | Some req =>
      let s := set_requests (set_storageReqs (delete id (storageReqs (requests s)))
                               (requests s)) s in
      let* (stopped, r, s) := stopStorageTimer req s in
      if negb stopped then Ok (s, None, [])
      else if negb (length hashes =? length slots)%nat then
        let* posted := scheduleRevertStorageRequest cancelled send req s in
        Ok (s, Some "hash and slot set size mismatch"%string, posted)
      else if (length (sreq_accounts r) <? length hashes)%nat then
        let* posted := scheduleRevertStorageRequest cancelled send req s in
        Ok (s, Some "hash set larger than requested"%string, posted)
      else if bool_decide (length hashes = 0%nat) then
        let s := markStateless peer s in
        let* posted := scheduleRevertStorageRequest cancelled send req s in
        Ok (s, None, posted)
      else
        let* verified := verifyStorage r (length hashes) proof 0 hashes slots
                           ([], [], None, false) in
        match verified with
        | None =>
            let* posted := scheduleRevertStorageRequest cancelled send req s in
            Ok (s, Some "storage range failed proof"%string, posted)
        | Some (dbs, tries, notary, cont) =>
            let bounds := match notary with
                          | Some accessed => accessed
                          | None => ∅
                          end in
            let response :=
              mkStorageResponse (sreq_mainTask r) (sreq_subTask r) (sreq_accounts r)
                (sreq_roots r) hashes slots dbs tries bounds ∅ cont in
            Ok (s, None, selectSend cancelled (sreq_stale r) send (StorageResp response))
        end
  end.

(** OnTrieNodes is a callback method to invoke when a batch of trie nodes
    are received from a remote peer. *)
Definition OnTrieNodes (cancelled send : bool) (peer : string) (id : Z)
    (trienodes : list bytes) (s : Syncer) : result (Syncer * error * list message) :=
  let s :=
    if bool_decide (peer ∈ peers (registry s)) then
      set_registry (set_trienodeHealIdlers ({[peer]} ∪ trienodeHealIdlers (registry s))
                      (registry s)) s
    else s in
  let s := set_update true s in
  match trienodeHealReqs (requests s) !! id with
  | None => Ok (s, None, [])
  | Some req =>
      let s := set_requests (set_trienodeHealReqs (delete id (trienodeHealReqs (requests s)))
                               (requests s)) s in
      let* (stopped, r, s) := stopTrienodeHealTimer req s in
      if negb stopped then Ok (s, None, [])
      else if bool_decide (length trienodes = 0%nat) then
        let s := markStateless peer s in
        let* posted := scheduleRevertTrienodeHealRequest cancelled send req s in
        Ok (s, None, posted)
      else
        match alignBlobs (treq_hashes r) 0 trienodes
                (replicate (length (treq_hashes r)) None) with
        | None =>
            let* posted := scheduleRevertTrienodeHealRequest cancelled send req s in
            Ok (s, Some "unexpected healing trienode"%string, posted)
        | Some nodes =>
            let response :=
              mkTrienodeHealResponse (treq_task r) (treq_hashes r) (treq_paths r) nodes in
            Ok (s, None, selectSend cancelled (treq_stale r) send (TrienodeHealResp response))
        end
  end.

(** onHealByteCodes is a callback method to invoke when a batch of contract
    bytes codes are received from a remote peer in the healing phase. *)
Definition onHealByteCodes (cancelled send : bool) (peer : string) (id : Z)
    (bytecodes : list bytes) (s : Syncer) : result (Syncer * error * list message) :=
  let s :=
    if bool_decide (peer ∈ peers (registry s)) then
      set_registry (set_bytecodeHealIdlers ({[peer]} ∪ bytecodeHealIdlers (registry s))
                      (registry s)) s
    else s in
  let s := set_update true s in
  match bytecodeHealReqs (requests s) !! id with
  | None => Ok (s, None, [])
  | Some req =>
      let s := set_requests (set_bytecodeHealReqs (delete id (bytecodeHealReqs (requests s)))
                               (requests s)) s in
      let* (stopped, r, s) := stopBytecodeHealTimer req s in
      if negb stopped then Ok (s, None, [])
      else if bool_decide (length bytecodes = 0%nat) then
        let s := markStateless peer s in
        let* posted := scheduleRevertBytecodeHealRequest cancelled send req s in
        Ok (s, None, posted)
      else
        match alignBlobs (hreq_hashes r) 0 bytecodes
                (replicate (length (hreq_hashes r)) None) with
        | None =>
            let* posted := scheduleRevertBytecodeHealRequest cancelled send req s in
            Ok (s, Some "unexpected healing bytecode"%string, posted)
        | Some codes =>
            let response := mkBytecodeHealResponse (hreq_task r) (hreq_hashes r) codes in
            Ok (s, None, selectSend cancelled (hreq_stale r) send (BytecodeHealResp response))
        end
  end.

(** OnByteCodes is a callback method to invoke when a batch of contract
    bytes codes are received from a remote peer. *)
Definition OnByteCodes (cancelled send : bool) (peer : string) (id : Z)
    (bytecodes : list bytes) (s : Syncer) : result (Syncer * error * list message) :=
  let syncing := negb (snapped s) in
  if syncing then onByteCodes cancelled send peer id bytecodes s
  else onHealByteCodes cancelled send peer id bytecodes s.

(** *** Request assignment *)

(** The network calls an assigner hands to its sender goroutines.  [req]
    is the request the goroutine schedules for revert if the call fails. *)
Inductive outbound : Type :=
  | RequestAccountRange (peer : string) (id : Z) (stateRoot origin limit : Hash) (size : Z)
      (req : ptr)
  | RequestStorageRanges (peer : string) (id : Z) (stateRoot : Hash) (accounts : list Hash)
      (bounds : option (Hash * Hash)) (size : Z) (req : ptr)
  | RequestByteCodes (peer : string) (id : Z) (hashes : list Hash) (size : Z) (req : ptr)
  | RequestTrieNodes (peer : string) (id : Z) (stateRoot : Hash) (paths : list SyncPath)
      (size : Z) (req : ptr).

(** The peer selection every assigner starts from:
<<
    var idle string
    for id := range idlers {
        if _, ok := s.statelessPeers[id]; ok { continue }
        idle = id
        break
    }
>> *)
Fixpoint pickIdle (order : list string) (stateless : gset string) : string :=
  match order with
  | [] => ""
  | id :: rest => if bool_decide (id ∈ stateless) then pickIdle rest stateless else id
  end.

(** The allocation of a unique request id:
<<
    for {
        reqid = uint64(rand.Int63())
        if reqid == 0 { continue }
        if _, ok := table[reqid]; ok { continue }
        break
    }
>>
    [draws] is what the random source yields from here on; the result is
    the id with the draws left. *)
Fixpoint allocReqId (draws : list Z) (table : gmap Z ptr) : result (Z * list Z) :=
  match draws with
  | [] => Spin
  | reqid :: rest =>
      if reqid =? 0 then allocReqId rest table
      else if bool_decide (is_Some (table !! reqid)) then allocReqId rest table
      else Ok (reqid, rest)
  end.

(** Taking entries out of a map until [max] are taken:
<<
    for key := range m {
        delete(m, key)
        taken = append(taken, key)
        if len(taken) >= max { break }
    }
>> *)
Fixpoint drain (max : Z) (order : list Z) (taken : list Z) : list Z :=
  match order with
  | [] => taken
  | key :: rest =>
      let taken := taken ++ [key] in
      if Z.of_nat (length taken) >=? max then taken else drain max rest taken
  end.

Fixpoint assignAccountLoop (pending : list ptr) (draws : list Z) (s : Syncer)
    : result (Syncer * list outbound) :=
  match pending with
  | [] => Ok (s, [])
  | task :: rest =>
      let* t := loadTask task s in
      (* Skip any tasks already filling *)
      if bool_decide (is_Some (req t)) || bool_decide (is_Some (res t)) then
        assignAccountLoop rest draws s
      else
        let idle := pickIdle (rangePeers (accountIdlers (registry s)))
                      (statelessPeers (registry s)) in
        if bool_decide (idle = ""%string) then Ok (s, [])
        else
          let* (reqid, draws) := allocReqId draws (accountReqs (requests s)) in
          let '(rp, reqs) :=
            alloc (mkAccountRequest idle reqid TimerArmed false (Next t) (Last t) task)
              (accountRequests (heap s)) in
          let s := set_heap (set_accountRequests reqs (heap s)) s in
          let s := set_requests (set_accountReqs (<[reqid := rp]> (accountReqs (requests s)))
                                   (requests s)) s in
          let s := set_registry (set_accountIdlers (accountIdlers (registry s) ∖ {[idle]})
                                   (registry s)) s in
          let out := RequestAccountRange idle reqid (root s) (Next t) (Last t) maxRequestSize rp in
          let s := storeTask task (set_req (Some rp) t) s in
          let* (s, outs) := assignAccountLoop rest draws s in
          Ok (s, out :: outs)
  end.

(** assignAccountTasks attempts to match idle peers to pending account
    range retrievals. *)
Definition assignAccountTasks (draws : list Z) (s : Syncer) : result (Syncer * list outbound) :=
  if bool_decide (size (accountIdlers (registry s)) = 0%nat) then Ok (s, [])
  else assignAccountLoop (tasks s) draws s.

Fixpoint assignBytecodeLoop (pending : list ptr) (draws : list Z) (s : Syncer)
    : result (Syncer * list outbound) :=
  match pending with
  | [] => Ok (s, [])
  | task :: rest =>
      let* t := loadTask task s in
      (* Skip any tasks not in the bytecode retrieval phase *)
      if negb (bool_decide (is_Some (res t))) then assignBytecodeLoop rest draws s
      (* Skip tasks that are already retrieving (or done with) all codes *)
      else if bool_decide (size (codeTasks t) = 0%nat) then assignBytecodeLoop rest draws s
      else
        let idle := pickIdle (rangePeers (bytecodeIdlers (registry s)))
                      (statelessPeers (registry s)) in
        if bool_decide (idle = ""%string) then Ok (s, [])
        else
          let* (reqid, draws) := allocReqId draws (bytecodeReqs (requests s)) in
          let hashes := drain maxCodeRequestCount (rangeKeys (codeTasks t)) [] in
          let t := set_codeTasks (codeTasks t ∖ list_to_set hashes) t in
          let '(rp, reqs) :=
            alloc (mkBytecodeRequest idle reqid TimerArmed false hashes task)
              (bytecodeRequests (heap s)) in
          let s := set_heap (set_bytecodeRequests reqs (heap s)) s in
          let s := set_requests (set_bytecodeReqs (<[reqid := rp]> (bytecodeReqs (requests s)))
                                   (requests s)) s in
          let s := set_registry (set_bytecodeIdlers (bytecodeIdlers (registry s) ∖ {[idle]})
                                   (registry s)) s in
          let out := RequestByteCodes idle reqid hashes maxRequestSize rp in
          let s := storeTask task t s in
          let* (s, outs) := assignBytecodeLoop rest draws s in
          Ok (s, out :: outs)
  end.

(** assignBytecodeTasks attempts to match idle peers to pending code
    retrievals. *)
Definition assignBytecodeTasks (draws : list Z) (s : Syncer) : result (Syncer * list outbound) :=
  if bool_decide (size (bytecodeIdlers (registry s)) = 0%nat) then Ok (s, [])
  else assignBytecodeLoop (tasks s) draws s.

(** The first subtask of a large contract that is not already filling. *)
Fixpoint idleSubTask (sts : gmap ptr storageTask) (subtasks : list ptr)
    : result (option (ptr * storageTask)) :=
  match subtasks with
  | [] => Ok None
  | p :: rest =>
      let* st := deref sts p in
      if bool_decide (is_Some (st_req st)) then idleSubTask sts rest else Ok (Some (p, st))
  end.

Fixpoint findSubTask (sts : gmap ptr storageTask) (m : gmap Hash (list ptr))
    (order : list Hash) : result (option (Hash * ptr * storageTask)) :=
  match order with
  | [] => Ok None
  | account :: rest =>
      match m !! account with
      | Some subtasks =>
          let* found := idleSubTask sts subtasks in
          match found with
          | Some (p, st) => Ok (Some (account, p, st))
          | None => findSubTask sts m rest
          end
      | None => findSubTask sts m rest
      end
  end.

Fixpoint assignStorageLoop (pending : list ptr) (draws : list Z) (s : Syncer)
    : result (Syncer * list outbound) :=
  match pending with
  | [] => Ok (s, [])
  | task :: rest =>
      let* t := loadTask task s in
      (* Skip any tasks not in the storage retrieval phase *)
      if negb (bool_decide (is_Some (res t))) then assignStorageLoop rest draws s
      (* Skip tasks that are already retrieving (or done with) all small states *)
      else if bool_decide (size (SubTasks t) = 0%nat)
              && bool_decide (size (stateTasks t) = 0%nat) then
        assignStorageLoop rest draws s
      else
        let idle := pickIdle (rangePeers (storageIdlers (registry s)))
                      (statelessPeers (registry s)) in
        if bool_decide (idle = ""%string) then Ok (s, [])
        else
          let* (reqid, draws) := allocReqId draws (storageReqs (requests s)) in
          let* found := findSubTask (storageTasks (heap s)) (SubTasks t)
                          (rangeKeys (dom (SubTasks t))) in
          let '(accounts, roots, subtask, t) :=
            match found with
            | Some (account, p, st) => ([account], [st_root st], Some (p, st), t)
            | None =>
                (* No large contract required retrieval, but small ones available *)
                let accounts := drain maxStorageSetRequestCount
                                  (rangeKeys (dom (stateTasks t))) [] in
                (accounts, map (λ a, default 0 (stateTasks t !! a)) accounts, None,
                 set_stateTasks (foldl (λ m a, delete a m) (stateTasks t) accounts) t)
            end in
          let s := storeTask task t s in
          (* If nothing was found, skip to the next *)
          if bool_decide (length accounts = 0%nat) then assignStorageLoop rest draws s
          else
            let '(origin, limit) := match subtask with
                                    | Some (_, st) => (st_Next st, st_Last st)
                                    | None => (0, 0)
                                    end in
            let '(rp, reqs) :=
              alloc (mkStorageRequest idle reqid TimerArmed false accounts roots origin limit
                       task (fst <$> subtask))
                (storageRequests (heap s)) in
            let s := set_heap (set_storageRequests reqs (heap s)) s in
            let s := set_requests (set_storageReqs (<[reqid := rp]> (storageReqs (requests s)))
                                     (requests s)) s in
            let s := set_registry (set_storageIdlers (storageIdlers (registry s) ∖ {[idle]})
                                     (registry s)) s in
            let out := RequestStorageRanges idle reqid (root s) accounts
                         (match subtask with
                          | Some _ => Some (origin, limit)
                          | None => None
                          end) maxRequestSize rp in
            (* Inject the request into the subtask to block further assignments *)
            let s := match subtask with
                     | Some (p, st) => storeSubTask p (set_st_req (Some rp) st) s
                     | None => s
                     end in
            let* (s, outs) := assignStorageLoop rest draws s in
            Ok (s, out :: outs)
  end.

(** assignStorageTasks attempts to match idle peers to pending storage
    range retrievals. *)
Definition assignStorageTasks (draws : list Z) (s : Syncer) : result (Syncer * list outbound) :=
  if bool_decide (size (storageIdlers (registry s)) = 0%nat) then Ok (s, [])
  else assignStorageLoop (tasks s) draws s.

(** Filling the heal queues from the state sync scheduler:
<<
    nodes, paths, codes := s.healer.scheduler.Missing(want - have)
    for i, hash := range nodes { s.healer.trieTasks[hash] = paths[i] }
    for _, hash := range codes { s.healer.codeTasks[hash] = struct{}{} }
>> *)
Definition refillHealer (ht : healTask Sched) : result (healTask Sched) :=
  let have := Z.of_nat (size (trieTasks ht)) + Z.of_nat (size (heal_codeTasks ht)) in
  let want := maxTrieRequestCount + maxCodeRequestCount in
  if have <? want then
    let '(nodes, paths, codes, sched) := Missing (scheduler ht) (want - have) in
    let* queue := reinsertTrieTasks nodes paths 0 (trieTasks ht) in
    Ok (mkHealTask sched queue (foldl (λ m hash, {[hash]} ∪ m) (heal_codeTasks ht) codes))
  else Ok ht.

Definition loadHealer (s : Syncer) : result (ptr * healTask Sched) :=
  match healer s with
  | Some hp => let* ht := deref (healTasks (heap s)) hp in Ok (hp, ht)
  | None => Panic "nil pointer dereference"
  end.

Definition storeHealer (hp : ptr) (ht : healTask Sched) (s : Syncer) : Syncer :=
  set_heap (set_healTasks (<[hp := ht]> (healTasks (heap s))) (heap s)) s.

(** The loop of assignTrienodeHealTasks.  Every turn that does not return
    takes a peer out of the idle set, so [fuel] turns are enough when
    [fuel] exceeds the number of idle peers. *)
Fixpoint assignTrienodeHealLoop (fuel : nat) (draws : list Z) (s : Syncer)
    : result (Syncer * list outbound) :=
  match fuel with
  | O => Spin
  | S fuel' =>
      let* (hp, ht) := loadHealer s in
      if negb ((0 <? Z.of_nat (size (trieTasks ht))) || (0 <? Pending (scheduler ht))) then
        Ok (s, [])
      else
        let* ht := refillHealer ht in
        let s := storeHealer hp ht s in
        (* If all the heal tasks are bytecodes or already downloading, bail *)
        if bool_decide (size (trieTasks ht) = 0%nat) then Ok (s, [])
        else
          let idle := pickIdle (rangePeers (trienodeHealIdlers (registry s)))
                        (statelessPeers (registry s)) in
          if bool_decide (idle = ""%string) then Ok (s, [])
          else
            let* (reqid, draws) := allocReqId draws (trienodeHealReqs (requests s)) in
            let hashes := drain maxTrieRequestCount (rangeKeys (dom (trieTasks ht))) [] in
            let paths := map (λ h, default [] (trieTasks ht !! h)) hashes in
            let ht := mkHealTask (scheduler ht)
                        (foldl (λ m h, delete h m) (trieTasks ht) hashes)
                        (heal_codeTasks ht) in
            let s := storeHealer hp ht s in
            let '(rp, reqs) :=
              alloc (mkTrienodeHealRequest idle reqid TimerArmed false hashes paths hp)
                (trienodeHealRequests (heap s)) in
            let s := set_heap (set_trienodeHealRequests reqs (heap s)) s in
            let s := set_requests
                       (set_trienodeHealReqs (<[reqid := rp]> (trienodeHealReqs (requests s)))
                          (requests s)) s in
            let s := set_registry
                       (set_trienodeHealIdlers (trienodeHealIdlers (registry s) ∖ {[idle]})
                          (registry s)) s in
            let out := RequestTrieNodes idle reqid (root s) paths maxRequestSize rp in
            let* (s, outs) := assignTrienodeHealLoop fuel' draws s in
            Ok (s, out :: outs)
  end.

(** assignTrienodeHealTasks attempts to match idle peers to trie node
    requests to heal any trie errors caused by the snap sync's chunked
    retrieval model. *)
Definition assignTrienodeHealTasks (draws : list Z) (s : Syncer)
    : result (Syncer * list outbound) :=
  if bool_decide (size (trienodeHealIdlers (registry s)) = 0%nat) then Ok (s, [])
  else assignTrienodeHealLoop (S (S (size (trienodeHealIdlers (registry s))))) draws s.

Fixpoint assignBytecodeHealLoop (fuel : nat) (draws : list Z) (s : Syncer)
    : result (Syncer * list outbound) :=
  match fuel with
  | O => Spin
  | S fuel' =>
      let* (hp, ht) := loadHealer s in
      if negb ((0 <? Z.of_nat (size (heal_codeTasks ht))) || (0 <? Pending (scheduler ht))) then
        Ok (s, [])
      else
        let* ht := refillHealer ht in
        let s := storeHealer hp ht s in
        (* If all the heal tasks are trienodes or already downloading, bail *)
        if bool_decide (size (heal_codeTasks ht) = 0%nat) then Ok (s, [])
        else
          let idle := pickIdle (rangePeers (bytecodeHealIdlers (registry s)))
                        (statelessPeers (registry s)) in
          if bool_decide (idle = ""%string) then Ok (s, [])
          else
            let* (reqid, draws) := allocReqId draws (bytecodeHealReqs (requests s)) in
            let hashes := drain maxCodeRequestCount (rangeKeys (heal_codeTasks ht)) [] in
            let ht := mkHealTask (scheduler ht) (trieTasks ht)
                        (heal_codeTasks ht ∖ list_to_set hashes) in
            let s := storeHealer hp ht s in
            let '(rp, reqs) :=
              alloc (mkBytecodeHealRequest idle reqid TimerArmed false hashes hp)
                (bytecodeHealRequests (heap s)) in
            let s := set_heap (set_bytecodeHealRequests reqs (heap s)) s in
            let s := set_requests
                       (set_bytecodeHealReqs (<[reqid := rp]> (bytecodeHealReqs (requests s)))
                          (requests s)) s in
            let s := set_registry
                       (set_bytecodeHealIdlers (bytecodeHealIdlers (registry s) ∖ {[idle]})
                          (registry s)) s in
            let out := RequestByteCodes idle reqid hashes maxRequestSize rp in
            let* (s, outs) := assignBytecodeHealLoop fuel' draws s in
            Ok (s, out :: outs)
  end.

(** assignBytecodeHealTasks attempts to match idle peers to bytecode
    requests to heal any trie errors caused by the snap sync's chunked
    retrieval model. *)
Definition assignBytecodeHealTasks (draws : list Z) (s : Syncer)
    : result (Syncer * list outbound) :=
  if bool_decide (size (bytecodeHealIdlers (registry s)) = 0%nat) then Ok (s, [])
  else assignBytecodeHealLoop (S (S (size (bytecodeHealIdlers (registry s))))) draws s.
(** *** Bytecode responses *)

(** The inner loop of processBytecodeResponse for a delivered code:
<<
    for j, account := range res.task.res.accounts {
        if res.task.needCode[j] && hash == common.BytesToHash(account.CodeHash) {
            res.task.needCode[j] = false
            res.task.pend--
        }
    }
>> *)
Fixpoint clearNeedCode (hash : Hash) (accounts : list Account) (j : nat) (t : accountTask)
    : result accountTask :=
  match accounts with
  | [] => Ok t
  | account :: rest =>
      let* need := index (needCode t) j in
      clearNeedCode hash rest (S j)
        (if need && (hash =? CodeHash account)
         then set_pend (pend t - 1) (set_needCode (<[j := false]> (needCode t)) t)
         else t)
  end.

Definition addBytecodeStats (size : Z) (c : Counters) : Counters :=
  mkCounters (accountSynced c) (accountBytes c) (bytecodeSynced c + 1)
    (bytecodeBytes c + size) (storageSynced c) (storageBytes c) (trienodeHealSynced c)
    (trienodeHealBytes c) (trienodeHealDups c) (trienodeHealNops c)
    (bytecodeHealSynced c) (bytecodeHealBytes c) (bytecodeHealDups c)
    (bytecodeHealNops c).

(** The loop of processBytecodeResponse over the requested hashes. *)
Fixpoint integrateCodes (r : bytecodeResponse) (i : nat) (hashes : list Hash)
    (st : Syncer * Batch) : result (Syncer * Batch) :=
  match hashes with
  | [] => Ok st
  | hash :: rest =>
      let '(s, batch) := st in
      let* code := index (bres_codes r) i in
      match code with
      | None =>
          (* the bytecode was not delivered, reschedule it *)
          let* t := loadTask (bres_task r) s in
          integrateCodes r (S i) rest
            (storeTask (bres_task r) (set_codeTasks ({[hash]} ∪ codeTasks t) t) s, batch)
      | Some code =>
          (* code was delivered, mark it not needed any more *)
          let* t := loadTask (bres_task r) s in
          let* mres := (match res t with
                        | Some mres => Ok mres
                        | None => Panic "nil pointer dereference"
                        end) in
          let* t := clearNeedCode hash (ares_accounts mres) 0 t in
          let s := storeTask (bres_task r) t s in
          let s := set_counters (addBytecodeStats (Z.of_nat (length code)) (counters s)) s in
          integrateCodes r (S i) rest (s, batchPut (CodeKey hash) code batch)
      end
  end.

(** processBytecodeResponse integrates an already validated bytecode
    response into the account tasks. *)
Definition processBytecodeResponse (r : bytecodeResponse) (s : Syncer) : result Syncer :=
  let* (s, batch) := integrateCodes r 0 (bres_hashes r) (s, []) in
  let s := set_db (batchWrite batch (db s)) s in
  let* t := loadTask (bres_task r) s in
  if pend t =? 0 then forwardAccountTask (bres_task r) s else Ok s.

(** *** Storage task cleanup *)

(** The removal of the completed storage range retrieval tasks of one
    contract:
<<
    for j := 0; j < len(subtasks); j++ {
        if subtasks[j].done {
            subtasks = append(subtasks[:j], subtasks[j+1:]...)
            j--
        }
    }
>> *)
Fixpoint dropDoneSubTasks (sts : gmap ptr storageTask) (subtasks : list ptr)
    : result (list ptr) :=
  match subtasks with
  | [] => Ok []
  | p :: rest =>
      let* st := deref sts p in
      let* rest' := dropDoneSubTasks sts rest in
      Ok (if st_done st then rest' else p :: rest')
  end.

(** [for j, hash := range task.res.hashes { if hash == account {
    task.needState[j] = false } }] *)
Fixpoint clearNeedState (account : Hash) (hashes : list Hash) (j : nat)
    (needState : list bool) : result (list bool) :=
  match hashes with
  | [] => Ok needState
  | hash :: rest =>
      if hash =? account then
        if (j <? length needState)%nat
        then clearNeedState account rest (S j) (<[j := false]> needState)
        else Panic "index out of range"
      else clearNeedState account rest (S j) needState
  end.

(** The loop of cleanStorageTasks over the large contracts of one task,
    in the order [range task.SubTasks] visits them. *)
Fixpoint cleanSubTasks (task : ptr) (order : list Hash) (s : Syncer) : result Syncer :=
  match order with
  | [] => Ok s
  | account :: rest =>
      let* t := loadTask task s in
      match SubTasks t !! account with
      | None => cleanSubTasks task rest s
      | Some subtasks =>
          let* live := dropDoneSubTasks (storageTasks (heap s)) subtasks in
          if (0 <? length live)%nat then
            cleanSubTasks task rest
              (storeTask task (set_SubTasks (<[account := live]> (SubTasks t)) t) s)
          else
            (* all storage chunks are done, mark the account as done too *)
            let* mres := (match res t with
                          | Some mres => Ok mres
                          | None => Panic "nil pointer dereference"
                          end) in
            let* flags := clearNeedState account (ares_hashes mres) 0 (needState t) in
            let t := set_pend (pend t - 1)
                       (set_SubTasks (delete account (SubTasks t))
                          (set_needState flags t)) in
            let s := storeTask task t s in
            (* if this was the last pending task, forward the account task *)
            let* s := (if pend t =? 0 then forwardAccountTask task s else Ok s) in
            cleanSubTasks task rest s
      end
  end.

Fixpoint cleanStorageLoop (pending : list ptr) (s : Syncer) : result Syncer :=
  match pending with
  | [] => Ok s
  | task :: rest =>
      let* t := loadTask task s in
      let* s := cleanSubTasks task (rangeKeys (dom (SubTasks t))) s in
      cleanStorageLoop rest s
  end.

(** cleanStorageTasks iterates over all the account tasks and storage
    sub-tasks within, cleaning any that have been completed. *)
Definition cleanStorageTasks (s : Syncer) : result Syncer := cleanStorageLoop (tasks s) s.

(** *** Heal responses *)

(** [trie.Sync.Process]: the error, if any, and the scheduler after the
    call; [trie.Sync.Commit]: the puts it queues on the batch, and the
    scheduler without its membatch. *)
Variable Process : Sched → Hash → bytes → option processError * Sched.
Variable Commit : Sched → Batch * Sched.

Definition addTrienodeHeal (size : Z) (c : Counters) : Counters :=
  mkCounters (accountSynced c) (accountBytes c) (bytecodeSynced c) (bytecodeBytes c)
    (storageSynced c) (storageBytes c) (trienodeHealSynced c + 1)
    (trienodeHealBytes c + size) (trienodeHealDups c) (trienodeHealNops c)
    (bytecodeHealSynced c) (bytecodeHealBytes c) (bytecodeHealDups c)
    (bytecodeHealNops c).

Definition noteTrienodeHeal (err : option processError) (c : Counters) : Counters :=
  match err with
  | Some ErrAlreadyProcessed =>
      mkCounters (accountSynced c) (accountBytes c) (bytecodeSynced c) (bytecodeBytes c)
        (storageSynced c) (storageBytes c) (trienodeHealSynced c) (trienodeHealBytes c)
        (trienodeHealDups c + 1) (trienodeHealNops c)
        (bytecodeHealSynced c) (bytecodeHealBytes c) (bytecodeHealDups c)
        (bytecodeHealNops c)
  | Some ErrNotRequested =>
      mkCounters (accountSynced c) (accountBytes c) (bytecodeSynced c) (bytecodeBytes c)
        (storageSynced c) (storageBytes c) (trienodeHealSynced c) (trienodeHealBytes c)
        (trienodeHealDups c) (trienodeHealNops c + 1)
        (bytecodeHealSynced c) (bytecodeHealBytes c) (bytecodeHealDups c)
        (bytecodeHealNops c)
  | _ => c
  end.

Definition addBytecodeHeal (size : Z) (c : Counters) : Counters :=
  mkCounters (accountSynced c) (accountBytes c) (bytecodeSynced c) (bytecodeBytes c)
    (storageSynced c) (storageBytes c) (trienodeHealSynced c) (trienodeHealBytes c)
    (trienodeHealDups c) (trienodeHealNops c)
    (bytecodeHealSynced c + 1) (bytecodeHealBytes c + size) (bytecodeHealDups c)
    (bytecodeHealNops c).

Definition noteBytecodeHeal (err : option processError) (c : Counters) : Counters :=
  match err with
  | Some ErrAlreadyProcessed =>
      mkCounters (accountSynced c) (accountBytes c) (bytecodeSynced c) (bytecodeBytes c)
        (storageSynced c) (storageBytes c) (trienodeHealSynced c) (trienodeHealBytes c)
        (trienodeHealDups c) (trienodeHealNops c)
        (bytecodeHealSynced c) (bytecodeHealBytes c) (bytecodeHealDups c + 1)
        (bytecodeHealNops c)
  | Some ErrNotRequested =>
      mkCounters (accountSynced c) (accountBytes c) (bytecodeSynced c) (bytecodeBytes c)
        (storageSynced c) (storageBytes c) (trienodeHealSynced c) (trienodeHealBytes c)
        (trienodeHealDups c) (trienodeHealNops c)
        (bytecodeHealSynced c) (bytecodeHealBytes c) (bytecodeHealDups c)
        (bytecodeHealNops c + 1)
  | _ => c
  end.

(** [s.healer.scheduler.Process(trie.SyncResult{Hash: hash, Data: node})] *)
Definition processHealed (hash : Hash) (node : bytes) (s : Syncer)
    : result (option processError * Syncer) :=
  let* (hp, ht) := loadHealer s in
  let '(err, sched) := Process (scheduler ht) hash node in
  Ok (err, storeHealer hp (mkHealTask sched (trieTasks ht) (heal_codeTasks ht)) s).

(** The tail of both heal response processors: commit the scheduler's
    membatch into a fresh batch and write it. *)
Definition commitHealed (s : Syncer) : result Syncer :=
  let* (hp, ht) := loadHealer s in
  let '(batch, sched) := Commit (scheduler ht) in
  let s := storeHealer hp (mkHealTask sched (trieTasks ht) (heal_codeTasks ht)) s in
  Ok (set_db (batchWrite batch (db s)) s).

Fixpoint integrateTrienodes (r : trienodeHealResponse) (i : nat) (hashes : list Hash)
    (s : Syncer) : result Syncer :=
  match hashes with
  | [] => Ok s
  | hash :: rest =>
      let* node := index (tres_nodes r) i in
      match node with
      | None =>
          (* the trie node was not delivered, reschedule it *)
          let* ht := deref (healTasks (heap s)) (tres_task r) in
          let* path := index (tres_paths r) i in
          integrateTrienodes r (S i) rest
            (storeHealer (tres_task r)
               (mkHealTask (scheduler ht) (<[hash := path]> (trieTasks ht))
                  (heal_codeTasks ht)) s)
      | Some node =>
          (* push the trie node into the state syncer *)
          let s := set_counters (addTrienodeHeal (Z.of_nat (length node)) (counters s)) s in
          let* (err, s) := processHealed hash node s in
          integrateTrienodes r (S i) rest
            (set_counters (noteTrienodeHeal err (counters s)) s)
      end
  end.

(** processTrienodeHealResponse integrates an already validated trienode
    response into the healer tasks. *)
Definition processTrienodeHealResponse (r : trienodeHealResponse) (s : Syncer)
    : result Syncer :=
  let* s := integrateTrienodes r 0 (tres_hashes r) s in
  commitHealed s.

Fixpoint integrateHealCodes (r : bytecodeHealResponse) (i : nat) (hashes : list Hash)
    (s : Syncer) : result Syncer :=
  match hashes with
  | [] => Ok s
  | hash :: rest =>
      let* node := index (hres_codes r) i in
      match node with
      | None =>
          (* the code was not delivered, reschedule it *)
          let* ht := deref (healTasks (heap s)) (hres_task r) in
          integrateHealCodes r (S i) rest
            (storeHealer (hres_task r)
               (mkHealTask (scheduler ht) (trieTasks ht) ({[hash]} ∪ heal_codeTasks ht)) s)
      | Some node =>
          let s := set_counters (addBytecodeHeal (Z.of_nat (length node)) (counters s)) s in
          let* (err, s) := processHealed hash node s in
          integrateHealCodes r (S i) rest
            (set_counters (noteBytecodeHeal err (counters s)) s)
      end
  end.

(** processBytecodeHealResponse integrates an already validated bytecode
    response into the healer tasks. *)
Definition processBytecodeHealResponse (r : bytecodeHealResponse) (s : Syncer)
    : result Syncer :=
  let* s := integrateHealCodes r 0 (hres_hashes r) s in
  commitHealed s.
End Core.

(** * Properties *)

(** ** Lists *)

Lemma map_fmap {A B : Type} (f : A → B) (l : list A) : map f l = f <$> l.
Proof. induction l as [|x l IH]; simpl; [done|]. by rewrite IH. Qed.

(** ** Allocation *)

Arguments alloc : simpl never.

Section Allocation.
Context {A : Type}.
Implicit Types (h : gmap ptr A) (vs : list A) (ps : list ptr).

Lemma alloc_fresh (v : A) h : h !! (alloc v h).1 = None.
Proof. unfold alloc; simpl. apply not_elem_of_dom, is_fresh. Qed.

Lemma alloc_lookup (v : A) h : (alloc v h).2 !! (alloc v h).1 = Some v.
Proof. unfold alloc; simpl. apply lookup_insert_eq. Qed.

Lemma alloc_preserves (v : A) h p x : h !! p = Some x → (alloc v h).2 !! p = Some x.
Proof.
  intros Hp. unfold alloc; simpl. rewrite lookup_insert_ne; [done|].
  intros <-. pose proof (alloc_fresh v h) as Hf. unfold alloc in Hf; simpl in Hf. congruence.
Qed.

Lemma allocAll_cons (v : A) vs h :
  allocAll (v :: vs) h =
    ((alloc v h).1 :: (allocAll vs (alloc v h).2).1, (allocAll vs (alloc v h).2).2).
Proof.
  cbn [allocAll]. destruct (alloc v h) as [q h1]. cbn [fst snd].
  by destruct (allocAll vs h1).
Qed.

Lemma allocAll_preserves vs : ∀ h p x,
  h !! p = Some x → (allocAll vs h).2 !! p = Some x.
Proof.
  induction vs as [|v vs IH]; intros h p x Hp; [done|].
  rewrite allocAll_cons. simpl. by apply IH, alloc_preserves.
Qed.

Lemma allocAll_lookup vs : ∀ h,
  Forall2 (λ p v, (allocAll vs h).2 !! p = Some v) (allocAll vs h).1 vs.
Proof.
  induction vs as [|v vs IH]; intros h; [constructor|].
  rewrite allocAll_cons. simpl. constructor; [|apply IH].
  apply allocAll_preserves, alloc_lookup.
Qed.

Lemma allocAll_lookup_index vs h (i : nat) :
  match (allocAll vs h).1 !! i with
  | Some p => (allocAll vs h).2 !! p
  | None => None
  end = vs !! i.
Proof.
  pose proof (allocAll_lookup vs h) as Hl.
  destruct ((allocAll vs h).1 !! i) as [p|] eqn:Hp.
  - destruct (Forall2_lookup_l _ _ _ _ _ Hl Hp) as (v & Hv & Hpv). congruence.
  - apply lookup_ge_None in Hp. rewrite (Forall2_length _ _ _ Hl) in Hp.
    symmetry. by apply lookup_ge_None.
Qed.

Lemma allocAll_length vs : ∀ h, length (allocAll vs h).1 = length vs.
Proof.
  induction vs as [|v vs IH]; intros h; [done|].
  rewrite allocAll_cons. simpl. by rewrite IH.
Qed.
End Allocation.

(** ** The task list *)

(** The task the [i]-th entry of [s.tasks] points to. *)
Definition taskAt {Sched : Type} (s : Syncer Sched) (i : nat) : option accountTask :=
  match tasks s !! i with
  | Some p => accountTasks (heap s) !! p
  | None => None
  end.

(** No well-formed persisted progress: the status key is absent, or its
    blob does not decode. *)
Definition noProgress {Sched : Type} (s : Syncer Sched) : Prop :=
  match ReadSnapshotSyncStatus (db s) with
  | Some status => unmarshalProgress status (heap s) = None
  | None => True
  end.

Lemma loadSyncStatus_noProgress {Sched : Type} (s : Syncer Sched) :
  noProgress s → loadSyncStatus s = freshSyncStatus s.
Proof.
  unfold noProgress, loadSyncStatus.
  destruct (ReadSnapshotSyncStatus (db s)); [|done]. by intros ->.
Qed.

Lemma chunks_account (i : nat) :
  (i < 16)%nat →
  chunks accountConcurrency !! i =
    Some (Z.of_nat i * (hashSpace / 16), Z.of_nat i * (hashSpace / 16) + (hashSpace / 16 - 1)).
Proof.
  intros Hi. do 16 (destruct i as [|i]; [vm_compute; reflexivity|]). lia.
Qed.

Lemma chunks_account_length : length (chunks accountConcurrency) = 16%nat.
Proof. reflexivity. Qed.

Lemma freshSyncStatus_tasks {Sched : Type} (s : Syncer Sched) :
  tasks (freshSyncStatus s) =
    (allocAll (map freshTask (chunks accountConcurrency)) (accountTasks (heap s))).1 ∧
  accountTasks (heap (freshSyncStatus s)) =
    (allocAll (map freshTask (chunks accountConcurrency)) (accountTasks (heap s))).2.
Proof.
  unfold freshSyncStatus. cbn [heap set_counters set_tasks tasks].
  by destruct (allocAll _ _) as [ps h'].
Qed.

Lemma freshSyncStatus_taskAt {Sched : Type} (s : Syncer Sched) (i : nat) :
  taskAt (freshSyncStatus s) i = freshTask <$> chunks accountConcurrency !! i.
Proof.
  unfold taskAt. destruct (freshSyncStatus_tasks s) as [-> ->].
  by rewrite allocAll_lookup_index, map_fmap, list_lookup_fmap.
Qed.

Lemma freshSyncStatus_length {Sched : Type} (s : Syncer Sched) :
  length (tasks (freshSyncStatus s)) = 16%nat.
Proof.
  destruct (freshSyncStatus_tasks s) as [-> _].
  by rewrite allocAll_length, length_map.
Qed.



(** ** Request size limits *)

Lemma drain_length (max : Z) (order : list Z) : ∀ taken : list Z,
  Z.of_nat (length taken) < max →
  length (drain max order taken) = Nat.min (length taken + length order) (Z.to_nat max).
Proof.
  induction order as [|key rest IH]; intros taken Hlt; simpl.
  - lia.
  - rewrite Z.geb_leb. destruct (max <=? Z.of_nat (length (taken ++ [key]))) eqn:Hge.
    + apply Z.leb_le in Hge. rewrite length_app in *. simpl in *. lia.
    + apply Z.leb_gt in Hge. rewrite IH; rewrite length_app in *; simpl in *; lia.
Qed.

Lemma drain_empty_length (order : list Z) :
  length (drain maxCodeRequestCount order []) = Nat.min (length order) 84.
Proof. rewrite drain_length; [reflexivity|]. vm_compute. reflexivity. Qed.

Definition withinCodeLimit (o : outbound) : Prop :=
  match o with
  | RequestByteCodes _ _ hashes _ _ => (length hashes ≤ 84)%nat
  | _ => True
  end.

Lemma assignBytecodeLoop_limit {Sched : Type} (rangePeers : gset string → list string)
    (rangeKeys : gset Z → list Z) (pending : list ptr) :
  ∀ (draws : list Z) (s s' : Syncer Sched) (outs : list outbound),
  assignBytecodeLoop rangePeers rangeKeys pending draws s = Ok (s', outs) →
  Forall withinCodeLimit outs.
Proof.
  induction pending as [|task rest IH]; intros draws s s' outs; simpl.
  - intros [= <- <-]. constructor.
  - destruct (loadTask task s) as [t| |]; simpl; [|done..].
    destruct (negb _); [apply IH|].
    destruct (bool_decide (size (codeTasks t) = 0%nat)); [apply IH|].
    destruct (bool_decide (pickIdle _ _ = ""%string)); [intros [= <- <-]; constructor|].
    destruct (allocReqId _ _) as [[reqid draws']| |]; simpl; [|done..].
    match goal with
    | |- context [assignBytecodeLoop _ _ rest draws' ?s1] =>
        destruct (assignBytecodeLoop rangePeers rangeKeys rest draws' s1)
          as [[s2 outs2]| |] eqn:Hrest; simpl; [|done..]
    end.
    intros [= <- <-]. constructor; [|by eapply IH].
    simpl. rewrite drain_empty_length. lia.
Qed.

(** C9 as the code has it.  maxCodeRequestCount is
    maxRequestSize / (24 * 1024) * 4 with maxRequestSize = 524288, which in
    integer arithmetic is 21 * 4 = 84.  A bytecode request drains
    min(n, 84) hashes out of a set visited in an order of n keys, and no
    request assignBytecodeTasks hands out carries more than 84. *)
Theorem bytecode_request_limit :
  maxRequestSize = 524288 ∧
  maxCodeRequestCount = maxRequestSize / (24 * 1024) * 4 ∧
  maxCodeRequestCount = 84 ∧
  (∀ order : list Z,
     length (drain maxCodeRequestCount order []) = Nat.min (length order) 84) ∧
  (∀ (Sched : Type) (rangePeers : gset string → list string) (rangeKeys : gset Z → list Z)
     (draws : list Z) (s s' : Syncer Sched) (outs : list outbound),
     assignBytecodeTasks rangePeers rangeKeys draws s = Ok (s', outs) →
     Forall withinCodeLimit outs).
Proof.
  split; [reflexivity|]. split; [reflexivity|]. split; [reflexivity|].
  split; [apply drain_empty_length|].
  intros Sched rangePeers rangeKeys draws s s' outs. unfold assignBytecodeTasks.
  destruct (bool_decide _); [intros [= <- <-]; constructor|].
  apply assignBytecodeLoop_limit.
Qed.

(** C9 as stated fails: the limit is not 85, and a set of 100 code hashes
    is drained into a request of 84. *)
Lemma bytecode_request_limit_not_85 :
  maxCodeRequestCount ≠ 85 ∧
  length (drain maxCodeRequestCount (seqZ 1 100) []) = 84%nat.
Proof. split; [discriminate|reflexivity]. Qed.

(** ** Peer registry *)

(** C10.  A successful Unregister removes the id from the stateless set,
    the peer table and the five idle sets; and a registered peer that is
    marked stateless, unregisters and registers again is no longer
    stateless and is back in all five idle sets. *)
Theorem unregister_clears_stateless {Sched : Type} (id : string) (s : Syncer Sched) :
  (∀ s' posted, Unregister id s = (s', None, posted) →
     (id ∉ statelessPeers (registry s')) ∧ (id ∉ peers (registry s')) ∧
     (id ∉ accountIdlers (registry s')) ∧ (id ∉ bytecodeIdlers (registry s')) ∧
     (id ∉ storageIdlers (registry s')) ∧ (id ∉ trienodeHealIdlers (registry s')) ∧
     (id ∉ bytecodeHealIdlers (registry s'))) ∧
  (id ∈ peers (registry s) →
     ∃ s1 s2,
       id ∈ statelessPeers (registry (markStateless id s)) ∧
       Unregister id (markStateless id s) = (s1, None, [PeerDrop id]) ∧
       Register id s1 = (s2, None, [PeerJoin id]) ∧
       (id ∉ statelessPeers (registry s2)) ∧ id ∈ peers (registry s2) ∧
       id ∈ accountIdlers (registry s2) ∧ id ∈ bytecodeIdlers (registry s2) ∧
       id ∈ storageIdlers (registry s2) ∧ id ∈ trienodeHealIdlers (registry s2) ∧
       id ∈ bytecodeHealIdlers (registry s2) ∧
       pickIdle [id] (statelessPeers (registry s2)) = id).
Proof.
  split.
  - intros s' posted. unfold Unregister.
    destruct (bool_decide (id ∈ peers (registry s))); simpl; [|done].
    intros [= <- <-]. simpl. set_solver.
  - intros Hin. unfold Unregister, Register, markStateless. simpl.
    rewrite (bool_decide_eq_true_2 _ Hin). simpl. do 2 eexists.
    split; [set_solver|]. split; [reflexivity|].
    rewrite bool_decide_eq_false_2 by set_solver.
    split; [reflexivity|]. simpl.
    rewrite bool_decide_eq_false_2 by set_solver.
    repeat split; set_solver.
Qed.

(** ** Outcomes of the result monad *)

Lemma rbind_Ok {A B : Type} (m : result A) (k : A → result B) (b : B) :
  rbind m k = Ok b ↔ ∃ a, m = Ok a ∧ k a = Ok b.
Proof.
  destruct m as [a| |]; simpl; split.
  - eauto.
  - by intros (a' & [= <-] & Hk).
  - done.
  - by intros (? & ? & _).
  - done.
  - by intros (? & ? & _).
Qed.

Lemma index_lookup {A : Type} (l : list A) (i : nat) (x : A) :
  l !! i = Some x → index l i = Ok x.
Proof. unfold index. by intros ->. Qed.

Lemma index_Ok {A : Type} (l : list A) (i : nat) (x : A) :
  index l i = Ok x → l !! i = Some x.
Proof. unfold index. by destruct (l !! i); intros [= ->]. Qed.

Lemma deref_Ok {A : Type} (h : gmap positive A) (p : positive) (x : A) :
  deref h p = Ok x ↔ h !! p = Some x.
Proof. unfold deref. destruct (h !! p); split; congruence. Qed.

(** ** Forwarding the marker *)

(** The per-account "still missing data" flags of a task,
    [needCode[i] || needState[i]]. *)
Definition missingFlags (t : accountTask) : list bool :=
  zip_with orb (needCode t) (needState t).

(** The number of leading accounts that miss nothing. *)
Fixpoint complete (flags : list bool) : nat :=
  match flags with
  | false :: rest => S (complete rest)
  | _ => O
  end.

(** Where forwardAccountTask leaves the marker of a task that holds
    [hashes]: one past the last hash before the first account that misses
    data; where it was, if already the first account misses data. *)
Definition forwarded (t : accountTask) (hashes : list Hash) : Hash :=
  match last (take (complete (missingFlags t)) hashes) with
  | Some h => BigToHash (h + 1)
  | None => Next t
  end.

Lemma set_Next_id (t : accountTask) : set_Next (Next t) t = t.
Proof. by destruct t. Qed.

Lemma missing_at (t : accountTask) (i : nat) (c st : bool) {B : Type}
    (k : bool → result B) :
  needCode t !! i = Some c → needState t !! i = Some st →
  (let* c := index (needCode t) i in
   let* missing := (if c then Ok true else index (needState t) i) in
   k missing) = k (c || st).
Proof.
  intros Hc Hs. rewrite (index_lookup _ _ _ Hc). simpl.
  destruct c; simpl; [done|]. by rewrite (index_lookup _ _ _ Hs).
Qed.

Lemma missingFlags_lookup (t : accountTask) (i : nat) (c st : bool) :
  needCode t !! i = Some c → needState t !! i = Some st →
  missingFlags t !! i = Some (c || st).
Proof.
  intros Hc Hs. unfold missingFlags. rewrite lookup_zip_with, Hc. simpl. by rewrite Hs.
Qed.

Lemma complete_drop (flags : list bool) (i : nat) :
  flags !! i = Some false → complete (drop i flags) = S (complete (drop (S i) flags)).
Proof.
  revert i. induction flags as [|b flags IH]; intros [|i] Hi; simplify_eq/=; [done|].
  by apply IH.
Qed.

Lemma complete_drop_true (flags : list bool) (i : nat) :
  flags !! i = Some true → complete (drop i flags) = O.
Proof.
  revert i. induction flags as [|b flags IH]; intros [|i] Hi; simplify_eq/=; [done|].
  by apply IH.
Qed.

Lemma pushMarker_spec (hashes : list Hash) : ∀ (i : nat) (t : accountTask),
  (i + length hashes ≤ length (needCode t))%nat →
  length (needState t) = length (needCode t) →
  let k := Nat.min (complete (drop i (missingFlags t))) (length hashes) in
  pushMarker t i hashes =
    Ok (set_Next (match last (take k hashes) with
                  | Some h => BigToHash (h + 1)
                  | None => Next t
                  end) t,
        bool_decide (k = length hashes)).
Proof.
  induction hashes as [|hash rest IH]; intros i t Hlen Hst k; subst k.
  - simpl. rewrite Nat.min_0_r. simpl. by rewrite set_Next_id.
  - simpl in Hlen.
    destruct (lookup_lt_is_Some_2 (needCode t) i) as [c Hc]; [lia|].
    destruct (lookup_lt_is_Some_2 (needState t) i) as [st Hs]; [lia|].
    cbn [pushMarker]. rewrite (missing_at t i c st _ Hc Hs).
    pose proof (missingFlags_lookup t i c st Hc Hs) as Hf.
    destruct (c || st) eqn:Hm.
    + rewrite (complete_drop_true _ _ Hf). simpl. by rewrite set_Next_id.
    + rewrite (complete_drop _ _ Hf).
      rewrite (IH (S i) (set_Next (BigToHash (hash + 1)) t)); [|simpl; lia|done].
      change (missingFlags (set_Next (BigToHash (hash + 1)) t)) with (missingFlags t).
      set (k' := Nat.min (complete (drop (S i) (missingFlags t))) (length rest)).
      replace (Nat.min (S (complete (drop (S i) (missingFlags t)))) (length (hash :: rest)))
        with (S k') by (simpl; lia).
      apply f_equal, f_equal2; [|apply bool_decide_ext; simpl; lia].
      cbn [take]. destruct (take k' rest) as [|x l] eqn:Ht; [by destruct t|].
      rewrite (last_cons hash (x :: l)). destruct (last (x :: l)); destruct t; reflexivity.
Qed.

(** ** What forwardAccountTask writes *)

(** A response the range proof verifier let through, as far as the
    integrators rely on it: as many accounts as hashes, and a trie that
    proves every delivered hash. *)
Definition provable (r : accountResponse) : Prop :=
  length (ares_accounts r) = length (ares_hashes r) ∧
  ∀ h, h ∈ ares_hashes r → is_Some (ares_trie r h).

(** The flag slices of a task are as long as its response. *)
Definition flagged (t : accountTask) (r : accountResponse) : Prop :=
  length (needCode t) = length (ares_accounts r) ∧
  length (needState t) = length (ares_accounts r) ∧
  length (needHeal t) = length (ares_accounts r).

Lemma prove_Ok (t : Trie) (key : Hash) (set : NodeSet) :
  is_Some (t key) → is_Ok (prove t key set).
Proof. intros [nodes Hn]. unfold prove. rewrite Hn. by eexists. Qed.

Lemma proveRange_Ok (r : accountResponse) (m : nat) : ∀ (j : nat) (set : NodeSet),
  (j + m ≤ length (ares_hashes r))%nat →
  (∀ h, h ∈ ares_hashes r → is_Some (ares_trie r h)) →
  is_Ok (proveRange r j m set).
Proof.
  induction m as [|m IH]; intros j set Hlen Hp; simpl; [by eexists|].
  destruct (lookup_lt_is_Some_2 (ares_hashes r) j) as [h Hh]; [lia|].
  rewrite (index_lookup _ _ _ Hh). simpl.
  destruct (prove_Ok (ares_trie r) h set) as [set1 ->];
    [apply Hp; by eapply list_elem_of_lookup_2|].
  simpl. apply IH; [lia|done].
Qed.

Lemma gatherIncompletes_Ok (t : accountTask) (r : accountResponse) (n : nat) :
  ∀ (i : nat) (set : NodeSet),
  provable r → flagged t r → (i + n ≤ length (ares_accounts r))%nat →
  is_Ok (gatherIncompletes t r i n set).
Proof.
  induction n as [|n IH]; intros i set Hp Hf Hlen; [by eexists|].
  cbn [gatherIncompletes].
  pose proof Hp as Hp'. pose proof Hf as Hf'.
  destruct Hp as [Hacc Hp]. destruct Hf as (Hc & Hs & Hh).
  destruct (lookup_lt_is_Some_2 (needCode t) i) as [c Hci]; [lia|].
  destruct (lookup_lt_is_Some_2 (needState t) i) as [st Hsi]; [lia|].
  destruct (lookup_lt_is_Some_2 (needHeal t) i) as [hl Hhi]; [lia|].
  rewrite (missing_at t i c st _ Hci Hsi).
  destruct (c || st).
  - apply proveRange_Ok; [lia|done].
  - rewrite (index_lookup _ _ _ Hhi). simpl.
    destruct (lookup_lt_is_Some_2 (ares_hashes r) i) as [h Hhash]; [lia|].
    assert (∃ set1, (if hl then
                       let* h := index (ares_hashes r) i in prove (ares_trie r) h set
                     else Ok set) = Ok set1) as [set1 ->].
    { destruct hl; [|by eexists]. rewrite (index_lookup _ _ _ Hhash). simpl.
      apply prove_Ok, Hp. by eapply list_elem_of_lookup_2. }
    simpl. apply IH; [exact Hp'|exact Hf'|lia].
Qed.

(** The keys of a batch. *)
Definition batchKeys (b : Batch) : list dbkey := b.*1.

Lemma batchWrite_other (b : Batch) (d : DB) (key : dbkey) :
  key ∉ batchKeys b → store (batchWrite b d) !! key = store d !! key.
Proof.
  unfold batchWrite, batchKeys. simpl. generalize (store d) as m.
  induction b as [|[k v] b IH]; intros m Hk; simpl; [done|].
  rewrite IH; [|set_solver]. apply lookup_insert_ne. set_solver.
Qed.

(** No node of the boundary set or of the overflow set is among the trie
    nodes of a batch. *)
Definition sparesEdges (r : accountResponse) (b : Batch) : Prop :=
  ∀ node, TrieNodeKey node ∈ batchKeys b →
    node ∉ ares_bounds r ∧ ares_overflow r !! node = None.

Lemma persistNode_spares (r : accountResponse) (incompletes : NodeSet)
    (l : list (Hash * bytes)) : ∀ acc : Batch * Z * Z * Z,
  sparesEdges r acc.1.1.1 →
  sparesEdges r (foldl (persistNode r incompletes) acc l).1.1.1.
Proof.
  induction l as [|kv l IH]; intros [[[batch nodes] skipped] size] Hacc; simpl; [done|].
  apply IH. unfold persistNode.
  destruct (bool_decide (kv.1 ∈ ares_bounds r)) eqn:Hb; [done|].
  destruct (bool_decide (is_Some (ares_overflow r !! kv.1))) eqn:Ho; [done|].
  destruct (bool_decide (is_Some (incompletes !! kv.1))); [done|].
  simpl in *. intros node Hin. unfold batchKeys, batchPut in Hin.
  rewrite fmap_app, elem_of_app in Hin. destruct Hin as [Hin|Hin]; [by apply Hacc|].
  simpl in Hin. apply list_elem_of_singleton in Hin as [= ->].
  apply bool_decide_eq_false in Hb, Ho. split; [done|].
  by apply eq_None_not_Some.
Qed.

Lemma persistSnapshots_spares (SlimAccountRLP : Z → Z → Hash → Hash → bytes)
    (r : accountResponse) (hashes : list Hash) :
  ∀ (i : nat) (acc out : Batch * Z),
  persistSnapshots SlimAccountRLP r i hashes acc = Ok out →
  sparesEdges r acc.1 → sparesEdges r out.1.
Proof.
  induction hashes as [|hash rest IH]; intros i acc out; simpl.
  - by intros [= <-].
  - destruct (index (ares_accounts r) i) as [a| |]; simpl; [|done..].
    intros Hrest Hacc. eapply IH; [exact Hrest|]. simpl.
    intros node Hin. unfold batchKeys, batchPut in Hin.
    rewrite fmap_app, elem_of_app in Hin. destruct Hin as [Hin|Hin]; [by apply Hacc|].
    simpl in Hin. by apply list_elem_of_singleton in Hin.
Qed.

Lemma persistSnapshots_Ok (SlimAccountRLP : Z → Z → Hash → Hash → bytes)
    (r : accountResponse) (hashes : list Hash) :
  ∀ (i : nat) (acc : Batch * Z),
  (i + length hashes ≤ length (ares_accounts r))%nat →
  is_Ok (persistSnapshots SlimAccountRLP r i hashes acc).
Proof.
  induction hashes as [|hash rest IH]; intros i acc Hlen; simpl; [by eexists|].
  simpl in Hlen.
  destruct (lookup_lt_is_Some_2 (ares_accounts r) i) as [a Ha]; [lia|].
  rewrite (index_lookup _ _ _ Ha). simpl. apply IH. lia.
Qed.

Lemma forwardBatch_spares (SlimAccountRLP : Z → Z → Hash → Hash → bytes)
    (t : accountTask) (r : accountResponse) (batch : Batch) (size : Z) :
  forwardBatch SlimAccountRLP t r = Ok (batch, size) → sparesEdges r batch.
Proof.
  unfold forwardBatch.
  destruct (gatherIncompletes t r 0 _ ∅) as [inc| |]; simpl; [|done..].
  pose proof (persistNode_spares r inc (map_to_list (ares_nodes r)) ([], 0, 0, 0)) as Hp.
  destruct (foldl _ _ _) as [[[b n] sk] sz]. simpl in Hp.
  intros Hs. change batch with ((batch, size).1).
  eapply persistSnapshots_spares; [exact Hs|]. simpl. apply Hp.
  intros node Hin. by apply elem_of_nil in Hin.
Qed.

Lemma forwardBatch_Ok (SlimAccountRLP : Z → Z → Hash → Hash → bytes)
    (t : accountTask) (r : accountResponse) :
  provable r → flagged t r → is_Ok (forwardBatch SlimAccountRLP t r).
Proof.
  intros Hp Hf. unfold forwardBatch.
  destruct (gatherIncompletes_Ok t r (length (ares_accounts r)) 0 ∅ Hp Hf) as [inc ->];
    [lia|].
  simpl. destruct (foldl _ _ _) as [[[b n] sk] sz].
  apply persistSnapshots_Ok. destruct Hp as [-> _]. lia.
Qed.

(** ** What forwardAccountTask does to the task *)

(** The task forwardAccountTask leaves behind, for a task [t] that held
    the response [r]. *)
Definition forwardedTask (t : accountTask) (r : accountResponse) : accountTask :=
  let t1 := set_Next (forwarded t (ares_hashes r)) (set_res None t) in
  if bool_decide (length (ares_hashes r) ≤ complete (missingFlags t))%nat
  then set_done (negb (ares_cont r)) t1
  else t1.

Lemma take_min {A : Type} (l : list A) (k : nat) :
  take (Nat.min k (length l)) l = take k l.
Proof.
  destruct (decide (k ≤ length l)%nat).
  - by rewrite Nat.min_l.
  - rewrite Nat.min_r by lia. rewrite !take_ge; [done|lia|lia].
Qed.

Lemma forwardAccountTask_spec {Sched : Type}
    (SlimAccountRLP : Z → Z → Hash → Hash → bytes)
    (task : ptr) (s : Syncer Sched) (t : accountTask) (r : accountResponse) :
  loadTask task s = Ok t → res t = Some r → provable r → flagged t r →
  ∃ batch size,
    forwardBatch SlimAccountRLP (set_res None t) r = Ok (batch, size) ∧
    forwardAccountTask SlimAccountRLP task s =
      Ok (storeTask task (forwardedTask t r)
            (set_counters
               (addAccountStats size (Z.of_nat (length (ares_accounts r))) (counters s))
               (set_db (batchWrite batch (db s)) s))).
Proof.
  intros Ht Hr Hp Hf. unfold forwardAccountTask. rewrite Ht. simpl. rewrite Hr.
  destruct (forwardBatch_Ok SlimAccountRLP (set_res None t) r Hp Hf) as [[batch size] Hb].
  exists batch, size. split; [done|]. rewrite Hb. simpl.
  destruct Hp as [Hacc _]. destruct Hf as (Hc & Hs & _).
  rewrite (pushMarker_spec (ares_hashes r) 0 (set_res None t)); simpl; [|lia|lia].
  rewrite take_min. unfold forwardedTask, forwarded.
  change (missingFlags (set_res None t)) with (missingFlags t).
  rewrite (bool_decide_ext (Nat.min (complete (missingFlags t)) (length (ares_hashes r))
                              = length (ares_hashes r))
             (length (ares_hashes r) ≤ complete (missingFlags t))%nat) by lia.
  by destruct (bool_decide _).
Qed.

Lemma loadTask_storeTask {Sched : Type} (task : ptr) (t : accountTask) (s : Syncer Sched) :
  loadTask task (storeTask task t s) = Ok t.
Proof. unfold loadTask, storeTask, deref. simpl. by rewrite lookup_insert_eq. Qed.

Lemma loadTask_storeTask_ne {Sched : Type} (task other : ptr) (t : accountTask)
    (s : Syncer Sched) :
  other ≠ task → loadTask other (storeTask task t s) = loadTask other s.
Proof. intros Hne. unfold loadTask, storeTask, deref. simpl. by rewrite lookup_insert_ne. Qed.

Lemma complete_spec (flags : list bool) :
  (∀ j, (j < complete flags)%nat → flags !! j = Some false) ∧
  (flags !! complete flags = Some true ∨ complete flags = length flags).
Proof.
  induction flags as [|b flags [IH1 IH2]]; [|destruct b]; simpl.
  - split; [lia|by right].
  - split; [lia|by left].
  - split; [intros [|j] Hj; [done|apply IH1; lia]|].
    destruct IH2 as [?| ->]; [by left|by right].
Qed.

(** C3 as the code has it.  Forwarding a task that holds a verified
    response moves task.Next to one past the last delivered hash that
    comes before the first index i with needCode[i] or needState[i] set
    (modulo 2^256), and leaves it alone when that index is 0; when no
    delivered index is set the task's done flag becomes the negation of
    the response's continuation flag, otherwise done is left alone.  Here
    [k] is the first index set, or the number of hashes when none is. *)
Theorem forwardAccountTask_marker {Sched : Type}
    (SlimAccountRLP : Z → Z → Hash → Hash → bytes)
    (task : ptr) (s : Syncer Sched) (t : accountTask) (r : accountResponse) :
  loadTask task s = Ok t → res t = Some r → provable r → flagged t r →
  let k := complete (missingFlags t) in
  (∀ j, (j < k)%nat → missingFlags t !! j = Some false) ∧
  (missingFlags t !! k = Some true ∨ k = length (ares_hashes r)) ∧
  ∃ s' t',
    forwardAccountTask SlimAccountRLP task s = Ok s' ∧
    loadTask task s' = Ok t' ∧
    Next t' = match k with
              | O => Next t
              | S k' => match ares_hashes r !! k' with
                        | Some h => BigToHash (h + 1)
                        | None => Next t
                        end
              end ∧
    done t' = (if bool_decide (k = length (ares_hashes r)) then negb (ares_cont r)
               else done t) ∧
    Last t' = Last t ∧ res t' = None.
Proof.
  intros Ht Hr Hp Hf k.
  destruct (complete_spec (missingFlags t)) as [Hlt Hat].
  assert (length (missingFlags t) = length (ares_hashes r)) as Hlen.
  { unfold missingFlags. rewrite length_zip_with.
    destruct Hp as [Hacc _]. destruct Hf as (Hc & Hs & _). lia. }
  assert (k ≤ length (ares_hashes r))%nat as Hk.
  { subst k. destruct Hat as [Hat| ->]; [|lia].
    apply lookup_lt_Some in Hat. lia. }
  split; [exact Hlt|]. split; [rewrite <- Hlen; exact Hat|].
  destruct (forwardAccountTask_spec SlimAccountRLP task s t r Ht Hr Hp Hf)
    as (batch & size & _ & Hfw).
  eexists _, (forwardedTask t r). split; [exact Hfw|].
  split; [apply loadTask_storeTask|].
  unfold forwardedTask, forwarded. fold k.
  rewrite (bool_decide_ext (length (ares_hashes r) ≤ k)%nat (k = length (ares_hashes r)))
    by lia.
  assert (last (take k (ares_hashes r)) =
            match k with O => None | S k' => ares_hashes r !! k' end) as ->.
  { destruct k as [|k']; [by rewrite take_0|].
    rewrite last_lookup, length_take, Nat.min_l by lia. simpl.
    rewrite lookup_take_lt by lia. done. }
  destruct (bool_decide (k = length (ares_hashes r))); simpl;
    (split; [by destruct k|done]).
Qed.

(** A task in the middle of a range: three accounts delivered, the second
    one still waiting for its storage. *)
Definition exampleTrie : Trie := λ key, Some [(key, [])].
Definition exampleSlim (nonce balance : Z) (storageRoot codeHash : Hash) : bytes := [].
Definition exampleAccount : Account := mkAccount 0 0 emptyRoot emptyCode.
Definition exampleResponse : accountResponse :=
  mkAccountResponse 1%positive [10; 20; 30] [exampleAccount; exampleAccount; exampleAccount]
    ∅ exampleTrie ∅ ∅ true.
Definition exampleTask : accountTask :=
  mkAccountTask 0 (hashSpace / 16 - 1) ∅ None (Some exampleResponse) 1
    [false; false; false] [false; true; false] [false; false; false] ∅ {[20 := 7]} false.
Definition exampleSyncer : Syncer unit :=
  storeTask 1%positive exampleTask (set_tasks [1%positive] (NewSyncer (mkDB ∅ None))).

Lemma exampleResponse_provable : provable exampleResponse.
Proof. split; [reflexivity|]. intros h _. by eexists. Qed.

Lemma exampleTask_flagged : flagged exampleTask exampleResponse.
Proof. by repeat split. Qed.

(** An instance of C3: the second of three accounts misses its storage, so
    the marker stops one past the first hash and the task is not done. *)
Lemma forwardAccountTask_marker_witness :
  ∃ s' t',
    forwardAccountTask exampleSlim 1%positive exampleSyncer = Ok s' ∧
    loadTask 1%positive s' = Ok t' ∧ Next t' = 11 ∧ done t' = false.
Proof.
  destruct (forwardAccountTask_marker exampleSlim 1%positive exampleSyncer exampleTask
              exampleResponse eq_refl eq_refl exampleResponse_provable exampleTask_flagged)
    as (_ & _ & s' & t' & Hfw & Hld & Hnext & Hdone & _).
  exists s', t'. repeat split; assumption.
Defined.

(** C3 as stated: the marker ends one past the hash of the first account
    that misses code or state. *)
Definition markerPastFirstIncomplete : Prop :=
  ∀ (task : ptr) (s s' : Syncer unit) (t t' : accountTask) (r : accountResponse) (h : Hash),
    loadTask task s = Ok t → res t = Some r → provable r → flagged t r →
    ares_hashes r !! complete (missingFlags t) = Some h →
    forwardAccountTask exampleSlim task s = Ok s' → loadTask task s' = Ok t' →
    Next t' = BigToHash (h + 1).

(** It fails: with hashes 10, 20, 30 and the second account missing its
    storage the code leaves the marker at 11, not at 21. *)
Lemma markerPastFirstIncomplete_fails : ¬ markerPastFirstIncomplete.
Proof.
  intros Hclaim.
  destruct (forwardAccountTask_spec exampleSlim 1%positive exampleSyncer exampleTask
              exampleResponse eq_refl eq_refl exampleResponse_provable exampleTask_flagged)
    as (batch & size & _ & Hfw).
  pose proof (Hclaim 1%positive exampleSyncer _ exampleTask _ exampleResponse 20
                eq_refl eq_refl exampleResponse_provable exampleTask_flagged eq_refl
                Hfw (loadTask_storeTask _ _ _)) as Habs.
  discriminate Habs.
Qed.

(** ** Trimming a response that overflows its chunk *)

Lemma putNode_keeps (set : NodeSet) (kv : Hash * bytes) (k : Hash) :
  is_Some (set !! k) → is_Some (putNode set kv !! k).
Proof.
  intros Hk. unfold putNode. destruct (set !! kv.1) eqn:E; [done|].
  destruct (decide (kv.1 = k)) as [Heq|Hne];
    [rewrite <- Heq, E in Hk; by apply is_Some_None in Hk|].
  by rewrite lookup_insert_ne.
Qed.

Lemma putNode_puts (set : NodeSet) (kv : Hash * bytes) : is_Some (putNode set kv !! kv.1).
Proof.
  unfold putNode. destruct (set !! kv.1) eqn:E; [by rewrite E|].
  by rewrite lookup_insert_eq.
Qed.

Lemma putNodes_keeps (nodes : list (Hash * bytes)) : ∀ (set : NodeSet) (k : Hash),
  is_Some (set !! k) → is_Some (foldl putNode set nodes !! k).
Proof.
  induction nodes as [|kv nodes IH]; intros set k Hk; simpl; [done|].
  by apply IH, putNode_keeps.
Qed.

Lemma putNodes_puts (nodes : list (Hash * bytes)) : ∀ (set : NodeSet) (kv : Hash * bytes),
  kv ∈ nodes → is_Some (foldl putNode set nodes !! kv.1).
Proof.
  induction nodes as [|kv' nodes IH]; intros set kv Hin; simpl.
  - by apply elem_of_nil in Hin.
  - apply elem_of_cons in Hin as [->|Hin]; [apply putNodes_keeps, putNode_puts|by apply IH].
Qed.

Lemma prove_spec (t : Trie) (key : Hash) (set set' : NodeSet) :
  prove t key set = Ok set' →
  (∀ k, is_Some (set !! k) → is_Some (set' !! k)) ∧
  (∀ nodes kv, t key = Some nodes → kv ∈ nodes → is_Some (set' !! kv.1)).
Proof.
  unfold prove. destruct (t key) as [nodes|]; [|done]. intros [= <-]. split.
  - intros k. apply putNodes_keeps.
  - intros nodes' kv [= <-]. apply putNodes_puts.
Qed.

Lemma proveAll_spec (t : Trie) (keys : list Hash) : ∀ (set set' : NodeSet),
  proveAll t keys set = Ok set' →
  (∀ k, is_Some (set !! k) → is_Some (set' !! k)) ∧
  (∀ key nodes kv, key ∈ keys → t key = Some nodes → kv ∈ nodes → is_Some (set' !! kv.1)).
Proof.
  induction keys as [|key keys IH]; intros set set'; simpl.
  - intros [= <-]. split; [done|]. intros key nodes kv Hin. by apply elem_of_nil in Hin.
  - destruct (prove t key set) as [set1| |] eqn:Hp; simpl; [|done..].
    intros Hrest. destruct (prove_spec _ _ _ _ Hp) as [Hk1 Hp1].
    destruct (IH _ _ Hrest) as [Hk2 Hp2]. split; [by auto|].
    intros key' nodes kv Hin Hn Hkv.
    apply elem_of_cons in Hin as [->|Hin]; [apply Hk2; by eapply Hp1|by eapply Hp2].
Qed.

Lemma proveAll_Ok (t : Trie) (keys : list Hash) : ∀ set : NodeSet,
  (∀ key, key ∈ keys → is_Some (t key)) → is_Ok (proveAll t keys set).
Proof.
  induction keys as [|key keys IH]; intros set Hp; simpl; [by eexists|].
  destruct (prove_Ok t key set) as [set1 ->]; [apply Hp; by left|].
  simpl. apply IH. intros key' Hin. apply Hp. by right.
Qed.

(** What trimOverflow turns a response into.  [trimmedAt r r' n]: [r'] is
    [r] cut down to its first [n] hashes and accounts, with a larger
    overflow set, the rest being the same. *)
Record trimmedAt (r r' : accountResponse) (n : nat) : Prop := mkTrimmedAt {
  trimmed_task : ares_task r' = ares_task r;
  trimmed_hashes : ares_hashes r' = take n (ares_hashes r);
  trimmed_accounts : ares_accounts r' = take n (ares_accounts r);
  trimmed_nodes : ares_nodes r' = ares_nodes r;
  trimmed_trie : ares_trie r' = ares_trie r;
  trimmed_bounds : ares_bounds r' = ares_bounds r;
  trimmed_overflow : ∀ k, is_Some (ares_overflow r !! k) → is_Some (ares_overflow r' !! k);
  trimmed_cont : ares_cont r' = true → ares_cont r = true
}.

Lemma trimmedAt_cont (r : accountResponse) (n : nat) :
  (length (ares_hashes r) ≤ n)%nat → (length (ares_accounts r) ≤ n)%nat →
  trimmedAt r (set_ares_cont false r) n.
Proof. intros Hh Ha. split; simpl; try done; by rewrite take_ge. Qed.

Lemma trimmedAt_refl (r : accountResponse) (n : nat) :
  (length (ares_hashes r) ≤ n)%nat → (length (ares_accounts r) ≤ n)%nat →
  trimmedAt r r n.
Proof. intros Hh Ha. split; simpl; try done; by rewrite take_ge. Qed.

Lemma trimOverflow_spec (last : Hash) (pending : list Hash) :
  ∀ (i : nat) (r r' : accountResponse),
  length (ares_accounts r) = length (ares_hashes r) →
  drop i (ares_hashes r) = pending →
  trimOverflow last i pending r = Ok r' →
  ∃ n, (i ≤ n)%nat ∧ trimmedAt r r' n ∧
       Forall (λ h, h ≤ last) (drop i (ares_hashes r')) ∧
       (last ∈ drop i (ares_hashes r') → ares_cont r' = false) ∧
       ((n < length (ares_hashes r))%nat →
          ares_cont r' = false ∧
          (∃ h, ares_hashes r !! n = Some h ∧ last < h) ∧
          ∀ key nodes kv, key ∈ drop n (ares_hashes r) → ares_trie r key = Some nodes →
                          kv ∈ nodes → is_Some (ares_overflow r' !! kv.1)).
Proof.
  induction pending as [|hash rest IH]; intros i r r' Hacc Hdrop; simpl.
  - intros [= <-]. exists (Nat.max i (length (ares_hashes r))).
    split; [lia|]. split; [apply trimmedAt_refl; lia|].
    rewrite Hdrop. split; [constructor|]. split; [by intros ?%elem_of_nil|]. lia.
  - assert (ares_hashes r !! i = Some hash) as Hi.
    { rewrite <- (Nat.add_0_r i), <- lookup_drop, Hdrop. done. }
    assert (drop (S i) (ares_hashes r) = rest) as Hdrop'.
    { pose proof Hdrop as Hd. rewrite (drop_S _ _ _ Hi) in Hd. by injection Hd. }
    destruct (hash =? last) eqn:Heq; [|destruct (hash >? last) eqn:Hgt].
    + apply Z.eqb_eq in Heq. subst hash. intros Hrest.
      destruct (IH (S i) (set_ares_cont false r) r' Hacc Hdrop' Hrest)
        as (n & Hn & Htr & Hle & Hlast & Hcut).
      exists n. split; [lia|]. destruct Htr. simpl in *.
      split; [split; simpl; try done; intros Hc; by specialize (trimmed_cont0 Hc)|].
      assert (drop i (ares_hashes r') = last :: drop (S i) (ares_hashes r')) as ->.
      { rewrite trimmed_hashes0. rewrite (drop_S _ last i); [done|].
        rewrite lookup_take_lt; [done|lia]. }
      split; [constructor; [lia|done]|]. split; [|exact Hcut].
      intros _. destruct (ares_cont r') eqn:Hc; [|done]. by specialize (trimmed_cont0 eq_refl).
    + apply Z.gtb_lt in Hgt.
      destruct (proveAll _ _ _) as [overflow| |] eqn:Hp; simpl; [|done..].
      destruct (i <=? length (ares_accounts r))%nat eqn:Hia; [|done].
      intros [= <-]. exists i. split; [lia|].
      destruct (proveAll_spec _ _ _ _ Hp) as [Hk Hpr].
      split; [by split|]. simpl.
      rewrite drop_ge by (rewrite length_take; lia).
      split; [constructor|]. split; [by intros ?%elem_of_nil|].
      intros _. split; [done|]. split; [by exists hash|]. exact Hpr.
    + intros Hrest. apply Z.eqb_neq in Heq.
      assert (hash ≤ last) as Hle' by (rewrite Z.gtb_ltb in Hgt; apply Z.ltb_ge in Hgt; lia).
      destruct (IH (S i) r r' Hacc Hdrop' Hrest) as (n & Hn & Htr & Hle & Hlast & Hcut).
      exists n. split; [lia|]. split; [done|].
      assert (drop i (ares_hashes r') = hash :: drop (S i) (ares_hashes r')) as ->.
      { rewrite (trimmed_hashes _ _ _ Htr). rewrite (drop_S _ hash i); [done|].
        rewrite lookup_take_lt; [done|lia]. }
      split; [constructor; [lia|done]|]. split; [|exact Hcut].
      intros Hin. apply elem_of_cons in Hin as [->|Hin]; [done|by apply Hlast].
Qed.

Lemma trimOverflow_Ok (last : Hash) (pending : list Hash) :
  ∀ (i : nat) (r : accountResponse),
  provable r → drop i (ares_hashes r) = pending →
  is_Ok (trimOverflow last i pending r).
Proof.
  induction pending as [|hash rest IH]; intros i r Hp Hdrop; simpl; [by eexists|].
  assert (ares_hashes r !! i = Some hash) as Hi.
  { rewrite <- (Nat.add_0_r i), <- lookup_drop, Hdrop. done. }
  assert (drop (S i) (ares_hashes r) = rest) as Hdrop'.
  { pose proof Hdrop as Hd. rewrite (drop_S _ _ _ Hi) in Hd. by injection Hd. }
  destruct (hash =? last); [by apply IH|].
  destruct (hash >? last); [|by apply IH].
  destruct Hp as [Hacc Hp].
  destruct (proveAll_Ok (ares_trie r) (drop i (ares_hashes r)) (ares_overflow r))
    as [overflow ->].
  { intros key Hin. apply Hp. apply list_elem_of_lookup in Hin as [j Hj].
    rewrite lookup_drop in Hj. by eapply list_elem_of_lookup_2. }
  simpl. apply lookup_lt_Some in Hi.
  rewrite (proj2 (Nat.leb_le _ _)) by lia. by eexists.
Qed.

(** ** Filling in what the accounts of a response need *)

(** What the second loop of processAccountResponse leaves alone. *)
Record filled (t t' : accountTask) : Prop := mkFilled {
  filled_Next : Next t' = Next t;
  filled_Last : Last t' = Last t;
  filled_SubTasks : SubTasks t' = SubTasks t;
  filled_req : req t' = req t;
  filled_res : res t' = res t;
  filled_done : done t' = done t;
  filled_needCode : length (needCode t') = length (needCode t);
  filled_needState : length (needState t') = length (needState t);
  filled_needHeal : length (needHeal t') = length (needHeal t)
}.

Lemma filled_refl (t : accountTask) : filled t t.
Proof. by split. Qed.

Lemma filled_trans (t1 t2 t3 : accountTask) : filled t1 t2 → filled t2 t3 → filled t1 t3.
Proof. intros [] []. split; congruence. Qed.

(** Every subtask pointer of a task is allocated. *)
Definition subtasksAllocated (t : accountTask) (sts : gmap ptr storageTask) : Prop :=
  ∀ account ps p, SubTasks t !! account = Some ps → p ∈ ps → is_Some (sts !! p).

Lemma updateRoots_Ok (newRoot : Hash) (subtasks : list ptr) :
  ∀ sts : gmap ptr storageTask,
  (∀ p, p ∈ subtasks → is_Some (sts !! p)) →
  ∃ sts', updateRoots newRoot subtasks sts = Ok sts' ∧ dom sts' = dom sts.
Proof.
  induction subtasks as [|p rest IH]; intros sts Hall; simpl; [by eexists|].
  destruct (Hall p) as [st Hst]; [by left|].
  unfold deref. rewrite Hst. simpl.
  destruct (IH (<[p := set_st_root newRoot st]> sts)) as (sts' & -> & Hdom).
  - intros q Hq. destruct (decide (q = p)) as [->|Hne].
    + by rewrite lookup_insert_eq.
    + rewrite lookup_insert_ne by done. apply Hall. by right.
  - exists sts'. split; [done|]. rewrite Hdom, dom_insert_L.
    apply elem_of_dom_2 in Hst. set_solver.
Qed.

Lemma fillAccount_spec (d : DB) (hashes : list Hash) (i : nat) (account : Account)
    (t : accountTask) (sts : gmap ptr storageTask) (resumed : gset Hash) :
  (i < length hashes)%nat → subtasksAllocated t sts →
  ∃ t' sts' resumed',
    fillAccount d hashes i account (t, sts, resumed) = Ok (t', sts', resumed') ∧
    filled t t' ∧ dom sts' = dom sts.
Proof.
  intros Hi Hall. unfold fillAccount.
  set (t1 := if negb (CodeHash account =? emptyCode) then _ else t).
  assert (filled t t1) as Ht1.
  { subst t1. destruct (negb _); [|apply filled_refl].
    destruct (store d !! CodeKey (CodeHash account)); [apply filled_refl|].
    split; simpl; try done. by rewrite length_insert. }
  clearbody t1.
  destruct (negb (Root account =? emptyRoot)); [|by eexists _, _, _].
  destruct (store d !! TrieNodeKey (Root account)); [by eexists _, _, _|].
  destruct (lookup_lt_is_Some_2 hashes i Hi) as [h Hh].
  rewrite (index_lookup _ _ _ Hh). simpl.
  destruct (SubTasks t1 !! h) as [subtasks|] eqn:Hsub.
  - destruct (updateRoots_Ok (Root account) subtasks sts) as (sts' & -> & Hdom).
    { intros p Hp. eapply Hall; [|exact Hp]. by rewrite <- (filled_SubTasks _ _ Ht1). }
    simpl. eexists _, _, _. split; [done|]. split; [|done].
    eapply filled_trans; [exact Ht1|]. split; simpl; try done; by rewrite length_insert.
  - simpl. eexists _, _, _. split; [done|]. split; [|done].
    eapply filled_trans; [exact Ht1|]. split; simpl; try done; by rewrite length_insert.
Qed.

Lemma fillAccounts_spec (d : DB) (hashes : list Hash) (accounts : list Account) :
  ∀ (i : nat) (t : accountTask) (sts : gmap ptr storageTask) (resumed : gset Hash),
  (i + length accounts ≤ length hashes)%nat → subtasksAllocated t sts →
  ∃ t' sts' resumed',
    fillAccounts d hashes i accounts (t, sts, resumed) = Ok (t', sts', resumed') ∧
    filled t t' ∧ dom sts' = dom sts.
Proof.
  induction accounts as [|account rest IH]; intros i t sts resumed Hlen Hall;
    cbn [fillAccounts].
  - eexists _, _, _. split; [done|]. split; [apply filled_refl|done].
  - simpl in Hlen.
    destruct (fillAccount_spec d hashes i account t sts resumed) as
      (t1 & sts1 & resumed1 & -> & Hf1 & Hd1); [lia|done|].
    simpl. destruct (IH (S i) t1 sts1 resumed1) as (t' & sts' & resumed' & -> & Hf & Hd).
    + lia.
    + intros acc ps p Hps Hp. rewrite (filled_SubTasks _ _ Hf1) in Hps.
      apply elem_of_dom. rewrite Hd1. apply elem_of_dom. by eapply Hall.
    + eexists _, _, _. split; [done|]. split; [by eapply filled_trans|congruence].
Qed.

Lemma forwardAccountTask_spares {Sched : Type}
    (SlimAccountRLP : Z → Z → Hash → Hash → bytes)
    (task : ptr) (s s' : Syncer Sched) (t : accountTask) (r : accountResponse) :
  loadTask task s = Ok t → res t = Some r →
  forwardAccountTask SlimAccountRLP task s = Ok s' →
  ∀ node, node ∈ ares_bounds r ∨ is_Some (ares_overflow r !! node) →
    store (db s') !! TrieNodeKey node = store (db s) !! TrieNodeKey node.
Proof.
  intros Ht Hr. unfold forwardAccountTask. rewrite Ht. simpl. rewrite Hr.
  destruct (forwardBatch _ _ _) as [[batch size]| |] eqn:Hb; simpl; [|done..].
  destruct (pushMarker _ _ _) as [[t' fin]| |]; simpl; [|done..].
  intros [= <-] node Hnode. simpl.
  apply batchWrite_other. intros Hin.
  destruct (forwardBatch_spares _ _ _ _ _ Hb node Hin) as [Hnb Hno].
  destruct Hnode as [?|Ho]; [done|]. rewrite Hno in Ho. by apply is_Some_None in Ho.
Qed.

Lemma processAccountResponse_spec {Sched : Type}
    (SlimAccountRLP : Z → Z → Hash → Hash → bytes)
    (r : accountResponse) (s : Syncer Sched) (t : accountTask) :
  loadTask (ares_task r) s = Ok t → provable r →
  subtasksAllocated t (storageTasks (heap s)) →
  ∃ r' tf sts',
    trimOverflow (Last t) 0 (ares_hashes r) r = Ok r' ∧
    provable r' ∧ flagged tf r' ∧
    Next tf = Next t ∧ Last tf = Last t ∧ done tf = done t ∧
    res tf = Some r' ∧ req tf = None ∧
    processAccountResponse SlimAccountRLP r s =
      (let s1 := storeTask (ares_task r) tf (set_heap (set_storageTasks sts' (heap s)) s) in
       if pend tf =? 0 then forwardAccountTask SlimAccountRLP (ares_task r) s1 else Ok s1).
Proof.
  intros Ht Hp Hall. unfold processAccountResponse. rewrite Ht. simpl.
  destruct (trimOverflow_Ok (Last t) (ares_hashes r) 0 r Hp eq_refl) as [r' Hr'].
  destruct (trimOverflow_spec (Last t) (ares_hashes r) 0 r r' (proj1 Hp) eq_refl Hr')
    as (n & _ & Htr & _).
  rewrite Hr'. simpl.
  assert (length (ares_accounts r') = length (ares_hashes r')) as Hlen.
  { rewrite (trimmed_hashes _ _ _ Htr), (trimmed_accounts _ _ _ Htr), !length_take.
    destruct Hp as [-> _]. done. }
  set (t0 := set_pend 0 _).
  destruct (fillAccounts_spec (db s) (ares_hashes r') (ares_accounts r') 0 t0
              (storageTasks (heap s)) ∅) as (t' & sts' & resumed' & Hfill & Hf & Hd).
  { lia. } { exact Hall. }
  rewrite Hfill. simpl.
  exists r', (set_SubTasks (filter (λ kv, kv.1 ∈ resumed') (SubTasks t')) t'), sts'.
  split; [done|]. destruct Hf. subst t0. simpl in *.
  split.
  { split; [done|]. intros h Hh. rewrite (trimmed_trie _ _ _ Htr). apply (proj2 Hp).
    rewrite (trimmed_hashes _ _ _ Htr) in Hh.
    apply list_elem_of_lookup in Hh as [j Hj]. apply lookup_take_Some in Hj as [Hj _].
    by eapply list_elem_of_lookup_2. }
  split.
  { unfold flagged. simpl.
    rewrite filled_needCode0, filled_needState0, filled_needHeal0, !length_replicate.
    done. }
  done.
Qed.


(** A response that runs past the end of the first chunk. *)
Definition overflowingResponse : accountResponse :=
  mkAccountResponse 1%positive [10; 20; hashSpace / 16 + 5]
    [exampleAccount; exampleAccount; exampleAccount]
    {[10 := []; 20 := []; hashSpace / 16 + 5 := []]} exampleTrie ∅ ∅ true.
Definition idleTask : accountTask :=
  mkAccountTask 0 (hashSpace / 16 - 1) ∅ None None 0 [] [] [] ∅ ∅ false.
Definition idleSyncer : Syncer unit :=
  storeTask 1%positive idleTask (set_tasks [1%positive] (NewSyncer (mkDB ∅ None))).

Lemma overflowingResponse_provable : provable overflowingResponse.
Proof. split; [reflexivity|]. intros h _. by eexists. Qed.


(** ** The intervals of the account tasks *)

(** The [i]-th task of the list is [t], and [t] is not done. *)
Definition pendingAt {Sched : Type} (s : Syncer Sched) (i : nat) (t : accountTask) : Prop :=
  taskAt s i = Some t ∧ done t = false.

(** The intervals [Next, Last] of the tasks not yet done lie in the key
    space, are not empty, and are sorted and pairwise disjoint: an earlier
    task ends before a later one starts. *)
Record chunked {Sched : Type} (s : Syncer Sched) : Prop := mkChunked {
  chunked_valid : ∀ i t, pendingAt s i t → 0 ≤ Next t ∧ Next t ≤ Last t ∧ Last t < hashSpace;
  chunked_ascending : ∀ i j ti tj,
    (i < j)%nat → pendingAt s i ti → pendingAt s j tj → Last ti < Next tj
}.

(** The union of the intervals is the whole key space. *)
Definition covering {Sched : Type} (s : Syncer Sched) : Prop :=
  ∀ h, 0 ≤ h < hashSpace → ∃ i t, pendingAt s i t ∧ Next t ≤ h ∧ h ≤ Last t.

Lemma freshSyncStatus_pendingAt {Sched : Type} (s : Syncer Sched) (i : nat) (t : accountTask) :
  pendingAt (freshSyncStatus s) i t ↔
  (i < 16)%nat ∧
  t = freshTask (Z.of_nat i * (hashSpace / 16),
                 Z.of_nat i * (hashSpace / 16) + (hashSpace / 16 - 1)).
Proof.
  unfold pendingAt. rewrite freshSyncStatus_taskAt. split.
  - intros [Ht _]. destruct (decide (i < 16)%nat) as [Hi|Hi].
    + rewrite (chunks_account i Hi) in Ht. simpl in Ht. split; [done|congruence].
    + rewrite (proj2 (lookup_ge_None _ _)) in Ht; [done|].
      rewrite chunks_account_length. lia.
  - intros [Hi ->]. by rewrite (chunks_account i Hi).
Qed.

Lemma freshSyncStatus_chunked {Sched : Type} (s : Syncer Sched) :
  chunked (freshSyncStatus s) ∧ covering (freshSyncStatus s).
Proof.
  assert (hashSpace / 16 * 16 = hashSpace) as Hsp by reflexivity.
  assert (0 < hashSpace / 16) as Hpos by reflexivity.
  split; [split|].
  - intros i t [Hi ->]%freshSyncStatus_pendingAt. simpl.
    generalize dependent (hashSpace / 16). intros q Hq Hpos. nia.
  - intros i j ti tj Hij [Hi ->]%freshSyncStatus_pendingAt
      [Hj ->]%freshSyncStatus_pendingAt. simpl.
    generalize dependent (hashSpace / 16). intros q Hq Hpos. nia.
  - intros h Hh. eexists (Z.to_nat (h / (hashSpace / 16))), _.
    assert (0 ≤ h / (hashSpace / 16) < 16) as Hq.
    { split; [apply Z.div_pos; lia|]. apply Z.div_lt_upper_bound; lia. }
    split; [apply freshSyncStatus_pendingAt; split; [lia|reflexivity]|].
    simpl. rewrite Z2Nat.id by lia.
    pose proof (Z.mul_div_le h (hashSpace / 16) Hpos).
    pose proof (Z.mul_succ_div_gt h (hashSpace / 16) Hpos). lia.
Qed.

Lemma sublist_lookup_one {A : Type} (l' l : list A) (i : nat) (x : A) :
  sublist l' l → l' !! i = Some x → ∃ i', l !! i' = Some x.
Proof.
  intros Hsub Hi. apply list_elem_of_lookup.
  eapply elem_of_sublist; [|exact Hsub]. by eapply list_elem_of_lookup_2.
Qed.

Lemma sublist_lookup_two {A : Type} (l' l : list A) :
  sublist l' l → ∀ (i j : nat) (x y : A),
  (i < j)%nat → l' !! i = Some x → l' !! j = Some y →
  ∃ i' j', (i' < j')%nat ∧ l !! i' = Some x ∧ l !! j' = Some y.
Proof.
  induction 1 as [|z l1 l2 Hsub IH|z l1 l2 Hsub IH]; intros i j x y Hij Hi Hj.
  - done.
  - destruct j as [|j]; [lia|]. destruct i as [|i]; simpl in *.
    + destruct (sublist_lookup_one l1 l2 j y Hsub Hj) as [j' Hj'].
      exists O, (S j'). split; [lia|]. by simplify_eq.
    + destruct (IH i j x y ltac:(lia) Hi Hj) as (i' & j' & ? & ? & ?).
      exists (S i'), (S j'). split; [lia|done].
  - destruct (IH i j x y Hij Hi Hj) as (i' & j' & ? & ? & ?).
    exists (S i'), (S j'). split; [lia|done].
Qed.

Lemma dropDone_spec (ats : gmap ptr accountTask) (l l' : list ptr) :
  dropDone ats l = Ok l' →
  sublist l' l ∧
  (∀ p, p ∈ l' → ∃ t, ats !! p = Some t ∧ done t = false) ∧
  (∀ p t, p ∈ l → ats !! p = Some t → done t = false → p ∈ l').
Proof.
  revert l'. induction l as [|p l IH]; intros l'; simpl.
  - intros [= <-]. split; [constructor|]. split; [by intros ? ?%elem_of_nil|done].
  - destruct (deref ats p) as [t| |] eqn:Ht; simpl; [|done..]. apply deref_Ok in Ht.
    destruct (dropDone ats l) as [rest| |]; simpl; [|done..].
    destruct (IH rest eq_refl) as (Hsub & Hall & Hkeep).
    intros [= <-]. destruct (done t) eqn:Hd.
    + split; [by constructor|]. split; [done|].
      intros q tq Hq Htq Hdq. apply elem_of_cons in Hq as [->|Hq]; [congruence|by eauto].
    + split; [by constructor|]. split.
      * intros q Hq. apply elem_of_cons in Hq as [->|Hq]; [by eauto|by eauto].
      * intros q tq Hq Htq Hdq. apply elem_of_cons in Hq as [->|Hq]; [by left|].
        right. by eauto.
Qed.

Lemma taskAt_Some {Sched : Type} (s : Syncer Sched) (i : nat) (t : accountTask) :
  taskAt s i = Some t ↔ ∃ p, tasks s !! i = Some p ∧ accountTasks (heap s) !! p = Some t.
Proof.
  unfold taskAt. destruct (tasks s !! i) as [p|]; split.
  - by exists p.
  - by intros (? & [= <-] & ?).
  - done.
  - by intros (? & ? & _).
Qed.

Lemma cleanAccountTasks_spec {Sched : Type} (s s' : Syncer Sched) :
  cleanAccountTasks s = Ok s' →
  heap s' = heap s ∧ sublist (tasks s') (tasks s) ∧
  (∀ i t, taskAt s' i = Some t → done t = false) ∧
  (∀ i t, pendingAt s i t → ∃ i', pendingAt s' i' t).
Proof.
  unfold cleanAccountTasks.
  destruct (dropDone _ _) as [l| |] eqn:Hl; simpl; [|done..].
  destruct (dropDone_spec _ _ _ Hl) as (Hsub & Hall & Hkeep).
  intros [= <-].
  assert (∀ b : bool, heap (if b then set_snapped true (set_tasks l s) else set_tasks l s)
                      = heap s) as Hheap by (by intros []).
  assert (∀ b : bool, tasks (if b then set_snapped true (set_tasks l s) else set_tasks l s)
                      = l) as Htasks by (by intros []).
  split; [apply Hheap|]. split; [by rewrite Htasks|]. split.
  - intros i t (p & Hp & Ht)%taskAt_Some. rewrite Htasks in Hp. rewrite Hheap in Ht.
    destruct (Hall p) as (t' & Ht' & Hd); [by eapply list_elem_of_lookup_2|]. congruence.
  - intros i t [(p & Hp & Ht)%taskAt_Some Hd].
    assert (p ∈ l) as Hin by (eapply Hkeep; eauto using list_elem_of_lookup_2).
    apply list_elem_of_lookup in Hin as [i' Hi']. exists i'. split; [|done].
    apply taskAt_Some. exists p. by rewrite Htasks, Hheap.
Qed.

Lemma cleanAccountTasks_chunked {Sched : Type} (s s' : Syncer Sched) :
  cleanAccountTasks s = Ok s' → chunked s → chunked s'.
Proof.
  intros Hc [Hv Ha]. destruct (cleanAccountTasks_spec s s' Hc) as (Hheap & Hsub & _ & _).
  assert (∀ i t, pendingAt s' i t → ∃ i', pendingAt s i' t) as Hback.
  { intros i t [(p & Hp & Ht)%taskAt_Some Hd].
    destruct (sublist_lookup_one _ _ _ _ Hsub Hp) as [i' Hi'].
    exists i'. split; [|done]. apply taskAt_Some. exists p. by rewrite <- Hheap. }
  split.
  - intros i t Hp. destruct (Hback i t Hp) as [i' Hi']. by eapply Hv.
  - intros i j ti tj Hij [(pi & Hpi & Hti)%taskAt_Some Hdi]
      [(pj & Hpj & Htj)%taskAt_Some Hdj].
    destruct (sublist_lookup_two _ _ Hsub i j pi pj Hij Hpi Hpj) as (i' & j' & Hlt & Hi' & Hj').
    apply (Ha i' j'); [done|split; [|done]..]; apply taskAt_Some; eexists;
      rewrite <- Hheap; eauto.
Qed.

(** Writing [t'] for [t] through a pointer of the list keeps the intervals
    in order when [t'] keeps Last and, unless done, moves Next forward
    without passing Last. *)
Lemma chunked_store {Sched : Type} (s s' : Syncer Sched) (task : ptr) (t t' : accountTask) :
  tasks s' = tasks s →
  (∀ p, accountTasks (heap s') !! p =
          if decide (p = task) then Some t' else accountTasks (heap s) !! p) →
  loadTask task s = Ok t → done t = false → Last t' = Last t →
  (∀ i, pendingAt s i t → done t' = false → Next t ≤ Next t' ∧ Next t' ≤ Last t) →
  chunked s → chunked s'.
Proof.
  intros Htasks Hheap Ht Hd HL Hnext [Hv Ha]. apply deref_Ok in Ht.
  assert (∀ i x, pendingAt s' i x →
            (x = t' ∧ pendingAt s i t) ∨ (x ≠ t' ∨ True) ∧ pendingAt s i x ∧
            tasks s !! i ≠ Some task) as Hcases.
  { intros i x [(p & Hp & Hx)%taskAt_Some Hdx]. rewrite Htasks in Hp. rewrite Hheap in Hx.
    destruct (decide (p = task)) as [->|Hne].
    - left. split; [congruence|]. split; [|done]. apply taskAt_Some. by exists task.
    - right. split; [by right|]. split; [|congruence].
      split; [|done]. apply taskAt_Some. by exists p. }
  split.
  - intros i x Hx. destruct (Hcases i x Hx) as [[-> Hp]|(_ & Hp & _)]; [|by eapply Hv].
    destruct Hx as [_ Hdx]. destruct (Hv i t Hp) as (? & ? & ?).
    destruct (Hnext i Hp Hdx). lia.
  - intros i j xi xj Hij Hxi Hxj.
    destruct (Hcases i xi Hxi) as [[-> Hpi]|(_ & Hpi & Hni)];
      destruct (Hcases j xj Hxj) as [[-> Hpj]|(_ & Hpj & Hnj)].
    + pose proof (Ha i j t t Hij Hpi Hpj). destruct (Hv i t Hpi) as (? & ? & ?). lia.
    + pose proof (Ha i j t xj Hij Hpi Hpj). lia.
    + pose proof (Ha i j xi t Hij Hpi Hpj). destruct Hxj as [_ Hdx].
      destruct (Hnext j Hpj Hdx). lia.
    + by eapply Ha.
Qed.

(** What the range proof verifier lets through: hashes in strictly
    ascending order. *)
Definition ascendingHashes (l : list Hash) : Prop :=
  ∀ (i j : nat) x y, (i < j)%nat → l !! i = Some x → l !! j = Some y → x < y.

(** The response a task holds lies within the task's interval, and a
    response that reaches Last has no continuation. *)
Definition inRange (t : accountTask) (r : accountResponse) : Prop :=
  Forall (λ h, Next t ≤ h ∧ h ≤ Last t) (ares_hashes r) ∧
  ascendingHashes (ares_hashes r) ∧
  (Last t ∈ ares_hashes r → ares_cont r = false).

Lemma forwardedTask_Last (t : accountTask) (r : accountResponse) :
  Last (forwardedTask t r) = Last t.
Proof. unfold forwardedTask. by destruct (bool_decide _). Qed.

Lemma forwardedTask_range (t : accountTask) (r : accountResponse) :
  provable r → flagged t r → inRange t r →
  0 ≤ Next t → Next t ≤ Last t → Last t < hashSpace →
  done (forwardedTask t r) = false →
  Next t ≤ Next (forwardedTask t r) ∧ Next (forwardedTask t r) ≤ Last t.
Proof.
  intros [Hacc _] (Hc & Hs & _) (Hin & Hasc & Hlast) H0 HNL HL Hd.
  destruct (complete_spec (missingFlags t)) as [_ Hat].
  assert (length (missingFlags t) = length (ares_hashes r)) as Hlen.
  { unfold missingFlags. rewrite length_zip_with. lia. }
  assert (Next (forwardedTask t r) = forwarded t (ares_hashes r)) as ->.
  { unfold forwardedTask. by destruct (bool_decide _). }
  unfold forwarded. set (k := complete (missingFlags t)) in *.
  assert (k ≤ length (ares_hashes r))%nat as Hk.
  { destruct Hat as [Hat|Hat]; [apply lookup_lt_Some in Hat|]; lia. }
  destruct k as [|k'] eqn:Ek; [rewrite take_0; simpl; lia|].
  rewrite last_lookup, length_take, Nat.min_l by lia. simpl.
  rewrite lookup_take_lt by lia.
  destruct (lookup_lt_is_Some_2 (ares_hashes r) k') as [h Hh]; [lia|].
  rewrite Hh. rewrite Forall_lookup in Hin. destruct (Hin k' h Hh) as [Hlo Hhi].
  assert (h < Last t) as Hlt.
  { destruct (decide (S k' = length (ares_hashes r))) as [Hall|Hsome].
    - unfold forwardedTask in Hd. fold k in Hd. rewrite Ek in Hd.
      rewrite bool_decide_eq_true_2 in Hd by lia. simpl in Hd.
      apply negb_false_iff in Hd.
      destruct (decide (h = Last t)) as [->|]; [|lia].
      rewrite Hlast in Hd; [done|]. by eapply list_elem_of_lookup_2.
    - destruct (lookup_lt_is_Some_2 (ares_hashes r) (S k')) as [h2 Hh2]; [lia|].
      pose proof (Hasc k' (S k') h h2 ltac:(lia) Hh Hh2).
      destruct (Hin (S k') h2 Hh2). lia. }
  unfold BigToHash. rewrite Z.mod_small by lia. lia.
Qed.

Lemma forwardAccountTask_chunked {Sched : Type}
    (SlimAccountRLP : Z → Z → Hash → Hash → bytes)
    (task : ptr) (s : Syncer Sched) (t : accountTask) (r : accountResponse) :
  loadTask task s = Ok t → res t = Some r → done t = false →
  provable r → flagged t r → inRange t r → chunked s →
  ∃ s', forwardAccountTask SlimAccountRLP task s = Ok s' ∧ chunked s' ∧
        tasks s' = tasks s ∧ loadTask task s' = Ok (forwardedTask t r).
Proof.
  intros Ht Hr Hd Hp Hf Hin Hch.
  destruct (forwardAccountTask_spec SlimAccountRLP task s t r Ht Hr Hp Hf)
    as (batch & size & _ & Hfw).
  eexists. split; [exact Hfw|]. split; [|split; [done|apply loadTask_storeTask]].
  eapply (chunked_store s _ task t (forwardedTask t r)); try done.
  - intros p. simpl. destruct (decide (p = task)) as [->|Hne].
    + by rewrite lookup_insert_eq.
    + by rewrite lookup_insert_ne.
  - apply forwardedTask_Last.
  - intros i Hi Hd'. destruct (chunked_valid s Hch i t Hi) as (? & ? & ?).
    by apply forwardedTask_range.
Qed.

Lemma ascendingHashes_take (l : list Hash) (n : nat) :
  ascendingHashes l → ascendingHashes (take n l).
Proof.
  intros Hasc i j x y Hij Hi Hj.
  apply lookup_take_Some in Hi as [Hi _]. apply lookup_take_Some in Hj as [Hj _].
  by eapply Hasc.
Qed.

Lemma processAccountResponse_chunked {Sched : Type}
    (SlimAccountRLP : Z → Z → Hash → Hash → bytes)
    (r : accountResponse) (s : Syncer Sched) (t : accountTask) :
  loadTask (ares_task r) s = Ok t → done t = false → provable r →
  subtasksAllocated t (storageTasks (heap s)) →
  Forall (λ h, Next t ≤ h) (ares_hashes r) → ascendingHashes (ares_hashes r) →
  chunked s →
  ∃ s' t', processAccountResponse SlimAccountRLP r s = Ok s' ∧ chunked s' ∧
           tasks s' = tasks s ∧ loadTask (ares_task r) s' = Ok t' ∧ Last t' = Last t ∧
           ∀ r', res t' = Some r' →
                 done t' = false ∧ provable r' ∧ flagged t' r' ∧ inRange t' r'.
Proof.
  intros Ht Hd Hp Hall Hge Hasc Hch.
  destruct (processAccountResponse_spec SlimAccountRLP r s t Ht Hp Hall)
    as (r' & tf & sts' & Htrim & Hp' & Hf' & HN & HL & HD & Hres & Hreq & Hproc).
  destruct (trimOverflow_spec (Last t) (ares_hashes r) 0 r r' (proj1 Hp) eq_refl Htrim)
    as (n & _ & Htr & Hle & Hlast & _).
  rewrite drop_0 in Hle, Hlast.
  set (s1 := storeTask (ares_task r) tf (set_heap (set_storageTasks sts' (heap s)) s)) in *.
  assert (loadTask (ares_task r) s1 = Ok tf) as Hld1 by apply loadTask_storeTask.
  assert (inRange tf r') as Hin.
  { split; [|split].
    - rewrite HN, HL. rewrite Forall_lookup in Hle, Hge. apply Forall_lookup.
      intros i h Hi. split; [|by eapply Hle].
      rewrite (trimmed_hashes _ _ _ Htr) in Hi. apply lookup_take_Some in Hi as [Hi _].
      by eapply Hge.
    - rewrite (trimmed_hashes _ _ _ Htr). by apply ascendingHashes_take.
    - rewrite HL. exact Hlast. }
  assert (chunked s1) as Hch1.
  { eapply (chunked_store s s1 (ares_task r) t tf); try done.
    - intros p. simpl. destruct (decide (p = ares_task r)) as [->|Hne].
      + by rewrite lookup_insert_eq.
      + by rewrite lookup_insert_ne.
    - intros i Hi _. destruct (chunked_valid s Hch i t Hi) as (? & ? & ?). lia. }
  rewrite Hproc. cbv zeta. fold s1. destruct (pend tf =? 0).
  - destruct (forwardAccountTask_chunked SlimAccountRLP _ s1 tf r' Hld1 Hres
                ltac:(congruence) Hp' Hf' Hin Hch1) as (s' & Hfw & Hch' & Htasks & Hld').
    exists s', (forwardedTask tf r'). split; [done|]. split; [done|].
    split; [by rewrite Htasks|]. split; [done|].
    split; [by rewrite forwardedTask_Last|].
    intros r2 Hr2. unfold forwardedTask in Hr2. by destruct (bool_decide _).
  - exists s1, tf. split; [done|]. split; [done|]. split; [done|]. split; [done|].
    split; [done|]. intros r2 Hr2. assert (r2 = r') as -> by congruence.
    split; [congruence|done].
Qed.


(** The first delivery of a fresh cycle: the first chunk's peer returns
    one plain account at hash 10, with more to come. *)
Definition freshCycle : Syncer unit := freshSyncStatus (NewSyncer (mkDB ∅ None)).
Definition firstDelivery : accountResponse :=
  mkAccountResponse 1%positive [10] [exampleAccount] {[10 := []]} exampleTrie ∅ ∅ true.
Definition afterFirstDelivery : Syncer unit :=
  match processAccountResponse exampleSlim firstDelivery freshCycle with
  | Ok s' => s'
  | _ => freshCycle
  end.

Lemma afterFirstDelivery_eq :
  processAccountResponse exampleSlim firstDelivery freshCycle = Ok afterFirstDelivery.
Proof. vm_compute. reflexivity. Qed.

(** C1 as stated: the task list is still a partition of the whole key
    space after a response was integrated and its task forwarded. *)
Definition partitionKept : Prop :=
  ∀ (r : accountResponse) (s s' : Syncer unit) (t : accountTask),
    loadTask (ares_task r) s = Ok t → done t = false → provable r →
    subtasksAllocated t (storageTasks (heap s)) →
    Forall (λ h, Next t ≤ h) (ares_hashes r) → ascendingHashes (ares_hashes r) →
    chunked s → covering s →
    processAccountResponse exampleSlim r s = Ok s' →
    chunked s' ∧ covering s'.


(** ** The revert protocol *)

Lemma foldl_union_elem (hashes : list Hash) : ∀ (m : gset Hash) (h : Hash),
  h ∈ foldl (λ m hash, {[hash]} ∪ m) m hashes ↔ h ∈ hashes ∨ h ∈ m.
Proof.
  induction hashes as [|x hashes IH]; intros m h; simpl.
  - set_solver.
  - rewrite IH. set_solver.
Qed.

(** What [reinsertStateTasks] and [reinsertTrieTasks] leave in the map:
    every key of the request maps to the value at its last position. *)
Lemma reinsertStateTasks_spec (accounts roots : list Hash) :
  ∀ (i : nat) (m : gmap Hash Hash),
  (i + length accounts ≤ length roots)%nat →
  ∃ m', reinsertStateTasks accounts roots i m = Ok m' ∧
        (∀ j account, accounts !! j = Some account →
           (∀ j', (j < j')%nat → accounts !! j' ≠ Some account) →
           m' !! account = roots !! (i + j)%nat) ∧
        (∀ account, account ∉ accounts → m' !! account = m !! account).
Proof.
  induction accounts as [|a accounts IH]; intros i m Hlen; simpl in *.
  - exists m. split; [done|]. split; [by intros j|done].
  - destruct (lookup_lt_is_Some_2 roots i) as [r Hr]; [lia|].
    rewrite (index_lookup _ _ _ Hr). simpl.
    destruct (IH (S i) (<[a := r]> m)) as (m' & -> & Hin & Hout); [lia|].
    exists m'. split; [done|]. split.
    + intros [|j] account Hj Hlast; simpl in Hj.
      * injection Hj as ->. rewrite Nat.add_0_r.
        rewrite Hout; [by rewrite lookup_insert_eq|].
        intros Hmem. apply list_elem_of_lookup in Hmem as [j' Hj'].
        by apply (Hlast (S j')); [lia|].
      * replace (i + S j)%nat with (S i + j)%nat by lia. apply Hin; [done|].
        intros j' Hjj'. apply (Hlast (S j')). lia.
    + intros account Hnot. rewrite Hout by set_solver.
      apply lookup_insert_ne. set_solver.
Qed.

Lemma reinsertTrieTasks_spec (hashes : list Hash) (paths : list SyncPath) :
  ∀ (i : nat) (m : gmap Hash SyncPath),
  (i + length hashes ≤ length paths)%nat →
  ∃ m', reinsertTrieTasks hashes paths i m = Ok m' ∧
        (∀ j hash, hashes !! j = Some hash →
           (∀ j', (j < j')%nat → hashes !! j' ≠ Some hash) →
           m' !! hash = paths !! (i + j)%nat) ∧
        (∀ hash, hash ∉ hashes → m' !! hash = m !! hash).
Proof.
  induction hashes as [|a hashes IH]; intros i m Hlen; simpl in *.
  - exists m. split; [done|]. split; [by intros j|done].
  - destruct (lookup_lt_is_Some_2 paths i) as [r Hr]; [lia|].
    rewrite (index_lookup _ _ _ Hr). simpl.
    destruct (IH (S i) (<[a := r]> m)) as (m' & -> & Hin & Hout); [lia|].
    exists m'. split; [done|]. split.
    + intros [|j] hash Hj Hlast; simpl in Hj.
      * injection Hj as ->. rewrite Nat.add_0_r.
        rewrite Hout; [by rewrite lookup_insert_eq|].
        intros Hmem. apply list_elem_of_lookup in Hmem as [j' Hj'].
        by apply (Hlast (S j')); [lia|].
      * replace (i + S j)%nat with (S i + j)%nat by lia. apply Hin; [done|].
        intros j' Hjj'. apply (Hlast (S j')). lia.
    + intros hash Hnot. rewrite Hout by set_solver.
      apply lookup_insert_ne. set_solver.
Qed.

(** A timer that was stopped is not running. *)
Lemma timerStop_stopped (timer : Timer) : (timerStop timer).2 ≠ TimerArmed.
Proof. by destruct timer. Qed.

Section Reverts.
Context {Sched : Type}.
Implicit Types s : Syncer Sched.

Lemma revertAccountRequest_stale (request : ptr) s (r : accountRequest) :
  accountRequests (heap s) !! request = Some r → areq_stale r = true →
  revertAccountRequest request s = Ok s.
Proof.
  intros Hr Hst. unfold revertAccountRequest, deref. rewrite Hr. simpl. by rewrite Hst.
Qed.

Lemma revertAccountRequest_first (request : ptr) s (r : accountRequest) (t : accountTask) :
  accountRequests (heap s) !! request = Some r → areq_stale r = false →
  loadTask (areq_task r) s = Ok t →
  ∃ s' r' t',
    revertAccountRequest request s = Ok s' ∧
    accountReqs (requests s') = delete (areq_id r) (accountReqs (requests s)) ∧
    accountRequests (heap s') !! request = Some r' ∧
    areq_stale r' = true ∧ areq_timeout r' = (timerStop (areq_timeout r)).2 ∧
    loadTask (areq_task r) s' = Ok t' ∧
    t' = (if bool_decide (req t = Some request) then set_req None t else t) ∧
    revertAccountRequest request s' = Ok s'.
Proof.
  intros Hr Hst Ht. unfold revertAccountRequest at 1. unfold deref. rewrite Hr. simpl.
  rewrite Hst. simpl.
  unfold loadTask, deref in Ht |- *. simpl.
  destruct (accountTasks (heap s) !! areq_task r) as [t0|] eqn:Ht0; [|done].
  injection Ht as ->. simpl.
  destruct (bool_decide (req t = Some request)) eqn:Hd; simpl;
    eexists _, _, _; (split; [reflexivity|]); simpl;
    rewrite ?lookup_insert_eq, ?Ht0;
    (repeat split; try done);
    (eapply revertAccountRequest_stale; simpl; [apply lookup_insert_eq|done]).
Qed.

Lemma revertBytecodeRequest_stale (request : ptr) s (r : bytecodeRequest) :
  bytecodeRequests (heap s) !! request = Some r → breq_stale r = true →
  revertBytecodeRequest request s = Ok s.
Proof.
  intros Hr Hst. unfold revertBytecodeRequest, deref. rewrite Hr. simpl. by rewrite Hst.
Qed.

Lemma revertBytecodeRequest_first (request : ptr) s (r : bytecodeRequest) (t : accountTask) :
  bytecodeRequests (heap s) !! request = Some r → breq_stale r = false →
  loadTask (breq_task r) s = Ok t →
  ∃ s' r' t',
    revertBytecodeRequest request s = Ok s' ∧
    bytecodeReqs (requests s') = delete (breq_id r) (bytecodeReqs (requests s)) ∧
    bytecodeRequests (heap s') !! request = Some r' ∧
    breq_stale r' = true ∧ breq_timeout r' = (timerStop (breq_timeout r)).2 ∧
    loadTask (breq_task r) s' = Ok t' ∧
    (∀ h, h ∈ codeTasks t' ↔ h ∈ breq_hashes r ∨ h ∈ codeTasks t) ∧
    revertBytecodeRequest request s' = Ok s'.
Proof.
  intros Hr Hst Ht. unfold revertBytecodeRequest at 1. unfold deref. rewrite Hr. simpl.
  rewrite Hst. simpl.
  unfold loadTask, deref in Ht |- *. simpl.
  destruct (accountTasks (heap s) !! breq_task r) as [t0|] eqn:Ht0; [|done].
  injection Ht as ->.
  destruct (breq_hashes r) as [|h0 hashes] eqn:Hh; simpl.
  - eexists _, _, _. split; [reflexivity|]. simpl. rewrite lookup_insert_eq, Ht0.
    repeat split; try done.
    + by right.
    + intros [?%elem_of_nil|]; done.
    + eapply revertBytecodeRequest_stale; simpl; [apply lookup_insert_eq|done].
  - eexists _, _, _. split; [reflexivity|]. simpl. rewrite !lookup_insert_eq.
    split; [done|]. split; [done|]. split; [done|]. split; [done|]. split; [done|].
    split.
    + intros h. simpl. rewrite foldl_union_elem. set_solver.
    + eapply revertBytecodeRequest_stale; simpl; [apply lookup_insert_eq|done].
Qed.

Lemma revertStorageRequest_stale (request : ptr) s (r : storageRequest) :
  storageRequests (heap s) !! request = Some r → sreq_stale r = true →
  revertStorageRequest request s = Ok s.
Proof.
  intros Hr Hst. unfold revertStorageRequest, deref. rewrite Hr. simpl. by rewrite Hst.
Qed.

Lemma revertStorageRequest_large (request : ptr) s (r : storageRequest) (sub : ptr)
    (st : storageTask) :
  storageRequests (heap s) !! request = Some r → sreq_stale r = false →
  sreq_subTask r = Some sub → loadSubTask sub s = Ok st →
  ∃ s' r',
    revertStorageRequest request s = Ok s' ∧
    storageReqs (requests s') = delete (sreq_id r) (storageReqs (requests s)) ∧
    storageRequests (heap s') !! request = Some r' ∧
    sreq_stale r' = true ∧ sreq_timeout r' = (timerStop (sreq_timeout r)).2 ∧
    loadSubTask sub s' = Ok (set_st_req None st) ∧
    accountTasks (heap s') = accountTasks (heap s) ∧
    revertStorageRequest request s' = Ok s'.
Proof.
  intros Hr Hst Hsub Hl. unfold revertStorageRequest at 1. unfold deref. rewrite Hr. simpl.
  rewrite Hst. simpl. rewrite Hsub.
  unfold loadSubTask, deref in Hl |- *. simpl.
  destruct (storageTasks (heap s) !! sub) as [st0|] eqn:Hst0; [|done].
  injection Hl as ->. simpl.
  eexists _, _. split; [reflexivity|]. simpl. rewrite !lookup_insert_eq.
  repeat split; try done.
  eapply revertStorageRequest_stale; simpl; [apply lookup_insert_eq|done].
Qed.

Lemma revertStorageRequest_small (request : ptr) s (r : storageRequest) (t : accountTask) :
  storageRequests (heap s) !! request = Some r → sreq_stale r = false →
  sreq_subTask r = None → loadTask (sreq_mainTask r) s = Ok t →
  (length (sreq_accounts r) ≤ length (sreq_roots r))%nat →
  ∃ s' r' t',
    revertStorageRequest request s = Ok s' ∧
    storageReqs (requests s') = delete (sreq_id r) (storageReqs (requests s)) ∧
    storageRequests (heap s') !! request = Some r' ∧
    sreq_stale r' = true ∧ sreq_timeout r' = (timerStop (sreq_timeout r)).2 ∧
    loadTask (sreq_mainTask r) s' = Ok t' ∧
    (∀ j account, sreq_accounts r !! j = Some account →
       (∀ j', (j < j')%nat → sreq_accounts r !! j' ≠ Some account) →
       stateTasks t' !! account = sreq_roots r !! j) ∧
    (∀ account, account ∉ sreq_accounts r →
       stateTasks t' !! account = stateTasks t !! account) ∧
    revertStorageRequest request s' = Ok s'.
Proof.
  intros Hr Hst Hsub Ht Hlen. unfold revertStorageRequest at 1. unfold deref.
  rewrite Hr. simpl. rewrite Hst. simpl. rewrite Hsub.
  unfold loadTask, deref in Ht |- *. simpl.
  destruct (accountTasks (heap s) !! sreq_mainTask r) as [t0|] eqn:Ht0; [|done].
  injection Ht as ->.
  destruct (reinsertStateTasks_spec (sreq_accounts r) (sreq_roots r) 0 (stateTasks t))
    as (m' & Hm & Hin & Hout); [lia|].
  destruct (sreq_accounts r) as [|a0 accounts] eqn:Ha.
  - eexists _, _, _. split; [reflexivity|]. simpl. rewrite lookup_insert_eq, Ht0.
    repeat split; try done.
    eapply revertStorageRequest_stale; simpl; [apply lookup_insert_eq|done].
  - simpl in Hm |- *. rewrite Hm. simpl.
    eexists _, _, _. split; [reflexivity|]. simpl. rewrite !lookup_insert_eq.
    split; [done|]. split; [done|]. split; [done|]. split; [done|]. split; [done|].
    split; [exact Hin|]. split; [exact Hout|].
    eapply revertStorageRequest_stale; simpl; [apply lookup_insert_eq|done].
Qed.

Lemma revertTrienodeHealRequest_stale (request : ptr) s (r : trienodeHealRequest) :
  trienodeHealRequests (heap s) !! request = Some r → treq_stale r = true →
  revertTrienodeHealRequest request s = Ok s.
Proof.
  intros Hr Hst. unfold revertTrienodeHealRequest, deref. rewrite Hr. simpl. by rewrite Hst.
Qed.

Lemma revertTrienodeHealRequest_first (request : ptr) s (r : trienodeHealRequest)
    (ht : healTask Sched) :
  trienodeHealRequests (heap s) !! request = Some r → treq_stale r = false →
  healTasks (heap s) !! treq_task r = Some ht →
  (length (treq_hashes r) ≤ length (treq_paths r))%nat →
  ∃ s' r' ht',
    revertTrienodeHealRequest request s = Ok s' ∧
    trienodeHealReqs (requests s') = delete (treq_id r) (trienodeHealReqs (requests s)) ∧
    trienodeHealRequests (heap s') !! request = Some r' ∧
    treq_stale r' = true ∧ treq_timeout r' = (timerStop (treq_timeout r)).2 ∧
    healTasks (heap s') !! treq_task r = Some ht' ∧
    (∀ j hash, treq_hashes r !! j = Some hash →
       (∀ j', (j < j')%nat → treq_hashes r !! j' ≠ Some hash) →
       trieTasks ht' !! hash = treq_paths r !! j) ∧
    (∀ hash, hash ∉ treq_hashes r → trieTasks ht' !! hash = trieTasks ht !! hash) ∧
    heal_codeTasks ht' = heal_codeTasks ht ∧
    revertTrienodeHealRequest request s' = Ok s'.
Proof.
  intros Hr Hst Ht Hlen. unfold revertTrienodeHealRequest at 1. unfold deref.
  rewrite Hr. simpl. rewrite Hst. simpl.
  destruct (reinsertTrieTasks_spec (treq_hashes r) (treq_paths r) 0 (trieTasks ht))
    as (m' & Hm & Hin & Hout); [lia|].
  destruct (treq_hashes r) as [|a0 hashes] eqn:Ha.
  - eexists _, _, _. split; [reflexivity|]. simpl. rewrite lookup_insert_eq.
    split; [done|]. split; [done|]. split; [done|]. split; [done|].
    split; [exact Ht|]. repeat split; try done.
    eapply revertTrienodeHealRequest_stale; simpl; [apply lookup_insert_eq|done].
  - rewrite Ht. simpl in Hm |- *. rewrite Hm. simpl.
    eexists _, _, _. split; [reflexivity|]. simpl. rewrite !lookup_insert_eq.
    split; [done|]. split; [done|]. split; [done|]. split; [done|]. split; [done|].
    split; [exact Hin|]. split; [exact Hout|]. split; [done|].
    eapply revertTrienodeHealRequest_stale; simpl; [apply lookup_insert_eq|done].
Qed.

Lemma revertBytecodeHealRequest_stale (request : ptr) s (r : bytecodeHealRequest) :
  bytecodeHealRequests (heap s) !! request = Some r → hreq_stale r = true →
  revertBytecodeHealRequest request s = Ok s.
Proof.
  intros Hr Hst. unfold revertBytecodeHealRequest, deref. rewrite Hr. simpl. by rewrite Hst.
Qed.

Lemma revertBytecodeHealRequest_first (request : ptr) s (r : bytecodeHealRequest)
    (ht : healTask Sched) :
  bytecodeHealRequests (heap s) !! request = Some r → hreq_stale r = false →
  healTasks (heap s) !! hreq_task r = Some ht →
  ∃ s' r' ht',
    revertBytecodeHealRequest request s = Ok s' ∧
    bytecodeHealReqs (requests s') = delete (hreq_id r) (bytecodeHealReqs (requests s)) ∧
    bytecodeHealRequests (heap s') !! request = Some r' ∧
    hreq_stale r' = true ∧ hreq_timeout r' = (timerStop (hreq_timeout r)).2 ∧
    healTasks (heap s') !! hreq_task r = Some ht' ∧
    (∀ h, h ∈ heal_codeTasks ht' ↔ h ∈ hreq_hashes r ∨ h ∈ heal_codeTasks ht) ∧
    trieTasks ht' = trieTasks ht ∧
    revertBytecodeHealRequest request s' = Ok s'.
Proof.
  intros Hr Hst Ht. unfold revertBytecodeHealRequest at 1. unfold deref.
  rewrite Hr. simpl. rewrite Hst. simpl.
  destruct (hreq_hashes r) as [|h0 hashes] eqn:Hh; simpl.
  - eexists _, _, _. split; [reflexivity|]. simpl. rewrite lookup_insert_eq.
    split; [done|]. split; [done|]. split; [done|]. split; [done|].
    split; [exact Ht|]. split; [|split; [done|]].
    + intros h. split; [by right|]. intros [?%elem_of_nil|]; done.
    + eapply revertBytecodeHealRequest_stale; simpl; [apply lookup_insert_eq|done].
  - rewrite Ht. simpl.
    eexists _, _, _. split; [reflexivity|]. simpl. rewrite !lookup_insert_eq.
    split; [done|]. split; [done|]. split; [done|]. split; [done|]. split; [done|].
    split; [|split; [done|]].
    + intros h. simpl. rewrite foldl_union_elem. set_solver.
    + eapply revertBytecodeHealRequest_stale; simpl; [apply lookup_insert_eq|done].
Qed.
End Reverts.

(** No revert closes a closed channel: where the stale signal is closed
    already, nothing is closed again. *)
Definition closesOnce {A : Type} (outcome : result A) : Prop :=
  outcome ≠ Panic "close of closed channel"%string.

Lemma rbind_closesOnce {A B : Type} (m : result A) (k : A → result B) :
  closesOnce m → (∀ a, m = Ok a → closesOnce (k a)) → closesOnce (rbind m k).
Proof.
  intros Hm Hk. destruct m; simpl; [by apply Hk| |done].
  intros [= ->]. by apply Hm.
Qed.

Lemma deref_closesOnce {A : Type} (h : gmap ptr A) (p : ptr) : closesOnce (deref h p).
Proof. unfold deref. by destruct (h !! p). Qed.

Lemma index_closesOnce {A : Type} (l : list A) (i : nat) : closesOnce (index l i).
Proof. unfold index. by destruct (l !! i). Qed.

Lemma reinsertStateTasks_closesOnce (accounts roots : list Hash) :
  ∀ (i : nat) (m : gmap Hash Hash), closesOnce (reinsertStateTasks accounts roots i m).
Proof.
  induction accounts as [|a accounts IH]; intros i m; simpl; [done|].
  apply rbind_closesOnce; [apply index_closesOnce|]. intros r _. apply IH.
Qed.

Lemma reinsertTrieTasks_closesOnce (hashes : list Hash) (paths : list SyncPath) :
  ∀ (i : nat) (m : gmap Hash SyncPath), closesOnce (reinsertTrieTasks hashes paths i m).
Proof.
  induction hashes as [|a hashes IH]; intros i m; simpl; [done|].
  apply rbind_closesOnce; [apply index_closesOnce|]. intros r _. apply IH.
Qed.

Section CloseOnce.
Context {Sched : Type}.
Implicit Types s : Syncer Sched.

Lemma revertAccountRequest_closesOnce (request : ptr) s :
  closesOnce (revertAccountRequest request s).
Proof.
  unfold revertAccountRequest.
  apply rbind_closesOnce; [apply deref_closesOnce|]. intros r _.
  destruct (areq_stale r); [done|]. simpl.
  apply rbind_closesOnce; [apply deref_closesOnce|]. intros t _.
  by destruct (bool_decide _).
Qed.

Lemma revertBytecodeRequest_closesOnce (request : ptr) s :
  closesOnce (revertBytecodeRequest request s).
Proof.
  unfold revertBytecodeRequest.
  apply rbind_closesOnce; [apply deref_closesOnce|]. intros r _.
  destruct (breq_stale r); [done|]. simpl.
  destruct (breq_hashes r); [done|].
  apply rbind_closesOnce; [apply deref_closesOnce|]. done.
Qed.

Lemma revertStorageRequest_closesOnce (request : ptr) s :
  closesOnce (revertStorageRequest request s).
Proof.
  unfold revertStorageRequest.
  apply rbind_closesOnce; [apply deref_closesOnce|]. intros r _.
  destruct (sreq_stale r); [done|]. simpl.
  destruct (sreq_subTask r).
  - apply rbind_closesOnce; [apply deref_closesOnce|]. done.
  - destruct (sreq_accounts r) eqn:Ha; [done|]. rewrite <- Ha.
    apply rbind_closesOnce; [apply deref_closesOnce|]. intros t _.
    apply rbind_closesOnce; [apply reinsertStateTasks_closesOnce|]. done.
Qed.

Lemma revertTrienodeHealRequest_closesOnce (request : ptr) s :
  closesOnce (revertTrienodeHealRequest request s).
Proof.
  unfold revertTrienodeHealRequest.
  apply rbind_closesOnce; [apply deref_closesOnce|]. intros r _.
  destruct (treq_stale r); [done|]. simpl.
  destruct (treq_hashes r) eqn:Ha; [done|]. rewrite <- Ha.
  apply rbind_closesOnce; [apply deref_closesOnce|]. intros t _.
  apply rbind_closesOnce; [apply reinsertTrieTasks_closesOnce|]. done.
Qed.

Lemma revertBytecodeHealRequest_closesOnce (request : ptr) s :
  closesOnce (revertBytecodeHealRequest request s).
Proof.
  unfold revertBytecodeHealRequest.
  apply rbind_closesOnce; [apply deref_closesOnce|]. intros r _.
  destruct (hreq_stale r); [done|]. simpl.
  destruct (hreq_hashes r); [done|].
  apply rbind_closesOnce; [apply deref_closesOnce|]. done.
Qed.
End CloseOnce.

(** C6 as the code has it.  For every request class: no revert closes the
    stale signal a second time; a revert of a request whose stale signal
    is closed is a no-op; and a first revert returns, closes the stale
    signal, removes the request id from the class's live table, stops the
    timeout timer and restores the fragments, after which a second revert
    changes nothing.  The fragments: task.req is cleared for an account
    request if the task still points to that request (and is left alone
    otherwise); every requested code hash is back in codeTasks for a
    bytecode request; subtask.req is cleared for a large-contract storage
    request; every requested account maps to its root in stateTasks for a
    small-contract one; every requested trie hash maps to its path in
    trieTasks, and every requested code hash is back in the healer's
    codeTasks, for the heal requests. *)
Theorem revert_restores_fragments {Sched : Type} (s : Syncer Sched) (request : ptr) :
  (closesOnce (revertAccountRequest request s) ∧
   ∀ r t, accountRequests (heap s) !! request = Some r →
          loadTask (areq_task r) s = Ok t →
     (areq_stale r = true → revertAccountRequest request s = Ok s) ∧
     (areq_stale r = false →
        ∃ s' r' t',
          revertAccountRequest request s = Ok s' ∧
          accountReqs (requests s') = delete (areq_id r) (accountReqs (requests s)) ∧
          accountRequests (heap s') !! request = Some r' ∧
          areq_stale r' = true ∧ areq_timeout r' ≠ TimerArmed ∧
          loadTask (areq_task r) s' = Ok t' ∧
          t' = (if bool_decide (req t = Some request) then set_req None t else t) ∧
          revertAccountRequest request s' = Ok s')) ∧
  (closesOnce (revertBytecodeRequest request s) ∧
   ∀ r t, bytecodeRequests (heap s) !! request = Some r →
          loadTask (breq_task r) s = Ok t →
     (breq_stale r = true → revertBytecodeRequest request s = Ok s) ∧
     (breq_stale r = false →
        ∃ s' r' t',
          revertBytecodeRequest request s = Ok s' ∧
          bytecodeReqs (requests s') = delete (breq_id r) (bytecodeReqs (requests s)) ∧
          bytecodeRequests (heap s') !! request = Some r' ∧
          breq_stale r' = true ∧ breq_timeout r' ≠ TimerArmed ∧
          loadTask (breq_task r) s' = Ok t' ∧
          (∀ h, h ∈ codeTasks t' ↔ h ∈ breq_hashes r ∨ h ∈ codeTasks t) ∧
          revertBytecodeRequest request s' = Ok s')) ∧
  (closesOnce (revertStorageRequest request s) ∧
   ∀ r, storageRequests (heap s) !! request = Some r →
     (sreq_stale r = true → revertStorageRequest request s = Ok s) ∧
     (sreq_stale r = false →
        (∀ sub st, sreq_subTask r = Some sub → loadSubTask sub s = Ok st →
           ∃ s' r',
             revertStorageRequest request s = Ok s' ∧
             storageReqs (requests s') = delete (sreq_id r) (storageReqs (requests s)) ∧
             storageRequests (heap s') !! request = Some r' ∧
             sreq_stale r' = true ∧ sreq_timeout r' ≠ TimerArmed ∧
             loadSubTask sub s' = Ok (set_st_req None st) ∧
             revertStorageRequest request s' = Ok s') ∧
        (∀ t, sreq_subTask r = None → loadTask (sreq_mainTask r) s = Ok t →
           (length (sreq_accounts r) ≤ length (sreq_roots r))%nat →
           ∃ s' r' t',
             revertStorageRequest request s = Ok s' ∧
             storageReqs (requests s') = delete (sreq_id r) (storageReqs (requests s)) ∧
             storageRequests (heap s') !! request = Some r' ∧
             sreq_stale r' = true ∧ sreq_timeout r' ≠ TimerArmed ∧
             loadTask (sreq_mainTask r) s' = Ok t' ∧
             (∀ j account, sreq_accounts r !! j = Some account →
                (∀ j', (j < j')%nat → sreq_accounts r !! j' ≠ Some account) →
                stateTasks t' !! account = sreq_roots r !! j) ∧
             (∀ account, account ∉ sreq_accounts r →
                stateTasks t' !! account = stateTasks t !! account) ∧
             revertStorageRequest request s' = Ok s'))) ∧
  (closesOnce (revertTrienodeHealRequest request s) ∧
   ∀ r ht, trienodeHealRequests (heap s) !! request = Some r →
           healTasks (heap s) !! treq_task r = Some ht →
           (length (treq_hashes r) ≤ length (treq_paths r))%nat →
     (treq_stale r = true → revertTrienodeHealRequest request s = Ok s) ∧
     (treq_stale r = false →
        ∃ s' r' ht',
          revertTrienodeHealRequest request s = Ok s' ∧
          trienodeHealReqs (requests s')
            = delete (treq_id r) (trienodeHealReqs (requests s)) ∧
          trienodeHealRequests (heap s') !! request = Some r' ∧
          treq_stale r' = true ∧ treq_timeout r' ≠ TimerArmed ∧
          healTasks (heap s') !! treq_task r = Some ht' ∧
          (∀ j hash, treq_hashes r !! j = Some hash →
             (∀ j', (j < j')%nat → treq_hashes r !! j' ≠ Some hash) →
             trieTasks ht' !! hash = treq_paths r !! j) ∧
          (∀ hash, hash ∉ treq_hashes r → trieTasks ht' !! hash = trieTasks ht !! hash) ∧
          revertTrienodeHealRequest request s' = Ok s')) ∧
  (closesOnce (revertBytecodeHealRequest request s) ∧
   ∀ r ht, bytecodeHealRequests (heap s) !! request = Some r →
           healTasks (heap s) !! hreq_task r = Some ht →
     (hreq_stale r = true → revertBytecodeHealRequest request s = Ok s) ∧
     (hreq_stale r = false →
        ∃ s' r' ht',
          revertBytecodeHealRequest request s = Ok s' ∧
          bytecodeHealReqs (requests s')
            = delete (hreq_id r) (bytecodeHealReqs (requests s)) ∧
          bytecodeHealRequests (heap s') !! request = Some r' ∧
          hreq_stale r' = true ∧ hreq_timeout r' ≠ TimerArmed ∧
          healTasks (heap s') !! hreq_task r = Some ht' ∧
          (∀ h, h ∈ heal_codeTasks ht' ↔ h ∈ hreq_hashes r ∨ h ∈ heal_codeTasks ht) ∧
          revertBytecodeHealRequest request s' = Ok s')).
Proof.
  split; [|split; [|split; [|split]]].
  - split; [apply revertAccountRequest_closesOnce|]. intros r t Hr Ht.
    split; [by apply revertAccountRequest_stale|]. intros Hst.
    destruct (revertAccountRequest_first request s r t Hr Hst Ht)
      as (s' & r' & t' & H1 & H2 & H3 & H4 & H5 & H6 & H7 & H8).
    exists s', r', t'. rewrite H5. split_and!; auto using timerStop_stopped.
  - split; [apply revertBytecodeRequest_closesOnce|]. intros r t Hr Ht.
    split; [by apply revertBytecodeRequest_stale|]. intros Hst.
    destruct (revertBytecodeRequest_first request s r t Hr Hst Ht)
      as (s' & r' & t' & H1 & H2 & H3 & H4 & H5 & H6 & H7 & H8).
    exists s', r', t'. rewrite H5. split_and!; auto using timerStop_stopped.
  - split; [apply revertStorageRequest_closesOnce|]. intros r Hr.
    split; [by apply revertStorageRequest_stale|]. intros Hst. split.
    + intros sub st Hsub Hl.
      destruct (revertStorageRequest_large request s r sub st Hr Hst Hsub Hl)
        as (s' & r' & H1 & H2 & H3 & H4 & H5 & H6 & _ & H8).
      exists s', r'. rewrite H5. split_and!; auto using timerStop_stopped.
    + intros t Hsub Ht Hlen.
      destruct (revertStorageRequest_small request s r t Hr Hst Hsub Ht Hlen)
        as (s' & r' & t' & H1 & H2 & H3 & H4 & H5 & H6 & H7 & H8 & H9).
      exists s', r', t'. rewrite H5. split_and!; auto using timerStop_stopped.
  - split; [apply revertTrienodeHealRequest_closesOnce|]. intros r ht Hr Ht Hlen.
    split; [by apply revertTrienodeHealRequest_stale|]. intros Hst.
    destruct (revertTrienodeHealRequest_first request s r ht Hr Hst Ht Hlen)
      as (s' & r' & ht' & H1 & H2 & H3 & H4 & H5 & H6 & H7 & H8 & _ & H9).
    exists s', r', ht'. rewrite H5. split_and!; auto using timerStop_stopped.
  - split; [apply revertBytecodeHealRequest_closesOnce|]. intros r ht Hr Ht.
    split; [by apply revertBytecodeHealRequest_stale|]. intros Hst.
    destruct (revertBytecodeHealRequest_first request s r ht Hr Hst Ht)
      as (s' & r' & ht' & H1 & H2 & H3 & H4 & H5 & H6 & H7 & _ & H9).
    exists s', r', ht'. rewrite H5. split_and!; auto using timerStop_stopped.
Qed.

(** A cycle in which a request outlives its delivery.  Peer a is handed
    the first chunk (request 1, id 5), answers with one plain account at
    hash 10, the response is integrated, and the rest of the chunk goes
    out again as request 2 (id 6).  The send goroutine of request 1 then
    reports a transport failure, so request 1 is reverted although its
    task has long moved on. *)
Definition exampleVerify (stateRoot : Hash) (first last : option Hash) (keys : list Hash)
    (values : list bytes) (proof : option (list bytes))
    : option (NodeSet * Trie * option (gset Hash) * bool) :=
  Some (∅, exampleTrie, Some ∅, true).
Definition exampleDecode (blob : bytes) : option Account := Some exampleAccount.

Definition orElse {A : Type} (fallback : A) (outcome : result A) : A :=
  match outcome with
  | Ok a => a
  | _ => fallback
  end.

Definition firstAssigned : Syncer unit :=
  let joined := (Register "a" freshCycle).1.1 in
  (orElse (joined, []) (assignAccountTasks elements [5] joined)).1.
Definition delivered : Syncer unit * list message :=
  let outcome := orElse (firstAssigned, None, [])
                   (OnAccounts exampleVerify exampleDecode false true
                      "a" 5 [10] [[]] [[]] firstAssigned) in
  (outcome.1.1, outcome.2).
Definition integrated : Syncer unit :=
  match delivered.2 with
  | [AccountResp r] => orElse delivered.1 (processAccountResponse exampleSlim r delivered.1)
  | _ => delivered.1
  end.
Definition reassigned : Syncer unit :=
  (orElse (integrated, []) (assignAccountTasks elements [6] integrated)).1.
Definition lateReverted : Syncer unit :=
  orElse reassigned (revertAccountRequest 1%positive reassigned).

(** C6 as stated, for the account class: the first revert of a request
    leaves the request's task without a request. *)
Definition revertClearsTaskReq : Prop :=
  ∀ (s s' : Syncer unit) (request : ptr) (r : accountRequest),
    accountRequests (heap s) !! request = Some r → areq_stale r = false →
    revertAccountRequest request s = Ok s' →
    ∃ t', loadTask (areq_task r) s' = Ok t' ∧ req t' = None.

(** It fails: the task of request 1 points to request 2 by the time
    request 1 is reverted, and the revert leaves it so. *)
Lemma revertClearsTaskReq_fails : ¬ revertClearsTaskReq.
Proof.
  intros Hclaim.
  destruct (Hclaim reassigned lateReverted 1%positive
              (mkAccountRequest "a" 5 TimerStopped false 0 (hashSpace / 16 - 1) 1%positive))
    as (t' & Ht' & Hreq).
  - vm_compute. reflexivity.
  - reflexivity.
  - vm_compute. reflexivity.
  - vm_compute in Ht'. injection Ht' as <-. discriminate Hreq.
Qed.

(** ** Stateless peers *)

(** The peer a network call goes to. *)
Definition peerOf (out : outbound) : string :=
  match out with
  | RequestAccountRange peer _ _ _ _ _ _ => peer
  | RequestStorageRanges peer _ _ _ _ _ _ => peer
  | RequestByteCodes peer _ _ _ _ => peer
  | RequestTrieNodes peer _ _ _ _ _ => peer
  end.

(** An assigner run that returns leaves the stateless set as it was and
    sends nothing to a peer of that set. *)
Definition skipsStateless {Sched : Type} (s : Syncer Sched)
    (outcome : result (Syncer Sched * list outbound)) : Prop :=
  ∀ s' outs, outcome = Ok (s', outs) →
    statelessPeers (registry s') = statelessPeers (registry s) ∧
    Forall (λ out, peerOf out ∉ statelessPeers (registry s)) outs.

Lemma pickIdle_spec (order : list string) (stateless : gset string) :
  pickIdle order stateless ≠ ""%string →
  pickIdle order stateless ∈ order ∧ pickIdle order stateless ∉ stateless.
Proof.
  induction order as [|id rest IH]; simpl; [done|].
  destruct (bool_decide (id ∈ stateless)) eqn:Hd.
  - intros Hne. destruct (IH Hne). split; [by right|done].
  - intros _. apply bool_decide_eq_false in Hd. split; [by left|done].
Qed.

Section Assigners.
Context {Sched : Type}.
Variable Pending : Sched → Z.
Variable Missing : Sched → Z → list Hash * list SyncPath * list Hash * Sched.
Variable rangePeers : gset string → list string.
Variable rangeKeys : gset Z → list Z.
Implicit Types s : Syncer Sched.

Lemma skipsStateless_done s : skipsStateless s (Ok (s, [])).
Proof. intros s' outs [= <- <-]. by split. Qed.

Lemma skipsStateless_more s s1 (out : outbound)
    (rest : result (Syncer Sched * list outbound)) :
  statelessPeers (registry s1) = statelessPeers (registry s) →
  peerOf out ∉ statelessPeers (registry s) →
  skipsStateless s1 rest →
  skipsStateless s (let* (s2, outs) := rest in Ok (s2, out :: outs)).
Proof.
  intros Heq Hout Hrest s' outs H.
  destruct rest as [[s2 outs2]| |]; simpl in H; [|done..].
  injection H as <- <-. destruct (Hrest s2 outs2 eq_refl) as [H1 H2].
  rewrite Heq in H1, H2. split; [done|by constructor].
Qed.

Lemma skipsStateless_same s s1 (rest : result (Syncer Sched * list outbound)) :
  statelessPeers (registry s1) = statelessPeers (registry s) →
  skipsStateless s1 rest → skipsStateless s rest.
Proof. intros Heq Hrest s' outs H. rewrite <- Heq. by apply Hrest. Qed.

Lemma skipsStateless_bind {A : Type} s (m : result A)
    (k : A → result (Syncer Sched * list outbound)) :
  (∀ a, m = Ok a → skipsStateless s (k a)) → skipsStateless s (rbind m k).
Proof. intros Hk s' outs H. destruct m as [a| |]; simpl in H; [|done..]. by eapply Hk. Qed.

Lemma assignAccountLoop_skips (pending : list ptr) : ∀ (draws : list Z) s,
  skipsStateless s (assignAccountLoop rangePeers pending draws s).
Proof.
  induction pending as [|task rest IH]; intros draws s; cbn [assignAccountLoop].
  - apply skipsStateless_done.
  - apply skipsStateless_bind. intros t _.
    destruct (_ || _); [apply IH|].
    destruct (bool_decide (pickIdle _ _ = ""%string)) eqn:Hidle;
      [apply skipsStateless_done|].
    apply bool_decide_eq_false, pickIdle_spec in Hidle as [_ Hidle].
    apply skipsStateless_bind. intros [reqid draws'] _.
    destruct (alloc _ _) as [rp reqs].
    eapply skipsStateless_more; [| |apply IH]; done.
Qed.

Lemma assignBytecodeLoop_skips (pending : list ptr) : ∀ (draws : list Z) s,
  skipsStateless s (assignBytecodeLoop rangePeers rangeKeys pending draws s).
Proof.
  induction pending as [|task rest IH]; intros draws s; cbn [assignBytecodeLoop].
  - apply skipsStateless_done.
  - apply skipsStateless_bind. intros t _.
    destruct (negb _); [apply IH|].
    destruct (bool_decide (size _ = 0%nat)); [apply IH|].
    destruct (bool_decide (pickIdle _ _ = ""%string)) eqn:Hidle;
      [apply skipsStateless_done|].
    apply bool_decide_eq_false, pickIdle_spec in Hidle as [_ Hidle].
    apply skipsStateless_bind. intros [reqid draws'] _.
    destruct (alloc _ _) as [rp reqs].
    eapply skipsStateless_more; [| |apply IH]; done.
Qed.

Lemma assignStorageLoop_skips (pending : list ptr) : ∀ (draws : list Z) s,
  skipsStateless s (assignStorageLoop rangePeers rangeKeys pending draws s).
Proof.
  induction pending as [|task rest IH]; intros draws s; cbn [assignStorageLoop].
  - apply skipsStateless_done.
  - apply skipsStateless_bind. intros t _.
    destruct (negb _); [apply IH|].
    destruct (_ && _); [apply IH|].
    destruct (bool_decide (pickIdle _ _ = ""%string)) eqn:Hidle;
      [apply skipsStateless_done|].
    apply bool_decide_eq_false, pickIdle_spec in Hidle as [_ Hidle].
    apply skipsStateless_bind. intros [reqid draws'] _.
    apply skipsStateless_bind. intros found _.
    destruct found as [[[account p] st]|].
    + cbn [length bool_decide decide_rel]. rewrite bool_decide_eq_false_2 by done.
      destruct (alloc _ _) as [rp reqs]. cbn [fmap option_fmap option_map fst].
      eapply skipsStateless_more; [| |apply IH]; done.
    + destruct (bool_decide (length _ = 0%nat)).
      * eapply skipsStateless_same; [|apply IH]. done.
      * destruct (alloc _ _) as [rp reqs].
        eapply skipsStateless_more; [| |apply IH]; done.
Qed.

Lemma assignTrienodeHealLoop_skips (fuel : nat) : ∀ (draws : list Z) s,
  skipsStateless s (assignTrienodeHealLoop Pending Missing rangePeers rangeKeys fuel draws s).
Proof.
  induction fuel as [|fuel IH]; intros draws s; cbn [assignTrienodeHealLoop]; [done|].
  apply skipsStateless_bind. intros [hp ht] _.
  destruct (negb _); [apply skipsStateless_done|].
  apply skipsStateless_bind. intros ht' _.
  destruct (bool_decide (size _ = 0%nat));
    [eapply skipsStateless_same; [|apply skipsStateless_done]; done|].
  destruct (bool_decide (pickIdle _ _ = ""%string)) eqn:Hidle;
    [eapply skipsStateless_same; [|apply skipsStateless_done]; done|].
  apply bool_decide_eq_false, pickIdle_spec in Hidle as [_ Hidle].
  apply skipsStateless_bind. intros [reqid draws'] _.
  destruct (alloc _ _) as [rp reqs].
  eapply skipsStateless_more; [| |apply IH]; done.
Qed.

Lemma assignBytecodeHealLoop_skips (fuel : nat) : ∀ (draws : list Z) s,
  skipsStateless s (assignBytecodeHealLoop Pending Missing rangePeers rangeKeys fuel draws s).
Proof.
  induction fuel as [|fuel IH]; intros draws s; cbn [assignBytecodeHealLoop]; [done|].
  apply skipsStateless_bind. intros [hp ht] _.
  destruct (negb _); [apply skipsStateless_done|].
  apply skipsStateless_bind. intros ht' _.
  destruct (bool_decide (size _ = 0%nat));
    [eapply skipsStateless_same; [|apply skipsStateless_done]; done|].
  destruct (bool_decide (pickIdle _ _ = ""%string)) eqn:Hidle;
    [eapply skipsStateless_same; [|apply skipsStateless_done]; done|].
  apply bool_decide_eq_false, pickIdle_spec in Hidle as [_ Hidle].
  apply skipsStateless_bind. intros [reqid draws'] _.
  destruct (alloc _ _) as [rp reqs].
  eapply skipsStateless_more; [| |apply IH]; done.
Qed.

End Assigners.

(** Reverting touches the request tables and the heap only. *)
Ltac revert_registry :=
  intros H;
  repeat match type of H with
         | rbind ?m _ = Ok _ => destruct m eqn:?; simpl in H; [|done..]
         | (if ?b then _ else _) = Ok _ => destruct b eqn:?
         | match ?x with _ => _ end = Ok _ => destruct x eqn:?
         | (let* _ := ?m in _) = Ok _ => destruct m eqn:?; simpl in H; [|done..]
         end;
  by simplify_eq/=.

Section RevertRegistry.
Context {Sched : Type}.
Implicit Types s : Syncer Sched.

Lemma revertAccountRequest_registry (request : ptr) s s' :
  revertAccountRequest request s = Ok s' → registry s' = registry s.
Proof. unfold revertAccountRequest, loadTask, storeTask. revert_registry. Qed.

Lemma revertBytecodeRequest_registry (request : ptr) s s' :
  revertBytecodeRequest request s = Ok s' → registry s' = registry s.
Proof. unfold revertBytecodeRequest, loadTask, storeTask. revert_registry. Qed.

Lemma revertStorageRequest_registry (request : ptr) s s' :
  revertStorageRequest request s = Ok s' → registry s' = registry s.
Proof.
  unfold revertStorageRequest, loadTask, storeTask, loadSubTask, storeSubTask.
  revert_registry.
Qed.

Lemma revertTrienodeHealRequest_registry (request : ptr) s s' :
  revertTrienodeHealRequest request s = Ok s' → registry s' = registry s.
Proof. unfold revertTrienodeHealRequest. revert_registry. Qed.

Lemma revertBytecodeHealRequest_registry (request : ptr) s s' :
  revertBytecodeHealRequest request s = Ok s' → registry s' = registry s.
Proof. unfold revertBytecodeHealRequest. revert_registry. Qed.
End RevertRegistry.

(** ** Empty responses *)

(** What a delivery callback does with a response it rejects as empty:
    it returns without an error, the peer is in the stateless set, what it
    posted is what scheduling the revert posts (the failure message itself
    unless the cycle is cancelled), and the revert that message asks for
    returns, keeps the peer stateless and restores the fragments. *)
Definition rejected {Sched : Type} (peer : string) (cancelled : bool) (failure : message)
    (outcome : result (Syncer Sched * error * list message))
    (schedule : Syncer Sched → result (list message))
    (revert : Syncer Sched → result (Syncer Sched))
    (restored : Syncer Sched → Prop) : Prop :=
  ∃ s' s'' posted,
    outcome = Ok (s', None, posted) ∧
    peer ∈ statelessPeers (registry s') ∧
    schedule s' = Ok posted ∧
    (cancelled = false → posted = [failure]) ∧
    revert s' = Ok s'' ∧
    peer ∈ statelessPeers (registry s'') ∧
    restored s''.

Section Empty.
Context {Sched : Type}.
Implicit Types s : Syncer Sched.

Lemma stopAccountTimer_armed (request : ptr) s (r : accountRequest) :
  accountRequests (heap s) !! request = Some r → areq_timeout r = TimerArmed →
  ∃ r' s',
    stopAccountTimer request s = Ok (true, r', s') ∧
    r' = mkAccountRequest (areq_peer r) (areq_id r) TimerStopped (areq_stale r)
           (areq_origin r) (areq_limit r) (areq_task r) ∧
    s' = set_heap (set_accountRequests (<[request := r']> (accountRequests (heap s)))
                     (heap s)) s.
Proof.
  intros Hr Harmed. unfold stopAccountTimer, deref. rewrite Hr. simpl. rewrite Harmed.
  by eexists _, _.
Qed.

Lemma OnAccounts_empty VerifyRangeProof decodeAccount (cancelled send : bool) (peer : string)
    (id : Z) s (request : ptr) (r : accountRequest) (t : accountTask) :
  accountReqs (requests s) !! id = Some request →
  accountRequests (heap s) !! request = Some r →
  areq_timeout r = TimerArmed → areq_stale r = false →
  loadTask (areq_task r) s = Ok t → req t = Some request →
  rejected peer cancelled (AccountReqFail request)
    (OnAccounts VerifyRangeProof decodeAccount cancelled send peer id [] [] [] s)
    (scheduleRevertAccountRequest cancelled send request)
    (revertAccountRequest request)
    (λ s'', loadTask (areq_task r) s'' = Ok (set_req None t)).
Proof.
  intros Hid Hr Harmed Hstale Ht Hreq.
  unfold rejected, OnAccounts.
  set (s1 := set_update true _).
  assert (Hid1 : accountReqs (requests s1) !! id = Some request)
    by (subst s1; by destruct (bool_decide (peer ∈ _))).
  assert (Hh1 : heap s1 = heap s) by (subst s1; by destruct (bool_decide (peer ∈ _))).
  clearbody s1. rewrite Hid1.
  set (s2 := set_requests _ s1).
  destruct (stopAccountTimer_armed request s2 r) as (r' & s3 & -> & Hr' & Hs3);
    [by rewrite <- Hh1 in Hr|done|].
  cbn [rbind negb length]. rewrite !bool_decide_eq_true_2 by done. cbn [andb].
  set (s4 := markStateless peer s3).
  assert (Hr4 : accountRequests (heap s4) !! request = Some r')
    by (subst s4 s3; simpl; by rewrite lookup_insert_eq).
  assert (Ht4 : loadTask (areq_task r') s4 = Ok t)
    by (subst s4 s3 s2 r'; unfold loadTask in *; simpl; by rewrite Hh1).
  assert (Hst4 : areq_stale r' = false) by (by subst r').
  destruct (revertAccountRequest_first request s4 r' t Hr4 Hst4 Ht4)
    as (s5 & r5 & t5 & Hrev & _ & _ & _ & _ & Ht5 & -> & _).
  assert (Hsched : scheduleRevertAccountRequest cancelled send request s4
                     = Ok (selectSend cancelled false send (AccountReqFail request)))
    by (unfold scheduleRevertAccountRequest, deref; rewrite Hr4; cbn [rbind];
        by rewrite Hst4).
  rewrite Hsched. cbn [rbind].
  exists s4, s5, (selectSend cancelled false send (AccountReqFail request)).
  split_and!; [done| |done|by intros ->|done| |].
  - subst s4. simpl. set_solver.
  - rewrite (revertAccountRequest_registry _ _ _ Hrev). subst s4. simpl. set_solver.
  - rewrite bool_decide_eq_true_2 in Ht5 by done. by subst r'.
Qed.

Lemma stopBytecodeTimer_armed (request : ptr) s (r : bytecodeRequest) :
  bytecodeRequests (heap s) !! request = Some r → breq_timeout r = TimerArmed →
  ∃ r' s',
    stopBytecodeTimer request s = Ok (true, r', s') ∧
    r' = mkBytecodeRequest (breq_peer r) (breq_id r) TimerStopped (breq_stale r)
           (breq_hashes r) (breq_task r) ∧
    s' = set_heap (set_bytecodeRequests (<[request := r']> (bytecodeRequests (heap s)))
                     (heap s)) s.
Proof.
  intros Hr Harmed. unfold stopBytecodeTimer, deref. rewrite Hr. simpl. rewrite Harmed.
  by eexists _, _.
Qed.

Lemma onByteCodes_empty keccak256 (cancelled send : bool) (peer : string)
    (id : Z) s (request : ptr) (r : bytecodeRequest) (t : accountTask) :
  bytecodeReqs (requests s) !! id = Some request →
  bytecodeRequests (heap s) !! request = Some r →
  breq_timeout r = TimerArmed → breq_stale r = false →
  loadTask (breq_task r) s = Ok t →
  rejected peer cancelled (BytecodeReqFail request)
    (onByteCodes keccak256 cancelled send peer id [] s)
    (scheduleRevertBytecodeRequest cancelled send request)
    (revertBytecodeRequest request)
    (λ s'', ∃ t', loadTask (breq_task r) s'' = Ok t' ∧
                  ∀ h, h ∈ codeTasks t' ↔ h ∈ breq_hashes r ∨ h ∈ codeTasks t).
Proof.
  intros Hid Hr Harmed Hstale Ht.
  unfold rejected, onByteCodes.
  set (s1 := set_update true _).
  assert (Hid1 : bytecodeReqs (requests s1) !! id = Some request)
    by (subst s1; by destruct (bool_decide (peer ∈ _))).
  assert (Hh1 : heap s1 = heap s) by (subst s1; by destruct (bool_decide (peer ∈ _))).
  clearbody s1. rewrite Hid1.
  set (s2 := set_requests _ s1).
  destruct (stopBytecodeTimer_armed request s2 r) as (r' & s3 & -> & Hr' & Hs3);
    [by rewrite <- Hh1 in Hr|done|].
  cbn [rbind negb length]. rewrite !bool_decide_eq_true_2 by done.
  set (s4 := markStateless peer s3).
  assert (Hr4 : bytecodeRequests (heap s4) !! request = Some r')
    by (subst s4 s3; simpl; by rewrite lookup_insert_eq).
  assert (Ht4 : loadTask (breq_task r') s4 = Ok t)
    by (subst s4 s3 s2 r'; unfold loadTask in *; simpl; by rewrite Hh1).
  assert (Hst4 : breq_stale r' = false) by (by subst r').
  destruct (revertBytecodeRequest_first request s4 r' t Hr4 Hst4 Ht4)
    as (s5 & r5 & t5 & Hrev & _ & _ & _ & _ & Ht5 & Hcodes & _).
  assert (Hsched : scheduleRevertBytecodeRequest cancelled send request s4
                     = Ok (selectSend cancelled false send (BytecodeReqFail request)))
    by (unfold scheduleRevertBytecodeRequest, deref; rewrite Hr4; cbn [rbind];
        by rewrite Hst4).
  rewrite Hsched. cbn [rbind].
  exists s4, s5, (selectSend cancelled false send (BytecodeReqFail request)).
  split_and!; [done| |done|by intros ->|done| |].
  - subst s4. simpl. set_solver.
  - rewrite (revertBytecodeRequest_registry _ _ _ Hrev). subst s4. simpl. set_solver.
  - exists t5. by subst r'.
Qed.
Lemma stopStorageTimer_armed (request : ptr) s (r : storageRequest) :
  storageRequests (heap s) !! request = Some r → sreq_timeout r = TimerArmed →
  ∃ r' s',
    stopStorageTimer request s = Ok (true, r', s') ∧
    r' = mkStorageRequest (sreq_peer r) (sreq_id r) TimerStopped (sreq_stale r)
           (sreq_accounts r) (sreq_roots r) (sreq_origin r) (sreq_limit r)
           (sreq_mainTask r) (sreq_subTask r) ∧
    s' = set_heap (set_storageRequests (<[request := r']> (storageRequests (heap s)))
                     (heap s)) s.
Proof.
  intros Hr Harmed. unfold stopStorageTimer, deref. rewrite Hr. simpl. rewrite Harmed.
  by eexists _, _.
Qed.

(** The state OnStorage reverts from when the response has no slot list;
    the proof nodes of the response play no part. *)
Lemma OnStorage_empty_state VerifyRangeProof (cancelled send : bool) (peer : string)
    (id : Z) (proof : list bytes) s (request : ptr) (r : storageRequest) :
  storageReqs (requests s) !! id = Some request →
  storageRequests (heap s) !! request = Some r →
  sreq_timeout r = TimerArmed → sreq_stale r = false →
  ∃ s' r',
    OnStorage VerifyRangeProof cancelled send peer id [] [] proof s
      = Ok (s', None, selectSend cancelled false send (StorageReqFail request)) ∧
    scheduleRevertStorageRequest cancelled send request s'
      = Ok (selectSend cancelled false send (StorageReqFail request)) ∧
    peer ∈ statelessPeers (registry s') ∧
    storageRequests (heap s') !! request = Some r' ∧
    sreq_stale r' = false ∧ sreq_subTask r' = sreq_subTask r ∧
    sreq_mainTask r' = sreq_mainTask r ∧ sreq_accounts r' = sreq_accounts r ∧
    sreq_roots r' = sreq_roots r ∧
    accountTasks (heap s') = accountTasks (heap s) ∧
    storageTasks (heap s') = storageTasks (heap s).
Proof.
  intros Hid Hr Harmed Hstale.
  unfold OnStorage.
  set (s1 := set_update true _).
  assert (Hid1 : storageReqs (requests s1) !! id = Some request)
    by (subst s1; by destruct (bool_decide (peer ∈ _))).
  assert (Hh1 : heap s1 = heap s) by (subst s1; by destruct (bool_decide (peer ∈ _))).
  clearbody s1. rewrite Hid1.
  set (s2 := set_requests _ s1).
  destruct (stopStorageTimer_armed request s2 r) as (r' & s3 & -> & Hr' & Hs3);
    [by rewrite <- Hh1 in Hr|done|].
  cbn [rbind negb length Nat.eqb Nat.ltb Nat.leb].
  rewrite !bool_decide_eq_true_2 by done.
  set (s4 := markStateless peer s3).
  assert (Hr4 : storageRequests (heap s4) !! request = Some r')
    by (subst s4 s3; simpl; by rewrite lookup_insert_eq).
  assert (Hst4 : sreq_stale r' = false) by (by subst r').
  assert (Hsched : scheduleRevertStorageRequest cancelled send request s4
                     = Ok (selectSend cancelled false send (StorageReqFail request)))
    by (unfold scheduleRevertStorageRequest, deref; rewrite Hr4; cbn [rbind];
        by rewrite Hst4).
  rewrite Hsched. cbn [rbind].
  exists s4, r'. split_and!; try done; try (by subst r').
  - subst s4. simpl. set_solver.
  - subst s4 s3 s2. simpl. by rewrite Hh1.
  - subst s4 s3 s2. simpl. by rewrite Hh1.
Qed.

Lemma OnStorage_empty_large VerifyRangeProof (cancelled send : bool) (peer : string)
    (id : Z) (proof : list bytes) s (request : ptr) (r : storageRequest)
    (sub : ptr) (st : storageTask) :
  storageReqs (requests s) !! id = Some request →
  storageRequests (heap s) !! request = Some r →
  sreq_timeout r = TimerArmed → sreq_stale r = false →
  sreq_subTask r = Some sub → loadSubTask sub s = Ok st →
  rejected peer cancelled (StorageReqFail request)
    (OnStorage VerifyRangeProof cancelled send peer id [] [] proof s)
    (scheduleRevertStorageRequest cancelled send request)
    (revertStorageRequest request)
    (λ s'', loadSubTask sub s'' = Ok (set_st_req None st)).
Proof.
  intros Hid Hr Harmed Hstale Hsub Hst.
  destruct (OnStorage_empty_state VerifyRangeProof cancelled send peer id proof s request r
              Hid Hr Harmed Hstale)
    as (s4 & r' & Hcall & Hsched & Hpeer & Hr4 & Hst4 & Hsub4 & _ & _ & _ & _ & Hsts).
  assert (Hl4 : loadSubTask sub s4 = Ok st)
    by (unfold loadSubTask in *; by rewrite Hsts).
  rewrite Hsub in Hsub4.
  destruct (revertStorageRequest_large request s4 r' sub st Hr4 Hst4 Hsub4 Hl4)
    as (s5 & r5 & Hrev & _ & _ & _ & _ & Hl5 & _).
  exists s4, s5, (selectSend cancelled false send (StorageReqFail request)).
  split_and!; [done|done|done|by intros ->|done| |done].
  by rewrite (revertStorageRequest_registry _ _ _ Hrev).
Qed.

Lemma OnStorage_empty_small VerifyRangeProof (cancelled send : bool) (peer : string)
    (id : Z) (proof : list bytes) s (request : ptr) (r : storageRequest) (t : accountTask) :
  storageReqs (requests s) !! id = Some request →
  storageRequests (heap s) !! request = Some r →
  sreq_timeout r = TimerArmed → sreq_stale r = false →
  sreq_subTask r = None → loadTask (sreq_mainTask r) s = Ok t →
  (length (sreq_accounts r) ≤ length (sreq_roots r))%nat →
  rejected peer cancelled (StorageReqFail request)
    (OnStorage VerifyRangeProof cancelled send peer id [] [] proof s)
    (scheduleRevertStorageRequest cancelled send request)
    (revertStorageRequest request)
    (λ s'', ∃ t', loadTask (sreq_mainTask r) s'' = Ok t' ∧
       (∀ j account, sreq_accounts r !! j = Some account →
          (∀ j', (j < j')%nat → sreq_accounts r !! j' ≠ Some account) →
          stateTasks t' !! account = sreq_roots r !! j) ∧
       (∀ account, account ∉ sreq_accounts r →
          stateTasks t' !! account = stateTasks t !! account)).
Proof.
  intros Hid Hr Harmed Hstale Hsub Ht Hlen.
  destruct (OnStorage_empty_state VerifyRangeProof cancelled send peer id proof s request r
              Hid Hr Harmed Hstale)
    as (s4 & r' & Hcall & Hsched & Hpeer & Hr4 & Hst4 & Hsub4 & Hmain & Haccs & Hroots
        & Hats & _).
  assert (Ht4 : loadTask (sreq_mainTask r') s4 = Ok t)
    by (unfold loadTask in *; by rewrite Hmain, Hats).
  rewrite Hsub in Hsub4. rewrite <- Haccs, <- Hroots in Hlen.
  destruct (revertStorageRequest_small request s4 r' t Hr4 Hst4 Hsub4 Ht4 Hlen)
    as (s5 & r5 & t5 & Hrev & _ & _ & _ & _ & Ht5 & Hin & Hout & _).
  exists s4, s5, (selectSend cancelled false send (StorageReqFail request)).
  split_and!; [done|done|done|by intros ->|done| |].
  - by rewrite (revertStorageRequest_registry _ _ _ Hrev).
  - exists t5. rewrite <- Hmain, <- Haccs, <- Hroots. done.
Qed.

Lemma stopTrienodeHealTimer_armed (request : ptr) s (r : trienodeHealRequest) :
  trienodeHealRequests (heap s) !! request = Some r → treq_timeout r = TimerArmed →
  ∃ r' s',
    stopTrienodeHealTimer request s = Ok (true, r', s') ∧
    r' = mkTrienodeHealRequest (treq_peer r) (treq_id r) TimerStopped (treq_stale r)
           (treq_hashes r) (treq_paths r) (treq_task r) ∧
    s' = set_heap (set_trienodeHealRequests
                     (<[request := r']> (trienodeHealRequests (heap s))) (heap s)) s.
Proof.
  intros Hr Harmed. unfold stopTrienodeHealTimer, deref. rewrite Hr. simpl.
  rewrite Harmed. by eexists _, _.
Qed.

Lemma OnTrieNodes_empty keccak256 (cancelled send : bool) (peer : string)
    (id : Z) s (request : ptr) (r : trienodeHealRequest) (ht : healTask Sched) :
  trienodeHealReqs (requests s) !! id = Some request →
  trienodeHealRequests (heap s) !! request = Some r →
  treq_timeout r = TimerArmed → treq_stale r = false →
  healTasks (heap s) !! treq_task r = Some ht →
  (length (treq_hashes r) ≤ length (treq_paths r))%nat →
  rejected peer cancelled (TrienodeHealReqFail request)
    (OnTrieNodes keccak256 cancelled send peer id [] s)
    (scheduleRevertTrienodeHealRequest cancelled send request)
    (revertTrienodeHealRequest request)
    (λ s'', ∃ ht', healTasks (heap s'') !! treq_task r = Some ht' ∧
       (∀ j hash, treq_hashes r !! j = Some hash →
          (∀ j', (j < j')%nat → treq_hashes r !! j' ≠ Some hash) →
          trieTasks ht' !! hash = treq_paths r !! j) ∧
       (∀ hash, hash ∉ treq_hashes r → trieTasks ht' !! hash = trieTasks ht !! hash)).
Proof.
  intros Hid Hr Harmed Hstale Ht Hlen.
  unfold rejected, OnTrieNodes.
  set (s1 := set_update true _).
  assert (Hid1 : trienodeHealReqs (requests s1) !! id = Some request)
    by (subst s1; by destruct (bool_decide (peer ∈ _))).
  assert (Hh1 : heap s1 = heap s) by (subst s1; by destruct (bool_decide (peer ∈ _))).
  clearbody s1. rewrite Hid1.
  set (s2 := set_requests _ s1).
  destruct (stopTrienodeHealTimer_armed request s2 r) as (r' & s3 & -> & Hr' & Hs3);
    [by rewrite <- Hh1 in Hr|done|].
  cbn [rbind negb length]. rewrite !bool_decide_eq_true_2 by done.
  set (s4 := markStateless peer s3).
  assert (Hr4 : trienodeHealRequests (heap s4) !! request = Some r')
    by (subst s4 s3; simpl; by rewrite lookup_insert_eq).
  assert (Ht4 : healTasks (heap s4) !! treq_task r' = Some ht)
    by (subst s4 s3 s2 r'; simpl; by rewrite Hh1).
  assert (Hst4 : treq_stale r' = false) by (by subst r').
  assert (Hlen4 : (length (treq_hashes r') ≤ length (treq_paths r'))%nat)
    by (by subst r').
  destruct (revertTrienodeHealRequest_first request s4 r' ht Hr4 Hst4 Ht4 Hlen4)
    as (s5 & r5 & ht5 & Hrev & _ & _ & _ & _ & Ht5 & Hin & Hout & _).
  assert (Hsched : scheduleRevertTrienodeHealRequest cancelled send request s4
                     = Ok (selectSend cancelled false send (TrienodeHealReqFail request)))
    by (unfold scheduleRevertTrienodeHealRequest, deref; rewrite Hr4; cbn [rbind];
        by rewrite Hst4).
  rewrite Hsched. cbn [rbind].
  exists s4, s5, (selectSend cancelled false send (TrienodeHealReqFail request)).
  split_and!; [done| |done|by intros ->|done| |].
  - subst s4. simpl. set_solver.
  - rewrite (revertTrienodeHealRequest_registry _ _ _ Hrev). subst s4. simpl. set_solver.
  - exists ht5. by subst r'.
Qed.

Lemma stopBytecodeHealTimer_armed (request : ptr) s (r : bytecodeHealRequest) :
  bytecodeHealRequests (heap s) !! request = Some r → hreq_timeout r = TimerArmed →
  ∃ r' s',
    stopBytecodeHealTimer request s = Ok (true, r', s') ∧
    r' = mkBytecodeHealRequest (hreq_peer r) (hreq_id r) TimerStopped (hreq_stale r)
           (hreq_hashes r) (hreq_task r) ∧
    s' = set_heap (set_bytecodeHealRequests
                     (<[request := r']> (bytecodeHealRequests (heap s))) (heap s)) s.
Proof.
  intros Hr Harmed. unfold stopBytecodeHealTimer, deref. rewrite Hr. simpl.
  rewrite Harmed. by eexists _, _.
Qed.

Lemma onHealByteCodes_empty keccak256 (cancelled send : bool) (peer : string)
    (id : Z) s (request : ptr) (r : bytecodeHealRequest) (ht : healTask Sched) :
  bytecodeHealReqs (requests s) !! id = Some request →
  bytecodeHealRequests (heap s) !! request = Some r →
  hreq_timeout r = TimerArmed → hreq_stale r = false →
  healTasks (heap s) !! hreq_task r = Some ht →
  rejected peer cancelled (BytecodeHealReqFail request)
    (onHealByteCodes keccak256 cancelled send peer id [] s)
    (scheduleRevertBytecodeHealRequest cancelled send request)
    (revertBytecodeHealRequest request)
    (λ s'', ∃ ht', healTasks (heap s'') !! hreq_task r = Some ht' ∧
       ∀ h, h ∈ heal_codeTasks ht' ↔ h ∈ hreq_hashes r ∨ h ∈ heal_codeTasks ht).
Proof.
  intros Hid Hr Harmed Hstale Ht.
  unfold rejected, onHealByteCodes.
  set (s1 := set_update true _).
  assert (Hid1 : bytecodeHealReqs (requests s1) !! id = Some request)
    by (subst s1; by destruct (bool_decide (peer ∈ _))).
  assert (Hh1 : heap s1 = heap s) by (subst s1; by destruct (bool_decide (peer ∈ _))).
  clearbody s1. rewrite Hid1.
  set (s2 := set_requests _ s1).
  destruct (stopBytecodeHealTimer_armed request s2 r) as (r' & s3 & -> & Hr' & Hs3);
    [by rewrite <- Hh1 in Hr|done|].
  cbn [rbind negb length]. rewrite !bool_decide_eq_true_2 by done.
  set (s4 := markStateless peer s3).
  assert (Hr4 : bytecodeHealRequests (heap s4) !! request = Some r')
    by (subst s4 s3; simpl; by rewrite lookup_insert_eq).
  assert (Ht4 : healTasks (heap s4) !! hreq_task r' = Some ht)
    by (subst s4 s3 s2 r'; simpl; by rewrite Hh1).
  assert (Hst4 : hreq_stale r' = false) by (by subst r').
  destruct (revertBytecodeHealRequest_first request s4 r' ht Hr4 Hst4 Ht4)
    as (s5 & r5 & ht5 & Hrev & _ & _ & _ & _ & Ht5 & Hcodes & _).
  assert (Hsched : scheduleRevertBytecodeHealRequest cancelled send request s4
                     = Ok (selectSend cancelled false send (BytecodeHealReqFail request)))
    by (unfold scheduleRevertBytecodeHealRequest, deref; rewrite Hr4; cbn [rbind];
        by rewrite Hst4).
  rewrite Hsched. cbn [rbind].
  exists s4, s5, (selectSend cancelled false send (BytecodeHealReqFail request)).
  split_and!; [done| |done|by intros ->|done| |].
  - subst s4. simpl. set_solver.
  - rewrite (revertBytecodeHealRequest_registry _ _ _ Hrev). subst s4. simpl. set_solver.
  - exists ht5. by subst r'.
Qed.

End Empty.

(** ** The stateless set within a cycle *)

(** No delivery callback takes a peer out of the stateless set, whatever
    it is handed. *)
Ltac callback_cases H :=
  repeat match type of H with
         | rbind ?m _ = Ok _ => destruct m as [?| |] eqn:?; cbn [rbind] in H; [|done..]
         | (if ?b then _ else _) = Ok _ => destruct b eqn:?
         | match ?x with _ => _ end = Ok _ => destruct x eqn:?
         | (let '(_, _) := ?x in _) = Ok _ => destruct x eqn:?
         end.

Section Keeps.
Context {Sched : Type}.
Implicit Types s : Syncer Sched.

Lemma stopAccountTimer_registry (request : ptr) s (stopped : bool) r s' :
  stopAccountTimer request s = Ok (stopped, r, s') → registry s' = registry s.
Proof. unfold stopAccountTimer. intros H. callback_cases H. by simplify_eq/=. Qed.

Lemma OnAccounts_keeps VerifyRangeProof decodeAccount (cancelled send : bool) (peer : string) (id : Z)
    (hashes : list Hash) (accounts proof : list bytes) s s' (e : error) (posted : list message) :
  OnAccounts VerifyRangeProof decodeAccount cancelled send peer id hashes accounts proof s = Ok (s', e, posted) →
  statelessPeers (registry s) ⊆ statelessPeers (registry s').
Proof.
  unfold OnAccounts.
  set (s1 := set_update true _).
  assert (Hreg : statelessPeers (registry s1) = statelessPeers (registry s))
    by (subst s1; by destruct (bool_decide (peer ∈ _))).
  clearbody s1. rewrite <- Hreg. clear Hreg. intros H.
  destruct (accountReqs (requests s1) !! id) as [request|]; [|by simplify_eq/=].
  destruct (stopAccountTimer _ _) as [[[stopped r] s3]| |] eqn:Hstop; cbn [rbind] in H;
    [|done..].
  apply stopAccountTimer_registry in Hstop. simpl in Hstop.
  callback_cases H; simplify_eq/=; rewrite ?Hstop; set_solver.
Qed.

Lemma stopBytecodeTimer_registry (request : ptr) s (stopped : bool) r s' :
  stopBytecodeTimer request s = Ok (stopped, r, s') → registry s' = registry s.
Proof. unfold stopBytecodeTimer. intros H. callback_cases H. by simplify_eq/=. Qed.

Lemma onByteCodes_keeps keccak256 (cancelled send : bool) (peer : string) (id : Z)
    (bytecodes : list bytes) s s' (e : error) (posted : list message) :
  onByteCodes keccak256 cancelled send peer id bytecodes s = Ok (s', e, posted) →
  statelessPeers (registry s) ⊆ statelessPeers (registry s').
Proof.
  unfold onByteCodes.
  set (s1 := set_update true _).
  assert (Hreg : statelessPeers (registry s1) = statelessPeers (registry s))
    by (subst s1; by destruct (bool_decide (peer ∈ _))).
  clearbody s1. rewrite <- Hreg. clear Hreg. intros H.
  destruct (bytecodeReqs (requests s1) !! id) as [request|]; [|by simplify_eq/=].
  destruct (stopBytecodeTimer _ _) as [[[stopped r] s3]| |] eqn:Hstop; cbn [rbind] in H;
    [|done..].
  apply stopBytecodeTimer_registry in Hstop. simpl in Hstop.
  callback_cases H; simplify_eq/=; rewrite ?Hstop; set_solver.
Qed.

Lemma stopStorageTimer_registry (request : ptr) s (stopped : bool) r s' :
  stopStorageTimer request s = Ok (stopped, r, s') → registry s' = registry s.
Proof. unfold stopStorageTimer. intros H. callback_cases H. by simplify_eq/=. Qed.

Lemma OnStorage_keeps VerifyRangeProof (cancelled send : bool) (peer : string) (id : Z)
    (hashes : list (list Hash)) (slots : list (list bytes)) (proof : list bytes) s s' (e : error) (posted : list message) :
  OnStorage VerifyRangeProof cancelled send peer id hashes slots proof s = Ok (s', e, posted) →
  statelessPeers (registry s) ⊆ statelessPeers (registry s').
Proof.
  unfold OnStorage.
  set (s1 := set_update true _).
  assert (Hreg : statelessPeers (registry s1) = statelessPeers (registry s))
    by (subst s1; by destruct (bool_decide (peer ∈ _))).
  clearbody s1. rewrite <- Hreg. clear Hreg. intros H.
  destruct (storageReqs (requests s1) !! id) as [request|]; [|by simplify_eq/=].
  destruct (stopStorageTimer _ _) as [[[stopped r] s3]| |] eqn:Hstop; cbn [rbind] in H;
    [|done..].
  apply stopStorageTimer_registry in Hstop. simpl in Hstop.
  callback_cases H; simplify_eq/=; rewrite ?Hstop; set_solver.
Qed.

Lemma stopTrienodeHealTimer_registry (request : ptr) s (stopped : bool) r s' :
  stopTrienodeHealTimer request s = Ok (stopped, r, s') → registry s' = registry s.
Proof. unfold stopTrienodeHealTimer. intros H. callback_cases H. by simplify_eq/=. Qed.

Lemma OnTrieNodes_keeps keccak256 (cancelled send : bool) (peer : string) (id : Z)
    (trienodes : list bytes) s s' (e : error) (posted : list message) :
  OnTrieNodes keccak256 cancelled send peer id trienodes s = Ok (s', e, posted) →
  statelessPeers (registry s) ⊆ statelessPeers (registry s').
Proof.
  unfold OnTrieNodes.
  set (s1 := set_update true _).
  assert (Hreg : statelessPeers (registry s1) = statelessPeers (registry s))
    by (subst s1; by destruct (bool_decide (peer ∈ _))).
  clearbody s1. rewrite <- Hreg. clear Hreg. intros H.
  destruct (trienodeHealReqs (requests s1) !! id) as [request|]; [|by simplify_eq/=].
  destruct (stopTrienodeHealTimer _ _) as [[[stopped r] s3]| |] eqn:Hstop; cbn [rbind] in H;
    [|done..].
  apply stopTrienodeHealTimer_registry in Hstop. simpl in Hstop.
  callback_cases H; simplify_eq/=; rewrite ?Hstop; set_solver.
Qed.

Lemma stopBytecodeHealTimer_registry (request : ptr) s (stopped : bool) r s' :
  stopBytecodeHealTimer request s = Ok (stopped, r, s') → registry s' = registry s.
Proof. unfold stopBytecodeHealTimer. intros H. callback_cases H. by simplify_eq/=. Qed.

Lemma onHealByteCodes_keeps keccak256 (cancelled send : bool) (peer : string) (id : Z)
    (bytecodes : list bytes) s s' (e : error) (posted : list message) :
  onHealByteCodes keccak256 cancelled send peer id bytecodes s = Ok (s', e, posted) →
  statelessPeers (registry s) ⊆ statelessPeers (registry s').
Proof.
  unfold onHealByteCodes.
  set (s1 := set_update true _).
  assert (Hreg : statelessPeers (registry s1) = statelessPeers (registry s))
    by (subst s1; by destruct (bool_decide (peer ∈ _))).
  clearbody s1. rewrite <- Hreg. clear Hreg. intros H.
  destruct (bytecodeHealReqs (requests s1) !! id) as [request|]; [|by simplify_eq/=].
  destruct (stopBytecodeHealTimer _ _) as [[[stopped r] s3]| |] eqn:Hstop; cbn [rbind] in H;
    [|done..].
  apply stopBytecodeHealTimer_registry in Hstop. simpl in Hstop.
  callback_cases H; simplify_eq/=; rewrite ?Hstop; set_solver.
Qed.

Lemma OnByteCodes_keeps keccak256 (cancelled send : bool) (peer : string) (id : Z)
    (bytecodes : list bytes) s s' (e : error) (posted : list message) :
  OnByteCodes keccak256 cancelled send peer id bytecodes s = Ok (s', e, posted) →
  statelessPeers (registry s) ⊆ statelessPeers (registry s').
Proof.
  unfold OnByteCodes. destruct (negb (snapped s)).
  - apply onByteCodes_keeps.
  - apply onHealByteCodes_keeps.
Qed.
End Keeps.

(** A callback outcome that keeps every stateless peer stateless. *)
Definition keepsStateless {Sched : Type} (s : Syncer Sched)
    (outcome : result (Syncer Sched * error * list message)) : Prop :=
  ∀ s' e posted, outcome = Ok (s', e, posted) →
    statelessPeers (registry s) ⊆ statelessPeers (registry s').

(** C8.  An empty response to a live request (the id is in the class's
    live table, the timeout timer is still armed, the stale signal is
    open, and for an account request the task still waits on it): the
    callback returns no error, the peer is in the stateless set, the
    revert is scheduled (the failure message is posted unless the cycle is
    cancelled), and the revert it asks for returns the fragments to the
    task (task.req cleared, code hashes back in codeTasks, subtask.req
    cleared or the account-to-root tuples back in stateTasks, trie hashes
    and paths back in trieTasks, heal code hashes back in the healer's
    codeTasks) with the peer still stateless.  No assigner sends a request
    to a stateless peer or changes the stateless set, and no callback or
    revert takes a peer out of it. *)
Theorem empty_response_marks_stateless {Sched : Type}
    (Pending : Sched → Z)
    (Missing : Sched → Z → list Hash * list SyncPath * list Hash * Sched)
    (rangePeers : gset string → list string) (rangeKeys : gset Z → list Z)
    (VerifyRangeProof : Hash → option Hash → option Hash → list Hash → list bytes →
                        option (list bytes) →
                        option (NodeSet * Trie * option (gset Hash) * bool))
    (keccak256 : bytes → Hash) (decodeAccount : bytes → option Account)
    (cancelled send : bool) (peer : string) (id : Z) (request : ptr) (draws : list Z)
    (s : Syncer Sched) :
  (∀ r t,
     accountReqs (requests s) !! id = Some request →
     accountRequests (heap s) !! request = Some r →
     areq_timeout r = TimerArmed → areq_stale r = false →
     loadTask (areq_task r) s = Ok t → req t = Some request →
     rejected peer cancelled (AccountReqFail request)
       (OnAccounts VerifyRangeProof decodeAccount cancelled send peer id [] [] [] s)
       (scheduleRevertAccountRequest cancelled send request)
       (revertAccountRequest request)
       (λ s'', loadTask (areq_task r) s'' = Ok (set_req None t))) ∧
  (∀ r t,
     snapped s = false →
     bytecodeReqs (requests s) !! id = Some request →
     bytecodeRequests (heap s) !! request = Some r →
     breq_timeout r = TimerArmed → breq_stale r = false →
     loadTask (breq_task r) s = Ok t →
     rejected peer cancelled (BytecodeReqFail request)
       (OnByteCodes keccak256 cancelled send peer id [] s)
       (scheduleRevertBytecodeRequest cancelled send request)
       (revertBytecodeRequest request)
       (λ s'', ∃ t', loadTask (breq_task r) s'' = Ok t' ∧
                     ∀ h, h ∈ codeTasks t' ↔ h ∈ breq_hashes r ∨ h ∈ codeTasks t)) ∧
  (∀ r sub st proof,
     storageReqs (requests s) !! id = Some request →
     storageRequests (heap s) !! request = Some r →
     sreq_timeout r = TimerArmed → sreq_stale r = false →
     sreq_subTask r = Some sub → loadSubTask sub s = Ok st →
     rejected peer cancelled (StorageReqFail request)
       (OnStorage VerifyRangeProof cancelled send peer id [] [] proof s)
       (scheduleRevertStorageRequest cancelled send request)
       (revertStorageRequest request)
       (λ s'', loadSubTask sub s'' = Ok (set_st_req None st))) ∧
  (∀ r t proof,
     storageReqs (requests s) !! id = Some request →
     storageRequests (heap s) !! request = Some r →
     sreq_timeout r = TimerArmed → sreq_stale r = false →
     sreq_subTask r = None → loadTask (sreq_mainTask r) s = Ok t →
     (length (sreq_accounts r) ≤ length (sreq_roots r))%nat →
     rejected peer cancelled (StorageReqFail request)
       (OnStorage VerifyRangeProof cancelled send peer id [] [] proof s)
       (scheduleRevertStorageRequest cancelled send request)
       (revertStorageRequest request)
       (λ s'', ∃ t', loadTask (sreq_mainTask r) s'' = Ok t' ∧
          (∀ j account, sreq_accounts r !! j = Some account →
             (∀ j', (j < j')%nat → sreq_accounts r !! j' ≠ Some account) →
             stateTasks t' !! account = sreq_roots r !! j) ∧
          (∀ account, account ∉ sreq_accounts r →
             stateTasks t' !! account = stateTasks t !! account))) ∧
  (∀ r ht,
     trienodeHealReqs (requests s) !! id = Some request →
     trienodeHealRequests (heap s) !! request = Some r →
     treq_timeout r = TimerArmed → treq_stale r = false →
     healTasks (heap s) !! treq_task r = Some ht →
     (length (treq_hashes r) ≤ length (treq_paths r))%nat →
     rejected peer cancelled (TrienodeHealReqFail request)
       (OnTrieNodes keccak256 cancelled send peer id [] s)
       (scheduleRevertTrienodeHealRequest cancelled send request)
       (revertTrienodeHealRequest request)
       (λ s'', ∃ ht', healTasks (heap s'') !! treq_task r = Some ht' ∧
          (∀ j hash, treq_hashes r !! j = Some hash →
             (∀ j', (j < j')%nat → treq_hashes r !! j' ≠ Some hash) →
             trieTasks ht' !! hash = treq_paths r !! j) ∧
          (∀ hash, hash ∉ treq_hashes r →
             trieTasks ht' !! hash = trieTasks ht !! hash))) ∧
  (∀ r ht,
     snapped s = true →
     bytecodeHealReqs (requests s) !! id = Some request →
     bytecodeHealRequests (heap s) !! request = Some r →
     hreq_timeout r = TimerArmed → hreq_stale r = false →
     healTasks (heap s) !! hreq_task r = Some ht →
     rejected peer cancelled (BytecodeHealReqFail request)
       (OnByteCodes keccak256 cancelled send peer id [] s)
       (scheduleRevertBytecodeHealRequest cancelled send request)
       (revertBytecodeHealRequest request)
       (λ s'', ∃ ht', healTasks (heap s'') !! hreq_task r = Some ht' ∧
          ∀ h, h ∈ heal_codeTasks ht' ↔ h ∈ hreq_hashes r ∨ h ∈ heal_codeTasks ht)) ∧
  (skipsStateless s (assignAccountTasks rangePeers draws s) ∧
   skipsStateless s (assignBytecodeTasks rangePeers rangeKeys draws s) ∧
   skipsStateless s (assignStorageTasks rangePeers rangeKeys draws s) ∧
   skipsStateless s (assignTrienodeHealTasks Pending Missing rangePeers rangeKeys draws s) ∧
   skipsStateless s (assignBytecodeHealTasks Pending Missing rangePeers rangeKeys draws s)) ∧
  ((∀ hashes accounts proof,
      keepsStateless s (OnAccounts VerifyRangeProof decodeAccount cancelled send peer id
                          hashes accounts proof s)) ∧
   (∀ bytecodes,
      keepsStateless s (OnByteCodes keccak256 cancelled send peer id bytecodes s)) ∧
   (∀ hashes slots proof,
      keepsStateless s (OnStorage VerifyRangeProof cancelled send peer id
                          hashes slots proof s)) ∧
   (∀ trienodes,
      keepsStateless s (OnTrieNodes keccak256 cancelled send peer id trienodes s))) ∧
  (∀ s', revertAccountRequest request s = Ok s' ∨ revertBytecodeRequest request s = Ok s' ∨
         revertStorageRequest request s = Ok s' ∨
         revertTrienodeHealRequest request s = Ok s' ∨
         revertBytecodeHealRequest request s = Ok s' →
         statelessPeers (registry s') = statelessPeers (registry s)).
Proof.
  split_and!.
  - intros r t. apply OnAccounts_empty.
  - intros r t Hsnap. unfold OnByteCodes. rewrite Hsnap. apply onByteCodes_empty.
  - intros r sub st proof. apply OnStorage_empty_large.
  - intros r t proof. apply OnStorage_empty_small.
  - intros r ht. apply OnTrieNodes_empty.
  - intros r ht Hsnap. unfold OnByteCodes. rewrite Hsnap. apply onHealByteCodes_empty.
  - unfold assignAccountTasks. destruct (bool_decide _);
      [apply skipsStateless_done|apply assignAccountLoop_skips].
  - unfold assignBytecodeTasks. destruct (bool_decide _);
      [apply skipsStateless_done|apply assignBytecodeLoop_skips].
  - unfold assignStorageTasks. destruct (bool_decide _);
      [apply skipsStateless_done|apply assignStorageLoop_skips].
  - unfold assignTrienodeHealTasks. destruct (bool_decide _);
      [apply skipsStateless_done|apply assignTrienodeHealLoop_skips].
  - unfold assignBytecodeHealTasks. destruct (bool_decide _);
      [apply skipsStateless_done|apply assignBytecodeHealLoop_skips].
  - intros hashes accounts proof s' e posted. apply OnAccounts_keeps.
  - intros bytecodes s' e posted. apply OnByteCodes_keeps.
  - intros hashes slots proof s' e posted. apply OnStorage_keeps.
  - intros trienodes s' e posted. apply OnTrieNodes_keeps.
  - intros s' [H|[H|[H|[H|H]]]]; apply f_equal.
    + by apply revertAccountRequest_registry in H.
    + by apply revertBytecodeRequest_registry in H.
    + by apply revertStorageRequest_registry in H.
    + by apply revertTrienodeHealRequest_registry in H.
    + by apply revertBytecodeHealRequest_registry in H.
Qed.

(** The peer of the first chunk answers request 5 with nothing. *)
Lemma empty_response_marks_stateless_witness :
  rejected "a" false (AccountReqFail 1%positive)
    (OnAccounts exampleVerify exampleDecode false true "a" 5 [] [] [] firstAssigned)
    (scheduleRevertAccountRequest false true 1%positive)
    (revertAccountRequest 1%positive)
    (λ s'', loadTask 1%positive s''
            = Ok (set_req None (set_req (Some 1%positive)
                                  (freshTask (0, hashSpace / 16 - 1))))).
Proof.
  apply (proj1 (empty_response_marks_stateless (λ _ : unit, 0) (λ sched _, ([], [], [], sched))
                  elements elements exampleVerify (λ _, 0) exampleDecode
                  false true "a" 5 1%positive [] firstAssigned)
           (mkAccountRequest "a" 5 TimerArmed false 0 (hashSpace / 16 - 1) 1%positive)
           (set_req (Some 1%positive) (freshTask (0, hashSpace / 16 - 1))));
    vm_compute; reflexivity.
Defined.

(** ** Large contracts *)

(** What trimSlots leaves of a response: the slot hashes and slots, the
    overflow set and the continuation flag are the only fields it writes,
    and it writes none of them when it leaves the flag set. *)
Record trimmedSlots (r r' : storageResponse) : Prop := mkTrimmedSlots {
  slots_mainTask : sres_mainTask r' = sres_mainTask r;
  slots_subTask : sres_subTask r' = sres_subTask r;
  slots_accounts : sres_accounts r' = sres_accounts r;
  slots_roots : sres_roots r' = sres_roots r;
  slots_nodes : sres_nodes r' = sres_nodes r;
  slots_length : length (sres_hashes r') = length (sres_hashes r);
  slots_cont : sres_cont r' = true → r' = r
}.

Lemma trimmedSlots_refl (r : storageResponse) : trimmedSlots r r.
Proof. by split. Qed.

Lemma drop_cons_lookup {A : Type} (l : list A) (k : nat) (x : A) (rest : list A) :
  drop k l = x :: rest → l !! k = Some x ∧ drop (S k) l = rest ∧ (k < length l)%nat.
Proof.
  intros Hd.
  assert (Hx : l !! k = Some x).
  { rewrite <- (Nat.add_0_r k), <- lookup_drop, Hd. done. }
  split; [done|]. split.
  - rewrite (drop_S _ _ _ Hx) in Hd. by injection Hd.
  - by eapply lookup_lt_Some.
Qed.

Lemma trimSlots_spec (last : Hash) (i : nat) (tr : Trie) (hs : list Hash) (sl : list bytes)
    (pending : list Hash) : ∀ (k : nat) (r : storageResponse),
  sres_hashes r !! i = Some hs → sres_slots r !! i = Some sl →
  sres_tries r !! i = Some tr →
  (∀ key, key ∈ hs → is_Some (tr key)) → (length hs ≤ length sl)%nat →
  pending = drop k hs →
  ∃ r' hs' sl',
    trimSlots last i k pending r = Ok r' ∧ trimmedSlots r r' ∧
    sres_hashes r' !! i = Some hs' ∧ sres_slots r' !! i = Some sl' ∧
    (length hs' ≤ length sl')%nat ∧
    (sres_cont r' = true → Forall (λ h, h < last) pending) ∧
    (Forall (λ h, h < last) pending → r' = r).
Proof.
  induction pending as [|hash rest IH]; intros k r Hhs Hsl Htr Hp Hlen Hd; simpl.
  - exists r, hs, sl. split_and!; try done.
  - symmetry in Hd. apply drop_cons_lookup in Hd as (Hk & Hrest & Hlt).
    destruct (hash =? last) eqn:Heq; [|destruct (hash >? last) eqn:Hgt].
    + apply Z.eqb_eq in Heq.
      destruct (IH (S k) (set_sres_cont false r)) as (r' & hs' & sl' & -> & Ht & H1 & H2 & H3 & H4 & H5);
        try done.
      exists r', hs', sl'. split_and!; try done.
      * destruct Ht. split; try done.
        intros Hc. pose proof (slots_cont0 Hc) as Hr. by rewrite Hr in Hc.
      * intros Hc. destruct Ht as [_ _ _ _ _ _ Ht]. pose proof (Ht Hc) as Hr.
        by rewrite Hr in Hc.
      * intros Hall. apply Forall_cons in Hall as [Hlt' _]. lia.
    + rewrite (index_lookup _ _ _ Hhs). cbn [rbind].
      rewrite (drop_S _ _ _ Hk), Hrest.
      rewrite (index_lookup _ _ _ Htr). cbn [rbind].
      destruct (proveAll_Ok tr (hash :: rest) (sres_overflow r)) as [overflow Ho].
      { intros key Hin. apply Hp. apply elem_of_cons in Hin as [->|Hin].
        - by eapply list_elem_of_lookup_2.
        - rewrite <- Hrest in Hin. by eapply elem_of_sublist; [|apply sublist_drop]. }
      simpl in Ho. rewrite Ho. cbn [rbind]. rewrite (index_lookup _ _ _ Hsl). cbn [rbind].
      assert (Hkl : (k <=? length sl)%nat = true) by (apply Nat.leb_le; lia).
      rewrite Hkl.
      eexists _, (take k hs), (take k sl). split; [reflexivity|]. split_and!.
      * split; try done. simpl. by rewrite length_insert.
      * simpl. apply list_lookup_insert_eq. by eapply lookup_lt_Some.
      * simpl. apply list_lookup_insert_eq. by eapply lookup_lt_Some.
      * rewrite !length_take. lia.
      * done.
      * intros Hall. apply Forall_cons in Hall as [Hlt' _]. apply Z.gtb_lt in Hgt. lia.
    + destruct (IH (S k) r) as (r' & hs' & sl' & -> & Ht & H1 & H2 & H3 & H4 & H5);
        try done.
      exists r', hs', sl'. split_and!; try done.
      * intros Hc. constructor; [|by apply H4].
        apply Z.eqb_neq in Heq. rewrite Z.gtb_ltb in Hgt. apply Z.ltb_ge in Hgt. lia.
      * intros Hall. apply Forall_cons in Hall as [_ Hall]. by apply H5.
Qed.

(** What integrating the storage of a completed contract leaves of the
    fill state of the main task. *)
Record sameFill (t t1 : accountTask) : Prop := mkSameFill {
  fill_res : res t1 = res t;
  fill_needHeal : needHeal t1 = needHeal t;
  fill_SubTasks : SubTasks t1 = SubTasks t;
  fill_needState : length (needState t1) = length (needState t)
}.

Lemma sameFill_refl (t : accountTask) : sameFill t t.
Proof. by split. Qed.

Lemma sameFill_trans (t t1 t2 : accountTask) :
  sameFill t t1 → sameFill t1 t2 → sameFill t t2.
Proof. intros [] []. split; congruence. Qed.

Section LargeContracts.
Context {Sched : Type}.
Implicit Types s : Syncer Sched.

Lemma integrateMatches_skip (i : nat) (account : Hash) (hashes : list Hash) :
  ∀ (j : nat) (st : Syncer Sched * storageResponse),
  account ∉ hashes → integrateMatches i account j hashes st = Ok st.
Proof.
  induction hashes as [|h rest IH]; intros j st Hnot; simpl; [done|].
  apply not_elem_of_cons in Hnot as [Hne Hnot].
  assert (Hb : (account =? h) = false) by (by apply Z.eqb_neq).
  rewrite Hb. simpl. by apply IH.
Qed.

(** An account before the trailing one of a response that is not for a
    subtask: its slots are complete. *)
Lemma integrateStorage_early (i j : nat) (account : Hash) s (r : storageResponse)
    (t : accountTask) (mres : accountResponse) :
  sres_subTask r = None →
  Z.of_nat i < Z.of_nat (length (sres_hashes r)) - 1 →
  loadTask (sres_mainTask r) s = Ok t → res t = Some mres →
  (j < length (ares_accounts mres))%nat →
  (j < length (needState t))%nat → (j < length (needHeal t))%nat →
  ∃ t1,
    integrateStorage i j account (s, r) = Ok (storeTask (sres_mainTask r) t1 s, r) ∧
    sameFill t t1 ∧ pend t - 1 ≤ pend t1.
Proof.
  intros Hsub Hi Ht Hres Hacc Hns Hnh.
  unfold integrateStorage. rewrite Ht. cbn [rbind]. rewrite Hres. cbn [rbind].
  destruct (lookup_lt_is_Some_2 _ _ Hacc) as [acc Ha].
  destruct (lookup_lt_is_Some_2 _ _ Hns) as [need Hn].
  destruct (lookup_lt_is_Some_2 _ _ Hnh) as [heal Hh].
  rewrite (index_lookup _ _ _ Ha). cbn [rbind]. rewrite Hsub.
  rewrite (index_lookup _ _ _ Hn). cbn [rbind].
  assert (Hlt : (Z.of_nat i <? Z.of_nat (length (sres_hashes r)) - 1) = true)
    by (by apply Z.ltb_lt).
  assert (Hne : (Z.of_nat i =? Z.of_nat (length (sres_hashes r)) - 1) = false)
    by (apply Z.eqb_neq; lia).
  rewrite Hlt, Hne. cbn [orb andb]. rewrite andb_true_r.
  destruct need; cbn [rbind].
  - assert (Hh' : needHeal (set_pend (pend t - 1)
                              (set_needState (<[j:=false]> (needState t)) t)) !! j
                  = Some heal) by done.
    rewrite (index_lookup _ _ _ Hh'). cbn [rbind]. rewrite andb_false_r. cbn [andb rbind].
    rewrite Hsub. eexists. split; [reflexivity|].
    split; [|simpl; lia]. split; try done. simpl. by rewrite length_insert.
  - rewrite (index_lookup _ _ _ Hh). cbn [rbind]. rewrite andb_false_r. cbn [andb rbind].
    rewrite Hsub. eexists. split; [reflexivity|].
    split; [apply sameFill_refl|lia].
Qed.
Lemma integrateMatches_early (i : nat) (account : Hash) (r : storageResponse)
    (mres : accountResponse) (hashes : list Hash) : ∀ (j : nat) s (t : accountTask),
  sres_subTask r = None →
  Z.of_nat i < Z.of_nat (length (sres_hashes r)) - 1 →
  loadTask (sres_mainTask r) s = Ok t → res t = Some mres →
  NoDup hashes →
  (j + length hashes ≤ length (ares_accounts mres))%nat →
  (j + length hashes ≤ length (needState t))%nat →
  (j + length hashes ≤ length (needHeal t))%nat →
  ∃ s1 t1,
    integrateMatches i account j hashes (s, r) = Ok (s1, r) ∧
    loadTask (sres_mainTask r) s1 = Ok t1 ∧
    storageTasks (heap s1) = storageTasks (heap s) ∧
    sameFill t t1 ∧ pend t - 1 ≤ pend t1.
Proof.
  induction hashes as [|h rest IH]; intros j s t Hsub Hi Ht Hres Hnd Hacc Hns Hnh.
  - exists s, t. split_and!; first [done|apply sameFill_refl|lia].
  - apply NoDup_cons in Hnd as [Hnot Hnd]. simpl in Hacc, Hns, Hnh.
    cbn [integrateMatches].
    destruct (account =? h) eqn:Heq; cbn [negb].
    + apply Z.eqb_eq in Heq. subst h.
      destruct (integrateStorage_early i j account s r t mres) as (t1 & -> & Hfill & Hpend);
        try done; try lia.
      cbn [rbind]. rewrite integrateMatches_skip by done.
      exists (storeTask (sres_mainTask r) t1 s), t1. split_and!; try done.
      apply loadTask_storeTask.
    + apply (IH (S j)); try done; lia.
Qed.

Lemma persistSlots_Ok (account : Hash) (slots : list bytes) (hashes : list Hash) :
  ∀ (j : nat) (acc : Batch * Z),
  (j + length hashes ≤ length slots)%nat →
  is_Ok (persistSlots account slots j hashes acc).
Proof.
  induction hashes as [|h rest IH]; intros j acc Hlen; simpl; [by eexists|].
  simpl in Hlen.
  destruct (lookup_lt_is_Some_2 slots j) as [slot Hs]; [lia|].
  rewrite (index_lookup _ _ _ Hs). cbn [rbind]. apply IH. lia.
Qed.

(** The shape of a verified storage response: a node set for every
    delivered account, and a slot for every delivered slot hash. *)
Definition slotsFit (r : storageResponse) : Prop :=
  (length (sres_hashes r) ≤ length (sres_nodes r))%nat ∧
  ∀ i hs, sres_hashes r !! i = Some hs →
          ∃ sl, sres_slots r !! i = Some sl ∧ (length hs ≤ length sl)%nat.

(** The tail of a turn of the outer loop: pushing the nodes and the slots
    of account [i] to the batch. *)
Lemma persistSlots_fit (account : Hash) (r : storageResponse) (i : nat) (hs : list Hash)
    (acc : Batch * Z) :
  sres_hashes r !! i = Some hs →
  (∃ sl, sres_slots r !! i = Some sl ∧ (length hs ≤ length sl)%nat) →
  is_Ok (match hs with
         | [] => Ok acc
         | _ :: _ => let* sl := index (sres_slots r) i in persistSlots account sl 0 hs acc
         end).
Proof.
  intros Hhs (sl & Hsl & Hlen). destruct hs as [|h hs']; [by eexists|].
  rewrite (index_lookup _ _ _ Hsl). cbn [rbind]. apply persistSlots_Ok. simpl in *. lia.
Qed.

Lemma integrateAccounts_early (r : storageResponse) (mres : accountResponse)
    (rest : list Hash) (pre : list Hash) :
  ∀ (i0 : nat) s (t : accountTask) (b : Batch * Z * Z * Z * Z),
  sres_subTask r = None → slotsFit r →
  loadTask (sres_mainTask r) s = Ok t → res t = Some mres →
  NoDup (ares_hashes mres) →
  (length (ares_hashes mres) ≤ length (ares_accounts mres))%nat →
  (length (ares_hashes mres) ≤ length (needState t))%nat →
  (length (ares_hashes mres) ≤ length (needHeal t))%nat →
  Z.of_nat (i0 + length pre) ≤ Z.of_nat (length (sres_hashes r)) - 1 →
  ∃ s1 t1 b1,
    integrateAccounts i0 (pre ++ rest) (s, r, b)
      = integrateAccounts (i0 + length pre) rest (s1, r, b1) ∧
    loadTask (sres_mainTask r) s1 = Ok t1 ∧
    storageTasks (heap s1) = storageTasks (heap s) ∧
    sameFill t t1 ∧ pend t - Z.of_nat (length pre) ≤ pend t1.
Proof.
  induction pre as [|account pre IH];
    intros i0 s t b Hsub Hfit Ht Hres Hnd Hacc Hns Hnh Hi.
  - exists s, t, b. rewrite Nat.add_0_r. split_and!; first [done|apply sameFill_refl|simpl; lia].
  - simpl in Hi. destruct b as [[[[batch slots] nodes] skipped] size].
    cbn [app integrateAccounts].
    assert (Hlt : (length (sres_hashes r) <=? i0)%nat = false) by (apply Nat.leb_gt; lia).
    rewrite Hlt, Ht. cbn [rbind]. rewrite Hres. cbn [rbind].
    destruct (integrateMatches_early i0 account r mres (ares_hashes mres) 0 s t)
      as (s1 & t1 & -> & Ht1 & Hsts & Hfill & Hpend); try done; try lia.
    cbn [rbind].
    destruct (lookup_lt_is_Some_2 (sres_hashes r) i0) as [hs Hhs]; [lia|].
    pose proof Hfit as [Hnodes Hslots].
    destruct (lookup_lt_is_Some_2 (sres_nodes r) i0) as [nodeDb Hn]; [lia|].
    rewrite (index_lookup _ _ _ Hhs). cbn [rbind].
    rewrite (index_lookup _ _ _ Hn). cbn [rbind].
    destruct (foldl _ _ _) as [[[batch1 nodes1] skipped1] size1].
    destruct (persistSlots_fit account r i0 hs (batch1, size1) Hhs (Hslots _ _ Hhs))
      as [[batch2 size2] ->].
    cbn [rbind].
    destruct Hfill as [Hf1 Hf2 Hf3 Hf4].
    destruct (IH (S i0) s1 t1 (batch2, slots + Z.of_nat (length hs), nodes1, skipped1, size2))
      as (s2 & t2 & b2 & -> & Ht2 & Hsts2 & Hfill2 & Hpend2);
      try done; try congruence; try lia.
    exists s2, t2, b2. split_and!.
    + f_equal. simpl. lia.
    + done.
    + congruence.
    + eapply sameFill_trans; [|done]. by split.
    + simpl. lia.
Qed.

End LargeContracts.

(** ** The peer registry *)

(** X1.  Registering a known peer and unregistering an unknown one fail
    and change nothing.  Registering a new peer puts it into the peer
    table and all five idle sets and announces it; unregistering it again
    announces the drop and leaves no trace of it, the entries of all other
    peers being what they were before the two calls. *)
Theorem register_unregister {Sched : Type} (id : string) (s : Syncer Sched) :
  (id ∈ peers (registry s) →
     Register id s = (s, Some "already registered"%string, [])) ∧
  (id ∉ peers (registry s) →
     Unregister id s = (s, Some "not registered"%string, [])) ∧
  (id ∉ peers (registry s) →
     ∃ s1 s2,
       Register id s = (s1, None, [PeerJoin id]) ∧
       id ∈ peers (registry s1) ∧
       id ∈ accountIdlers (registry s1) ∧ id ∈ bytecodeIdlers (registry s1) ∧
       id ∈ storageIdlers (registry s1) ∧ id ∈ trienodeHealIdlers (registry s1) ∧
       id ∈ bytecodeHealIdlers (registry s1) ∧
       statelessPeers (registry s1) = statelessPeers (registry s) ∧
       Unregister id s1 = (s2, None, [PeerDrop id]) ∧
       peers (registry s2) = peers (registry s) ∧
       statelessPeers (registry s2) = statelessPeers (registry s) ∖ {[id]} ∧
       accountIdlers (registry s2) = accountIdlers (registry s) ∖ {[id]} ∧
       bytecodeIdlers (registry s2) = bytecodeIdlers (registry s) ∖ {[id]} ∧
       storageIdlers (registry s2) = storageIdlers (registry s) ∖ {[id]} ∧
       trienodeHealIdlers (registry s2) = trienodeHealIdlers (registry s) ∖ {[id]} ∧
       bytecodeHealIdlers (registry s2) = bytecodeHealIdlers (registry s) ∖ {[id]} ∧
       requests s2 = requests s ∧ heap s2 = heap s ∧ tasks s2 = tasks s).
Proof.
  split_and!.
  - intros Hin. unfold Register. by rewrite bool_decide_eq_true_2.
  - intros Hnot. unfold Unregister. by rewrite bool_decide_eq_false_2.
  - intros Hnot. unfold Register. rewrite bool_decide_eq_false_2 by done.
    set (s1 := set_registry _ s).
    assert (Hin : id ∈ peers (registry s1)) by (subst s1; cbn; set_solver).
    exists s1. unfold Unregister. rewrite bool_decide_eq_true_2 by done. cbn [negb].
    eexists. split; [reflexivity|]. subst s1. cbn.
    split_and!; try done; set_solver.
Qed.

(** ** Responses nobody waits for *)

(** A callback outcome that hands nothing on: no error, nothing posted,
    and the tasks, the request objects, the store, the counters, the peer
    table and the stateless set are what they were. *)
Definition handsNothingOn {Sched : Type} (s : Syncer Sched)
    (outcome : result (Syncer Sched * error * list message)) (s' : Syncer Sched) : Prop :=
  outcome = Ok (s', None, []) ∧
  heap s' = heap s ∧ tasks s' = tasks s ∧ db s' = db s ∧ counters s' = counters s ∧
  root s' = root s ∧ healer s' = healer s ∧ snapped s' = snapped s ∧
  peers (registry s') = peers (registry s) ∧
  statelessPeers (registry s') = statelessPeers (registry s).

Ltac callback_prelude s s1 :=
  match goal with
  | |- context [set_update true ?s0] => set (s1 := set_update true s0)
  end;
  assert (requests s1 = requests s ∧ heap s1 = heap s ∧ tasks s1 = tasks s ∧ db s1 = db s ∧
          counters s1 = counters s ∧ root s1 = root s ∧ healer s1 = healer s ∧
          snapped s1 = snapped s ∧
          peers (registry s1) = peers (registry s) ∧
          statelessPeers (registry s1) = statelessPeers (registry s))
    as (Hrq & Hhp & Htk & Hdb & Hct & Hrt & Hhl & Hsn & Hpr & Hsl)
    by (subst s1; destruct (bool_decide (_ ∈ _)); done);
  clearbody s1.

Section Unsolicited.
Context {Sched : Type}.
Implicit Types s : Syncer Sched.

Lemma OnAccounts_unsolicited VerifyRangeProof decodeAccount (cancelled send : bool)
    (peer : string) (id : Z) (hashes : list Hash) (accounts proof : list bytes) s :
  accountReqs (requests s) !! id = None →
  ∃ s', handsNothingOn s
          (OnAccounts VerifyRangeProof decodeAccount cancelled send peer id hashes accounts
             proof s) s' ∧
        requests s' = requests s.
Proof.
  intros Hid. unfold OnAccounts. callback_prelude s s1.
  rewrite Hrq, Hid. exists s1. by split_and!.
Qed.

Lemma onByteCodes_unsolicited keccak256 (cancelled send : bool)
    (peer : string) (id : Z) (bytecodes : list bytes) s :
  bytecodeReqs (requests s) !! id = None →
  ∃ s', handsNothingOn s (onByteCodes keccak256 cancelled send peer id bytecodes s) s' ∧
        requests s' = requests s.
Proof.
  intros Hid. unfold onByteCodes. callback_prelude s s1.
  rewrite Hrq, Hid. exists s1. by split_and!.
Qed.

Lemma OnStorage_unsolicited VerifyRangeProof (cancelled send : bool)
    (peer : string) (id : Z) (hashes : list (list Hash)) (slots : list (list bytes))
    (proof : list bytes) s :
  storageReqs (requests s) !! id = None →
  ∃ s', handsNothingOn s
          (OnStorage VerifyRangeProof cancelled send peer id hashes slots proof s) s' ∧
        requests s' = requests s.
Proof.
  intros Hid. unfold OnStorage. callback_prelude s s1.
  rewrite Hrq, Hid. exists s1. by split_and!.
Qed.

Lemma OnTrieNodes_unsolicited keccak256 (cancelled send : bool)
    (peer : string) (id : Z) (trienodes : list bytes) s :
  trienodeHealReqs (requests s) !! id = None →
  ∃ s', handsNothingOn s (OnTrieNodes keccak256 cancelled send peer id trienodes s) s' ∧
        requests s' = requests s.
Proof.
  intros Hid. unfold OnTrieNodes. callback_prelude s s1.
  rewrite Hrq, Hid. exists s1. by split_and!.
Qed.

Lemma onHealByteCodes_unsolicited keccak256 (cancelled send : bool)
    (peer : string) (id : Z) (bytecodes : list bytes) s :
  bytecodeHealReqs (requests s) !! id = None →
  ∃ s', handsNothingOn s (onHealByteCodes keccak256 cancelled send peer id bytecodes s) s' ∧
        requests s' = requests s.
Proof.
  intros Hid. unfold onHealByteCodes. callback_prelude s s1.
  rewrite Hrq, Hid. exists s1. by split_and!.
Qed.
End Unsolicited.

(** X2.  A response whose id is not in the live table of its class (an
    unsolicited packet, or one whose request was reverted already) is
    ignored whatever it carries: the callback returns no error and posts
    nothing, and the tasks, the request tables and objects, the store, the
    counters and the stateless set stay as they are. *)
Theorem unsolicited_response_ignored {Sched : Type}
    (VerifyRangeProof : Hash → option Hash → option Hash → list Hash → list bytes →
                        option (list bytes) →
                        option (NodeSet * Trie * option (gset Hash) * bool))
    (keccak256 : bytes → Hash) (decodeAccount : bytes → option Account)
    (cancelled send : bool) (peer : string) (id : Z) (s : Syncer Sched) :
  (∀ hashes accounts proof,
     accountReqs (requests s) !! id = None →
     ∃ s', handsNothingOn s
             (OnAccounts VerifyRangeProof decodeAccount cancelled send peer id
                hashes accounts proof s) s' ∧
           requests s' = requests s) ∧
  (∀ bytecodes,
     snapped s = false → bytecodeReqs (requests s) !! id = None →
     ∃ s', handsNothingOn s (OnByteCodes keccak256 cancelled send peer id bytecodes s) s' ∧
           requests s' = requests s) ∧
  (∀ hashes slots proof,
     storageReqs (requests s) !! id = None →
     ∃ s', handsNothingOn s
             (OnStorage VerifyRangeProof cancelled send peer id hashes slots proof s) s' ∧
           requests s' = requests s) ∧
  (∀ trienodes,
     trienodeHealReqs (requests s) !! id = None →
     ∃ s', handsNothingOn s (OnTrieNodes keccak256 cancelled send peer id trienodes s) s' ∧
           requests s' = requests s) ∧
  (∀ bytecodes,
     snapped s = true → bytecodeHealReqs (requests s) !! id = None →
     ∃ s', handsNothingOn s (OnByteCodes keccak256 cancelled send peer id bytecodes s) s' ∧
           requests s' = requests s).
Proof.
  split_and!.
  - intros. by apply OnAccounts_unsolicited.
  - intros bytecodes Hsn Hid. unfold OnByteCodes. rewrite Hsn. by apply onByteCodes_unsolicited.
  - intros. by apply OnStorage_unsolicited.
  - intros. by apply OnTrieNodes_unsolicited.
  - intros bytecodes Hsn Hid. unfold OnByteCodes. rewrite Hsn.
    by apply onHealByteCodes_unsolicited.
Qed.

(** ** Responses that lost the race against the timeout *)

Section Late.
Context {Sched : Type}.
Implicit Types s : Syncer Sched.

Lemma stopAccountTimer_expired (request : ptr) s (r : accountRequest) :
  accountRequests (heap s) !! request = Some r → areq_timeout r ≠ TimerArmed →
  stopAccountTimer request s = Ok (false, r, s).
Proof.
  intros Hr Ht. unfold stopAccountTimer, deref. rewrite Hr. cbn [rbind].
  destruct s as [? ? ? ? ? ? ? ? ? hp], hp, r as [? ? timer ? ? ? ?]. simpl in *.
  destruct timer; [done|..]; simpl; by rewrite insert_id.
Qed.

Lemma stopBytecodeTimer_expired (request : ptr) s (r : bytecodeRequest) :
  bytecodeRequests (heap s) !! request = Some r → breq_timeout r ≠ TimerArmed →
  stopBytecodeTimer request s = Ok (false, r, s).
Proof.
  intros Hr Ht. unfold stopBytecodeTimer, deref. rewrite Hr. cbn [rbind].
  destruct s as [? ? ? ? ? ? ? ? ? hp], hp, r as [? ? timer ? ? ?]. simpl in *.
  destruct timer; [done|..]; simpl; by rewrite insert_id.
Qed.

Lemma stopStorageTimer_expired (request : ptr) s (r : storageRequest) :
  storageRequests (heap s) !! request = Some r → sreq_timeout r ≠ TimerArmed →
  stopStorageTimer request s = Ok (false, r, s).
Proof.
  intros Hr Ht. unfold stopStorageTimer, deref. rewrite Hr. cbn [rbind].
  destruct s as [? ? ? ? ? ? ? ? ? hp], hp, r as [? ? timer ? ? ? ? ? ? ?]. simpl in *.
  destruct timer; [done|..]; simpl; by rewrite insert_id.
Qed.

Lemma stopTrienodeHealTimer_expired (request : ptr) s (r : trienodeHealRequest) :
  trienodeHealRequests (heap s) !! request = Some r → treq_timeout r ≠ TimerArmed →
  stopTrienodeHealTimer request s = Ok (false, r, s).
Proof.
  intros Hr Ht. unfold stopTrienodeHealTimer, deref. rewrite Hr. cbn [rbind].
  destruct s as [? ? ? ? ? ? ? ? ? hp], hp, r as [? ? timer ? ? ? ?]. simpl in *.
  destruct timer; [done|..]; simpl; by rewrite insert_id.
Qed.

Lemma stopBytecodeHealTimer_expired (request : ptr) s (r : bytecodeHealRequest) :
  bytecodeHealRequests (heap s) !! request = Some r → hreq_timeout r ≠ TimerArmed →
  stopBytecodeHealTimer request s = Ok (false, r, s).
Proof.
  intros Hr Ht. unfold stopBytecodeHealTimer, deref. rewrite Hr. cbn [rbind].
  destruct s as [? ? ? ? ? ? ? ? ? hp], hp, r as [? ? timer ? ? ?]. simpl in *.
  destruct timer; [done|..]; simpl; by rewrite insert_id.
Qed.

Lemma OnAccounts_late VerifyRangeProof decodeAccount (cancelled send : bool)
    (peer : string) (id : Z) (hashes : list Hash) (accounts proof : list bytes) s
    (request : ptr) (r : accountRequest) :
  accountReqs (requests s) !! id = Some request →
  accountRequests (heap s) !! request = Some r → areq_timeout r ≠ TimerArmed →
  ∃ s', handsNothingOn s
          (OnAccounts VerifyRangeProof decodeAccount cancelled send peer id hashes accounts
             proof s) s' ∧
        requests s' = set_accountReqs (delete id (accountReqs (requests s))) (requests s).
Proof.
  intros Hid Hr Ht. unfold OnAccounts. callback_prelude s s1.
  rewrite Hrq, Hid. rewrite <- Hhp in Hr.
  erewrite stopAccountTimer_expired; [|exact Hr|done]. cbn [rbind negb].
  eexists. split.
  - split_and!; [reflexivity|..]; simpl; congruence.
  - simpl. by rewrite ?Hrq.
Qed.

Lemma onByteCodes_late keccak256 (cancelled send : bool)
    (peer : string) (id : Z) (bytecodes : list bytes) s
    (request : ptr) (r : bytecodeRequest) :
  bytecodeReqs (requests s) !! id = Some request →
  bytecodeRequests (heap s) !! request = Some r → breq_timeout r ≠ TimerArmed →
  ∃ s', handsNothingOn s (onByteCodes keccak256 cancelled send peer id bytecodes s) s' ∧
        requests s' = set_bytecodeReqs (delete id (bytecodeReqs (requests s))) (requests s).
Proof.
  intros Hid Hr Ht. unfold onByteCodes. callback_prelude s s1.
  rewrite Hrq, Hid. rewrite <- Hhp in Hr.
  erewrite stopBytecodeTimer_expired; [|exact Hr|done]. cbn [rbind negb].
  eexists. split.
  - split_and!; [reflexivity|..]; simpl; congruence.
  - simpl. by rewrite ?Hrq.
Qed.

Lemma OnStorage_late VerifyRangeProof (cancelled send : bool)
    (peer : string) (id : Z) (hashes : list (list Hash)) (slots : list (list bytes))
    (proof : list bytes) s (request : ptr) (r : storageRequest) :
  storageReqs (requests s) !! id = Some request →
  storageRequests (heap s) !! request = Some r → sreq_timeout r ≠ TimerArmed →
  ∃ s', handsNothingOn s
          (OnStorage VerifyRangeProof cancelled send peer id hashes slots proof s) s' ∧
        requests s' = set_storageReqs (delete id (storageReqs (requests s))) (requests s).
Proof.
  intros Hid Hr Ht. unfold OnStorage. callback_prelude s s1.
  rewrite Hrq, Hid. rewrite <- Hhp in Hr.
  erewrite stopStorageTimer_expired; [|exact Hr|done]. cbn [rbind negb].
  eexists. split.
  - split_and!; [reflexivity|..]; simpl; congruence.
  - simpl. by rewrite ?Hrq.
Qed.

Lemma OnTrieNodes_late keccak256 (cancelled send : bool)
    (peer : string) (id : Z) (trienodes : list bytes) s
    (request : ptr) (r : trienodeHealRequest) :
  trienodeHealReqs (requests s) !! id = Some request →
  trienodeHealRequests (heap s) !! request = Some r → treq_timeout r ≠ TimerArmed →
  ∃ s', handsNothingOn s (OnTrieNodes keccak256 cancelled send peer id trienodes s) s' ∧
        requests s'
          = set_trienodeHealReqs (delete id (trienodeHealReqs (requests s))) (requests s).
Proof.
  intros Hid Hr Ht. unfold OnTrieNodes. callback_prelude s s1.
  rewrite Hrq, Hid. rewrite <- Hhp in Hr.
  erewrite stopTrienodeHealTimer_expired; [|exact Hr|done]. cbn [rbind negb].
  eexists. split.
  - split_and!; [reflexivity|..]; simpl; congruence.
  - simpl. by rewrite ?Hrq.
Qed.

Lemma onHealByteCodes_late keccak256 (cancelled send : bool)
    (peer : string) (id : Z) (bytecodes : list bytes) s
    (request : ptr) (r : bytecodeHealRequest) :
  bytecodeHealReqs (requests s) !! id = Some request →
  bytecodeHealRequests (heap s) !! request = Some r → hreq_timeout r ≠ TimerArmed →
  ∃ s', handsNothingOn s (onHealByteCodes keccak256 cancelled send peer id bytecodes s) s' ∧
        requests s'
          = set_bytecodeHealReqs (delete id (bytecodeHealReqs (requests s))) (requests s).
Proof.
  intros Hid Hr Ht. unfold onHealByteCodes. callback_prelude s s1.
  rewrite Hrq, Hid. rewrite <- Hhp in Hr.
  erewrite stopBytecodeHealTimer_expired; [|exact Hr|done]. cbn [rbind negb].
  eexists. split.
  - split_and!; [reflexivity|..]; simpl; congruence.
  - simpl. by rewrite ?Hrq.
Qed.
End Late.

(** X3.  A response to a request whose timeout timer is no longer armed
    (it fired, so the revert is on its way) is dropped whatever it carries:
    the id leaves the live table, the callback returns no error and posts
    nothing, the peer is not marked stateless, and the tasks and the
    request object (its stale signal included) are left for the revert. *)
Theorem late_response_dropped {Sched : Type}
    (VerifyRangeProof : Hash → option Hash → option Hash → list Hash → list bytes →
                        option (list bytes) →
                        option (NodeSet * Trie * option (gset Hash) * bool))
    (keccak256 : bytes → Hash) (decodeAccount : bytes → option Account)
    (cancelled send : bool) (peer : string) (id : Z) (request : ptr) (s : Syncer Sched) :
  (∀ r hashes accounts proof,
     accountReqs (requests s) !! id = Some request →
     accountRequests (heap s) !! request = Some r → areq_timeout r ≠ TimerArmed →
     ∃ s', handsNothingOn s
             (OnAccounts VerifyRangeProof decodeAccount cancelled send peer id
                hashes accounts proof s) s' ∧
           requests s' = set_accountReqs (delete id (accountReqs (requests s))) (requests s)) ∧
  (∀ r bytecodes,
     snapped s = false → bytecodeReqs (requests s) !! id = Some request →
     bytecodeRequests (heap s) !! request = Some r → breq_timeout r ≠ TimerArmed →
     ∃ s', handsNothingOn s (OnByteCodes keccak256 cancelled send peer id bytecodes s) s' ∧
           requests s'
             = set_bytecodeReqs (delete id (bytecodeReqs (requests s))) (requests s)) ∧
  (∀ r hashes slots proof,
     storageReqs (requests s) !! id = Some request →
     storageRequests (heap s) !! request = Some r → sreq_timeout r ≠ TimerArmed →
     ∃ s', handsNothingOn s
             (OnStorage VerifyRangeProof cancelled send peer id hashes slots proof s) s' ∧
           requests s' = set_storageReqs (delete id (storageReqs (requests s))) (requests s)) ∧
  (∀ r trienodes,
     trienodeHealReqs (requests s) !! id = Some request →
     trienodeHealRequests (heap s) !! request = Some r → treq_timeout r ≠ TimerArmed →
     ∃ s', handsNothingOn s (OnTrieNodes keccak256 cancelled send peer id trienodes s) s' ∧
           requests s'
             = set_trienodeHealReqs (delete id (trienodeHealReqs (requests s)))
                 (requests s)) ∧
  (∀ r bytecodes,
     snapped s = true → bytecodeHealReqs (requests s) !! id = Some request →
     bytecodeHealRequests (heap s) !! request = Some r → hreq_timeout r ≠ TimerArmed →
     ∃ s', handsNothingOn s (OnByteCodes keccak256 cancelled send peer id bytecodes s) s' ∧
           requests s'
             = set_bytecodeHealReqs (delete id (bytecodeHealReqs (requests s)))
                 (requests s)).
Proof.
  split_and!.
  - intros. by eapply OnAccounts_late.
  - intros r bytecodes Hsn. unfold OnByteCodes. rewrite Hsn. by eapply onByteCodes_late.
  - intros. by eapply OnStorage_late.
  - intros. by eapply OnTrieNodes_late.
  - intros r bytecodes Hsn. unfold OnByteCodes. rewrite Hsn. by eapply onHealByteCodes_late.
Qed.

(** ** Responses that fail validation *)

(** A callback outcome that refuses a response: the error [why] goes back
    to the transport, what is posted is what scheduling the revert of the
    request posts, the id has left the live table [table], and neither the
    tasks nor the stateless set have changed. *)
Definition refuses {Sched : Type} (s : Syncer Sched) (why : string) (posted : list message)
    (outcome : result (Syncer Sched * error * list message)) : Prop :=
  ∃ s', outcome = Ok (s', Some why, posted) ∧
        accountTasks (heap s') = accountTasks (heap s) ∧
        storageTasks (heap s') = storageTasks (heap s) ∧
        healTasks (heap s') = healTasks (heap s) ∧
        tasks s' = tasks s ∧ db s' = db s ∧
        statelessPeers (registry s') = statelessPeers (registry s).

Section Refused.
Context {Sched : Type}.
Implicit Types s : Syncer Sched.

Lemma OnStorage_mismatch VerifyRangeProof (cancelled send : bool)
    (peer : string) (id : Z) (hashes : list (list Hash)) (slots : list (list bytes))
    (proof : list bytes) s (request : ptr) (r : storageRequest) :
  storageReqs (requests s) !! id = Some request →
  storageRequests (heap s) !! request = Some r → sreq_timeout r = TimerArmed →
  length hashes ≠ length slots →
  refuses s "hash and slot set size mismatch"
    (selectSend cancelled (sreq_stale r) send (StorageReqFail request))
    (OnStorage VerifyRangeProof cancelled send peer id hashes slots proof s).
Proof.
  intros Hid Hr Ht Hne. unfold OnStorage. callback_prelude s s1.
  rewrite Hrq, Hid. rewrite <- Hhp in Hr.
  set (s2 := set_requests _ s1).
  destruct (stopStorageTimer_armed request s2 r) as (r' & s3 & -> & Hr' & Hs3); [done..|].
  cbn [rbind negb].
  assert (Hb : (length hashes =? length slots)%nat = false) by (by apply Nat.eqb_neq).
  rewrite Hb. cbn [negb].
  unfold scheduleRevertStorageRequest, deref.
  assert (Hr3 : storageRequests (heap s3) !! request = Some r')
    by (subst s3; simpl; by rewrite lookup_insert_eq).
  rewrite Hr3. cbn [rbind]. exists s3.
  subst s3 s2 r'. simpl. split_and!; try done; congruence.
Qed.

Lemma OnStorage_oversized VerifyRangeProof (cancelled send : bool)
    (peer : string) (id : Z) (hashes : list (list Hash)) (slots : list (list bytes))
    (proof : list bytes) s (request : ptr) (r : storageRequest) :
  storageReqs (requests s) !! id = Some request →
  storageRequests (heap s) !! request = Some r → sreq_timeout r = TimerArmed →
  length hashes = length slots → (length (sreq_accounts r) < length hashes)%nat →
  refuses s "hash set larger than requested"
    (selectSend cancelled (sreq_stale r) send (StorageReqFail request))
    (OnStorage VerifyRangeProof cancelled send peer id hashes slots proof s).
Proof.
  intros Hid Hr Ht Heq Hlt. unfold OnStorage. callback_prelude s s1.
  rewrite Hrq, Hid. rewrite <- Hhp in Hr.
  set (s2 := set_requests _ s1).
  destruct (stopStorageTimer_armed request s2 r) as (r' & s3 & -> & Hr' & Hs3); [done..|].
  cbn [rbind negb].
  assert (Hb : (length hashes =? length slots)%nat = true) by (by apply Nat.eqb_eq).
  assert (Hc : (length (sreq_accounts r') <? length hashes)%nat = true)
    by (subst r'; by apply Nat.ltb_lt).
  rewrite Hb, Hc. cbn [negb].
  unfold scheduleRevertStorageRequest, deref.
  assert (Hr3 : storageRequests (heap s3) !! request = Some r')
    by (subst s3; simpl; by rewrite lookup_insert_eq).
  rewrite Hr3. cbn [rbind]. exists s3.
  subst s3 s2 r'. simpl. split_and!; try done; congruence.
Qed.

Lemma OnAccounts_unproven VerifyRangeProof decodeAccount (cancelled send : bool)
    (peer : string) (id : Z) (hashes : list Hash) (accounts proof : list bytes) s
    (request : ptr) (r : accountRequest) :
  accountReqs (requests s) !! id = Some request →
  accountRequests (heap s) !! request = Some r → areq_timeout r = TimerArmed →
  hashes ≠ [] ∨ accounts ≠ [] ∨ proof ≠ [] →
  VerifyRangeProof (root s) (Some (areq_origin r)) (last hashes) hashes accounts (Some proof)
    = None →
  refuses s "account range failed proof"
    (selectSend cancelled (areq_stale r) send (AccountReqFail request))
    (OnAccounts VerifyRangeProof decodeAccount cancelled send peer id hashes accounts proof s).
Proof.
  intros Hid Hr Ht Hne Hv. unfold OnAccounts. callback_prelude s s1.
  rewrite Hrq, Hid. rewrite <- Hhp in Hr.
  set (s2 := set_requests _ s1).
  destruct (stopAccountTimer_armed request s2 r) as (r' & s3 & -> & Hr' & Hs3); [done..|].
  cbn [rbind negb].
  assert (He : bool_decide (length hashes = 0%nat) && bool_decide (length accounts = 0%nat)
               && bool_decide (length proof = 0%nat) = false).
  { destruct hashes, accounts, proof; try done. by destruct Hne as [?|[?|?]]. }
  rewrite He.
  assert (Hroot : root s3 = root s) by (subst s3 s2; simpl; congruence).
  assert (Ho : areq_origin r' = areq_origin r) by (by subst r').
  rewrite Hroot, Ho, Hv.
  unfold scheduleRevertAccountRequest, deref.
  assert (Hr3 : accountRequests (heap s3) !! request = Some r')
    by (subst s3; simpl; by rewrite lookup_insert_eq).
  rewrite Hr3. cbn [rbind]. exists s3.
  subst s3 s2 r'. simpl. split_and!; try done; congruence.
Qed.
End Refused.

(** X4.  A response to a live request that fails validation is refused:
    OnStorage with hash and slot sets of different sizes, or with more
    hash sets than accounts requested, and OnAccounts with a range proof
    that does not verify, return the error to the transport and schedule
    the revert of the request; the peer is not marked stateless and no
    task is touched. *)
Theorem invalid_response_refused {Sched : Type}
    (VerifyRangeProof : Hash → option Hash → option Hash → list Hash → list bytes →
                        option (list bytes) →
                        option (NodeSet * Trie * option (gset Hash) * bool))
    (decodeAccount : bytes → option Account)
    (cancelled send : bool) (peer : string) (id : Z) (request : ptr) (s : Syncer Sched) :
  (∀ r hashes slots proof,
     storageReqs (requests s) !! id = Some request →
     storageRequests (heap s) !! request = Some r → sreq_timeout r = TimerArmed →
     length hashes ≠ length slots →
     refuses s "hash and slot set size mismatch"
       (selectSend cancelled (sreq_stale r) send (StorageReqFail request))
       (OnStorage VerifyRangeProof cancelled send peer id hashes slots proof s)) ∧
  (∀ r hashes slots proof,
     storageReqs (requests s) !! id = Some request →
     storageRequests (heap s) !! request = Some r → sreq_timeout r = TimerArmed →
     length hashes = length slots → (length (sreq_accounts r) < length hashes)%nat →
     refuses s "hash set larger than requested"
       (selectSend cancelled (sreq_stale r) send (StorageReqFail request))
       (OnStorage VerifyRangeProof cancelled send peer id hashes slots proof s)) ∧
  (∀ r hashes accounts proof,
     accountReqs (requests s) !! id = Some request →
     accountRequests (heap s) !! request = Some r → areq_timeout r = TimerArmed →
     hashes ≠ [] ∨ accounts ≠ [] ∨ proof ≠ [] →
     VerifyRangeProof (root s) (Some (areq_origin r)) (last hashes) hashes accounts
       (Some proof) = None →
     refuses s "account range failed proof"
       (selectSend cancelled (areq_stale r) send (AccountReqFail request))
       (OnAccounts VerifyRangeProof decodeAccount cancelled send peer id
          hashes accounts proof s)).
Proof.
  split_and!.
  - intros. by eapply OnStorage_mismatch.
  - intros. by eapply OnStorage_oversized.
  - intros. by eapply OnAccounts_unproven.
Qed.

(** ** Cross-referencing delivered blobs *)

Lemma skipTo_spec (hash : Hash) (pending : list Hash) : ∀ j : nat,
  (j ≤ skipTo hash pending j ≤ j + length pending)%nat ∧
  ((skipTo hash pending j < j + length pending)%nat →
   pending !! (skipTo hash pending j - j)%nat = Some hash).
Proof.
  induction pending as [|h rest IH]; intros j; simpl.
  - split; [lia|]. lia.
  - destruct (h =? hash) eqn:Heq.
    + apply Z.eqb_eq in Heq. subst h. split; [lia|]. intros _. by rewrite Nat.sub_diag.
    + destruct (IH (S j)) as [Hb Hm]. split; [lia|]. intros Hlt.
      replace (skipTo hash rest (S j) - j)%nat with (S (skipTo hash rest (S j) - S j)) by lia.
      simpl. apply Hm. lia.
Qed.

Lemma omap_replicate_None {A : Type} (n : nat) :
  omap id (replicate n (@None A)) = [].
Proof. induction n as [|n IH]; [done|]. simpl. exact IH. Qed.

Lemma alignBlobs_spec (keccak256 : bytes → Hash) (hashes : list Hash) (blobs : list bytes) :
  ∀ (pre : list (option bytes)) (n : nat) (codes : list (option bytes)),
  (length pre + n = length hashes)%nat →
  (∀ k c, pre !! k = Some (Some c) → hashes !! k = Some (keccak256 c)) →
  alignBlobs keccak256 hashes (length pre) blobs (pre ++ replicate n None) = Some codes →
  length codes = length hashes ∧
  (∀ k c, codes !! k = Some (Some c) → hashes !! k = Some (keccak256 c)) ∧
  omap id codes = omap id pre ++ blobs.
Proof.
  induction blobs as [|blob rest IH]; intros pre n codes Hlen Hpre; simpl.
  - intros [= <-]. split_and!.
    + rewrite length_app, length_replicate. lia.
    + intros k c Hk. apply lookup_app_Some in Hk as [Hk|[_ Hk]]; [by apply Hpre|].
      apply lookup_replicate in Hk as [? _]. done.
    + by rewrite omap_app, omap_replicate_None.
  - set (j := skipTo (keccak256 blob) (drop (length pre) hashes) (length pre)).
    destruct (skipTo_spec (keccak256 blob) (drop (length pre) hashes) (length pre))
      as [[Hlo Hhi] Hm]. fold j in Hlo, Hhi, Hm. rewrite length_drop in Hhi, Hm.
    destruct (j <? length hashes)%nat eqn:Hj; [|done].
    apply Nat.ltb_lt in Hj.
    assert (Hhash : hashes !! j = Some (keccak256 blob)).
    { rewrite lookup_drop in Hm. replace (length pre + (j - length pre))%nat with j in Hm by lia.
      apply Hm. lia. }
    assert (Hins : <[j := Some blob]> (pre ++ replicate n None)
                   = (pre ++ replicate (j - length pre) None ++ [Some blob])
                     ++ replicate (n - (j - length pre) - 1) None).
    { rewrite insert_app_r_alt by lia.
      replace n with ((j - length pre) + S (n - (j - length pre) - 1))%nat at 1 by lia.
      rewrite replicate_add. rewrite insert_app_r_alt by (rewrite length_replicate; lia).
      rewrite length_replicate, Nat.sub_diag. simpl. by rewrite <- !app_assoc. }
    rewrite Hins.
    replace (S j) with (length (pre ++ replicate (j - length pre) None ++ [Some blob]))
      by (rewrite !length_app, length_replicate; simpl; lia).
    intros Hrest. apply IH in Hrest as (H1 & H2 & H3).
    + split_and!; [done|done|].
      rewrite H3, !omap_app, omap_replicate_None. simpl. by rewrite <- app_assoc.
    + rewrite !length_app, length_replicate. simpl. lia.
    + intros k c Hk. apply lookup_app_Some in Hk as [Hk|[Hge Hk]]; [by apply Hpre|].
      apply lookup_app_Some in Hk as [Hk|[Hge' Hk]].
      * apply lookup_replicate in Hk as [? _]. done.
      * rewrite length_replicate in Hge', Hk.
        apply list_lookup_singleton_Some in Hk as [Hk0 [= ->]].
        replace k with j by lia. done.
Qed.

(** X5.  The cross-reference of a bytecode or trie node response against
    the hashes of its request: when it succeeds, the response has one slot
    per requested hash, every filled slot holds a blob that hashes to the
    hash requested at that index, and the filled slots are the delivered
    blobs in the order of delivery, none dropped and none repeated. *)
Theorem alignBlobs_sound (keccak256 : bytes → Hash) (hashes : list Hash)
    (blobs : list bytes) (codes : list (option bytes)) :
  alignBlobs keccak256 hashes 0 blobs (replicate (length hashes) None) = Some codes →
  length codes = length hashes ∧
  (∀ k c, codes !! k = Some (Some c) → hashes !! k = Some (keccak256 c)) ∧
  omap id codes = blobs.
Proof.
  intros H.
  apply (alignBlobs_spec keccak256 hashes blobs [] (length hashes) codes) in H; try done.
Qed.

(** Three hashes requested, the codes of the first and the third
    delivered. *)
Lemma alignBlobs_sound_witness :
  let keccak256 := λ blob : bytes, Z.of_nat (length blob) in
  let codes := [Some [Byte.x00]; None; Some [Byte.x00; Byte.x01; Byte.x02]] in
  length codes = 3%nat ∧
  (∀ k c, codes !! k = Some (Some c) → [1; 2; 3] !! k = Some (keccak256 c)) ∧
  omap id codes = [[Byte.x00]; [Byte.x00; Byte.x01; Byte.x02]].
Proof.
  exact (alignBlobs_sound (λ blob, Z.of_nat (length blob)) [1; 2; 3]
           [[Byte.x00]; [Byte.x00; Byte.x01; Byte.x02]]
           [Some [Byte.x00]; None; Some [Byte.x00; Byte.x01; Byte.x02]] eq_refl).
Defined.

(** ** What forwarding a task writes *)

(** A response with two trie nodes, one of them on the boundary of the
    range. *)
Definition edgeResponse : accountResponse :=
  mkAccountResponse 1%positive [10] [exampleAccount] {[5 := []; 6 := []]} exampleTrie
    {[5]} ∅ true.
Definition edgeTask : accountTask :=
  mkAccountTask 0 (hashSpace / 16 - 1) ∅ None (Some edgeResponse) 0
    [false] [false] [false] ∅ ∅ false.
Definition edgeSyncer : Syncer unit :=
  storeTask 1%positive edgeTask (set_tasks [1%positive] (NewSyncer (mkDB ∅ None))).
Definition edgeForwarded : Syncer unit :=
  orElse edgeSyncer (forwardAccountTask exampleSlim 1%positive edgeSyncer).

(** X6.  Whenever forwardAccountTask persists a task's response, the
    trie nodes on the boundary of the delivered range and those of the
    overflow set are not written: the store holds under their keys what it
    held before. *)
Theorem forwardAccountTask_skips_edges {Sched : Type}
    (SlimAccountRLP : Z → Z → Hash → Hash → bytes)
    (task : ptr) (s s' : Syncer Sched) (t : accountTask) (r : accountResponse) (node : Hash) :
  loadTask task s = Ok t → res t = Some r →
  forwardAccountTask SlimAccountRLP task s = Ok s' →
  node ∈ ares_bounds r ∨ is_Some (ares_overflow r !! node) →
  store (db s') !! TrieNodeKey node = store (db s) !! TrieNodeKey node.
Proof. intros Ht Hr Hfw. by eapply forwardAccountTask_spares. Qed.

(** Node 5 is on the boundary and stays out of the store, node 6 is
    written. *)
Lemma forwardAccountTask_skips_edges_witness :
  forwardAccountTask exampleSlim 1%positive edgeSyncer = Ok edgeForwarded ∧
  store (db edgeForwarded) !! TrieNodeKey 5 = store (db edgeSyncer) !! TrieNodeKey 5 ∧
  store (db edgeSyncer) !! TrieNodeKey 5 = None ∧
  store (db edgeForwarded) !! TrieNodeKey 6 = Some [].
Proof.
  assert (Hfw : forwardAccountTask exampleSlim 1%positive edgeSyncer = Ok edgeForwarded)
    by (vm_compute; reflexivity).
  split; [exact Hfw|]. split; [|split; vm_compute; reflexivity].
  apply (forwardAccountTask_skips_edges exampleSlim 1%positive edgeSyncer edgeForwarded
           edgeTask edgeResponse 5 eq_refl eq_refl Hfw).
  left. set_solver.
Defined.

(** ** Cleaning the task list *)

Lemma dropDone_Ok (ats : gmap ptr accountTask) (l : list ptr) :
  (∀ p, p ∈ l → is_Some (ats !! p)) → is_Ok (dropDone ats l).
Proof.
  induction l as [|p rest IH]; intros Hall; simpl; [by eexists|].
  destruct (Hall p) as [t Ht]; [by left|].
  unfold deref. rewrite Ht. cbn [rbind].
  destruct IH as [rest' ->]; [intros q Hq; apply Hall; by right|].
  cbn [rbind]. by eexists.
Qed.

(** X7.  cleanAccountTasks on a task list whose tasks all exist returns;
    it keeps, in their order, exactly the tasks that are not done, leaves
    the tasks themselves, the store, the request tables and the peers
    alone, and raises the snapped flag when (and only when) no task is
    left, never lowering it. *)
Theorem cleanAccountTasks_keeps_pending {Sched : Type} (s : Syncer Sched) :
  (∀ p, p ∈ tasks s → is_Some (accountTasks (heap s) !! p)) →
  ∃ s',
    cleanAccountTasks s = Ok s' ∧
    heap s' = heap s ∧ db s' = db s ∧ requests s' = requests s ∧
    registry s' = registry s ∧
    sublist (tasks s') (tasks s) ∧
    (∀ p, p ∈ tasks s' ↔
          p ∈ tasks s ∧ ∃ t, accountTasks (heap s) !! p = Some t ∧ done t = false) ∧
    snapped s' = (if bool_decide (tasks s' = []) then true else snapped s).
Proof.
  intros Hall. unfold cleanAccountTasks.
  destruct (dropDone_Ok _ _ Hall) as [l Hl]. rewrite Hl. cbn [rbind].
  destruct (dropDone_spec _ _ _ Hl) as (Hsub & Hkept & Hkeeps).
  cbn [tasks set_tasks].
  eexists. split; [reflexivity|].
  assert (Hiff : ∀ p, p ∈ l ↔
            p ∈ tasks s ∧ ∃ t, accountTasks (heap s) !! p = Some t ∧ done t = false).
  { intros p. split.
    - intros Hp. split; [by eapply elem_of_sublist|by apply Hkept].
    - intros (Hp & t & Ht & Hd). by eapply Hkeeps. }
  destruct l as [|p l'].
  - rewrite bool_decide_eq_true_2 by done. cbn. split_and!; try done.
  - rewrite bool_decide_eq_false_2 by done. cbn. split_and!; try done.
Qed.

(** Two tasks, the second one done. *)
Definition twoTasks : Syncer unit :=
  storeTask 2%positive (set_done true (freshTask (5, 9)))
    (storeTask 1%positive (freshTask (0, 4))
       (set_tasks [1%positive; 2%positive] (NewSyncer (mkDB ∅ None)))).

Lemma cleanAccountTasks_keeps_pending_witness :
  ∃ s', cleanAccountTasks twoTasks = Ok s' ∧ tasks s' = [1%positive] ∧ snapped s' = false.
Proof.
  destruct (cleanAccountTasks_keeps_pending twoTasks) as (s' & Hc & _).
  - intros p Hp. vm_compute in Hp.
    apply elem_of_cons in Hp as [->|Hp]; [by eexists|].
    apply elem_of_cons in Hp as [->|Hp]; [by eexists|]. by apply elem_of_nil in Hp.
  - exists s'. split; [exact Hc|].
    vm_compute in Hc. injection Hc as <-. by split.
Defined.

(** ** The size of a request *)

(** The bounds every network call respects: a storage request names
    between 1 and 512 accounts, and exactly one when it asks for a slice
    of a large contract; a trie node request asks for at most 512 paths and
    a bytecode request for at most 84 codes. *)
Definition withinLimits (o : outbound) : Prop :=
  match o with
  | RequestAccountRange _ _ _ _ _ size _ => size = 524288
  | RequestStorageRanges _ _ _ accounts bounds size _ =>
      (1 ≤ length accounts ≤ 512)%nat ∧ (is_Some bounds → length accounts = 1%nat) ∧
      size = 524288
  | RequestByteCodes _ _ hashes size _ => (length hashes ≤ 84)%nat ∧ size = 524288
  | RequestTrieNodes _ _ _ paths size _ => (length paths ≤ 512)%nat ∧ size = 524288
  end.

Definition allOuts {Sched : Type} (P : outbound → Prop)
    (outcome : result (Syncer Sched * list outbound)) : Prop :=
  ∀ s' outs, outcome = Ok (s', outs) → Forall P outs.

Lemma drain_limit (max : Z) (order : list Z) :
  0 < max → (length (drain max order []) ≤ Z.to_nat max)%nat.
Proof. intros Hmax. rewrite drain_length by (simpl; lia). lia. Qed.

Section Limits.
Context {Sched : Type}.
Variable Pending : Sched → Z.
Variable Missing : Sched → Z → list Hash * list SyncPath * list Hash * Sched.
Variable rangePeers : gset string → list string.
Variable rangeKeys : gset Z → list Z.
Variable P : outbound → Prop.
Implicit Types s : Syncer Sched.

Lemma allOuts_done s : allOuts P (Ok (s, [])).
Proof. intros s' outs [= <- <-]. constructor. Qed.

Lemma allOuts_bind {A : Type} (m : result A)
    (k : A → result (Syncer Sched * list outbound)) :
  (∀ a, m = Ok a → allOuts P (k a)) → allOuts P (rbind m k).
Proof. intros Hk s' outs H. destruct m as [a| |]; simpl in H; [|done..]. by eapply Hk. Qed.

Lemma allOuts_more (out : outbound) (rest : result (Syncer Sched * list outbound)) :
  P out → allOuts P rest →
  allOuts P (let* (s2, outs) := rest in Ok (s2, out :: outs)).
Proof.
  intros Hout Hrest s' outs H.
  destruct rest as [[s2 outs2]| |]; simpl in H; [|done..].
  injection H as <- <-. constructor; [done|]. by eapply Hrest.
Qed.
End Limits.

Section LimitsOfAssigners.
Context {Sched : Type}.
Variable Pending : Sched → Z.
Variable Missing : Sched → Z → list Hash * list SyncPath * list Hash * Sched.
Variable rangePeers : gset string → list string.
Variable rangeKeys : gset Z → list Z.
Implicit Types s : Syncer Sched.

Lemma assignAccountLoop_limits (pending : list ptr) : ∀ (draws : list Z) s,
  allOuts withinLimits (assignAccountLoop rangePeers pending draws s).
Proof.
  induction pending as [|task rest IH]; intros draws s; cbn [assignAccountLoop].
  - apply allOuts_done.
  - apply allOuts_bind. intros t _.
    destruct (_ || _); [apply IH|].
    destruct (bool_decide (pickIdle _ _ = ""%string)); [apply allOuts_done|].
    apply allOuts_bind. intros [reqid draws'] _.
    destruct (alloc _ _) as [rp reqs].
    apply allOuts_more; [done|apply IH].
Qed.

Lemma assignBytecodeLoop_limits (pending : list ptr) : ∀ (draws : list Z) s,
  allOuts withinLimits (assignBytecodeLoop rangePeers rangeKeys pending draws s).
Proof.
  induction pending as [|task rest IH]; intros draws s; cbn [assignBytecodeLoop].
  - apply allOuts_done.
  - apply allOuts_bind. intros t _.
    destruct (negb _); [apply IH|].
    destruct (bool_decide (size _ = 0%nat)); [apply IH|].
    destruct (bool_decide (pickIdle _ _ = ""%string)); [apply allOuts_done|].
    apply allOuts_bind. intros [reqid draws'] _.
    destruct (alloc _ _) as [rp reqs].
    apply allOuts_more; [|apply IH].
    split; [|done]. by apply (drain_limit maxCodeRequestCount).
Qed.

Lemma assignStorageLoop_limits (pending : list ptr) : ∀ (draws : list Z) s,
  allOuts withinLimits (assignStorageLoop rangePeers rangeKeys pending draws s).
Proof.
  induction pending as [|task rest IH]; intros draws s; cbn [assignStorageLoop].
  - apply allOuts_done.
  - apply allOuts_bind. intros t _.
    destruct (negb _); [apply IH|].
    destruct (_ && _); [apply IH|].
    destruct (bool_decide (pickIdle _ _ = ""%string)); [apply allOuts_done|].
    apply allOuts_bind. intros [reqid draws'] _.
    apply allOuts_bind. intros found _.
    destruct found as [[[account p] st]|].
    + cbn [length]. rewrite bool_decide_eq_false_2 by done.
      destruct (alloc _ _) as [rp reqs]. cbn [fmap option_fmap option_map fst].
      apply allOuts_more; [|apply IH]. simpl. split_and!; [lia|lia|done|done].
    + destruct (bool_decide (length _ = 0%nat)) eqn:Hempty; [apply IH|].
      apply bool_decide_eq_false in Hempty.
      destruct (alloc _ _) as [rp reqs].
      apply allOuts_more; [|apply IH]. simpl. split_and!.
      * lia.
      * by apply (drain_limit maxStorageSetRequestCount).
      * by intros [? ?].
      * done.
Qed.

Lemma assignTrienodeHealLoop_limits (fuel : nat) : ∀ (draws : list Z) s,
  allOuts withinLimits
    (assignTrienodeHealLoop Pending Missing rangePeers rangeKeys fuel draws s).
Proof.
  induction fuel as [|fuel IH]; intros draws s; cbn [assignTrienodeHealLoop]; [done|].
  apply allOuts_bind. intros [hp ht] _.
  destruct (negb _); [apply allOuts_done|].
  apply allOuts_bind. intros ht' _.
  destruct (bool_decide (size _ = 0%nat)); [apply allOuts_done|].
  destruct (bool_decide (pickIdle _ _ = ""%string)); [apply allOuts_done|].
  apply allOuts_bind. intros [reqid draws'] _.
  destruct (alloc _ _) as [rp reqs].
  apply allOuts_more; [|apply IH].
  split; [|done]. rewrite length_map. by apply (drain_limit maxTrieRequestCount).
Qed.

Lemma assignBytecodeHealLoop_limits (fuel : nat) : ∀ (draws : list Z) s,
  allOuts withinLimits
    (assignBytecodeHealLoop Pending Missing rangePeers rangeKeys fuel draws s).
Proof.
  induction fuel as [|fuel IH]; intros draws s; cbn [assignBytecodeHealLoop]; [done|].
  apply allOuts_bind. intros [hp ht] _.
  destruct (negb _); [apply allOuts_done|].
  apply allOuts_bind. intros ht' _.
  destruct (bool_decide (size _ = 0%nat)); [apply allOuts_done|].
  destruct (bool_decide (pickIdle _ _ = ""%string)); [apply allOuts_done|].
  apply allOuts_bind. intros [reqid draws'] _.
  destruct (alloc _ _) as [rp reqs].
  apply allOuts_more; [|apply IH].
  split; [|done]. by apply (drain_limit maxCodeRequestCount).
Qed.
End LimitsOfAssigners.


(** ** Request ids *)

Lemma allocReqId_spec (draws : list Z) (table : gmap Z ptr) (reqid : Z) (rest : list Z) :
  allocReqId draws table = Ok (reqid, rest) →
  reqid ≠ 0 ∧ table !! reqid = None ∧ reqid ∈ draws ∧ suffix rest draws.
Proof.
  induction draws as [|d draws IH]; simpl; [done|].
  destruct (d =? 0) eqn:Hz.
  - intros H. destruct (IH H) as (? & ? & ? & ?).
    split_and!; [done|done|by right|by apply suffix_cons_r].
  - destruct (bool_decide (is_Some (table !! d))) eqn:Hin.
    + intros H. destruct (IH H) as (? & ? & ? & ?).
      split_and!; [done|done|by right|by apply suffix_cons_r].
    + intros [= <- <-]. apply Z.eqb_neq in Hz. apply bool_decide_eq_false in Hin.
      split_and!; [done| |by left|by apply suffix_cons_r].
      by apply eq_None_not_Some.
Qed.

(** The id and the request object of a network call. *)
Definition idOf (o : outbound) : Z :=
  match o with
  | RequestAccountRange _ id _ _ _ _ _ => id
  | RequestStorageRanges _ id _ _ _ _ _ => id
  | RequestByteCodes _ id _ _ _ => id
  | RequestTrieNodes _ id _ _ _ _ => id
  end.

Definition reqOf (o : outbound) : ptr :=
  match o with
  | RequestAccountRange _ _ _ _ _ _ req => req
  | RequestStorageRanges _ _ _ _ _ _ req => req
  | RequestByteCodes _ _ _ _ req => req
  | RequestTrieNodes _ _ _ _ _ req => req
  end.

(** An assigner run that returns registers its requests in the live table
    [tbl] without disturbing it: the entries of the table stay, every
    request sent has a nonzero id that was free and now leads to the
    request object, and no two requests share an id. *)
Definition registers {Sched : Type} (tbl : ReqTables → gmap Z ptr) (s : Syncer Sched)
    (outcome : result (Syncer Sched * list outbound)) : Prop :=
  ∀ s' outs, outcome = Ok (s', outs) →
    tbl (requests s) ⊆ tbl (requests s') ∧
    Forall (λ out, idOf out ≠ 0 ∧ tbl (requests s) !! idOf out = None ∧
                   tbl (requests s') !! idOf out = Some (reqOf out)) outs ∧
    NoDup (idOf <$> outs).

Section Registers.
Context {Sched : Type}.
Variable tbl : ReqTables → gmap Z ptr.
Implicit Types s : Syncer Sched.

Lemma registers_done s : registers tbl s (Ok (s, [])).
Proof. intros s' outs [= <- <-]. split_and!; [done|constructor|constructor]. Qed.

Lemma registers_bind {A : Type} s (m : result A)
    (k : A → result (Syncer Sched * list outbound)) :
  (∀ a, m = Ok a → registers tbl s (k a)) → registers tbl s (rbind m k).
Proof. intros Hk s' outs H. destruct m as [a| |]; simpl in H; [|done..]. by eapply Hk. Qed.

Lemma registers_same s s1 (rest : result (Syncer Sched * list outbound)) :
  tbl (requests s1) = tbl (requests s) → registers tbl s1 rest → registers tbl s rest.
Proof. intros Heq Hrest s' outs H. rewrite <- Heq. by apply Hrest. Qed.

Lemma registers_more s s1 (reqid : Z) (rp : ptr) (out : outbound)
    (rest : result (Syncer Sched * list outbound)) :
  reqid ≠ 0 → tbl (requests s) !! reqid = None →
  tbl (requests s1) = <[reqid := rp]> (tbl (requests s)) →
  idOf out = reqid → reqOf out = rp →
  registers tbl s1 rest →
  registers tbl s (let* (s2, outs) := rest in Ok (s2, out :: outs)).
Proof.
  intros Hnz Hfree Htbl Hid Hreq Hrest s' outs H.
  destruct rest as [[s2 outs2]| |]; simpl in H; [|done..].
  injection H as <- <-. destruct (Hrest s2 outs2 eq_refl) as (Hsub & Hall & Hnd).
  rewrite Htbl in Hsub, Hall.
  assert (Hmine : tbl (requests s2) !! reqid = Some rp).
  { eapply lookup_weaken; [|exact Hsub]. apply lookup_insert_eq. }
  split_and!.
  - etrans; [|exact Hsub]. by apply insert_subseteq.
  - constructor; [by rewrite Hid, Hreq|].
    eapply Forall_impl; [exact Hall|]. intros o (H1 & H2 & H3). split_and!; [done| |done].
    destruct (decide (idOf o = reqid)) as [Heq|Hne].
    + rewrite Heq, lookup_insert_eq in H2. done.
    + by rewrite lookup_insert_ne in H2.
  - simpl. constructor; [|done]. rewrite Hid. intros Hin.
    apply list_elem_of_fmap in Hin as (o & Ho & Hin).
    rewrite Forall_forall in Hall. destruct (Hall o Hin) as (_ & H2 & _).
    rewrite <- Ho, lookup_insert_eq in H2. done.
Qed.
End Registers.

Section RegistersOfAssigners.
Context {Sched : Type}.
Variable Pending : Sched → Z.
Variable Missing : Sched → Z → list Hash * list SyncPath * list Hash * Sched.
Variable rangePeers : gset string → list string.
Variable rangeKeys : gset Z → list Z.
Implicit Types s : Syncer Sched.

Lemma assignAccountLoop_registers (pending : list ptr) : ∀ (draws : list Z) s,
  registers accountReqs s (assignAccountLoop rangePeers pending draws s).
Proof.
  induction pending as [|task rest IH]; intros draws s; cbn [assignAccountLoop].
  - apply registers_done.
  - apply registers_bind. intros t _.
    destruct (_ || _); [apply IH|].
    destruct (bool_decide (pickIdle _ _ = ""%string)); [apply registers_done|].
    apply registers_bind. intros [reqid draws'] Hid.
    apply allocReqId_spec in Hid as (Hnz & Hfree & _).
    destruct (alloc _ _) as [rp reqs].
    eapply registers_more; [exact Hnz|exact Hfree| | | |apply IH]; done.
Qed.

Lemma assignBytecodeLoop_registers (pending : list ptr) : ∀ (draws : list Z) s,
  registers bytecodeReqs s (assignBytecodeLoop rangePeers rangeKeys pending draws s).
Proof.
  induction pending as [|task rest IH]; intros draws s; cbn [assignBytecodeLoop].
  - apply registers_done.
  - apply registers_bind. intros t _.
    destruct (negb _); [apply IH|].
    destruct (bool_decide (size _ = 0%nat)); [apply IH|].
    destruct (bool_decide (pickIdle _ _ = ""%string)); [apply registers_done|].
    apply registers_bind. intros [reqid draws'] Hid.
    apply allocReqId_spec in Hid as (Hnz & Hfree & _).
    destruct (alloc _ _) as [rp reqs].
    eapply registers_more; [exact Hnz|exact Hfree| | | |apply IH]; done.
Qed.

Lemma assignStorageLoop_registers (pending : list ptr) : ∀ (draws : list Z) s,
  registers storageReqs s (assignStorageLoop rangePeers rangeKeys pending draws s).
Proof.
  induction pending as [|task rest IH]; intros draws s; cbn [assignStorageLoop].
  - apply registers_done.
  - apply registers_bind. intros t _.
    destruct (negb _); [apply IH|].
    destruct (_ && _); [apply IH|].
    destruct (bool_decide (pickIdle _ _ = ""%string)); [apply registers_done|].
    apply registers_bind. intros [reqid draws'] Hid.
    apply allocReqId_spec in Hid as (Hnz & Hfree & _).
    apply registers_bind. intros found _.
    destruct found as [[[account p] st]|].
    + cbn [length]. rewrite bool_decide_eq_false_2 by done.
      destruct (alloc _ _) as [rp reqs]. cbn [fmap option_fmap option_map fst].
      eapply registers_more; [exact Hnz|exact Hfree| | | |apply IH]; done.
    + destruct (bool_decide (length _ = 0%nat)).
      * eapply registers_same; [|apply IH]. done.
      * destruct (alloc _ _) as [rp reqs].
        eapply registers_more; [exact Hnz|exact Hfree| | | |apply IH]; done.
Qed.

Lemma assignTrienodeHealLoop_registers (fuel : nat) : ∀ (draws : list Z) s,
  registers trienodeHealReqs s
    (assignTrienodeHealLoop Pending Missing rangePeers rangeKeys fuel draws s).
Proof.
  induction fuel as [|fuel IH]; intros draws s; cbn [assignTrienodeHealLoop]; [done|].
  apply registers_bind. intros [hp ht] _.
  destruct (negb _); [apply registers_done|].
  apply registers_bind. intros ht' _.
  destruct (bool_decide (size _ = 0%nat));
    [eapply registers_same; [|apply registers_done]; done|].
  destruct (bool_decide (pickIdle _ _ = ""%string));
    [eapply registers_same; [|apply registers_done]; done|].
  apply registers_bind. intros [reqid draws'] Hid.
  apply allocReqId_spec in Hid as (Hnz & Hfree & _).
  destruct (alloc _ _) as [rp reqs].
  eapply registers_more; [exact Hnz|exact Hfree| | | |apply IH]; done.
Qed.

Lemma assignBytecodeHealLoop_registers (fuel : nat) : ∀ (draws : list Z) s,
  registers bytecodeHealReqs s
    (assignBytecodeHealLoop Pending Missing rangePeers rangeKeys fuel draws s).
Proof.
  induction fuel as [|fuel IH]; intros draws s; cbn [assignBytecodeHealLoop]; [done|].
  apply registers_bind. intros [hp ht] _.
  destruct (negb _); [apply registers_done|].
  apply registers_bind. intros ht' _.
  destruct (bool_decide (size _ = 0%nat));
    [eapply registers_same; [|apply registers_done]; done|].
  destruct (bool_decide (pickIdle _ _ = ""%string));
    [eapply registers_same; [|apply registers_done]; done|].
  apply registers_bind. intros [reqid draws'] Hid.
  apply allocReqId_spec in Hid as (Hnz & Hfree & _).
  destruct (alloc _ _) as [rp reqs].
  eapply registers_more; [exact Hnz|exact Hfree| | | |apply IH]; done.
Qed.
End RegistersOfAssigners.

(** X9.  Request ids are unique within a class.  The id an assigner
    draws for a request is never 0 and never one the live table of the
    class holds; so an assigner run keeps every entry of the live table,
    enters each request it sends under its own id, and sends no two
    requests with the same id. *)
Theorem request_ids_unique {Sched : Type}
    (Pending : Sched → Z)
    (Missing : Sched → Z → list Hash * list SyncPath * list Hash * Sched)
    (rangePeers : gset string → list string) (rangeKeys : gset Z → list Z)
    (draws : list Z) (s : Syncer Sched) :
  (∀ table reqid rest,
     allocReqId draws table = Ok (reqid, rest) →
     reqid ≠ 0 ∧ table !! reqid = None ∧ reqid ∈ draws ∧ suffix rest draws) ∧
  registers accountReqs s (assignAccountTasks rangePeers draws s) ∧
  registers bytecodeReqs s (assignBytecodeTasks rangePeers rangeKeys draws s) ∧
  registers storageReqs s (assignStorageTasks rangePeers rangeKeys draws s) ∧
  registers trienodeHealReqs s
    (assignTrienodeHealTasks Pending Missing rangePeers rangeKeys draws s) ∧
  registers bytecodeHealReqs s
    (assignBytecodeHealTasks Pending Missing rangePeers rangeKeys draws s).
Proof.
  split_and!.
  - intros table reqid rest. apply allocReqId_spec.
  - unfold assignAccountTasks. destruct (bool_decide _);
      [apply registers_done|apply assignAccountLoop_registers].
  - unfold assignBytecodeTasks. destruct (bool_decide _);
      [apply registers_done|apply assignBytecodeLoop_registers].
  - unfold assignStorageTasks. destruct (bool_decide _);
      [apply registers_done|apply assignStorageLoop_registers].
  - unfold assignTrienodeHealTasks. destruct (bool_decide _);
      [apply registers_done|apply assignTrienodeHealLoop_registers].
  - unfold assignBytecodeHealTasks. destruct (bool_decide _);
      [apply registers_done|apply assignBytecodeHealLoop_registers].
Qed.

(** ** The start of a cycle *)

Lemma unmarshalProgress_heap {Sched : Type} (j : json) (h h' : Heap Sched)
    (progress : syncProgress) :
  unmarshalProgress j h = Some (progress, h') →
  healTasks h' = healTasks h ∧ accountRequests h' = accountRequests h ∧
  bytecodeRequests h' = bytecodeRequests h ∧ storageRequests h' = storageRequests h ∧
  trienodeHealRequests h' = trienodeHealRequests h ∧
  bytecodeHealRequests h' = bytecodeHealRequests h.
Proof.
  unfold unmarshalProgress. intros H.
  repeat match type of H with
         | match ?x with _ => _ end = Some _ => destruct x eqn:?; try discriminate H
         end.
  all: by injection H as <- <-.
Qed.

Lemma loadSyncStatus_keeps {Sched : Type} (s : Syncer Sched) :
  root (loadSyncStatus s) = root s ∧ healer (loadSyncStatus s) = healer s ∧
  registry (loadSyncStatus s) = registry s ∧ requests (loadSyncStatus s) = requests s ∧
  db (loadSyncStatus s) = db s ∧
  healTasks (heap (loadSyncStatus s)) = healTasks (heap s) ∧
  accountRequests (heap (loadSyncStatus s)) = accountRequests (heap s) ∧
  bytecodeRequests (heap (loadSyncStatus s)) = bytecodeRequests (heap s) ∧
  storageRequests (heap (loadSyncStatus s)) = storageRequests (heap s) ∧
  trienodeHealRequests (heap (loadSyncStatus s)) = trienodeHealRequests (heap s) ∧
  bytecodeHealRequests (heap (loadSyncStatus s)) = bytecodeHealRequests (heap s).
Proof.
  assert (Hfresh : ∀ s0 : Syncer Sched,
    root (freshSyncStatus s0) = root s0 ∧ healer (freshSyncStatus s0) = healer s0 ∧
    registry (freshSyncStatus s0) = registry s0 ∧ requests (freshSyncStatus s0) = requests s0 ∧
    db (freshSyncStatus s0) = db s0 ∧
    healTasks (heap (freshSyncStatus s0)) = healTasks (heap s0) ∧
    accountRequests (heap (freshSyncStatus s0)) = accountRequests (heap s0) ∧
    bytecodeRequests (heap (freshSyncStatus s0)) = bytecodeRequests (heap s0) ∧
    storageRequests (heap (freshSyncStatus s0)) = storageRequests (heap s0) ∧
    trienodeHealRequests (heap (freshSyncStatus s0)) = trienodeHealRequests (heap s0) ∧
    bytecodeHealRequests (heap (freshSyncStatus s0)) = bytecodeHealRequests (heap s0)).
  { intros s0. unfold freshSyncStatus. by destruct (allocAll _ _). }
  unfold loadSyncStatus. destruct (ReadSnapshotSyncStatus (db s)) as [status|]; [|apply Hfresh].
  destruct (unmarshalProgress status (heap s)) as [[progress h]|] eqn:Hu; [|apply Hfresh].
  apply unmarshalProgress_heap in Hu as (? & ? & ? & ? & ? & ?). by split_and!.
Qed.


(** ** Trimming the slots of a large contract *)

(** What the overflow loop of processStorageResponse makes of the slot
    hashes [hs] of account [i]: it keeps the first [n] of them. *)
Record slotsCut (last : Hash) (i : nat) (hs : list Hash) (sl : list bytes)
    (r r' : storageResponse) (n : nat) : Prop := mkSlotsCut {
  cut_frame : trimmedSlots r r';
  cut_bound : (n ≤ length hs)%nat;
  cut_hashes : sres_hashes r' = <[i := take n hs]> (sres_hashes r);
  cut_within : Forall (λ h, h ≤ last) (take n hs);
  cut_short : (n < length hs)%nat →
              (∃ h, hs !! n = Some h ∧ last < h) ∧
              sres_slots r' = <[i := take n sl]> (sres_slots r) ∧ sres_cont r' = false;
  cut_whole : n = length hs →
              sres_slots r' = sres_slots r ∧ sres_overflow r' = sres_overflow r;
  cut_cont : sres_cont r' = true ↔ sres_cont r = true ∧ Forall (λ h, h < last) hs;
  cut_overflow : ∀ k, is_Some (sres_overflow r !! k) → is_Some (sres_overflow r' !! k)
}.

Lemma trimSlots_cut (last : Hash) (i : nat) (tr : Trie) (hs : list Hash) (sl : list bytes)
    (r0 : storageResponse) (pending : list Hash) : ∀ (k : nat) (r : storageResponse),
  sres_hashes r0 !! i = Some hs → sres_slots r0 !! i = Some sl →
  sres_tries r0 !! i = Some tr →
  (∀ key, key ∈ hs → is_Some (tr key)) → (length hs ≤ length sl)%nat →
  pending = drop k hs →
  Forall (λ h, h ≤ last) (take k hs) →
  (r = r0 ∧ Forall (λ h, h < last) (take k hs) ∨
   r = set_sres_cont false r0 ∧ ¬ Forall (λ h, h < last) (take k hs)) →
  ∃ r' n, trimSlots last i k pending r = Ok r' ∧ slotsCut last i hs sl r0 r' n.
Proof.
  induction pending as [|hash rest IH]; intros k r Hhs Hsl Htr Hp Hlen Hd Hle Hr; simpl.
  - assert (Hk : (length hs ≤ k)%nat).
    { destruct (decide (length hs ≤ k)%nat); [done|].
      assert (Hl : length (drop k hs) = 0%nat) by (by rewrite <- Hd).
      rewrite length_drop in Hl. lia. }
    rewrite take_ge in Hle, Hr by done.
    exists r, (length hs). split; [done|].
    assert (Hid : <[i := take (length hs) hs]> (sres_hashes r0) = sres_hashes r0)
      by (rewrite firstn_all; by apply list_insert_id).
    destruct Hr as [[-> Hall]|[-> Hnot]].
    + constructor.
      * apply trimmedSlots_refl.
      * lia.
      * by rewrite Hid.
      * by rewrite firstn_all.
      * lia.
      * done.
      * tauto.
      * done.
    + constructor.
      * by split.
      * lia.
      * simpl. by rewrite Hid.
      * by rewrite firstn_all.
      * lia.
      * done.
      * simpl. split; [done|]. intros [_ Hall]. done.
      * done.
  - symmetry in Hd. apply drop_cons_lookup in Hd as (Hk & Hrest & Hlt).
    assert (Htake : take (S k) hs = take k hs ++ [hash]) by (by apply take_S_r).
    destruct (hash =? last) eqn:Heq; [|destruct (hash >? last) eqn:Hgt].
    + apply Z.eqb_eq in Heq.
      assert (Hr' : set_sres_cont false r = set_sres_cont false r0)
        by (by destruct Hr as [[-> _]|[-> _]]).
      rewrite Hr'. apply (IH (S k)); try done.
      * rewrite Htake. apply Forall_app. split; [done|]. constructor; [lia|constructor].
      * right. split; [done|]. rewrite Htake. intros Hall.
        apply Forall_app in Hall as [_ Hall]. apply Forall_cons in Hall as [Hall _]. lia.
    + apply Z.gtb_lt in Hgt.
      assert (Hh : sres_hashes r = sres_hashes r0) by (by destruct Hr as [[-> _]|[-> _]]).
      assert (Hs : sres_slots r = sres_slots r0) by (by destruct Hr as [[-> _]|[-> _]]).
      assert (Ht : sres_tries r = sres_tries r0) by (by destruct Hr as [[-> _]|[-> _]]).
      assert (Ho : sres_overflow r = sres_overflow r0) by (by destruct Hr as [[-> _]|[-> _]]).
      rewrite Hh, Hs, Ht, Ho.
      rewrite (index_lookup _ _ _ Hhs). cbn [rbind].
      rewrite (drop_S _ _ _ Hk), Hrest.
      rewrite (index_lookup _ _ _ Htr). cbn [rbind].
      destruct (proveAll_Ok tr (hash :: rest) (sres_overflow r0)) as [overflow Hov].
      { intros key Hin. apply Hp. apply elem_of_cons in Hin as [->|Hin].
        - by eapply list_elem_of_lookup_2.
        - rewrite <- Hrest in Hin. by eapply elem_of_sublist; [|apply sublist_drop]. }
      pose proof (proveAll_spec _ _ _ _ Hov) as [Hkeep _].
      simpl in Hov. rewrite Hov. cbn [rbind]. rewrite (index_lookup _ _ _ Hsl). cbn [rbind].
      assert (Hkl : (k <=? length sl)%nat = true) by (apply Nat.leb_le; lia).
      rewrite Hkl. eexists _, k. split; [reflexivity|].
      constructor; simpl.
      * split; simpl; try (by destruct Hr as [[-> _]|[-> _]]);
          try (by rewrite length_insert).
      * lia.
      * done.
      * done.
      * intros _. split; [by exists hash|]. done.
      * lia.
      * split; [done|]. intros [_ Hall].
        assert (Hin : hash ∈ hs) by (by eapply list_elem_of_lookup_2).
        rewrite Forall_forall in Hall. specialize (Hall _ Hin). lia.
      * done.
    + apply Z.eqb_neq in Heq. rewrite Z.gtb_ltb in Hgt. apply Z.ltb_ge in Hgt.
      apply (IH (S k)); try done.
      * rewrite Htake. apply Forall_app. split; [done|]. constructor; [lia|constructor].
      * destruct Hr as [[-> Hall]|[-> Hnot]]; [left|right]; (split; [done|]); rewrite Htake.
        -- apply Forall_app. split; [done|]. constructor; [lia|constructor].
        -- intros Hall. apply Forall_app in Hall as [Hall _]. done.
Qed.

(** X11.  The overflow loop of processStorageResponse over the delivered
    slot hashes of a large contract, for a response whose trie can prove
    the delivered keys: it returns; it keeps the hashes up to the first
    one past the subtask's last hash (all of them if there is none), so
    every hash kept is within the subtask's range; a cut also cuts the
    slots to the same length and clears the continuation flag; without a
    cut slots and overflow set are untouched; the continuation flag stays
    set exactly if it was set and every hash is strictly below the last
    hash; nothing leaves the overflow set. *)
Theorem trimSlots_keeps_range (last : Hash) (i : nat) (tr : Trie) (hs : list Hash)
    (sl : list bytes) (r : storageResponse) :
  sres_hashes r !! i = Some hs → sres_slots r !! i = Some sl →
  sres_tries r !! i = Some tr →
  (∀ key, key ∈ hs → is_Some (tr key)) → (length hs ≤ length sl)%nat →
  ∃ r' n, trimSlots last i 0 hs r = Ok r' ∧ slotsCut last i hs sl r r' n.
Proof.
  intros Hhs Hsl Htr Hp Hlen.
  apply (trimSlots_cut last i tr hs sl r hs 0 r); try done.
  left. split; [done|constructor].
Qed.

(** Slots 3, 8 and 12 delivered for a subtask that ends at 8: the third
    one is cut off. *)
Definition overflowingSlots : storageResponse :=
  mkStorageResponse 1%positive (Some 1%positive) [7] [0] [[3; 8; 12]] [[[]; []; []]]
    [∅] [exampleTrie] ∅ ∅ true.

Lemma trimSlots_keeps_range_witness :
  ∃ r' n, trimSlots 8 0 0 [3; 8; 12] overflowingSlots = Ok r' ∧
          slotsCut 8 0 [3; 8; 12] [[]; []; []] overflowingSlots r' n ∧
          n = 2%nat ∧ sres_hashes r' = [[3; 8]] ∧ sres_cont r' = false.
Proof.
  assert (Hp : ∀ key : Hash, key ∈ [3; 8; 12] → is_Some (exampleTrie key))
    by (intros key _; by eexists).
  assert (Hlen : (length [3; 8; 12] ≤ length [[]; []; [] : bytes])%nat) by (simpl; lia).
  destruct (trimSlots_keeps_range 8 0 exampleTrie [3; 8; 12] [[]; []; []] overflowingSlots
              eq_refl eq_refl eq_refl Hp Hlen) as (r' & n & Hr & Hcut).
  exists r', n. split; [exact Hr|]. split; [exact Hcut|].
  vm_compute in Hr. injection Hr as <-.
  destruct Hcut as [_ Hb Hh _ _ _ _ _]. simpl in Hh.
  assert (n = 2%nat) as ->.
  { destruct n as [|[|[|n]]]; simpl in Hh; try discriminate Hh; done. }
  done.
Defined.

(** ** Heal responses *)

(** The blobs of a response that were delivered, among the first [n]
    slots from slot [i] on. *)
Definition deliveredIn (nodes : list (option bytes)) (i n : nat) : nat :=
  length (omap id (take n (drop i nodes))).

Lemma deliveredIn_S (nodes : list (option bytes)) (i n : nat) (node : option bytes) :
  nodes !! i = Some node →
  deliveredIn nodes i (S n)
    = (match node with Some _ => 1 | None => 0 end + deliveredIn nodes (S i) n)%nat.
Proof.
  intros Hn. unfold deliveredIn. rewrite (drop_S _ _ _ Hn). simpl.
  by destruct node.
Qed.

Section HealResponses.
Context {Sched : Type}.
Variable Process : Sched → Hash → bytes → option processError * Sched.
Variable Commit : Sched → Batch * Sched.
Implicit Types s : Syncer Sched.

(** What the heal response processors leave alone. *)
Definition healFrame s s' : Prop :=
  accountTasks (heap s') = accountTasks (heap s) ∧
  storageTasks (heap s') = storageTasks (heap s) ∧
  tasks s' = tasks s ∧ registry s' = registry s ∧ requests s' = requests s ∧
  healer s' = healer s ∧ root s' = root s.

Lemma healFrame_refl s : healFrame s s.
Proof. by repeat split. Qed.

Lemma healFrame_trans s s1 s2 : healFrame s s1 → healFrame s1 s2 → healFrame s s2.
Proof. unfold healFrame. intros (?&?&?&?&?&?&?) (?&?&?&?&?&?&?). split_and!; congruence. Qed.

Lemma processHealed_spec (hash : Hash) (node : bytes) s (hp task : ptr)
    (hh ht : healTask Sched) :
  healer s = Some hp → healTasks (heap s) !! hp = Some hh →
  healTasks (heap s) !! task = Some ht →
  ∃ err s' hh' ht',
    processHealed Process hash node s = Ok (err, s') ∧
    healFrame s s' ∧ db s' = db s ∧ counters s' = counters s ∧
    healTasks (heap s') !! hp = Some hh' ∧ healTasks (heap s') !! task = Some ht' ∧
    trieTasks ht' = trieTasks ht ∧ heal_codeTasks ht' = heal_codeTasks ht.
Proof.
  intros Hh Hhh Ht. unfold processHealed, loadHealer, deref. rewrite Hh, Hhh. cbn [rbind].
  destruct (Process (scheduler hh) hash node) as [err sched].
  destruct (decide (task = hp)) as [->|Hne].
  - eexists err, _, _, _. split; [reflexivity|]. unfold storeHealer. simpl.
    rewrite lookup_insert_eq. split_and!; try done.
    + simpl. congruence.
    + simpl. congruence.
  - eexists err, _, _, ht. split; [reflexivity|]. unfold storeHealer. simpl.
    rewrite lookup_insert_eq, lookup_insert_ne by done. by split_and!.
Qed.

Lemma integrateTrienodes_spec (r : trienodeHealResponse) (hp : ptr) (hashes : list Hash) :
  ∀ (i : nat) s (hh ht : healTask Sched),
  healer s = Some hp → healTasks (heap s) !! hp = Some hh →
  healTasks (heap s) !! tres_task r = Some ht →
  (i + length hashes ≤ length (tres_nodes r))%nat →
  (i + length hashes ≤ length (tres_paths r))%nat →
  ∃ s' hh' ht',
    integrateTrienodes Process r i hashes s = Ok s' ∧
    healFrame s s' ∧ db s' = db s ∧
    healTasks (heap s') !! hp = Some hh' ∧
    healTasks (heap s') !! tres_task r = Some ht' ∧
    heal_codeTasks ht' = heal_codeTasks ht ∧
    (∀ j hash, hashes !! j = Some hash → tres_nodes r !! (i + j)%nat = Some None →
       (∀ j', (j < j')%nat → hashes !! j' = Some hash →
              tres_nodes r !! (i + j')%nat ≠ Some None) →
       trieTasks ht' !! hash = tres_paths r !! (i + j)%nat) ∧
    (∀ hash, (∀ j, hashes !! j = Some hash → tres_nodes r !! (i + j)%nat ≠ Some None) →
       trieTasks ht' !! hash = trieTasks ht !! hash) ∧
    trienodeHealSynced (counters s')
      = trienodeHealSynced (counters s)
        + Z.of_nat (deliveredIn (tres_nodes r) i (length hashes)).
Proof.
  induction hashes as [|hash rest IH]; intros i s hh ht Hh Hhh Ht Hn Hp.
  - exists s, hh, ht. split_and!.
    all: try done.
    all: try (unfold deliveredIn; simpl; lia).
  - simpl in Hn, Hp. cbn [integrateTrienodes].
    destruct (lookup_lt_is_Some_2 (tres_nodes r) i) as [node Hnode]; [lia|].
    destruct (lookup_lt_is_Some_2 (tres_paths r) i) as [path Hpath]; [lia|].
    rewrite (index_lookup _ _ _ Hnode). cbn [rbind].
    cbn [length]. rewrite (deliveredIn_S _ _ _ _ Hnode).
    destruct node as [node|].
    + set (s1 := set_counters _ s).
      destruct (processHealed_spec hash node s1 hp (tres_task r) hh ht)
        as (err & s2 & hh2 & ht2 & -> & Hf2 & Hdb2 & Hc2 & Hhh2 & Ht2 & Htt2 & Hct2);
        [done..|].
      cbn [rbind].
      set (s3 := set_counters _ s2).
      destruct (IH (S i) s3 hh2 ht2) as (s' & hh' & ht' & -> & Hf & Hdb & Hhh' & Ht' & Hc & Hin & Hout & Hcnt);
        try done; try lia.
      { subst s3. simpl. destruct Hf2 as (_&_&_&_&_&Hhl&_). by rewrite Hhl. }
      exists s', hh', ht'. split_and!; [done| | |done|done|congruence| | |].
      * eapply healFrame_trans; [|exact Hf]. subst s3 s1.
        destruct Hf2 as (?&?&?&?&?&?&?). by repeat split.
      * rewrite Hdb. subst s3. simpl. rewrite Hdb2. by subst s1.
      * intros [|j] hash' Hj Hnone Hlast.
        -- rewrite Nat.add_0_r, Hnode in Hnone. done.
        -- simpl in Hj. replace (i + S j)%nat with (S i + j)%nat in * by lia.
           rewrite (Hin j hash' Hj Hnone); [done|].
           intros j' Hjj' Hj'. replace (S i + j')%nat with (i + S j')%nat by lia.
           apply (Hlast (S j')); [lia|done].
      * intros hash' Hdel. rewrite Hout, Htt2; [done|].
        intros j Hj. replace (S i + j)%nat with (i + S j)%nat by lia. by apply (Hdel (S j)).
      * rewrite Hcnt. subst s3. simpl.
        assert (Hs : trienodeHealSynced (noteTrienodeHeal err (counters s2))
                     = trienodeHealSynced (counters s2)) by (by destruct err as [[]|]).
        rewrite Hs, Hc2. subst s1. simpl. lia.
    + unfold deref. rewrite Ht. cbn [rbind]. rewrite (index_lookup _ _ _ Hpath). cbn [rbind].
      set (ht1 := mkHealTask (scheduler ht) (<[hash := path]> (trieTasks ht))
                    (heal_codeTasks ht)).
      set (s1 := storeHealer (tres_task r) ht1 s).
      assert (Ht1 : healTasks (heap s1) !! tres_task r = Some ht1)
        by (subst s1; unfold storeHealer; simpl; by rewrite lookup_insert_eq).
      assert (Hhh1 : ∃ hh1, healTasks (heap s1) !! hp = Some hh1).
      { subst s1. unfold storeHealer. simpl.
        destruct (decide (tres_task r = hp)) as [->|Hne];
          [rewrite lookup_insert_eq|rewrite lookup_insert_ne by done]; by eexists. }
      destruct Hhh1 as [hh1 Hhh1].
      destruct (IH (S i) s1 hh1 ht1) as (s' & hh' & ht' & -> & Hf & Hdb & Hhh' & Ht' & Hc & Hin & Hout & Hcnt);
        try done; try lia.
      exists s', hh', ht'. split_and!; [done| | |done|done|done| | |].
      * eapply healFrame_trans; [|exact Hf]. subst s1. by repeat split.
      * rewrite Hdb. by subst s1.
      * intros [|j] hash' Hj Hnone Hlast.
        -- simpl in Hj. injection Hj as <-. rewrite Nat.add_0_r, Hpath.
           rewrite Hout; [subst ht1; simpl; by rewrite lookup_insert_eq|].
           intros j Hj. replace (S i + j)%nat with (i + S j)%nat by lia.
           apply (Hlast (S j)); [lia|done].
        -- simpl in Hj. replace (i + S j)%nat with (S i + j)%nat in * by lia.
           rewrite (Hin j hash' Hj Hnone); [done|].
           intros j' Hjj' Hj'. replace (S i + j')%nat with (i + S j')%nat by lia.
           apply (Hlast (S j')); [lia|done].
      * intros hash' Hdel. rewrite Hout.
        -- subst ht1. simpl. apply lookup_insert_ne. intros <-.
           apply (Hdel 0%nat); [done|]. by rewrite Nat.add_0_r.
        -- intros j Hj. replace (S i + j)%nat with (i + S j)%nat by lia. by apply (Hdel (S j)).
      * rewrite Hcnt. subst s1. simpl. lia.
Qed.

Lemma integrateHealCodes_spec (r : bytecodeHealResponse) (hp : ptr) (hashes : list Hash) :
  ∀ (i : nat) s (hh ht : healTask Sched),
  healer s = Some hp → healTasks (heap s) !! hp = Some hh →
  healTasks (heap s) !! hres_task r = Some ht →
  (i + length hashes ≤ length (hres_codes r))%nat →
  ∃ s' hh' ht',
    integrateHealCodes Process r i hashes s = Ok s' ∧
    healFrame s s' ∧ db s' = db s ∧
    healTasks (heap s') !! hp = Some hh' ∧
    healTasks (heap s') !! hres_task r = Some ht' ∧
    trieTasks ht' = trieTasks ht ∧
    (∀ hash, hash ∈ heal_codeTasks ht' ↔
             hash ∈ heal_codeTasks ht ∨
             ∃ j, hashes !! j = Some hash ∧ hres_codes r !! (i + j)%nat = Some None) ∧
    bytecodeHealSynced (counters s')
      = bytecodeHealSynced (counters s)
        + Z.of_nat (deliveredIn (hres_codes r) i (length hashes)).
Proof.
  induction hashes as [|hash rest IH]; intros i s hh ht Hh Hhh Ht Hn.
  - exists s, hh, ht. split_and!.
    all: try done.
    all: try (unfold deliveredIn; simpl; lia).
    intros hash. split; [by left|]. intros [?|(j & Hj & _)]; done.
  - simpl in Hn. cbn [integrateHealCodes].
    destruct (lookup_lt_is_Some_2 (hres_codes r) i) as [node Hnode]; [lia|].
    rewrite (index_lookup _ _ _ Hnode). cbn [rbind].
    cbn [length]. rewrite (deliveredIn_S _ _ _ _ Hnode).
    destruct node as [node|].
    + set (s1 := set_counters _ s).
      destruct (processHealed_spec hash node s1 hp (hres_task r) hh ht)
        as (err & s2 & hh2 & ht2 & -> & Hf2 & Hdb2 & Hc2 & Hhh2 & Ht2 & Htt2 & Hct2);
        [done..|].
      cbn [rbind].
      set (s3 := set_counters _ s2).
      destruct (IH (S i) s3 hh2 ht2) as (s' & hh' & ht' & -> & Hf & Hdb & Hhh' & Ht' & Hc & Hin & Hcnt);
        try done; try lia.
      { subst s3. simpl. destruct Hf2 as (_&_&_&_&_&Hhl&_). by rewrite Hhl. }
      exists s', hh', ht'. split_and!; [done| | |done|done|congruence| |].
      * eapply healFrame_trans; [|exact Hf]. subst s3 s1.
        destruct Hf2 as (?&?&?&?&?&?&?). by repeat split.
      * rewrite Hdb. subst s3. simpl. rewrite Hdb2. by subst s1.
      * intros hash'. rewrite Hin, Hct2. split.
        -- intros [?|(j & Hj & Hnone)]; [by left|]. right. exists (S j).
           split; [done|]. rewrite <- Hnone. f_equal. lia.
        -- intros [?|([|j] & Hj & Hnone)]; [by left| |].
           ++ rewrite Nat.add_0_r, Hnode in Hnone. done.
           ++ right. exists j. split; [done|].
              rewrite <- Hnone. f_equal. lia.
      * rewrite Hcnt. subst s3. simpl.
        assert (Hs : bytecodeHealSynced (noteBytecodeHeal err (counters s2))
                     = bytecodeHealSynced (counters s2)) by (by destruct err as [[]|]).
        rewrite Hs, Hc2. subst s1. simpl. lia.
    + unfold deref. rewrite Ht. cbn [rbind].
      set (ht1 := mkHealTask (scheduler ht) (trieTasks ht) ({[hash]} ∪ heal_codeTasks ht)).
      set (s1 := storeHealer (hres_task r) ht1 s).
      assert (Ht1 : healTasks (heap s1) !! hres_task r = Some ht1)
        by (subst s1; unfold storeHealer; simpl; by rewrite lookup_insert_eq).
      assert (Hhh1 : ∃ hh1, healTasks (heap s1) !! hp = Some hh1).
      { subst s1. unfold storeHealer. simpl.
        destruct (decide (hres_task r = hp)) as [->|Hne];
          [rewrite lookup_insert_eq|rewrite lookup_insert_ne by done]; by eexists. }
      destruct Hhh1 as [hh1 Hhh1].
      destruct (IH (S i) s1 hh1 ht1) as (s' & hh' & ht' & -> & Hf & Hdb & Hhh' & Ht' & Hc & Hin & Hcnt);
        try done; try lia.
      exists s', hh', ht'. split_and!; [done| | |done|done|done| |].
      * eapply healFrame_trans; [|exact Hf]. subst s1. by repeat split.
      * rewrite Hdb. by subst s1.
      * intros hash'. rewrite Hin. subst ht1. simpl. split.
        -- intros [Hu|(j & Hj & Hnone)].
           ++ apply elem_of_union in Hu as [Hu|Hu]; [|by left].
              apply elem_of_singleton in Hu as ->. right. exists 0%nat.
              split; [done|]. by rewrite Nat.add_0_r.
           ++ right. exists (S j). split; [done|].
              rewrite <- Hnone. f_equal. lia.
        -- intros [?|([|j] & Hj & Hnone)].
           ++ left. set_solver.
           ++ simpl in Hj. injection Hj as <-. left. set_solver.
           ++ right. exists j. split; [done|].
              rewrite <- Hnone. f_equal. lia.
      * rewrite Hcnt. subst s1. simpl. lia.
Qed.

Lemma commitHealed_spec s (hp task : ptr) (hh ht : healTask Sched) :
  healer s = Some hp → healTasks (heap s) !! hp = Some hh →
  healTasks (heap s) !! task = Some ht →
  ∃ s' ht',
    commitHealed Commit s = Ok s' ∧ healFrame s s' ∧ counters s' = counters s ∧
    db s' = batchWrite (Commit (scheduler hh)).1 (db s) ∧
    healTasks (heap s') !! task = Some ht' ∧
    trieTasks ht' = trieTasks ht ∧ heal_codeTasks ht' = heal_codeTasks ht.
Proof.
  intros Hh Hhh Ht. unfold commitHealed, loadHealer, deref. rewrite Hh, Hhh. cbn [rbind].
  destruct (Commit (scheduler hh)) as [batch sched].
  destruct (decide (task = hp)) as [->|Hne].
  - assert (hh = ht) as -> by congruence.
    eexists _, _. split; [reflexivity|]. unfold storeHealer. simpl.
    rewrite lookup_insert_eq. by split_and!.
  - eexists _, ht. split; [reflexivity|]. unfold storeHealer. simpl.
    rewrite lookup_insert_ne by done. by split_and!.
Qed.
End HealResponses.



(** A heal cycle in which two trie nodes and two codes were requested and
    the first of each was not delivered. *)
Definition healCycle : Syncer unit :=
  beginSync (λ _ _, tt) 0 (NewSyncer (mkDB ∅ None)).
Definition exampleProcess (sched : unit) (hash : Hash) (blob : bytes)
    : option processError * unit := (None, sched).
Definition exampleCommit (sched : unit) : Batch * unit := ([], sched).
Definition halfTrienodes : trienodeHealResponse :=
  mkTrienodeHealResponse 1%positive [7; 8] [[[Byte.x01]]; [[Byte.x02]]] [None; Some []].
Definition halfCodes : bytecodeHealResponse :=
  mkBytecodeHealResponse 1%positive [7; 8] [None; Some []].



(** ** Bytecode responses *)

(** The number of flags that are set. *)
Fixpoint setFlags (flags : list bool) : Z :=
  match flags with
  | [] => 0
  | b :: rest => (if b then 1 else 0) + setFlags rest
  end.

Lemma setFlags_app (l1 l2 : list bool) : setFlags (l1 ++ l2) = setFlags l1 + setFlags l2.
Proof. induction l1 as [|b l1 IH]; simpl; [done|]. rewrite IH. lia. Qed.

(** The needCode flags once the code [hash] has arrived: the accounts
    with that code hash no longer wait for it. *)
Fixpoint clearFor (hash : Hash) (accounts : list Account) (flags : list bool) : list bool :=
  match accounts, flags with
  | account :: accounts', b :: flags' =>
      (b && negb (hash =? CodeHash account)) :: clearFor hash accounts' flags'
  | _, _ => flags
  end.

Lemma clearFor_length (hash : Hash) (accounts : list Account) : ∀ flags : list bool,
  length (clearFor hash accounts flags) = length flags.
Proof.
  induction accounts as [|a accounts IH]; intros [|b flags]; simpl; try done.
  by rewrite IH.
Qed.

Lemma clearFor_lookup (hash : Hash) (accounts : list Account) :
  ∀ (flags : list bool) (j : nat),
  clearFor hash accounts flags !! j
    = match accounts !! j with
      | Some account => (λ b, b && negb (hash =? CodeHash account)) <$> flags !! j
      | None => flags !! j
      end.
Proof.
  induction accounts as [|a accounts IH]; intros [|b flags] [|j]; simpl; try done.
  - by destruct (accounts !! j).
Qed.

(** What the bytecode loop leaves of a task: everything but the needCode
    flags, the pending count and the code queue. *)
Record codeFrame (t t' : accountTask) : Prop := mkCodeFrame {
  code_Next : Next t' = Next t;
  code_Last : Last t' = Last t;
  code_SubTasks : SubTasks t' = SubTasks t;
  code_req : req t' = req t;
  code_res : res t' = res t;
  code_needState : needState t' = needState t;
  code_needHeal : needHeal t' = needHeal t;
  code_stateTasks : stateTasks t' = stateTasks t;
  code_done : done t' = done t
}.

Lemma codeFrame_refl (t : accountTask) : codeFrame t t.
Proof. by split. Qed.

Lemma codeFrame_trans (t t1 t2 : accountTask) :
  codeFrame t t1 → codeFrame t1 t2 → codeFrame t t2.
Proof. intros [] []. split; congruence. Qed.

Lemma clearNeedCode_spec (hash : Hash) (accounts : list Account) :
  ∀ (pre flags : list bool) (t : accountTask),
  needCode t = pre ++ flags → (length accounts ≤ length flags)%nat →
  ∃ t',
    clearNeedCode hash accounts (length pre) t = Ok t' ∧
    codeFrame t t' ∧ codeTasks t' = codeTasks t ∧
    needCode t' = pre ++ clearFor hash accounts flags ∧
    pend t' - setFlags (needCode t') = pend t - setFlags (needCode t).
Proof.
  induction accounts as [|account accounts IH]; intros pre flags t Hflags Hlen.
  - exists t. split_and!; first [done|apply codeFrame_refl|by rewrite app_nil_r].
  - destruct flags as [|b flags]; [simpl in Hlen; lia|]. simpl in Hlen.
    cbn [clearNeedCode].
    assert (Hb : needCode t !! length pre = Some b)
      by (rewrite Hflags, lookup_app_r, Nat.sub_diag by lia; done).
    rewrite (index_lookup _ _ _ Hb). cbn [rbind].
    set (t1 := if b && (hash =? CodeHash account)
               then set_pend (pend t - 1)
                      (set_needCode (<[length pre := false]> (needCode t)) t)
               else t).
    assert (H1 : codeFrame t t1 ∧ codeTasks t1 = codeTasks t ∧
                 needCode t1
                   = (pre ++ [b && negb (hash =? CodeHash account)]) ++ flags ∧
                 pend t1 - setFlags (needCode t1) = pend t - setFlags (needCode t)).
    { subst t1. destruct (b && (hash =? CodeHash account)) eqn:Hc.
      - apply andb_true_iff in Hc as [-> Hm]. rewrite Hm. simpl.
        split_and!; [done|done| |].
        + rewrite Hflags, insert_app_r_alt, Nat.sub_diag by lia. simpl.
          by rewrite <- app_assoc.
        + rewrite Hflags, insert_app_r_alt, Nat.sub_diag by lia. simpl.
          rewrite !setFlags_app. simpl. lia.
      - split_and!; [apply codeFrame_refl|done| |done].
        rewrite Hflags, <- app_assoc. simpl. f_equal. f_equal.
        destruct b; [|done]. simpl in Hc. by rewrite Hc. }
    clearbody t1. destruct H1 as (Hf1 & Hc1 & Hn1 & Hp1).
    destruct (IH (pre ++ [b && negb (hash =? CodeHash account)]) flags t1 Hn1)
      as (t' & Hrun & Hf & Hc & Hn & Hp); [lia|].
    rewrite length_app in Hrun. simpl in Hrun.
    replace (length pre + 1)%nat with (S (length pre)) in Hrun by lia.
    exists t'. split_and!; [done| |congruence| |lia].
    + by eapply codeFrame_trans.
    + rewrite Hn, <- app_assoc. done.
Qed.

(** The flags, the queue and the batch after the loop of
    processBytecodeResponse over the pairs of requested hash and
    delivered code. *)
Fixpoint settle (accounts : list Account) (pairs : list (Hash * option bytes))
    (flags : list bool) : list bool :=
  match pairs with
  | [] => flags
  | (hash, Some _) :: rest => settle accounts rest (clearFor hash accounts flags)
  | (_, None) :: rest => settle accounts rest flags
  end.

Fixpoint codePuts (pairs : list (Hash * option bytes)) : Batch :=
  match pairs with
  | [] => []
  | (hash, Some code) :: rest => (CodeKey hash, code) :: codePuts rest
  | (_, None) :: rest => codePuts rest
  end.

Lemma settle_length (accounts : list Account) (pairs : list (Hash * option bytes)) :
  ∀ flags : list bool, length (settle accounts pairs flags) = length flags.
Proof.
  induction pairs as [|[hash [code|]] rest IH]; intros flags; simpl; [done| |apply IH].
  by rewrite IH, clearFor_length.
Qed.

Lemma settle_lookup (accounts : list Account) (pairs : list (Hash * option bytes)) :
  ∀ (flags : list bool) (j : nat),
  settle accounts pairs flags !! j = Some true ↔
  flags !! j = Some true ∧
  ∀ account hash code, accounts !! j = Some account → (hash, Some code) ∈ pairs →
                       CodeHash account ≠ hash.
Proof.
  induction pairs as [|[hash [code|]] rest IH]; intros flags j; simpl.
  - split; [|by intros [? _]]. intros Hj. split; [done|].
    intros account hash code _ Hin. by apply elem_of_nil in Hin.
  - rewrite IH, clearFor_lookup. split.
    + intros [Hj Hrest]. destruct (accounts !! j) as [account|] eqn:Ha.
      * destruct (flags !! j) as [b|]; [|done]. simpl in Hj.
        injection Hj as Hj. apply andb_true_iff in Hj as [-> Hm].
        split; [done|]. intros account' hash' code' [= <-] Hin.
        apply elem_of_cons in Hin as [Heq|Hin]; [|by eapply Hrest].
        injection Heq as -> ->. apply negb_true_iff, Z.eqb_neq in Hm. done.
      * split; [done|]. by intros account' hash' code' ?.
    + intros [Hj Hall]. split.
      * destruct (accounts !! j) as [account|] eqn:Ha; [|done].
        rewrite Hj. simpl. f_equal.
        apply negb_true_iff, Z.eqb_neq. intros ->.
        assert (Hin : (CodeHash account, Some code) ∈ (CodeHash account, Some code) :: rest)
          by (by left).
        exact (Hall account (CodeHash account) code eq_refl Hin eq_refl).
      * intros account hash' code' Ha Hin. apply (Hall account hash' code' Ha). by right.
  - rewrite IH. split; intros [Hj Hall]; (split; [done|]).
    + intros account hash' code' Ha Hin.
      apply elem_of_cons in Hin as [Heq|Hin]; [discriminate Heq|]. by eapply Hall.
    + intros account hash' code' Ha Hin. apply (Hall account hash' code' Ha). by right.
Qed.

Lemma codePuts_keys (pairs : list (Hash * option bytes)) (key : dbkey) (code : bytes) :
  (key, code) ∈ codePuts pairs ↔ ∃ hash, key = CodeKey hash ∧ (hash, Some code) ∈ pairs.
Proof.
  induction pairs as [|[hash [c|]] rest IH]; simpl.
  - split; [intros Hin; by apply elem_of_nil in Hin|].
    intros (h & _ & Hin). by apply elem_of_nil in Hin.
  - rewrite elem_of_cons, IH. split.
    + intros [[= -> ->]|(h & -> & Hin)]; [exists hash; split; [done|by left]|].
      exists h. split; [done|by right].
    + intros (h & -> & Hin). apply elem_of_cons in Hin as [Heq|Hin].
      * injection Heq as -> ->. by left.
      * right. by exists h.
  - rewrite IH. split.
    + intros (h & -> & Hin). exists h. split; [done|by right].
    + intros (h & -> & Hin). apply elem_of_cons in Hin as [Heq|Hin]; [discriminate Heq|].
      by exists h.
Qed.

Lemma codePuts_NoDup (pairs : list (Hash * option bytes)) :
  NoDup pairs.*1 → NoDup (batchKeys (codePuts pairs)).
Proof.
  unfold batchKeys. induction pairs as [|[hash [c|]] rest IH]; simpl; intros Hnd.
  - constructor.
  - apply NoDup_cons in Hnd as [Hnot Hnd]. constructor; [|by apply IH].
    intros Hin. apply list_elem_of_fmap in Hin as ([k v] & Hk & Hin). simpl in Hk. subst k.
    apply codePuts_keys in Hin as (h & [= <-] & Hin). apply Hnot.
    apply list_elem_of_fmap. by exists (hash, Some v).
  - apply NoDup_cons in Hnd as [_ Hnd]. by apply IH.
Qed.

Lemma batchWrite_lookup (b : Batch) (d : DB) (key : dbkey) (v : bytes) :
  NoDup (batchKeys b) → (key, v) ∈ b → store (batchWrite b d) !! key = Some v.
Proof.
  unfold batchWrite, batchKeys. simpl. generalize (store d) as m.
  induction b as [|[k w] b IH]; intros m Hnd Hin; simpl.
  - by apply elem_of_nil in Hin.
  - simpl in Hnd. apply NoDup_cons in Hnd as [Hnot Hnd].
    apply elem_of_cons in Hin as [[= -> ->]|Hin]; [|by apply IH].
    pose proof (batchWrite_other b (mkDB (<[k := w]> m) None) k) as Ho.
    unfold batchWrite, batchKeys in Ho. simpl in Ho. rewrite Ho by done.
    apply lookup_insert_eq.
Qed.

Lemma batchWrite_app (b1 b2 : Batch) (d : DB) :
  batchWrite (b1 ++ b2) d = batchWrite b2 (batchWrite b1 d).
Proof. unfold batchWrite. simpl. by rewrite foldl_app. Qed.

(** forwardAccountTask writes trie nodes and account snapshots only. *)
Definition noCode (b : Batch) : Prop := ∀ hash, CodeKey hash ∉ batchKeys b.

Lemma forwardBatch_noCode (SlimAccountRLP : Z → Z → Hash → Hash → bytes)
    (t : accountTask) (r : accountResponse) (batch : Batch) (size : Z) :
  forwardBatch SlimAccountRLP t r = Ok (batch, size) → noCode batch.
Proof.
  unfold forwardBatch.
  destruct (gatherIncompletes t r 0 _ ∅) as [incompletes| |]; simpl; [|done..].
  assert (Hnodes : ∀ (l : list (Hash * bytes)) (acc : Batch * Z * Z * Z),
            noCode acc.1.1.1 → noCode (foldl (persistNode r incompletes) acc l).1.1.1).
  { induction l as [|kv l IH]; intros [[[b0 n0] k0] z0] Hacc; simpl; [done|].
    apply IH. unfold persistNode.
    destruct (bool_decide (kv.1 ∈ ares_bounds r)); [done|].
    destruct (bool_decide (is_Some (ares_overflow r !! kv.1))); [done|].
    destruct (bool_decide (is_Some (incompletes !! kv.1))); [done|].
    simpl in *. intros hash Hin. unfold batchKeys, batchPut in Hin.
    rewrite fmap_app, elem_of_app in Hin. destruct Hin as [Hin|Hin]; [by eapply Hacc|].
    simpl in Hin. by apply list_elem_of_singleton in Hin. }
  assert (Hsnaps : ∀ (hashes : list Hash) (i : nat) (acc out : Batch * Z),
            persistSnapshots SlimAccountRLP r i hashes acc = Ok out →
            noCode acc.1 → noCode out.1).
  { induction hashes as [|hash rest IH]; intros i acc out; simpl.
    - by intros [= <-].
    - destruct (index (ares_accounts r) i) as [a| |]; simpl; [|done..].
      intros Hrest Hacc. eapply IH; [exact Hrest|]. simpl.
      intros h Hin. unfold batchKeys, batchPut in Hin.
      rewrite fmap_app, elem_of_app in Hin. destruct Hin as [Hin|Hin]; [by eapply Hacc|].
      simpl in Hin. by apply list_elem_of_singleton in Hin. }
  specialize (Hnodes (map_to_list (ares_nodes r)) ([], 0, 0, 0)).
  destruct (foldl _ _ _) as [[[b1 n1] k1] z1]. simpl in Hnodes.
  intros Hp. apply Hsnaps in Hp; [done|]. simpl. apply Hnodes.
  intros hash Hin. by apply elem_of_nil in Hin.
Qed.

Section BytecodeResponses.
Context {Sched : Type}.
Implicit Types s : Syncer Sched.

(** What processing a response for the task [task] leaves alone. *)
Definition onlyTask (task : ptr) s s' : Prop :=
  (∀ p, p ≠ task → accountTasks (heap s') !! p = accountTasks (heap s) !! p) ∧
  storageTasks (heap s') = storageTasks (heap s) ∧
  healTasks (heap s') = healTasks (heap s) ∧
  tasks s' = tasks s ∧ registry s' = registry s ∧ requests s' = requests s ∧
  healer s' = healer s ∧ root s' = root s ∧ snapped s' = snapped s.

Lemma onlyTask_refl (task : ptr) s : onlyTask task s s.
Proof. by repeat split. Qed.

Lemma onlyTask_trans (task : ptr) s s1 s2 :
  onlyTask task s s1 → onlyTask task s1 s2 → onlyTask task s s2.
Proof.
  intros (Ha&?&?&?&?&?&?&?&?) (Hb&?&?&?&?&?&?&?&?). split_and!; try congruence.
  intros p Hp. by rewrite Hb, Ha.
Qed.

Lemma onlyTask_store (task : ptr) (t : accountTask) s : onlyTask task s (storeTask task t s).
Proof.
  split_and!; try done. intros p Hp. unfold storeTask. simpl. by apply lookup_insert_ne.
Qed.

Lemma integrateCodes_spec (r : bytecodeResponse) (mres : accountResponse)
    (hashes : list Hash) : ∀ (i : nat) s (t : accountTask) (batch : Batch),
  loadTask (bres_task r) s = Ok t → res t = Some mres →
  (i + length hashes ≤ length (bres_codes r))%nat →
  (length (ares_accounts mres) ≤ length (needCode t))%nat →
  let pairs := zip hashes (drop i (bres_codes r)) in
  ∃ s' t',
    integrateCodes r i hashes (s, batch) = Ok (s', batch ++ codePuts pairs) ∧
    loadTask (bres_task r) s' = Ok t' ∧ codeFrame t t' ∧
    needCode t' = settle (ares_accounts mres) pairs (needCode t) ∧
    (∀ h, h ∈ codeTasks t' ↔ h ∈ codeTasks t ∨ (h, None) ∈ pairs) ∧
    pend t' - setFlags (needCode t') = pend t - setFlags (needCode t) ∧
    onlyTask (bres_task r) s s' ∧ db s' = db s ∧
    bytecodeSynced (counters s')
      = bytecodeSynced (counters s) + Z.of_nat (length (codePuts pairs)).
Proof.
  induction hashes as [|hash rest IH]; intros i s t batch Ht Hres Hlen Hacc pairs.
  - exists s, t. subst pairs. simpl. rewrite app_nil_r.
    split_and!.
    all: try done.
    all: try lia.
    all: try apply onlyTask_refl.
    all: try (intros h; split; [by left|]; intros [?|Hin]; [done|by apply elem_of_nil in Hin]).
  - simpl in Hlen. cbn [integrateCodes].
    destruct (lookup_lt_is_Some_2 (bres_codes r) i) as [code Hcode]; [lia|].
    rewrite (index_lookup _ _ _ Hcode). cbn [rbind].
    assert (Hpairs : pairs = (hash, code) :: zip rest (drop (S i) (bres_codes r)))
      by (subst pairs; by rewrite (drop_S _ _ _ Hcode)).
    rewrite Hpairs. clear Hpairs pairs.
    destruct code as [code|].
    + rewrite Ht. cbn [rbind]. rewrite Hres. cbn [rbind].
      destruct (clearNeedCode_spec hash (ares_accounts mres) [] (needCode t) t eq_refl Hacc)
        as (t1 & Hrun & Hf1 & Hc1 & Hn1 & Hp1).
      simpl in Hrun, Hn1. rewrite Hrun. cbn [rbind].
      set (s1 := set_counters _ (storeTask (bres_task r) t1 s)).
      destruct (IH (S i) s1 t1 (batchPut (CodeKey hash) code batch))
        as (s' & t' & Hrest & Ht' & Hf & Hn & Hc & Hp & Ho & Hdb & Hcnt).
      * subst s1. apply loadTask_storeTask.
      * destruct Hf1. congruence.
      * lia.
      * rewrite Hn1, clearFor_length. done.
      * exists s', t'. unfold batchPut in Hrest. rewrite <- app_assoc in Hrest.
        split_and!; [exact Hrest|done| | | | | | |].
        -- by eapply codeFrame_trans.
        -- simpl. by rewrite Hn, Hn1.
        -- intros h. rewrite Hc, Hc1. split; (intros [?|Hin]; [by left|right]).
           ++ by right.
           ++ apply elem_of_cons in Hin as [Heq|Hin]; [discriminate Heq|done].
        -- lia.
        -- eapply onlyTask_trans; [|exact Ho]. subst s1.
           pose proof (onlyTask_store (bres_task r) t1 s) as (?&?&?&?&?&?&?&?&?).
           by split_and!.
        -- rewrite Hdb. by subst s1.
        -- rewrite Hcnt. subst s1. simpl. lia.
    + rewrite Ht. cbn [rbind].
      set (t1 := set_codeTasks ({[hash]} ∪ codeTasks t) t).
      destruct (IH (S i) (storeTask (bres_task r) t1 s) t1 batch)
        as (s' & t' & Hrest & Ht' & Hf & Hn & Hc & Hp & Ho & Hdb & Hcnt).
      * apply loadTask_storeTask.
      * done.
      * lia.
      * done.
      * exists s', t'. split_and!; [exact Hrest|done| | | | | | |].
        -- eapply codeFrame_trans; [|exact Hf]. by split.
        -- simpl. by rewrite Hn.
        -- intros h. rewrite Hc. subst t1. simpl. split.
           ++ intros [Hu|Hin]; [|right; by right].
              apply elem_of_union in Hu as [Hu|Hu]; [|by left].
              apply elem_of_singleton in Hu as ->. right. by left.
           ++ intros [?|Hin]; [left; set_solver|].
              apply elem_of_cons in Hin as [Heq|Hin]; [|by right].
              injection Heq as ->. left. set_solver.
        -- rewrite Hp. by subst t1.
        -- eapply onlyTask_trans; [apply onlyTask_store|exact Ho].
        -- by rewrite Hdb.
        -- by rewrite Hcnt.
Qed.
End BytecodeResponses.

(** X14.  processBytecodeResponse, for a response with a code slot for
    every requested hash and a task that holds a provable account response
    with flag slices of its length: it returns.  The task keeps everything
    but its needCode flags, pending count and code queue; an account's
    needCode flag stays set exactly if it was set and no delivered code
    has the account's code hash; the pending count drops by the number of
    flags cleared; the code queue gains exactly the hashes that were not
    delivered; if the pending count reached zero the task is forwarded.
    Every delivered code is in the store under its hash (the requested
    hashes being distinct), the codes under all other hashes are what they
    were, and nothing but this task, the store and the counters
    changes. *)
Theorem processBytecodeResponse_settles {Sched : Type}
    (SlimAccountRLP : Z → Z → Hash → Hash → bytes)
    (r : bytecodeResponse) (s : Syncer Sched) (t : accountTask) (mres : accountResponse) :
  loadTask (bres_task r) s = Ok t → res t = Some mres →
  provable mres → flagged t mres →
  (length (bres_hashes r) ≤ length (bres_codes r))%nat →
  let pairs := zip (bres_hashes r) (bres_codes r) in
  ∃ s' t1,
    processBytecodeResponse SlimAccountRLP r s = Ok s' ∧
    codeFrame t t1 ∧
    (∀ j, needCode t1 !! j = Some true ↔
          needCode t !! j = Some true ∧
          ∀ account hash code, ares_accounts mres !! j = Some account →
                               (hash, Some code) ∈ pairs → CodeHash account ≠ hash) ∧
    length (needCode t1) = length (needCode t) ∧
    pend t1 - setFlags (needCode t1) = pend t - setFlags (needCode t) ∧
    (∀ h, h ∈ codeTasks t1 ↔ h ∈ codeTasks t ∨ (h, None) ∈ pairs) ∧
    loadTask (bres_task r) s' = Ok (if pend t1 =? 0 then forwardedTask t1 mres else t1) ∧
    onlyTask (bres_task r) s s' ∧
    (NoDup (bres_hashes r) →
     ∀ h code, (h, Some code) ∈ pairs → store (db s') !! CodeKey h = Some code) ∧
    (∀ h, (∀ code, (h, Some code) ∉ pairs) →
          store (db s') !! CodeKey h = store (db s) !! CodeKey h).
Proof.
  intros Ht Hres Hprov Hflag Hlen pairs. unfold processBytecodeResponse.
  destruct Hflag as (Hfc & Hfs & Hfh).
  destruct (integrateCodes_spec r mres (bres_hashes r) 0 s t [] Ht Hres)
    as (s1 & t1 & Hrun & Ht1 & Hf & Hn & Hc & Hp & Ho & Hdb & _); [done|lia|].
  rewrite drop_0 in Hrun, Hn, Hc. fold pairs in Hrun, Hn, Hc.
  cbn [app] in Hrun.
  assert (integrateCodes r 0 (bres_hashes r) (s, []) = Ok (s1, codePuts pairs)) as ->
    by exact Hrun.
  cbn [rbind].
  set (s2 := set_db _ s1).
  assert (Ht2 : loadTask (bres_task r) s2 = Ok t1) by done.
  rewrite Ht2. cbn [rbind].
  assert (Hdb2 : db s2 = batchWrite (codePuts pairs) (db s)) by (subst s2; simpl; by rewrite Hdb).
  assert (Hmine : NoDup (bres_hashes r) →
            ∀ h code, (h, Some code) ∈ pairs → store (db s2) !! CodeKey h = Some code).
  { intros Hnd h code Hin. rewrite Hdb2. apply batchWrite_lookup.
    - apply codePuts_NoDup. subst pairs. by rewrite fst_zip.
    - apply codePuts_keys. by exists h. }
  assert (Hothers : ∀ h, (∀ code, (h, Some code) ∉ pairs) →
            store (db s2) !! CodeKey h = store (db s) !! CodeKey h).
  { intros h Hnot. rewrite Hdb2. apply batchWrite_other.
    intros Hin. apply list_elem_of_fmap in Hin as ([k v] & Hk & Hin). simpl in Hk. subst k.
    apply codePuts_keys in Hin as (h' & [= <-] & Hin). by apply (Hnot v). }
  assert (Hflags : ∀ j, needCode t1 !! j = Some true ↔
            needCode t !! j = Some true ∧
            ∀ account hash code, ares_accounts mres !! j = Some account →
                                 (hash, Some code) ∈ pairs → CodeHash account ≠ hash)
    by (intros j; rewrite Hn; apply settle_lookup).
  assert (Hl : length (needCode t1) = length (needCode t)) by (by rewrite Hn, settle_length).
  assert (Ho2 : onlyTask (bres_task r) s s2) by (destruct Ho as (?&?&?&?&?&?&?&?&?); by split_and!).
  destruct (pend t1 =? 0) eqn:Hpend.
  - destruct (forwardAccountTask_spec SlimAccountRLP (bres_task r) s2 t1 mres)
      as (fbatch & size & Hfb & ->); [done| |done| |].
    + destruct Hf. congruence.
    + destruct Hf. split_and!; congruence.
    + apply forwardBatch_noCode in Hfb.
      eexists _, t1. rewrite Hpend. split; [reflexivity|].
      split_and!; try done.
      * apply loadTask_storeTask.
      * eapply onlyTask_trans; [exact Ho2|].
        pose proof (onlyTask_store (bres_task r) (forwardedTask t1 mres) s2)
          as (?&?&?&?&?&?&?&?&?).
        by split_and!.
      * intros Hnd h code Hin.
        change (store (batchWrite fbatch (db s2)) !! CodeKey h = Some code).
        rewrite batchWrite_other by apply Hfb. by apply Hmine.
      * intros h Hnot.
        change (store (batchWrite fbatch (db s2)) !! CodeKey h = store (db s) !! CodeKey h).
        rewrite batchWrite_other by apply Hfb. by apply Hothers.
  - exists s2, t1. rewrite Hpend. by split_and!.
Qed.

(** One account waits for the code 77; the codes 77 and 78 were
    requested and only the first was delivered. *)
Definition codedAccount : Account := mkAccount 0 0 emptyRoot 77.
Definition codedResponse : accountResponse :=
  mkAccountResponse 1%positive [10] [codedAccount] ∅ exampleTrie ∅ ∅ true.
Definition codedTask : accountTask :=
  mkAccountTask 0 (hashSpace / 16 - 1) ∅ None (Some codedResponse) 1
    [true] [false] [false] ∅ ∅ false.
Definition codedSyncer : Syncer unit :=
  storeTask 1%positive codedTask (set_tasks [1%positive] (NewSyncer (mkDB ∅ None))).
Definition halfDelivered : bytecodeResponse :=
  mkBytecodeResponse 1%positive [77; 78] [Some [Byte.x01]; None].

Lemma processBytecodeResponse_settles_witness :
  ∃ s' t',
    processBytecodeResponse exampleSlim halfDelivered codedSyncer = Ok s' ∧
    loadTask 1%positive s' = Ok t' ∧
    needCode t' = [false] ∧ pend t' = 0 ∧ 78 ∈ codeTasks t' ∧ Next t' = 11 ∧
    store (db s') !! CodeKey 77 = Some [Byte.x01] ∧ store (db s') !! CodeKey 78 = None.
Proof.
  assert (Hp : provable codedResponse) by (split; [done|]; intros h _; by eexists).
  assert (Hf : flagged codedTask codedResponse) by (by repeat split).
  assert (Hl : (length (bres_hashes halfDelivered) ≤ length (bres_codes halfDelivered))%nat)
    by (simpl; lia).
  destruct (processBytecodeResponse_settles exampleSlim halfDelivered codedSyncer codedTask
              codedResponse eq_refl eq_refl Hp Hf Hl)
    as (s' & t1 & Hrun & _).
  exists s'. vm_compute in Hrun. injection Hrun as <-.
  eexists. split; [reflexivity|]. split; [vm_compute; reflexivity|].
  split_and!; first [vm_compute; reflexivity|set_solver].
Defined.

(** ** Cleaning the storage subtasks *)

Lemma dropDoneSubTasks_spec (sts : gmap ptr storageTask) (l l' : list ptr) :
  dropDoneSubTasks sts l = Ok l' →
  sublist l' l ∧
  (∀ p, p ∈ l' → ∃ st, sts !! p = Some st ∧ st_done st = false) ∧
  (∀ p st, p ∈ l → sts !! p = Some st → st_done st = false → p ∈ l').
Proof.
  revert l'. induction l as [|p rest IH]; intros l'; simpl.
  - intros [= <-]. split_and!; [done| |done]. intros p Hp. by apply elem_of_nil in Hp.
  - unfold deref. destruct (sts !! p) as [st|] eqn:Hp; cbn [rbind]; [|done].
    destruct (dropDoneSubTasks sts rest) as [rest'| |]; cbn [rbind]; [|done..].
    destruct (IH rest' eq_refl) as (Hsub & Hlive & Hkeep).
    intros [= <-]. destruct (st_done st) eqn:Hd.
    + split_and!; [by apply sublist_cons|done|].
      intros q st' Hq Hst' Hd'. apply elem_of_cons in Hq as [->|Hq]; [congruence|].
      by eapply Hkeep.
    + split_and!; [by apply sublist_skip| |].
      * intros q Hq. apply elem_of_cons in Hq as [->|Hq]; [by exists st|by apply Hlive].
      * intros q st' Hq Hst' Hd'. apply elem_of_cons in Hq as [->|Hq]; [by left|].
        right. by eapply Hkeep.
Qed.

Lemma pushMarker_frame (hashes : list Hash) : ∀ (t t' : accountTask) (i : nat) (fin : bool),
  pushMarker t i hashes = Ok (t', fin) →
  SubTasks t' = SubTasks t ∧ codeTasks t' = codeTasks t ∧ stateTasks t' = stateTasks t ∧
  needCode t' = needCode t ∧ needState t' = needState t ∧ needHeal t' = needHeal t ∧
  pend t' = pend t ∧ res t' = res t ∧ req t' = req t ∧ Last t' = Last t.
Proof.
  induction hashes as [|hash rest IH]; intros t t' i fin; simpl.
  - by intros [= <- <-].
  - destruct (index (needCode t) i) as [c| |]; cbn [rbind]; [|done..].
    destruct (if c then Ok true else index (needState t) i) as [missing| |];
      cbn [rbind]; [|done..].
    destruct missing; [by intros [= <- <-]|].
    intros H. apply IH in H. simpl in H. done.
Qed.

Section StorageCleanup.
Context {Sched : Type}.
Variable SlimAccountRLP : Z → Z → Hash → Hash → bytes.
Implicit Types s : Syncer Sched.

(** What forwarding a task leaves alone, when it returns. *)
Lemma forwardAccountTask_frame (task : ptr) s s' (t : accountTask) :
  forwardAccountTask SlimAccountRLP task s = Ok s' → loadTask task s = Ok t →
  onlyTask task s s' ∧
  ∃ t', loadTask task s' = Ok t' ∧
        SubTasks t' = SubTasks t ∧ codeTasks t' = codeTasks t ∧
        stateTasks t' = stateTasks t ∧ needCode t' = needCode t ∧
        needState t' = needState t ∧ needHeal t' = needHeal t ∧ pend t' = pend t ∧
        req t' = req t ∧ Last t' = Last t.
Proof.
  intros Hfw Ht. unfold forwardAccountTask in Hfw. rewrite Ht in Hfw. cbn [rbind] in Hfw.
  destruct (res t) as [r|]; [|injection Hfw as <-; split; [apply onlyTask_refl|by exists t]].
  destruct (forwardBatch _ _ _) as [[batch size]| |]; cbn [rbind] in Hfw; [|done..].
  destruct (pushMarker _ _ _) as [[t1 fin]| |] eqn:Hpm; cbn [rbind] in Hfw; [|done..].
  injection Hfw as <-. apply pushMarker_frame in Hpm. simpl in Hpm.
  destruct Hpm as (?&?&?&?&?&?&?&?&?&?).
  split.
  - pose proof (onlyTask_store task (if fin then set_done (negb (ares_cont r)) t1 else t1) s)
      as (Ho&?&?&?&?&?&?&?&?).
    split_and!; try done.
  - eexists. split; [apply loadTask_storeTask|]. by destruct fin.
Qed.

(** A contract entry of a task that needs no cleaning: it lists at least
    one subtask, and none that is done. *)
Definition liveEntry (sts : gmap ptr storageTask) (t : accountTask) (account : Hash) : Prop :=
  ∀ subtasks, SubTasks t !! account = Some subtasks →
    subtasks ≠ [] ∧ ∀ p, p ∈ subtasks → ∃ st, sts !! p = Some st ∧ st_done st = false.

(** What the cleanup does to the contracts of a task: an entry that needs
    no cleaning still needs none, the subtasks an entry lists are some of
    those it listed, in their order, and no subtask that is not done is
    dropped. *)
Definition cleaned (sts : gmap ptr storageTask) (t t' : accountTask) : Prop :=
  (∀ account, liveEntry sts t account → liveEntry sts t' account) ∧
  (∀ account subtasks', SubTasks t' !! account = Some subtasks' →
     ∃ subtasks, SubTasks t !! account = Some subtasks ∧ sublist subtasks' subtasks) ∧
  (∀ account subtasks p st, SubTasks t !! account = Some subtasks → p ∈ subtasks →
     sts !! p = Some st → st_done st = false →
     ∃ subtasks', SubTasks t' !! account = Some subtasks' ∧ p ∈ subtasks').

Lemma cleaned_same (sts : gmap ptr storageTask) (t t' : accountTask) :
  SubTasks t' = SubTasks t → cleaned sts t t'.
Proof.
  intros Heq. unfold cleaned, liveEntry. rewrite Heq. split_and!; [done| |].
  - intros account l Hl. by exists l.
  - intros account l p st Hl Hp _ _. by exists l.
Qed.

Lemma cleaned_trans (sts : gmap ptr storageTask) (t1 t2 t3 : accountTask) :
  cleaned sts t1 t2 → cleaned sts t2 t3 → cleaned sts t1 t3.
Proof.
  intros (Ha1 & Hb1 & Hc1) (Ha2 & Hb2 & Hc2). split_and!.
  - intros account Hl. by apply Ha2, Ha1.
  - intros account l3 Hl3. destruct (Hb2 _ _ Hl3) as (l2 & Hl2 & Hs2).
    destruct (Hb1 _ _ Hl2) as (l1 & Hl1 & Hs1). exists l1. split; [done|]. by etrans.
  - intros account l1 p st Hl1 Hp Hst Hd.
    destruct (Hc1 _ _ _ _ Hl1 Hp Hst Hd) as (l2 & Hl2 & Hp2).
    by eapply Hc2.
Qed.

Lemma cleanSubTasks_spec (task : ptr) (order : list Hash) : ∀ s s' (t : accountTask),
  cleanSubTasks SlimAccountRLP task order s = Ok s' → loadTask task s = Ok t →
  onlyTask task s s' ∧
  ∃ t', loadTask task s' = Ok t' ∧ cleaned (storageTasks (heap s)) t t' ∧
        ∀ account, account ∈ order → liveEntry (storageTasks (heap s)) t' account.
Proof.
  induction order as [|account rest IH]; intros s s' t Hrun Ht.
  - injection Hrun as <-. split; [apply onlyTask_refl|]. exists t.
    split_and!; [done|by apply cleaned_same|].
    intros account Hin. by apply elem_of_nil in Hin.
  - cbn [cleanSubTasks] in Hrun. rewrite Ht in Hrun. cbn [rbind] in Hrun.
    assert (Hstep : ∃ s1 t1, cleanSubTasks SlimAccountRLP task rest s1 = Ok s' ∧
              onlyTask task s s1 ∧ loadTask task s1 = Ok t1 ∧
              cleaned (storageTasks (heap s)) t t1 ∧
              liveEntry (storageTasks (heap s)) t1 account).
    { destruct (SubTasks t !! account) as [subtasks|] eqn:Hentry.
      - destruct (dropDoneSubTasks _ subtasks) as [live| |] eqn:Hlive;
          cbn [rbind] in Hrun; [|done..].
        apply dropDoneSubTasks_spec in Hlive as (Hsub & Hnd & Hpending).
        destruct (0 <? length live)%nat eqn:Hne.
        + apply Nat.ltb_lt in Hne.
          set (t1 := set_SubTasks (<[account := live]> (SubTasks t)) t) in Hrun.
          exists (storeTask task t1 s), t1.
          split_and!; [done|apply onlyTask_store|apply loadTask_storeTask| |].
          * split_and!.
            -- intros a Ha. destruct (decide (a = account)) as [->|Hna].
               ++ intros l Hl. simpl in Hl. rewrite lookup_insert_eq in Hl.
                  injection Hl as <-. split; [|done]. intros ->. simpl in Hne. lia.
               ++ intros l Hl. simpl in Hl. rewrite lookup_insert_ne in Hl by done.
                  by apply Ha.
            -- intros a l' Hl'. simpl in Hl'. destruct (decide (a = account)) as [->|Hna].
               ++ rewrite lookup_insert_eq in Hl'. injection Hl' as <-. by exists subtasks.
               ++ rewrite lookup_insert_ne in Hl' by done. by exists l'.
            -- intros a l p st Hl Hp Hst Hd. simpl.
               destruct (decide (a = account)) as [->|Hna].
               ++ rewrite lookup_insert_eq. exists live. split; [done|].
                  rewrite Hentry in Hl. injection Hl as <-. by eapply Hpending.
               ++ rewrite lookup_insert_ne by done. by exists l.
          * intros l Hl. simpl in Hl. rewrite lookup_insert_eq in Hl.
            injection Hl as <-. split; [|done]. intros ->. simpl in Hne. lia.
        + apply Nat.ltb_ge in Hne. destruct live as [|? ?]; [|simpl in Hne; lia].
          destruct (res t) as [mres|]; cbn [rbind] in Hrun; [|done].
          destruct (clearNeedState _ _ _ _) as [flags| |]; cbn [rbind] in Hrun; [|done..].
          set (t1 := set_pend (pend t - 1)
                       (set_SubTasks (delete account (SubTasks t)) (set_needState flags t)))
            in Hrun.
          set (s1 := storeTask task t1 s) in Hrun.
          assert (Hfw : ∃ s2 t2, (if pend t1 =? 0
                                 then forwardAccountTask SlimAccountRLP task s1 else Ok s1)
                                = Ok s2 ∧ onlyTask task s s2 ∧ loadTask task s2 = Ok t2 ∧
                                SubTasks t2 = SubTasks t1).
          { destruct (pend t1 =? 0).
            - destruct (forwardAccountTask SlimAccountRLP task s1) as [s2| |] eqn:Hf;
                cbn [rbind] in Hrun; [|done..].
              destruct (forwardAccountTask_frame task s1 s2 t1 Hf (loadTask_storeTask _ _ _))
                as (Ho2 & t2 & Ht2 & Hs2 & _).
              exists s2, t2. split_and!; [done| |done|done].
              eapply onlyTask_trans; [apply onlyTask_store|exact Ho2].
            - exists s1, t1. split_and!; [done|apply onlyTask_store| |done].
              apply loadTask_storeTask. }
          destruct Hfw as (s2 & t2 & Heq & Ho2 & Ht2 & Hs2). rewrite Heq in Hrun.
          cbn [rbind] in Hrun. exists s2, t2.
          assert (Hsub2 : ∀ a, SubTasks t2 !! a
                               = if decide (a = account) then None else SubTasks t !! a).
          { intros a. rewrite Hs2. subst t1. simpl. destruct (decide (a = account)) as [->|Hna].
            - apply lookup_delete_eq.
            - by apply lookup_delete_ne. }
          split_and!; [done|done|done| |].
          * split_and!.
            -- intros a Ha l Hl. rewrite Hsub2 in Hl. destruct (decide (a = account)); [done|].
               by apply Ha.
            -- intros a l' Hl'. rewrite Hsub2 in Hl'. destruct (decide (a = account)); [done|].
               by exists l'.
            -- intros a l p st Hl Hp Hst Hd. rewrite Hsub2.
               destruct (decide (a = account)) as [->|Hna]; [|by exists l].
               rewrite Hentry in Hl. injection Hl as <-.
               pose proof (Hpending p st Hp Hst Hd) as Hin. by apply elem_of_nil in Hin.
          * intros l Hl. rewrite Hsub2 in Hl. by rewrite decide_True in Hl.
      - exists s, t. split_and!; [done|apply onlyTask_refl|done|by apply cleaned_same|].
        intros l Hl. congruence. }
    destruct Hstep as (s1 & t1 & Hrest & Ho1 & Ht1 & Hc1 & Hl1).
    destruct (IH _ _ t1 Hrest Ht1) as (Ho & t' & Ht' & Hc & Hdone).
    assert (Hsts : storageTasks (heap s1) = storageTasks (heap s))
      by (by destruct Ho1 as (_&?&_)).
    rewrite Hsts in Hc, Hdone.
    split; [by eapply onlyTask_trans|]. exists t'.
    split_and!; [done|by eapply cleaned_trans|].
    intros a Hin. apply elem_of_cons in Hin as [->|Hin]; [|by apply Hdone].
    by apply Hc.
Qed.

Lemma cleanStorageLoop_spec (rangeKeys : gset Z → list Z) (pending : list ptr) :
  (∀ (keys : gset Z) k, k ∈ keys → k ∈ rangeKeys keys) →
  ∀ s s', cleanStorageLoop rangeKeys SlimAccountRLP pending s = Ok s' →
  storageTasks (heap s') = storageTasks (heap s) ∧ tasks s' = tasks s ∧
  (∀ p t, loadTask p s = Ok t →
     ∃ t', loadTask p s' = Ok t' ∧ cleaned (storageTasks (heap s)) t t') ∧
  (∀ p, p ∈ pending →
     ∃ t', loadTask p s' = Ok t' ∧ ∀ account, liveEntry (storageTasks (heap s)) t' account).
Proof.
  intros Hall. induction pending as [|task rest IH]; intros s s' Hrun.
  - injection Hrun as <-. split_and!; [done|done| |].
    + intros p t Ht. exists t. split; [done|by apply cleaned_same].
    + intros p Hp. by apply elem_of_nil in Hp.
  - cbn [cleanStorageLoop] in Hrun.
    destruct (loadTask task s) as [t0| |] eqn:Ht0; cbn [rbind] in Hrun; [|done..].
    destruct (cleanSubTasks _ _ _ _) as [s1| |] eqn:Hclean; cbn [rbind] in Hrun; [|done..].
    destruct (cleanSubTasks_spec _ _ _ _ _ Hclean Ht0) as (Ho & t1 & Ht1 & Hc1 & Hdone).
    destruct (IH _ _ Hrun) as (Hsts & Htasks & Hevery & Hpending).
    destruct Ho as (Hother & Hsts1 & _ & Htasks1 & _).
    rewrite Hsts1 in Hsts, Hevery, Hpending.
    assert (Hlive1 : ∀ account, liveEntry (storageTasks (heap s)) t1 account).
    { intros account. destruct (SubTasks t0 !! account) as [l|] eqn:Hl.
      - apply Hdone, Hall. by apply elem_of_dom.
      - apply Hc1. intros l Hl'. congruence. }
    split_and!; [done|congruence| |].
    + intros p t Ht. destruct (decide (p = task)) as [->|Hne].
      * rewrite Ht0 in Ht. injection Ht as <-.
        destruct (Hevery _ _ Ht1) as (t' & Ht' & Hc'). exists t'.
        split; [done|by eapply cleaned_trans].
      * apply Hevery. unfold loadTask, deref in *. by rewrite Hother.
    + intros p Hp. apply elem_of_cons in Hp as [->|Hp]; [|by apply Hpending].
      destruct (Hevery _ _ Ht1) as (t' & Ht' & Hc'). exists t'. split; [done|].
      intros account. by apply Hc'.
Qed.
End StorageCleanup.

(** X15.  cleanStorageTasks, when it returns, leaves the storage tasks and
    the task list as they were, and for every account task of the list: no
    contract entry is left with an empty list or with a subtask that is
    done, the subtasks an entry lists are some of those it listed before,
    in the same order, and every subtask that is not done is still listed
    under its contract.  The range over a map visits every key. *)
Theorem cleanStorageTasks_leaves_pending {Sched : Type}
    (rangeKeys : gset Z → list Z) (SlimAccountRLP : Z → Z → Hash → Hash → bytes)
    (s s' : Syncer Sched) :
  (∀ (keys : gset Z) k, k ∈ keys → k ∈ rangeKeys keys) →
  cleanStorageTasks rangeKeys SlimAccountRLP s = Ok s' →
  storageTasks (heap s') = storageTasks (heap s) ∧ tasks s' = tasks s ∧
  ∀ task, task ∈ tasks s →
    ∃ t', loadTask task s' = Ok t' ∧
      (∀ account subtasks', SubTasks t' !! account = Some subtasks' →
         subtasks' ≠ [] ∧
         ∀ p, p ∈ subtasks' →
           ∃ st, storageTasks (heap s') !! p = Some st ∧ st_done st = false) ∧
      ∀ t, loadTask task s = Ok t →
        (∀ account subtasks', SubTasks t' !! account = Some subtasks' →
           ∃ subtasks, SubTasks t !! account = Some subtasks ∧ sublist subtasks' subtasks) ∧
        (∀ account subtasks p st, SubTasks t !! account = Some subtasks → p ∈ subtasks →
           storageTasks (heap s) !! p = Some st → st_done st = false →
           ∃ subtasks', SubTasks t' !! account = Some subtasks' ∧ p ∈ subtasks').
Proof.
  intros Hall Hrun. unfold cleanStorageTasks in Hrun.
  destruct (cleanStorageLoop_spec SlimAccountRLP rangeKeys (tasks s) Hall s s' Hrun)
    as (Hsts & Htasks & Hevery & Hpending).
  split_and!; [done|done|].
  intros task Hin. destruct (Hpending task Hin) as (t' & Ht' & Hlive).
  exists t'. rewrite Hsts. split_and!; [done|exact Hlive|].
  intros t Ht. destruct (Hevery task t Ht) as (t'' & Ht'' & _ & Hshrink & Hkeeps).
  rewrite Ht' in Ht''. injection Ht'' as <-. by split.
Qed.

(** A task with two large contracts: contract 7 has the subtasks 1 (done)
    and 2 (not done), the only subtask of contract 8 is done. *)
Definition contractsResponse : accountResponse :=
  mkAccountResponse 1%positive [8] [mkAccount 0 0 9 77] ∅ exampleTrie ∅ ∅ true.
Definition contractsTask : accountTask :=
  mkAccountTask 0 (hashSpace / 16 - 1) {[ 7 := [1%positive; 2%positive]; 8 := [3%positive] ]}
    None (Some contractsResponse) 2 [false] [true] [false] ∅ ∅ false.
Definition contractsSyncer : Syncer unit :=
  storeSubTask 3%positive (mkStorageTask 0 9 9 None true)
    (storeSubTask 2%positive (mkStorageTask 5 9 9 None false)
       (storeSubTask 1%positive (mkStorageTask 0 4 9 None true)
          (storeTask 1%positive contractsTask
             (set_tasks [1%positive] (NewSyncer (mkDB ∅ None)))))).

Lemma cleanStorageTasks_leaves_pending_witness :
  ∃ s' t',
    cleanStorageTasks elements exampleSlim contractsSyncer = Ok s' ∧
    loadTask 1%positive s' = Ok t' ∧
    SubTasks t' = {[ 7 := [2%positive] ]} ∧ needState t' = [false] ∧ pend t' = 1.
Proof.
  destruct (cleanStorageTasks elements exampleSlim contractsSyncer) as [s'| |] eqn:Hrun;
    [|vm_compute in Hrun; discriminate Hrun..].
  assert (Hall : ∀ (keys : gset Z) k, k ∈ keys → k ∈ elements keys)
    by (intros keys k; apply elem_of_elements).
  destruct (cleanStorageTasks_leaves_pending elements exampleSlim contractsSyncer s' Hall Hrun)
    as (_ & _ & Hlist).
  exists s'. vm_compute in Hrun. injection Hrun as <-.
  eexists. split; [reflexivity|]. split; [vm_compute; reflexivity|].
  split_and!; vm_compute; reflexivity.
Defined.

(** ** Idle peers *)

(** An assigner run that returns takes the peers it sends to out of the
    idle set [idl] of its class, and no others: every request goes to a
    peer that was idle, no two requests go to the same peer, and the peers
    idle afterwards are those that were idle and got no request. *)
Definition occupies {Sched : Type} (idl : Registry → gset string) (s : Syncer Sched)
    (outcome : result (Syncer Sched * list outbound)) : Prop :=
  ∀ s' outs, outcome = Ok (s', outs) →
    Forall (λ out, peerOf out ∈ idl (registry s)) outs ∧
    NoDup (peerOf <$> outs) ∧
    ∀ peer, peer ∈ idl (registry s') ↔
            peer ∈ idl (registry s) ∧ peer ∉ peerOf <$> outs.

Section Occupies.
Context {Sched : Type}.
Variable idl : Registry → gset string.
Implicit Types s : Syncer Sched.

Lemma occupies_done s s1 :
  idl (registry s1) = idl (registry s) → occupies idl s (Ok (s1, [])).
Proof.
  intros Heq s' outs [= <- <-]. split_and!; [constructor|constructor|].
  intros peer. rewrite Heq. split; [|by intros [? _]].
  intros Hin. split; [done|]. intros Hno. by apply elem_of_nil in Hno.
Qed.

Lemma occupies_bind {A : Type} s (m : result A)
    (k : A → result (Syncer Sched * list outbound)) :
  (∀ a, m = Ok a → occupies idl s (k a)) → occupies idl s (rbind m k).
Proof. intros Hk s' outs H. destruct m as [a| |]; simpl in H; [|done..]. by eapply Hk. Qed.

Lemma occupies_same s s1 (rest : result (Syncer Sched * list outbound)) :
  idl (registry s1) = idl (registry s) → occupies idl s1 rest → occupies idl s rest.
Proof. intros Heq Hrest s' outs H. rewrite <- Heq. by apply Hrest. Qed.

Lemma occupies_more s s1 (peer : string) (out : outbound)
    (rest : result (Syncer Sched * list outbound)) :
  peer ∈ idl (registry s) →
  idl (registry s1) = idl (registry s) ∖ {[peer]} →
  peerOf out = peer →
  occupies idl s1 rest →
  occupies idl s (let* (s2, outs) := rest in Ok (s2, out :: outs)).
Proof.
  intros Hidle Hidl Hpeer Hrest s' outs H.
  destruct rest as [[s2 outs2]| |]; simpl in H; [|done..].
  injection H as <- <-. destruct (Hrest s2 outs2 eq_refl) as (Hall & Hnd & Hiff).
  rewrite Hidl in Hall, Hiff. rewrite Forall_forall in Hall.
  split_and!.
  - constructor; [by rewrite Hpeer|]. apply Forall_forall. intros o Ho.
    specialize (Hall o Ho). set_solver.
  - simpl. constructor; [|done]. rewrite Hpeer. intros Hin.
    apply list_elem_of_fmap in Hin as (o & Ho & Hin). specialize (Hall o Hin). set_solver.
  - intros p. rewrite Hiff. simpl. rewrite Hpeer. set_solver.
Qed.
End Occupies.

Section OccupiesOfAssigners.
Context {Sched : Type}.
Variable Pending : Sched → Z.
Variable Missing : Sched → Z → list Hash * list SyncPath * list Hash * Sched.
Variable rangePeers : gset string → list string.
Variable rangeKeys : gset Z → list Z.
Hypothesis rangePeers_sound : ∀ (peers : gset string) id, id ∈ rangePeers peers → id ∈ peers.
Implicit Types s : Syncer Sched.

Lemma pickIdle_idle (idlers stateless : gset string) :
  bool_decide (pickIdle (rangePeers idlers) stateless = ""%string) = false →
  pickIdle (rangePeers idlers) stateless ∈ idlers.
Proof.
  intros Hne. apply bool_decide_eq_false in Hne.
  by apply rangePeers_sound, pickIdle_spec.
Qed.

Lemma assignAccountLoop_occupies (pending : list ptr) : ∀ (draws : list Z) s,
  occupies accountIdlers s (assignAccountLoop rangePeers pending draws s).
Proof.
  induction pending as [|task rest IH]; intros draws s; cbn [assignAccountLoop].
  - by apply occupies_done.
  - apply occupies_bind. intros t _.
    destruct (_ || _); [apply IH|].
    destruct (bool_decide (pickIdle _ _ = ""%string)) eqn:Hidle; [by apply occupies_done|].
    apply pickIdle_idle in Hidle.
    apply occupies_bind. intros [reqid draws'] _.
    destruct (alloc _ _) as [rp reqs].
    eapply occupies_more; [exact Hidle| | |apply IH]; done.
Qed.

Lemma assignBytecodeLoop_occupies (pending : list ptr) : ∀ (draws : list Z) s,
  occupies bytecodeIdlers s (assignBytecodeLoop rangePeers rangeKeys pending draws s).
Proof.
  induction pending as [|task rest IH]; intros draws s; cbn [assignBytecodeLoop].
  - by apply occupies_done.
  - apply occupies_bind. intros t _.
    destruct (negb _); [apply IH|].
    destruct (bool_decide (size _ = 0%nat)); [apply IH|].
    destruct (bool_decide (pickIdle _ _ = ""%string)) eqn:Hidle; [by apply occupies_done|].
    apply pickIdle_idle in Hidle.
    apply occupies_bind. intros [reqid draws'] _.
    destruct (alloc _ _) as [rp reqs].
    eapply occupies_more; [exact Hidle| | |apply IH]; done.
Qed.

Lemma assignStorageLoop_occupies (pending : list ptr) : ∀ (draws : list Z) s,
  occupies storageIdlers s (assignStorageLoop rangePeers rangeKeys pending draws s).
Proof.
  induction pending as [|task rest IH]; intros draws s; cbn [assignStorageLoop].
  - by apply occupies_done.
  - apply occupies_bind. intros t _.
    destruct (negb _); [apply IH|].
    destruct (_ && _); [apply IH|].
    destruct (bool_decide (pickIdle _ _ = ""%string)) eqn:Hidle; [by apply occupies_done|].
    apply pickIdle_idle in Hidle.
    apply occupies_bind. intros [reqid draws'] _.
    apply occupies_bind. intros found _.
    destruct found as [[[account p] st]|].
    + cbn [length]. rewrite bool_decide_eq_false_2 by done.
      destruct (alloc _ _) as [rp reqs]. cbn [fmap option_fmap option_map fst].
      eapply occupies_more; [exact Hidle| | |apply IH]; done.
    + destruct (bool_decide (length _ = 0%nat)).
      * eapply occupies_same; [|apply IH]. done.
      * destruct (alloc _ _) as [rp reqs].
        eapply occupies_more; [exact Hidle| | |apply IH]; done.
Qed.

Lemma assignTrienodeHealLoop_occupies (fuel : nat) : ∀ (draws : list Z) s,
  occupies trienodeHealIdlers s
    (assignTrienodeHealLoop Pending Missing rangePeers rangeKeys fuel draws s).
Proof.
  induction fuel as [|fuel IH]; intros draws s; cbn [assignTrienodeHealLoop]; [done|].
  apply occupies_bind. intros [hp ht] _.
  destruct (negb _); [by apply occupies_done|].
  apply occupies_bind. intros ht' _.
  destruct (bool_decide (size _ = 0%nat)); [by apply occupies_done|].
  destruct (bool_decide (pickIdle _ _ = ""%string)) eqn:Hidle; [by apply occupies_done|].
  apply pickIdle_idle in Hidle.
  apply occupies_bind. intros [reqid draws'] _.
  destruct (alloc _ _) as [rp reqs].
  eapply occupies_more; [exact Hidle| | |apply IH]; done.
Qed.

Lemma assignBytecodeHealLoop_occupies (fuel : nat) : ∀ (draws : list Z) s,
  occupies bytecodeHealIdlers s
    (assignBytecodeHealLoop Pending Missing rangePeers rangeKeys fuel draws s).
Proof.
  induction fuel as [|fuel IH]; intros draws s; cbn [assignBytecodeHealLoop]; [done|].
  apply occupies_bind. intros [hp ht] _.
  destruct (negb _); [by apply occupies_done|].
  apply occupies_bind. intros ht' _.
  destruct (bool_decide (size _ = 0%nat)); [by apply occupies_done|].
  destruct (bool_decide (pickIdle _ _ = ""%string)) eqn:Hidle; [by apply occupies_done|].
  apply pickIdle_idle in Hidle.
  apply occupies_bind. intros [reqid draws'] _.
  destruct (alloc _ _) as [rp reqs].
  eapply occupies_more; [exact Hidle| | |apply IH]; done.
Qed.
End OccupiesOfAssigners.

(** X16.  One request per idle peer.  Whenever one of the five assigners
    returns, every request it sends goes to a peer that was in the idle
    set of its class, no two of its requests go to the same peer, and the
    peers idle afterwards are exactly those that were idle and got no
    request.  The range over the idle set yields peers of that set. *)
Theorem one_request_per_idle_peer {Sched : Type}
    (Pending : Sched → Z)
    (Missing : Sched → Z → list Hash * list SyncPath * list Hash * Sched)
    (rangePeers : gset string → list string) (rangeKeys : gset Z → list Z)
    (draws : list Z) (s : Syncer Sched) :
  (∀ (peers : gset string) id, id ∈ rangePeers peers → id ∈ peers) →
  occupies accountIdlers s (assignAccountTasks rangePeers draws s) ∧
  occupies bytecodeIdlers s (assignBytecodeTasks rangePeers rangeKeys draws s) ∧
  occupies storageIdlers s (assignStorageTasks rangePeers rangeKeys draws s) ∧
  occupies trienodeHealIdlers s
    (assignTrienodeHealTasks Pending Missing rangePeers rangeKeys draws s) ∧
  occupies bytecodeHealIdlers s
    (assignBytecodeHealTasks Pending Missing rangePeers rangeKeys draws s).
Proof.
  intros Hrange. split_and!.
  - unfold assignAccountTasks. destruct (bool_decide _);
      [by apply occupies_done|by apply assignAccountLoop_occupies].
  - unfold assignBytecodeTasks. destruct (bool_decide _);
      [by apply occupies_done|by apply assignBytecodeLoop_occupies].
  - unfold assignStorageTasks. destruct (bool_decide _);
      [by apply occupies_done|by apply assignStorageLoop_occupies].
  - unfold assignTrienodeHealTasks. destruct (bool_decide _);
      [by apply occupies_done|by apply assignTrienodeHealLoop_occupies].
  - unfold assignBytecodeHealTasks. destruct (bool_decide _);
      [by apply occupies_done|by apply assignBytecodeHealLoop_occupies].
Qed.

(** Two peers join a fresh cycle of sixteen tasks: two account requests go
    out, one to each, and no peer is left idle. *)
Definition twoJoined : Syncer unit :=
  (Register "b" (Register "a" freshCycle).1.1).1.1.

Lemma one_request_per_idle_peer_witness :
  ∃ s' outs,
    assignAccountTasks elements [5; 6; 7] twoJoined = Ok (s', outs) ∧
    length outs = 2%nat ∧ NoDup (peerOf <$> outs) ∧
    accountIdlers (registry s') = ∅.
Proof.
  assert (Hrange : ∀ (peers : gset string) id, id ∈ elements peers → id ∈ peers)
    by (intros peers id; apply elem_of_elements).
  destruct (one_request_per_idle_peer (λ _ : unit, 0) (λ sched _, ([], [], [], sched))
              elements elements [5; 6; 7] twoJoined Hrange) as (Hacc & _).
  destruct (assignAccountTasks elements [5; 6; 7] twoJoined) as [[s' outs]| |] eqn:Hrun;
    [|vm_compute in Hrun; discriminate Hrun..].
  destruct (Hacc s' outs eq_refl) as (_ & Hnd & _).
  exists s', outs. split; [done|]. split_and!; [|exact Hnd|].
  - vm_compute in Hrun. injection Hrun as <- <-. reflexivity.
  - vm_compute in Hrun. injection Hrun as <- <-. vm_compute. reflexivity.
Defined.

(** ** Termination of the heal assigners *)

Lemma allocReqId_fresh (id : Z) (rest : list Z) (table : gmap Z ptr) :
  id ≠ 0 → table !! id = None → allocReqId (id :: rest) table = Ok (id, rest).
Proof.
  intros Hnz Hfree. simpl. apply Z.eqb_neq in Hnz. rewrite Hnz.
  rewrite bool_decide_eq_false_2; [done|]. rewrite Hfree. by intros [? ?].
Qed.

Lemma size_without (peers : gset string) (peer : string) :
  peer ∈ peers → S (size (peers ∖ {[peer]})) = size peers.
Proof.
  intros Hin. rewrite size_difference by set_solver. rewrite size_singleton.
  assert (size peers ≠ 0%nat); [|lia].
  intros Hz. apply size_empty_inv in Hz. set_solver.
Qed.

Section HealAssignersReturn.
Context {Sched : Type}.
Variable Pending : Sched → Z.
Variable Missing : Sched → Z → list Hash * list SyncPath * list Hash * Sched.
Variable rangePeers : gset string → list string.
Variable rangeKeys : gset Z → list Z.
Hypothesis rangePeers_sound : ∀ (peers : gset string) id, id ∈ rangePeers peers → id ∈ peers.
Hypothesis Missing_paths : ∀ sched n,
  (length (Missing sched n).1.1.1 ≤ length (Missing sched n).1.1.2)%nat.
Implicit Types s : Syncer Sched.

Lemma refillHealer_Ok (ht : healTask Sched) : is_Ok (refillHealer Missing ht).
Proof.
  unfold refillHealer. destruct (_ <? _); [|by eexists].
  pose proof (Missing_paths (scheduler ht)
                (maxTrieRequestCount + maxCodeRequestCount
                 - (Z.of_nat (size (trieTasks ht)) + Z.of_nat (size (heal_codeTasks ht)))))
    as Hlen.
  destruct (Missing _ _) as [[[nodes paths] codes] sched]. simpl in Hlen.
  destruct (reinsertTrieTasks_spec nodes paths 0 (trieTasks ht)) as (m' & -> & _); [simpl; lia|].
  by eexists.
Qed.

Lemma assignTrienodeHealLoop_returns (fuel : nat) : ∀ (ids more : list Z) s hp ht,
  healer s = Some hp → healTasks (heap s) !! hp = Some ht →
  NoDup ids →
  (∀ id, id ∈ ids → id ≠ 0 ∧ trienodeHealReqs (requests s) !! id = None) →
  (size (trienodeHealIdlers (registry s)) ≤ length ids)%nat →
  (size (trienodeHealIdlers (registry s)) < fuel)%nat →
  ∃ s' outs,
    assignTrienodeHealLoop Pending Missing rangePeers rangeKeys fuel (ids ++ more) s
    = Ok (s', outs) ∧
    (length outs ≤ size (trienodeHealIdlers (registry s)))%nat.
Proof.
  induction fuel as [|fuel IH]; intros ids more s hp ht Hh Hht Hnd Hfresh Hids Hfuel; [lia|].
  cbn [assignTrienodeHealLoop]. unfold loadHealer, deref. rewrite Hh, Hht. cbn [rbind].
  destruct (negb _); [exists s, []; split; [done|simpl; lia]|].
  destruct (refillHealer_Ok ht) as [ht1 ->]. cbn [rbind].
  destruct (bool_decide (size _ = 0%nat)); [eexists _, []; split; [done|simpl; lia]|].
  destruct (bool_decide (pickIdle _ _ = ""%string)) eqn:Hidle;
    [eexists _, []; split; [done|simpl; lia]|].
  apply bool_decide_eq_false in Hidle. apply pickIdle_spec in Hidle as [Hidle _].
  apply rangePeers_sound in Hidle.
  change (registry (storeHealer hp ht1 s)) with (registry s) in *.
  change (requests (storeHealer hp ht1 s)) with (requests s).
  pose proof (size_without _ _ Hidle) as Hsize.
  destruct ids as [|id ids]; [simpl in Hids; lia|].
  destruct (Hfresh id) as [Hnz Hfree]; [by left|].
  cbn [app]. rewrite (allocReqId_fresh id _ _ Hnz Hfree). cbn [rbind].
  destruct (alloc _ _) as [rp reqs] eqn:Halloc.
  match goal with
  | |- context [assignTrienodeHealLoop _ _ _ _ fuel (ids ++ more) ?s2] =>
      destruct (IH ids more s2 hp
                  (mkHealTask (scheduler ht1)
                     (foldl (λ m h, delete h m) (trieTasks ht1)
                        (drain maxTrieRequestCount (rangeKeys (dom (trieTasks ht1))) []))
                     (heal_codeTasks ht1)))
        as (s' & outs & -> & Hlen)
  end.
  - done.
  - simpl. by rewrite lookup_insert_eq.
  - by apply NoDup_cons in Hnd as [_ ?].
  - intros id' Hin. destruct (Hfresh id') as [? ?]; [by right|]. split; [done|].
    simpl. rewrite lookup_insert_ne; [done|].
    apply NoDup_cons in Hnd as [Hnot _]. by intros ->.
  - simpl in *. lia.
  - simpl in *. lia.
  - cbn [rbind]. eexists _, _. split; [done|]. simpl in *. lia.
Qed.

Lemma assignBytecodeHealLoop_returns (fuel : nat) : ∀ (ids more : list Z) s hp ht,
  healer s = Some hp → healTasks (heap s) !! hp = Some ht →
  NoDup ids →
  (∀ id, id ∈ ids → id ≠ 0 ∧ bytecodeHealReqs (requests s) !! id = None) →
  (size (bytecodeHealIdlers (registry s)) ≤ length ids)%nat →
  (size (bytecodeHealIdlers (registry s)) < fuel)%nat →
  ∃ s' outs,
    assignBytecodeHealLoop Pending Missing rangePeers rangeKeys fuel (ids ++ more) s
    = Ok (s', outs) ∧
    (length outs ≤ size (bytecodeHealIdlers (registry s)))%nat.
Proof.
  induction fuel as [|fuel IH]; intros ids more s hp ht Hh Hht Hnd Hfresh Hids Hfuel; [lia|].
  cbn [assignBytecodeHealLoop]. unfold loadHealer, deref. rewrite Hh, Hht. cbn [rbind].
  destruct (negb _); [exists s, []; split; [done|simpl; lia]|].
  destruct (refillHealer_Ok ht) as [ht1 ->]. cbn [rbind].
  destruct (bool_decide (size _ = 0%nat)); [eexists _, []; split; [done|simpl; lia]|].
  destruct (bool_decide (pickIdle _ _ = ""%string)) eqn:Hidle;
    [eexists _, []; split; [done|simpl; lia]|].
  apply bool_decide_eq_false in Hidle. apply pickIdle_spec in Hidle as [Hidle _].
  apply rangePeers_sound in Hidle.
  change (registry (storeHealer hp ht1 s)) with (registry s) in *.
  change (requests (storeHealer hp ht1 s)) with (requests s).
  pose proof (size_without _ _ Hidle) as Hsize.
  destruct ids as [|id ids]; [simpl in Hids; lia|].
  destruct (Hfresh id) as [Hnz Hfree]; [by left|].
  cbn [app]. rewrite (allocReqId_fresh id _ _ Hnz Hfree). cbn [rbind].
  destruct (alloc _ _) as [rp reqs] eqn:Halloc.
  match goal with
  | |- context [assignBytecodeHealLoop _ _ _ _ fuel (ids ++ more) ?s2] =>
      destruct (IH ids more s2 hp
                  (mkHealTask (scheduler ht1) (trieTasks ht1)
                     (heal_codeTasks ht1
                      ∖ list_to_set (drain maxCodeRequestCount
                                       (rangeKeys (heal_codeTasks ht1)) []))))
        as (s' & outs & -> & Hlen)
  end.
  - done.
  - simpl. by rewrite lookup_insert_eq.
  - by apply NoDup_cons in Hnd as [_ ?].
  - intros id' Hin. destruct (Hfresh id') as [? ?]; [by right|]. split; [done|].
    simpl. rewrite lookup_insert_ne; [done|].
    apply NoDup_cons in Hnd as [Hnot _]. by intros ->.
  - simpl in *. lia.
  - simpl in *. lia.
  - cbn [rbind]. eexists _, _. split; [done|]. simpl in *. lia.
Qed.
End HealAssignersReturn.

(** X17.  The heal assigners return.  With a healer in place, a scheduler
    whose Missing gives a path for every node, and as many unused nonzero
    request ids at the head of the random draws as there are idle peers,
    assignTrienodeHealTasks and assignBytecodeHealTasks both return, and
    each sends at most as many requests as its class had idle peers: every
    turn of their loops that does not leave takes a peer out of the idle
    set. *)
Theorem heal_assigners_return {Sched : Type}
    (Pending : Sched → Z)
    (Missing : Sched → Z → list Hash * list SyncPath * list Hash * Sched)
    (rangePeers : gset string → list string) (rangeKeys : gset Z → list Z)
    (ids more : list Z) (s : Syncer Sched) (hp : ptr) (ht : healTask Sched) :
  (∀ (peers : gset string) id, id ∈ rangePeers peers → id ∈ peers) →
  (∀ sched n, (length (Missing sched n).1.1.1 ≤ length (Missing sched n).1.1.2)%nat) →
  healer s = Some hp → healTasks (heap s) !! hp = Some ht →
  NoDup ids →
  (∀ id, id ∈ ids → id ≠ 0 ∧ trienodeHealReqs (requests s) !! id = None
                            ∧ bytecodeHealReqs (requests s) !! id = None) →
  (size (trienodeHealIdlers (registry s)) ≤ length ids)%nat →
  (size (bytecodeHealIdlers (registry s)) ≤ length ids)%nat →
  (∃ s' outs,
     assignTrienodeHealTasks Pending Missing rangePeers rangeKeys (ids ++ more) s
     = Ok (s', outs) ∧
     (length outs ≤ size (trienodeHealIdlers (registry s)))%nat) ∧
  (∃ s' outs,
     assignBytecodeHealTasks Pending Missing rangePeers rangeKeys (ids ++ more) s
     = Ok (s', outs) ∧
     (length outs ≤ size (bytecodeHealIdlers (registry s)))%nat).
Proof.
  intros Hrange Hpaths Hh Hht Hnd Hfresh Htrie Hcode. split.
  - unfold assignTrienodeHealTasks.
    destruct (bool_decide _); [exists s, []; split; [done|simpl; lia]|].
    eapply assignTrienodeHealLoop_returns; try done; [|lia].
    intros id Hin. destruct (Hfresh id Hin) as (? & ? & ?). by split.
  - unfold assignBytecodeHealTasks.
    destruct (bool_decide _); [exists s, []; split; [done|simpl; lia]|].
    eapply assignBytecodeHealLoop_returns; try done; [|lia].
    intros id Hin. destruct (Hfresh id Hin) as (? & ? & ?). by split.
Qed.

(** A heal cycle with one peer and a scheduler that always has one node
    and one code missing. *)
Definition healJoined : Syncer unit := (Register "a" healCycle).1.1.
Definition exampleMissing (sched : unit) (n : Z)
    : list Hash * list SyncPath * list Hash * unit :=
  ([7], [[[Byte.x01]]], [9], sched).

Lemma heal_assigners_return_witness :
  (∃ s' outs,
     assignTrienodeHealTasks (λ _ : unit, 1) exampleMissing elements elements [5] healJoined
     = Ok (s', outs) ∧ (length outs ≤ 1)%nat) ∧
  (∃ s' outs,
     assignBytecodeHealTasks (λ _ : unit, 1) exampleMissing elements elements [5] healJoined
     = Ok (s', outs) ∧ (length outs ≤ 1)%nat).
Proof.
  assert (Hrange : ∀ (peers : gset string) id, id ∈ elements peers → id ∈ peers)
    by (intros peers id; apply elem_of_elements).
  assert (Hfresh : ∀ id, id ∈ [5] →
            id ≠ 0 ∧ trienodeHealReqs (requests healJoined) !! id = None
                   ∧ bytecodeHealReqs (requests healJoined) !! id = None).
  { intros id Hin. apply list_elem_of_singleton in Hin as ->. by split_and!. }
  apply (heal_assigners_return (λ _ : unit, 1) exampleMissing elements elements [5] []
           healJoined 1%positive (mkHealTask tt ∅ ∅) Hrange).
  - intros sched n. simpl. lia.
  - reflexivity.
  - reflexivity.
  - apply NoDup_singleton.
  - exact Hfresh.
  - vm_compute. lia.
  - vm_compute. lia.
Defined.

(** ** What the accounts of a response need *)

(** An account waits for its code when it has one that the store does not
    hold, and for its storage when it has some and the store does not hold
    the root node of its storage trie. *)
Definition wantsCode (d : DB) (a : Account) : bool :=
  negb (CodeHash a =? emptyCode) && bool_decide (store d !! CodeKey (CodeHash a) = None).
Definition wantsState (d : DB) (a : Account) : bool :=
  negb (Root a =? emptyRoot) && bool_decide (store d !! TrieNodeKey (Root a) = None).

Lemma setFlags_replicate (k : nat) : setFlags (replicate k false) = 0.
Proof. induction k as [|k IH]; simpl; [done|]. by rewrite IH. Qed.

Lemma flags_step (pre : list bool) (k : nat) (b : bool) :
  (if b then <[length pre := true]> (pre ++ replicate (S k) false)
   else pre ++ replicate (S k) false)
  = (pre ++ [b]) ++ replicate k false.
Proof.
  rewrite <- app_assoc. destruct b; simpl; [|done].
  rewrite insert_app_r_alt by lia. by rewrite Nat.sub_diag.
Qed.

Lemma setFlags_step (pre : list bool) (k : nat) (b : bool) :
  setFlags ((pre ++ [b]) ++ replicate k false)
  = setFlags (pre ++ replicate (S k) false) + (if b then 1 else 0).
Proof. rewrite !setFlags_app. simpl. rewrite setFlags_replicate. destruct b; lia. Qed.

Lemma updateRoots_roots (newRoot : Hash) (subtasks : list ptr) :
  ∀ sts sts' : gmap ptr storageTask,
  updateRoots newRoot subtasks sts = Ok sts' →
  ∀ p, set_st_root 0 <$> sts' !! p = set_st_root 0 <$> sts !! p.
Proof.
  induction subtasks as [|q rest IH]; intros sts sts'; simpl.
  - by intros [= <-].
  - unfold deref. destruct (sts !! q) as [st|] eqn:Hq; cbn [rbind]; [|done].
    intros Hrun p. rewrite (IH _ _ Hrun p).
    destruct (decide (p = q)) as [->|Hne].
    + by rewrite lookup_insert_eq, Hq.
    + by rewrite lookup_insert_ne.
Qed.

(** One turn of the second loop of processAccountResponse, as equations
    on what it writes. *)
Lemma fillAccount_eq (d : DB) (hashes : list Hash) (i : nat) (a : Account)
    (t t' : accountTask) (sts sts' : gmap ptr storageTask) (resumed resumed' : gset Hash)
    (h : Hash) :
  fillAccount d hashes i a (t, sts, resumed) = Ok (t', sts', resumed') →
  hashes !! i = Some h →
  let c := wantsCode d a in
  let w := wantsState d a in
  let big := bool_decide (is_Some (SubTasks t !! h)) in
  needCode t' = (if c then <[i := true]> (needCode t) else needCode t) ∧
  needState t' = (if w then <[i := true]> (needState t) else needState t) ∧
  needHeal t' = (if w && big then <[i := true]> (needHeal t) else needHeal t) ∧
  pend t' = pend t + (if c then 1 else 0) + (if w then 1 else 0) ∧
  codeTasks t' = (if c then {[CodeHash a]} ∪ codeTasks t else codeTasks t) ∧
  stateTasks t' = (if w && negb big then <[h := Root a]> (stateTasks t) else stateTasks t) ∧
  resumed' = (if w && big then {[h]} ∪ resumed else resumed) ∧
  SubTasks t' = SubTasks t ∧
  (∀ p, set_st_root 0 <$> sts' !! p = set_st_root 0 <$> sts !! p).
Proof.
  intros Hrun Hh c w big. unfold fillAccount in Hrun.
  set (t1 := if negb (CodeHash a =? emptyCode) then _ else t) in Hrun.
  assert (Ht1 : needCode t1 = (if c then <[i := true]> (needCode t) else needCode t) ∧
                pend t1 = pend t + (if c then 1 else 0) ∧
                codeTasks t1 = (if c then {[CodeHash a]} ∪ codeTasks t else codeTasks t) ∧
                needState t1 = needState t ∧ needHeal t1 = needHeal t ∧
                stateTasks t1 = stateTasks t ∧ SubTasks t1 = SubTasks t).
  { clear Hrun. subst t1 c. unfold wantsCode.
    destruct (negb (CodeHash a =? emptyCode)); simpl; [|split_and!; [done|lia|done..]].
    destruct (store d !! CodeKey (CodeHash a)) eqn:Hc.
    - rewrite bool_decide_eq_false_2 by done. split_and!; [done|lia|done..].
    - rewrite bool_decide_eq_true_2 by done. by split_and!. }
  destruct Ht1 as (Hnc & Hp & Hct & Hns & Hnh & Hst & Hsub).
  clearbody t1. subst w big. unfold wantsState. rewrite <- Hsub.
  destruct (negb (Root a =? emptyRoot)); simpl in *.
  - destruct (store d !! TrieNodeKey (Root a)) eqn:Hn.
    + rewrite bool_decide_eq_false_2 by done. injection Hrun as <- <- <-.
      split_and!; [done|done|done|lia|done..].
    + rewrite bool_decide_eq_true_2 by done. simpl.
      rewrite (index_lookup _ _ _ Hh) in Hrun. cbn [rbind] in Hrun.
      destruct (SubTasks t1 !! h) as [subtasks|] eqn:Hbig.
      * rewrite bool_decide_eq_true_2 by done.
        destruct (updateRoots _ _ _) as [sts1| |] eqn:Hroots; cbn [rbind] in Hrun; [|done..].
        injection Hrun as <- <- <-. simpl.
        split_and!; [done|by rewrite Hns|by rewrite Hnh|lia|done|done|done|done|].
        by eapply updateRoots_roots.
      * rewrite bool_decide_eq_false_2 by (by intros [? ?]).
        cbn [rbind] in Hrun. injection Hrun as <- <- <-. simpl.
        split_and!; [done|by rewrite Hns|done|lia|done|by rewrite Hst|done|done|done].
  - injection Hrun as <- <- <-. split_and!; [done|done|done|lia|done..].
Qed.

(** A contract at [h] among the first [i] accounts waits for its storage. *)
Definition waiting (d : DB) (hashes : list Hash) (accounts : list Account) (i : nat)
    (h : Hash) : Prop :=
  ∃ j a, (j < i)%nat ∧ hashes !! j = Some h ∧ accounts !! j = Some a ∧ wantsState d a = true.

(** The state of the second loop of processAccountResponse before its
    turn [i]: the flags, queues and count of the first [i] accounts are
    set, the rest is as it was made.  [M] is the SubTasks map the task
    came with. *)
Record fillsTo (d : DB) (M : gmap Hash (list ptr)) (hashes : list Hash)
    (accounts : list Account) (i : nat) (t : accountTask) (resumed : gset Hash) : Prop :=
  mkFillsTo {
  fl_SubTasks : SubTasks t = M;
  fl_needCode : needCode t = (wantsCode d <$> take i accounts)
                             ++ replicate (length accounts - i) false;
  fl_needState : needState t = (wantsState d <$> take i accounts)
                               ++ replicate (length accounts - i) false;
  fl_needHeal : needHeal t
                = ((λ ha : Hash * Account,
                      wantsState d ha.2 && bool_decide (is_Some (M !! ha.1)))
                     <$> take i (zip hashes accounts))
                  ++ replicate (length accounts - i) false;
  fl_pend : pend t = setFlags (needCode t) + setFlags (needState t);
  fl_codeTasks : ∀ c, c ∈ codeTasks t ↔
                      ∃ a, a ∈ take i accounts ∧ wantsCode d a = true ∧ CodeHash a = c;
  fl_stateTasks : ∀ h, is_Some (stateTasks t !! h) ↔
                       M !! h = None ∧ waiting d hashes accounts i h;
  fl_roots : ∀ h root, stateTasks t !! h = Some root →
               ∃ j a, (j < i)%nat ∧ hashes !! j = Some h ∧ accounts !! j = Some a ∧
                      wantsState d a = true ∧ Root a = root;
  fl_resumed : ∀ h, h ∈ resumed ↔ is_Some (M !! h) ∧ waiting d hashes accounts i h
}.

Lemma flags_next (pre : list bool) (n i : nat) (b : bool) :
  length pre = i → (i < n)%nat →
  (if b then <[i := true]> (pre ++ replicate (n - i) false)
   else pre ++ replicate (n - i) false)
  = (pre ++ [b]) ++ replicate (n - S i) false.
Proof.
  intros <- Hlt. replace (n - length pre)%nat with (S (n - S (length pre))) by lia.
  apply flags_step.
Qed.

Lemma setFlags_next (pre : list bool) (n i : nat) (b : bool) :
  (i < n)%nat →
  setFlags ((pre ++ [b]) ++ replicate (n - S i) false)
  = setFlags (pre ++ replicate (n - i) false) + (if b then 1 else 0).
Proof.
  intros Hlt. replace (n - i)%nat with (S (n - S i)) by lia. apply setFlags_step.
Qed.

Lemma waiting_S (d : DB) (hashes : list Hash) (accounts : list Account) (i : nat)
    (h0 : Hash) (a : Account) (h : Hash) :
  hashes !! i = Some h0 → accounts !! i = Some a →
  waiting d hashes accounts (S i) h ↔
  waiting d hashes accounts i h ∨ (h = h0 ∧ wantsState d a = true).
Proof.
  intros Hh Ha. split.
  - intros (j & a' & Hj & Hhj & Haj & Hw).
    destruct (decide (j = i)) as [->|Hne].
    + right. split; congruence.
    + left. exists j, a'. split_and!; [lia|done..].
  - intros [(j & a' & Hj & Hhj & Haj & Hw)|[-> Hw]].
    + exists j, a'. split_and!; [lia|done..].
    + exists i, a. split_and!; [lia|done..].
Qed.

Lemma fillAccount_fillsTo (d : DB) (M : gmap Hash (list ptr)) (hashes : list Hash)
    (accounts : list Account) (i : nat) (a : Account) (h : Hash)
    (t t' : accountTask) (sts sts' : gmap ptr storageTask) (resumed resumed' : gset Hash) :
  fillAccount d hashes i a (t, sts, resumed) = Ok (t', sts', resumed') →
  hashes !! i = Some h → accounts !! i = Some a →
  fillsTo d M hashes accounts i t resumed →
  fillsTo d M hashes accounts (S i) t' resumed' ∧
  ∀ p, set_st_root 0 <$> sts' !! p = set_st_root 0 <$> sts !! p.
Proof.
  intros Hrun Hh Ha [Hsub Hnc Hns Hnh Hp Hct Hst Hrt Hrs].
  destruct (fillAccount_eq _ _ _ _ _ _ _ _ _ _ _ Hrun Hh)
    as (Enc & Ens & Enh & Ep & Ect & Est & Ers & Esub & Eroots).
  split; [|done]. rewrite Hsub in Enh, Est, Ers.
  pose proof (lookup_lt_Some _ _ _ Ha) as Hlt.
  assert (Hlen : ∀ (B : Type) (f : Account → B), length (f <$> take i accounts) = i).
  { intros B f. rewrite length_fmap, length_take. lia. }
  assert (Hz : zip hashes accounts !! i = Some (h, a)).
  { apply lookup_zip_with_Some. by exists h, a. }
  assert (Hlz : length ((λ ha : Hash * Account,
                           wantsState d ha.2 && bool_decide (is_Some (M !! ha.1)))
                          <$> take i (zip hashes accounts)) = i).
  { rewrite length_fmap, length_take. pose proof (lookup_lt_Some _ _ _ Hz). lia. }
  assert (Hnc' : needCode t' = (wantsCode d <$> take (S i) accounts)
                               ++ replicate (length accounts - S i) false).
  { rewrite Enc, Hnc, (take_S_r _ _ _ Ha), fmap_app. simpl. by apply flags_next. }
  assert (Hns' : needState t' = (wantsState d <$> take (S i) accounts)
                                ++ replicate (length accounts - S i) false).
  { rewrite Ens, Hns, (take_S_r _ _ _ Ha), fmap_app. simpl. by apply flags_next. }
  split.
  - by rewrite Esub.
  - exact Hnc'.
  - exact Hns'.
  - rewrite Enh, Hnh, (take_S_r _ _ _ Hz), fmap_app. simpl. by apply flags_next.
  - rewrite Ep, Hp, Hnc', Hns', Hnc, Hns, !(take_S_r _ _ _ Ha), !fmap_app. simpl.
    rewrite !setFlags_next by done. lia.
  - intros c. rewrite Ect, (take_S_r _ _ _ Ha).
    destruct (wantsCode d a) eqn:Hc.
    + rewrite elem_of_union, elem_of_singleton, Hct. split.
      * intros [->|(a' & Hin & Hw & Heq)].
        -- exists a. split_and!; [|done..]. apply elem_of_app. right. by left.
        -- exists a'. split_and!; [|done..]. apply elem_of_app. by left.
      * intros (a' & Hin & Hw & Heq). apply elem_of_app in Hin as [Hin|Hin].
        -- right. by exists a'.
        -- apply list_elem_of_singleton in Hin as ->. by left.
    + rewrite Hct. split.
      * intros (a' & Hin & Hw & Heq). exists a'. split_and!; [|done..].
        apply elem_of_app. by left.
      * intros (a' & Hin & Hw & Heq). apply elem_of_app in Hin as [Hin|Hin].
        -- by exists a'.
        -- apply list_elem_of_singleton in Hin as ->. congruence.
  - intros h'. rewrite (waiting_S d hashes accounts i h a h' Hh Ha), Est.
    destruct (wantsState d a) eqn:Hw; simpl.
    + destruct (M !! h) as [l|] eqn:Hbig.
      * rewrite bool_decide_eq_true_2 by done. simpl. rewrite Hst.
        split; [intros [? ?]; split; [done|by left]|].
        intros [Hn [?|[-> _]]]; [done|congruence].
      * rewrite bool_decide_eq_false_2 by (by intros [? ?]). simpl.
        destruct (decide (h' = h)) as [->|Hne].
        -- rewrite lookup_insert_eq. split; [intros _; split; [done|by right]|by eexists].
        -- rewrite lookup_insert_ne by done. rewrite Hst.
           split; [intros [? ?]; split; [done|by left]|].
           intros [Hn [?|[-> _]]]; [done|congruence].
    + rewrite Hst. split; [intros [? ?]; split; [done|by left]|].
      intros [Hn [?|[_ ?]]]; [done|congruence].
  - intros h' root. rewrite Est.
    assert (Hold : stateTasks t !! h' = Some root →
              ∃ j a0, (j < S i)%nat ∧ hashes !! j = Some h' ∧ accounts !! j = Some a0 ∧
                      wantsState d a0 = true ∧ Root a0 = root).
    { intros Hl. destruct (Hrt _ _ Hl) as (j & a0 & ? & ? & ? & ? & ?).
      exists j, a0. split_and!; [lia|done..]. }
    destruct (wantsState d a && negb (bool_decide (is_Some (M !! h)))) eqn:Hnew; [|done].
    apply andb_true_iff in Hnew as [Hw _].
    destruct (decide (h' = h)) as [->|Hne].
    + rewrite lookup_insert_eq. intros [= <-]. exists i, a. split_and!; [lia|done..].
    + by rewrite lookup_insert_ne.
  - intros h'. rewrite (waiting_S d hashes accounts i h a h' Hh Ha), Ers.
    destruct (wantsState d a) eqn:Hw; simpl.
    + destruct (M !! h) as [l|] eqn:Hbig.
      * rewrite bool_decide_eq_true_2 by done.
        rewrite elem_of_union, elem_of_singleton, Hrs. split.
        -- intros [->|[? ?]]; [split; [by eexists|by right]|split; [done|by left]].
        -- intros [Hs [?|[-> _]]]; [by right|by left].
      * rewrite bool_decide_eq_false_2 by (by intros [? ?]). rewrite Hrs.
        split; [intros [? ?]; split; [done|by left]|].
        intros [Hs [?|[-> _]]]; [done|]. rewrite Hbig in Hs. by destruct Hs.
    + rewrite Hrs. split; [intros [? ?]; split; [done|by left]|].
      intros [Hs [?|[_ ?]]]; [done|congruence].
Qed.

Lemma fillAccounts_fillsTo (d : DB) (M : gmap Hash (list ptr)) (hashes : list Hash)
    (accounts : list Account) (rest : list Account) :
  ∀ (i : nat) (t t' : accountTask) (sts sts' : gmap ptr storageTask)
    (resumed resumed' : gset Hash),
  length hashes = length accounts → drop i accounts = rest →
  fillAccounts d hashes i rest (t, sts, resumed) = Ok (t', sts', resumed') →
  fillsTo d M hashes accounts i t resumed →
  fillsTo d M hashes accounts (length accounts) t' resumed' ∧
  ∀ p, set_st_root 0 <$> sts' !! p = set_st_root 0 <$> sts !! p.
Proof.
  induction rest as [|a rest IH]; intros i t t' sts sts' resumed resumed' Hlen Hdrop Hrun Hinv.
  - injection Hrun as <- <- <-. split; [|done].
    assert (length accounts ≤ i)%nat as Hge.
    { destruct (decide (length accounts ≤ i)%nat) as [|Hn]; [done|exfalso].
      destruct (lookup_lt_is_Some_2 accounts i) as [x Hx]; [lia|].
      by rewrite (drop_S _ _ _ Hx) in Hdrop. }
    destruct Hinv as [Hsub Hnc Hns Hnh Hp Hct Hst Hrt Hrs].
    assert (Hz : length (zip hashes accounts) = length accounts).
    { rewrite length_zip_with. lia. }
    assert (Hw : ∀ h, waiting d hashes accounts i h ↔
                      waiting d hashes accounts (length accounts) h).
    { intros h. split; intros (j & a & Hj & Hhj & Haj & Hwj); exists j, a;
        (split_and!; [|done..]); [by eapply lookup_lt_Some|lia]. }
    assert (E0 : (length accounts - i = 0)%nat) by lia.
    assert (E1 : (length accounts - length accounts = 0)%nat) by lia.
    rewrite E0 in Hnc, Hns, Hnh.
    split; try done.
    + by rewrite Hnc, E1, !take_ge by lia.
    + by rewrite Hns, E1, !take_ge by lia.
    + by rewrite Hnh, E1, !take_ge by lia.
    + intros c. rewrite Hct. by rewrite !take_ge by lia.
    + intros h. by rewrite Hst, Hw.
    + intros h root Hl. destruct (Hrt _ _ Hl) as (j & a & ? & ? & Haj & ? & ?).
      exists j, a. split_and!; [by eapply lookup_lt_Some|done..].
    + intros h. by rewrite Hrs, Hw.
  - apply drop_cons_lookup in Hdrop as (Ha & Hdrop & Hlt).
    destruct (lookup_lt_is_Some_2 hashes i) as [h Hh]; [lia|].
    cbn [fillAccounts] in Hrun.
    destruct (fillAccount d hashes i a (t, sts, resumed)) as [[[t1 sts1] resumed1]| |] eqn:Hone;
      cbn [rbind] in Hrun; [|done..].
    destruct (fillAccount_fillsTo _ M _ accounts _ _ _ _ _ _ _ _ _ Hone Hh Ha Hinv)
      as [Hinv1 Hroots1].
    destruct (IH _ _ _ _ _ _ _ Hlen Hdrop Hrun Hinv1) as [Hfin Hroots].
    split; [done|]. intros p. by rewrite Hroots, Hroots1.
Qed.

(** X18.  What processAccountResponse makes of the accounts it keeps (the
    response cut at task.Last): needCode is set exactly for the accounts
    with a code the store does not hold, needState exactly for those with
    a storage root the store does not hold, needHeal exactly for those of
    the latter whose hash had a SubTasks entry; the pending count is the
    number of needCode and needState flags set; the code queue holds the
    code hashes waited for; the state queue has an entry, with the root of
    such an account, exactly for the hashes that wait for storage and had
    no SubTasks entry; the SubTasks entries of hashes that wait for
    storage are kept and all others deleted; and of the storage tasks
    only roots change.  The task is then stored with the response and
    without a request, and forwarded if nothing is pending. *)
Theorem processAccountResponse_fills {Sched : Type}
    (SlimAccountRLP : Z → Z → Hash → Hash → bytes)
    (r : accountResponse) (s : Syncer Sched) (t : accountTask) :
  loadTask (ares_task r) s = Ok t → provable r →
  subtasksAllocated t (storageTasks (heap s)) →
  ∃ r' tf sts',
    trimOverflow (Last t) 0 (ares_hashes r) r = Ok r' ∧
    processAccountResponse SlimAccountRLP r s =
      (let s1 := storeTask (ares_task r) tf (set_heap (set_storageTasks sts' (heap s)) s) in
       if pend tf =? 0 then forwardAccountTask SlimAccountRLP (ares_task r) s1 else Ok s1) ∧
    res tf = Some r' ∧ req tf = None ∧
    Next tf = Next t ∧ Last tf = Last t ∧ done tf = done t ∧
    needCode tf = wantsCode (db s) <$> ares_accounts r' ∧
    needState tf = wantsState (db s) <$> ares_accounts r' ∧
    needHeal tf = (λ ha : Hash * Account,
                     wantsState (db s) ha.2 && bool_decide (is_Some (SubTasks t !! ha.1)))
                  <$> zip (ares_hashes r') (ares_accounts r') ∧
    pend tf = setFlags (needCode tf) + setFlags (needState tf) ∧
    (∀ c, c ∈ codeTasks tf ↔
          ∃ a, a ∈ ares_accounts r' ∧ wantsCode (db s) a = true ∧ CodeHash a = c) ∧
    (∀ h, is_Some (stateTasks tf !! h) ↔
          SubTasks t !! h = None ∧
          waiting (db s) (ares_hashes r') (ares_accounts r') (length (ares_accounts r')) h) ∧
    (∀ h root, stateTasks tf !! h = Some root →
       ∃ j a, ares_hashes r' !! j = Some h ∧ ares_accounts r' !! j = Some a ∧
              wantsState (db s) a = true ∧ Root a = root) ∧
    (∀ h l, SubTasks tf !! h = Some l ↔
            SubTasks t !! h = Some l ∧
            waiting (db s) (ares_hashes r') (ares_accounts r') (length (ares_accounts r')) h) ∧
    (∀ p, set_st_root 0 <$> sts' !! p = set_st_root 0 <$> storageTasks (heap s) !! p).
Proof.
  intros Ht Hp Hall. unfold processAccountResponse. rewrite Ht. cbn [rbind].
  destruct (trimOverflow_Ok (Last t) (ares_hashes r) 0 r Hp eq_refl) as [r' Hr'].
  destruct (trimOverflow_spec (Last t) (ares_hashes r) 0 r r' (proj1 Hp) eq_refl Hr')
    as (n & _ & Htr & _).
  change (Last (set_req None t)) with (Last t). rewrite Hr'. cbn [rbind].
  assert (length (ares_hashes r') = length (ares_accounts r')) as Hlen.
  { rewrite (trimmed_hashes _ _ _ Htr), (trimmed_accounts _ _ _ Htr), !length_take.
    destruct Hp as [-> _]. done. }
  set (t0 := set_pend 0 _).
  destruct (fillAccounts_spec (db s) (ares_hashes r') (ares_accounts r') 0 t0
              (storageTasks (heap s)) ∅) as (t' & sts' & resumed' & Hfill & Hf & Hd).
  { lia. } { exact Hall. }
  assert (Hinit : fillsTo (db s) (SubTasks t) (ares_hashes r') (ares_accounts r') 0 t0 ∅).
  { subst t0. split; simpl; rewrite ?Nat.sub_0_r, ?take_0; try done.
    - by rewrite !setFlags_replicate.
    - intros c. split; [set_solver|]. intros (a & Hin & _). by apply elem_of_nil in Hin.
    - intros h. split; [by intros [? ?]|]. intros [_ (j & a & Hj & _)]. lia.
    - intros h. split; [set_solver|]. intros [_ (j & a & Hj & _)]. lia. }
  destruct (fillAccounts_fillsTo (db s) (SubTasks t) (ares_hashes r') (ares_accounts r')
              (ares_accounts r') 0 t0 t' _ sts' ∅ resumed' Hlen eq_refl Hfill Hinit)
    as [[Hsub Hnc Hns Hnh Hpd Hct Hst Hrt Hrs] Hroots].
  rewrite Hfill. cbn [rbind].
  exists r', (set_SubTasks (filter (λ kv, kv.1 ∈ resumed') (SubTasks t')) t'), sts'.
  destruct Hf. subst t0. simpl in *.
  rewrite Nat.sub_diag in Hnc, Hns, Hnh. simpl in Hnc, Hns, Hnh.
  rewrite app_nil_r, firstn_all in Hnc, Hns.
  rewrite app_nil_r, take_ge in Hnh by (rewrite length_zip_with; lia).
  split_and!; try done.
  - intros c. rewrite Hct. by rewrite firstn_all.
  - intros h root Hl. destruct (Hrt _ _ Hl) as (j & a & _ & ? & ? & ? & ?). by exists j, a.
  - intros h l. rewrite map_lookup_filter_Some. simpl. rewrite Hrs, Hsub. split.
    + intros [Hl [_ Hw]]. by split.
    + intros [Hl Hw]. split_and!; [done|by eexists|done].
Qed.

(** The first delivery of a fresh cycle holds a contract: its code and
    its storage are yet to come. *)
Definition contractDelivery : accountResponse :=
  mkAccountResponse 1%positive [10] [mkAccount 0 0 9 77] ∅ exampleTrie ∅ ∅ true.

Lemma processAccountResponse_fills_witness :
  ∃ s' t',
    processAccountResponse exampleSlim contractDelivery freshCycle = Ok s' ∧
    loadTask 1%positive s' = Ok t' ∧
    needCode t' = [true] ∧ needState t' = [true] ∧ needHeal t' = [false] ∧ pend t' = 2 ∧
    77 ∈ codeTasks t' ∧ stateTasks t' !! 10 = Some 9.
Proof.
  assert (Hp : provable contractDelivery) by (split; [done|]; intros h _; by eexists).
  assert (Hall : subtasksAllocated (freshTask (0, hashSpace / 16 - 1))
                   (storageTasks (heap freshCycle))) by (intros account ps p Hl; done).
  destruct (processAccountResponse_fills exampleSlim contractDelivery freshCycle
              (freshTask (0, hashSpace / 16 - 1)) eq_refl Hp Hall)
    as (r' & tf & sts' & _ & Hrun & _).
  clear Hrun.
  eexists _, _. split; [vm_compute; reflexivity|]. split; [vm_compute; reflexivity|].
  split_and!; first [vm_compute; reflexivity|set_solver].
Defined.
